(** * RTcmix core: tempo map, Minc operators and builtins, bus routing graph

    A shallow embedding of the parts of RTcmix that the specification's
    testable properties talk about, with the properties stated and proved
    (or refuted on a concrete input) against the embedded code.

    - [Tempo]  : tempo.c  (tbase, tempo, time_beat, beat_time)
    - [Minc]   : Node.cpp (do_op_num, argument lists, calls and return),
                 builtin.cpp (substring)
    - [Bus]    : bus_config.cpp (bus-name parsing, cycle check, play order)

    Numbers.  C [float] and [double] values are IEEE-754 binary32 and
    binary64 numbers; they are represented bit-exactly by [spec_float]
    with the operations of [SpecFloat] at precision 24/128 and 53/1024. *)

From Stdlib Require Import ZArith List Bool Lia.
From Stdlib Require Ascii String.
From Stdlib Require Import SpecFloat.
From Stdlib Require Reals Lra.
From Stdlib Require DecimalString.
Import ListNotations.
Local Open Scope Z_scope.

(** ** IEEE-754 arithmetic as C uses it *)

Module Ieee.

Definition float := spec_float.   (* C float : binary32 *)
Definition double := spec_float.  (* C double: binary64 *)

Definition fprec := 24.
Definition femax := 128.
Definition dprec := 53.
Definition demax := 1024.

(** Rounding of an arbitrary finite value into a format; the result is the
    canonical representation in that format. *)
Definition round_to (prec emax : Z) (x : spec_float) : spec_float :=
  match x with
  | S754_finite s m e => binary_round prec emax s m e
  | _ => x
  end.

Definition to_float : double -> float := round_to fprec femax.   (* (float)x  *)
Definition to_double : float -> double := round_to dprec demax.  (* (double)x *)

Definition fadd : float -> float -> float := SFadd fprec femax.
Definition fsub : float -> float -> float := SFsub fprec femax.
Definition fmul : float -> float -> float := SFmul fprec femax.
Definition fdiv : float -> float -> float := SFdiv fprec femax.

Definition dadd : double -> double -> double := SFadd dprec demax.
Definition dsub : double -> double -> double := SFsub dprec demax.
Definition dmul : double -> double -> double := SFmul dprec demax.
Definition ddiv : double -> double -> double := SFdiv dprec demax.
Definition dsqrt : double -> double := SFsqrt dprec demax.

(** [pow(x, 2.)]: the correctly rounded square. *)
Definition dpow2 (x : double) : double := dmul x x.

Definition feq : float -> float -> bool := SFeqb.   (* == *)
Definition flt : float -> float -> bool := SFltb.   (* <  *)
Definition fle : float -> float -> bool := SFleb.   (* <= *)
Definition fgt (x y : float) : bool := SFltb y x.   (* >  *)
Definition fne (x y : float) : bool := negb (SFeqb x y).  (* != *)

Definition zero : spec_float := S754_zero false.

(** Integer literals and decimal literals (a decimal literal [m * 10^-k] is
    the correctly rounded quotient of two exactly represented integers,
    which is what the compiler produces whenever both are below 2^53). *)
Definition dofZ (z : Z) : double := binary_normalize dprec demax z 0 false.
Definition fofZ (z : Z) : float := binary_normalize fprec femax z 0 false.
Definition ddec (m : Z) (k : nat) : double := ddiv (dofZ m) (dofZ (10 ^ Z.of_nat k)).

(** Truncation toward zero of a finite value: C's conversion of a floating
    value to an integer type, before the range check of that type. *)
Definition trunc (x : spec_float) : option Z :=
  match x with
  | S754_zero _ => Some 0
  | S754_finite s m e =>
      let a := match e with
               | Zneg p => Z.shiftr (Zpos m) (Zpos p)
               | _ => Z.shiftl (Zpos m) e
               end in
      Some (if s then - a else a)
  | _ => None
  end.

End Ieee.

(** ** The tempo map (tempo.c) *)

(** The code of tempo.c is embedded once, over the arithmetic it uses: the
    operations on [float] and on [double], the conversions between them and
    the comparisons.  [b32] is the arithmetic of the compiled program. *)

Record arith := mkArith {
  num : Type;
  zero : num;                       (* 0, 0.0, 0.0f *)
  two_f : num;                      (* 2.0f *)
  two_d : num;                      (* TWO, 2. *)
  far : num;                        (* (float).999999e+10 *)
  to_float : num -> num;            (* (float)x *)
  to_double : num -> num;           (* (double)x *)
  fadd : num -> num -> num;
  fsub : num -> num -> num;
  fmul : num -> num -> num;
  fdiv : num -> num -> num;
  dadd : num -> num -> num;
  dsub : num -> num -> num;
  dmul : num -> num -> num;
  ddiv : num -> num -> num;
  dsqrt : num -> num;
  eqb : num -> num -> bool;         (* == *)
  ltb : num -> num -> bool;         (* <  *)
  leb : num -> num -> bool          (* <= *)
}.

Definition b32 : arith :=
  mkArith spec_float Ieee.zero (Ieee.fofZ 2) (Ieee.dofZ 2)
          (Ieee.to_float (Ieee.dofZ 9999990000))
          Ieee.to_float Ieee.to_double
          Ieee.fadd Ieee.fsub Ieee.fmul Ieee.fdiv
          Ieee.dadd Ieee.dsub Ieee.dmul Ieee.ddiv Ieee.dsqrt
          SFeqb SFltb SFleb.

Module Tempo.

Definition TLEN : nat := 20.
Definition TLENP : nat := 21.

Section Code.
Variable A : arith.
Local Abbreviation F := (num A).

(** [pow(x, TWO)]: the correctly rounded square. *)
Definition pow2 (x : F) : F := dmul A x x.

(** The file's static variables. *)
Record state := mkState {
  xtime : list F;
  temp : list F;
  rxtime : list F;
  accel : list F;
  BASIS : F;
  tset : bool;
  npts : nat
}.

Definition rd (a : list F) (m : nat) : F := nth m a (zero A).

Fixpoint wr (a : list F) (m : nat) (v : F) : list F :=
  match a, m with
  | [], _ => []
  | _ :: t, O => v :: t
  | h :: t, S m' => h :: wr t m' v
  end.

Definition set_xtime st a := mkState a (temp st) (rxtime st) (accel st) (BASIS st) (tset st) (npts st).
Definition set_temp st a := mkState (xtime st) a (rxtime st) (accel st) (BASIS st) (tset st) (npts st).
Definition set_rxtime st a := mkState (xtime st) (temp st) a (accel st) (BASIS st) (tset st) (npts st).
Definition set_accel st a := mkState (xtime st) (temp st) (rxtime st) a (BASIS st) (tset st) (npts st).
Definition set_BASIS st b := mkState (xtime st) (temp st) (rxtime st) (accel st) b (tset st) (npts st).
Definition set_tset st b := mkState (xtime st) (temp st) (rxtime st) (accel st) (BASIS st) b (npts st).
Definition set_npts st n := mkState (xtime st) (temp st) (rxtime st) (accel st) (BASIS st) (tset st) n.

(** The statics as the loader leaves them; [basis] is the initialiser 60. *)
Definition init (basis : F) : state :=
  mkState (repeat (zero A) TLENP) (repeat (zero A) TLENP) (repeat (zero A) TLENP)
          (repeat (zero A) TLENP) basis false 0.

(** [tbase]: BASIS = p[0]. *)
Definition tbase (st : state) (p0 : F) : state :=
  set_BASIS st (to_float A p0).

(** How a call of [tempo] ends. *)
Inductive outcome :=
| Cleared (st : state)      (* no arguments: advise, tset = 0, return -1 *)
| Died (st : state)         (* return die("tempo", "tempo value cannot be zero ...") *)
| Done (st : state)         (* return 0.0 *)
| BadRead (st : state).     (* p[] is read past the n_args values supplied *)

(** for(m=0;m<TLEN;m++) xtime[m]=temp[m]=rxtime[m]=accel[m]=0; *)
Fixpoint zero_loop (n : nat) (st : state) : state :=
  match n with
  | O => st
  | S m =>
      let st := zero_loop m st in
      mkState (wr (xtime st) m (zero A)) (wr (temp st) m (zero A))
              (wr (rxtime st) m (zero A)) (wr (accel st) m (zero A))
              (BASIS st) (tset st) (npts st)
  end.

(** for(m=0,npts=1; m<TLEN; m += 2, npts++): [fuel] bounds the number of
    iterations; TLEN of them are more than the loop can make. *)
Fixpoint fill_loop (fuel : nat) (p : list F) (m : nat) (st : state) : outcome :=
  match fuel with
  | O => Done st
  | S fuel' =>
      if negb (m <? TLEN)%nat then Done st
      else if negb (m =? 0)%nat && (length p <=? m)%nat then Done st
      else
        match nth_error p m, nth_error p (m + 1) with
        | Some pm, Some pm1 =>
            let st := set_xtime st (wr (xtime st) (npts st) (to_float A pm)) in
            let st := set_temp st (wr (temp st) (npts st)
                        (to_float A (ddiv A pm1 (to_double A (BASIS st))))) in
            if eqb A (to_double A (rd (temp st) (npts st))) (zero A) then Died st
            else fill_loop fuel' p (m + 2) (set_npts st (S (npts st)))
        | _, _ => BadRead st
        end
  end.

(** One iteration of the second loop of [tempo]; [prvbt] is threaded. *)
Definition seg_step (m : nat) (sp : state * F) : state * F :=
  let (st, prvbt) := sp in
  let dur := fsub A (rd (xtime st) (m + 1)) (rd (xtime st) m) in
  let st :=
    if eqb A dur (zero A) then
      let st := set_accel st (wr (accel st) m (zero A)) in
      set_rxtime st (wr (rxtime st) (m + 1) (rd (rxtime st) m))
    else
      let st := set_accel st (wr (accel st) m
                  (fdiv A (to_float A (dsub A (pow2 (to_double A (rd (temp st) (m + 1))))
                                              (pow2 (to_double A (rd (temp st) m)))))
                          (fmul A (two_f A) dur))) in
      if eqb A (rd (accel st) m) (zero A) then
        set_rxtime st (wr (rxtime st) (m + 1)
                          (fadd A (fdiv A dur (rd (temp st) m)) prvbt))
      else
        set_rxtime st (wr (rxtime st) (m + 1)
          (fadd A (fdiv A (to_float A
                      (dsub A (dsqrt A (dadd A (pow2 (to_double A (rd (temp st) m)))
                                   (dmul A (dmul A (two_d A) (to_double A (rd (accel st) m)))
                                           (to_double A dur))))
                              (to_double A (rd (temp st) m))))
                          (rd (accel st) m))
                  prvbt))
  in (st, rd (rxtime st) (m + 1)).

(** for(m=0; m<npts; m++) { ... } *)
Fixpoint seg_loop (n : nat) (sp : state * F) : state * F :=
  match n with
  | O => sp
  | S m => seg_step m (seg_loop m sp)
  end.

(** The statements of [tempo] between its two loops. *)
Definition close_map (st : state) : state :=
  let st := set_tset st true in
  let st := set_xtime st (wr (xtime st) (npts st) (far A)) in
  let st := set_rxtime st (wr (rxtime st) (npts st) (rd (xtime st) (npts st))) in
  let st := set_temp st (wr (temp st) (npts st) (rd (temp st) (npts st - 1))) in
  let st := set_temp st (wr (temp st) 0 (rd (temp st) 1)) in
  let st := set_accel st (wr (accel st) 0 (zero A)) in
  let st := set_rxtime st (wr (rxtime st) 0 (rd (accel st) 0)) in
  set_xtime st (wr (xtime st) 0 (rd (rxtime st) 0)).

Definition tempo (st : state) (p : list F) : outcome :=
  if (length p =? 0)%nat then Cleared (set_tset st false)
  else
    match fill_loop TLEN p 0 (set_npts (zero_loop TLEN st) 1) with
    | Done st =>
        let st := close_map st in
        Done (fst (seg_loop (npts st) (st, rd (xtime st) 0)))
    | r => r
    end.

(** The search loops of [time_beat] and [beat_time]:
    for(m=0; m<=npts; m++) if (v > a[m] && v <= a[m+1]) break;
    the result is the value of m after the loop and whether the loop was
    left by [break].  The loop makes at most npts+1 iterations. *)
Fixpoint search (fuel : nat) (a : list F) (v : F) (m : nat) (npts : nat)
  : nat * bool :=
  match fuel with
  | O => (m, false)
  | S fuel' =>
      if (m <=? npts)%nat then
        if ltb A (rd a m) v && leb A v (rd a (m + 1)) then (m, true)
        else search fuel' a v (m + 1) npts
      else (m, false)
  end.

(** The part of [time_beat] after [if(!tset) return(timein);]. *)
Definition time_beat_mapped (st : state) (timein : F) : F :=
  let '(m, durp) :=
    if ltb A (zero A) timein then
      let '(m, found) := search (S (S (npts st))) (xtime st) timein 0 (npts st) in
      (m, if found then fsub A timein (rd (xtime st) m) else zero A)
    else (O, zero A) in
  if eqb A (rd (accel st) m) (zero A) then
    fadd A (fdiv A durp (rd (temp st) m)) (rd (rxtime st) m)
  else
    fadd A (fdiv A (fsub A (to_float A
                      (dsqrt A (dadd A (pow2 (to_double A (rd (temp st) m)))
                             (dmul A (dmul A (two_d A) (to_double A (rd (accel st) m)))
                                     (to_double A durp)))))
                           (rd (temp st) m))
                   (rd (accel st) m))
           (rd (rxtime st) m).

Definition time_beat (st : state) (timein : F) : F :=
  let timein := if ltb A timein (zero A) then zero A else timein in
  if negb (tset st) then timein
  else time_beat_mapped st timein.

(** The part of [beat_time] after [if(!tset) return(beatin);]. *)
Definition beat_time_mapped (st : state) (beatin : F) : F :=
  let m :=
    if negb (eqb A beatin (zero A)) then
      fst (search (S (S (npts st))) (rxtime st) beatin 0 (npts st))
    else O in
  if eqb A (rd (accel st) m) (zero A) then
    fadd A (fmul A (fsub A beatin (rd (rxtime st) m)) (rd (temp st) m)) (rd (xtime st) m)
  else
    to_float A
      (dadd A (ddiv A (to_double A
                  (fsub A (to_float A (pow2 (to_double A
                             (fadd A (fmul A (fsub A beatin (rd (rxtime st) m))
                                             (rd (accel st) m))
                                     (rd (temp st) m)))))
                          (to_float A (pow2 (to_double A (rd (temp st) m))))))
                      (dmul A (two_d A) (to_double A (rd (accel st) m))))
              (to_double A (rd (xtime st) m))).

Definition beat_time (st : state) (beatin : F) : F :=
  if negb (tset st) then beatin
  else beat_time_mapped st beatin.

End Code.

Arguments xtime {A} _.
Arguments temp {A} _.
Arguments rxtime {A} _.
Arguments accel {A} _.
Arguments BASIS {A} _.
Arguments tset {A} _.
Arguments npts {A} _.
Arguments Cleared {A} _.
Arguments Died {A} _.
Arguments Done {A} _.
Arguments BadRead {A} _.

(** The program's initial state: BASIS = 60. *)
Definition init32 : state b32 := init b32 (Ieee.fofZ 60).

End Tempo.

(** ** The Minc interpreter (Node.cpp) and its builtins (builtin.cpp) *)

Module Minc.
Import Ascii String.
Import Ieee.
Local Open Scope string_scope.
Local Open Scope list_scope.
Local Open Scope Z_scope.

Inductive MincDataType :=
| MincVoidType | MincFloatType | MincStringType | MincHandleType
| MincListType | MincMapType | MincStructType | MincFunctionType.

Definition MincDataType_eqb (a b : MincDataType) : bool :=
  match a, b with
  | MincVoidType, MincVoidType | MincFloatType, MincFloatType
  | MincStringType, MincStringType | MincHandleType, MincHandleType
  | MincListType, MincListType | MincMapType, MincMapType
  | MincStructType, MincStructType | MincFunctionType, MincFunctionType => true
  | _, _ => false
  end.

(** The operator kinds, in the order of [s_OpKinds]. *)
Inductive OpKind :=
| OpZero | OpFree | OpPlus | OpMinus | OpMul | OpDiv | OpMod | OpPow | OpNeg
| OpEqual | OpNotEqual | OpLess | OpGreater | OpLessEqual | OpGreaterEqual
| OpPlusPlus | OpMinusMinus.

(** The tree.  Children are written in the order child(0), child(1), ... *)
Inductive Node :=
| NodeNoop
| NodeEmptyListElem
| NodeConstf (number : double)
| NodeString (s : string)
| NodeLoadSym (symbolName : string)
| NodeAutoDeclLoadSym (symbolName : string)
| NodeLoadFuncSym (symbolName : string)
| NodeListElem (c0 c1 : Node)
| NodeStore (c0 c1 : Node) (allowTypeOverwrite : bool)
| NodeOperator (op : OpKind) (c0 c1 : Node)
| NodeUnaryOperator (op : OpKind) (c0 : Node)
| NodeNot (c0 : Node)
| NodeAnd (c0 c1 : Node)
| NodeOr (c0 c1 : Node)
| NodeRelation (op : OpKind) (c0 c1 : Node)
| NodeIf (c0 c1 : Node)
| NodeIfElse (c0 c1 c2 : Node)
| NodeWhile (c0 c1 : Node)
| NodeFor (c0 c1 c2 c4 : Node)
| NodeSeq (c0 c1 : Node)
| NodeBlock (c0 : Node)
| NodeDecl (symbolName : string) (type : MincDataType)
| NodeFuncDecl (symbolName : string)
| NodeFuncDef (c0 c1 c2 : Node) (isMethod : bool)
| NodeArgList (c0 : Node)
| NodeArgListElem (c0 c1 : Node)
| NodeRet (c0 : Node)
| NodeFuncBodySeq (c0 c1 : Node)
| NodeCall (c0 c1 : Node).

(** A MincFunction: argument list, body, method flag. *)
Record MincFunction := mkFunction {
  f_argumentList : Node;
  f_functionBody : Node;
  f_isMethod : bool
}.

(** Values.  A NULL string, handle, list, map, struct or function pointer
    is [None]; handles, lists, maps and structs carry no content here. *)
Inductive MincValue :=
| MVoid
| MFloat (d : double)
| MString (s : option string)
| MHandle
| MList
| MMap
| MStruct
| MFunction (f : option MincFunction).

Definition dataType (v : MincValue) : MincDataType :=
  match v with
  | MVoid => MincVoidType
  | MFloat _ => MincFloatType
  | MString _ => MincStringType
  | MHandle => MincHandleType
  | MList => MincListType
  | MMap => MincMapType
  | MStruct => MincStructType
  | MFunction _ => MincFunctionType
  end.

(** MincValue(type): the empty value of a type; also what [zero()] leaves. *)
Definition MincValue_of_type (t : MincDataType) : MincValue :=
  match t with
  | MincVoidType => MVoid
  | MincFloatType => MFloat zero
  | MincStringType => MString None
  | MincHandleType => MHandle
  | MincListType => MList
  | MincMapType => MMap
  | MincStructType => MStruct
  | MincFunctionType => MFunction None
  end.

Definition MincValue_zero (v : MincValue) : MincValue := MincValue_of_type (dataType v).

(** What reaches the host's diagnostic channel.  The text is the format
    string of the call. *)
Inductive diag :=
| Warn (msg : string)
| Die (msg : string)
| InternalError (msg : string).

Definition is_die (d : diag) : bool := match d with Die _ => true | _ => false end.
Definition is_warn (d : diag) : bool := match d with Warn _ => true | _ => false end.

(** MincWarningLevel, as a number: MincNoWarnings = 0,
    MincNoDefaultedArgWarnings = 1, MincAllWarnings = 2. *)
Definition MincNoDefaultedArgWarnings : Z := 1.
Definition MincAllWarnings : Z := 2.

(** Constants and functions of the host that Node.cpp uses but does not
    define. *)
Record host := mkHost {
  MAXSTACK : Z;                         (* minc_internal.h *)
  MAXDISPARGS : Z;                      (* rtdefs.h *)
  c_pow : double -> double -> double;   (* libm pow *)
  die_throws : bool                     (* minc_die throws instead of returning *)
}.

Definition symbols := list (string * MincValue).

(** A symbol is named by the index of its scope and its name. *)
Definition symref := (nat * string)%type.

(** The interpreter's static state, with the scope table of Scope.cpp. *)
Record mstate := mkMstate {
  globals : symbols;                 (* scope 0 *)
  locals : list symbols;             (* scopes 1, 2, ... of the running body, innermost first *)
  frames : list (list symbols);      (* scope stacks saved by push_function_stack *)
  sMincList : list MincValue;        (* the first sMincListLen entries *)
  list_stack : list (list MincValue);
  sArgListLen : Z;
  sArgListIndex : Z;
  inCalledFunctionArgList : bool;
  sCalledFunctions : list string;
  sFunctionCallDepth : Z;
  sMincWarningLevel : Z;
  log : list diag
}.

Definition initial_state : mstate :=
  mkMstate [] [] [] [] [] 0 0 false [] 0 MincAllWarnings [].

Inductive outcome (A : Type) :=
| Normal (a : A)               (* the function returns *)
| Returned (v : MincValue)     (* throw this, from NodeRet *)
| Thrown                       (* any other exception *)
| OutOfFuel
| Undefined.                   (* undefined behaviour, or a value the model does not cover *)
Arguments Normal {A} a.
Arguments Returned {A} v.
Arguments Thrown {A}.
Arguments OutOfFuel {A}.
Arguments Undefined {A}.

Definition M (A : Type) := mstate -> outcome A * mstate.

Definition ret {A} (a : A) : M A := fun st => (Normal a, st).

Definition bind {A B} (m : M A) (k : A -> M B) : M B :=
  fun st =>
    match m st with
    | (Normal a, st') => k a st'
    | (Returned v, st') => (Returned v, st')
    | (Thrown, st') => (Thrown, st')
    | (OutOfFuel, st') => (OutOfFuel, st')
    | (Undefined, st') => (Undefined, st')
    end.

Notation "x <- m ;; k" := (bind m (fun x => k))
  (at level 61, m at next level, right associativity).
Notation "m ;;; k" := (bind m (fun _ => k))
  (at level 61, right associativity).

Definition get : M mstate := fun st => (Normal st, st).
Definition modify (f : mstate -> mstate) : M unit := fun st => (Normal tt, f st).
Definition throw_ret {A} (v : MincValue) : M A := fun st => (Returned v, st).
Definition throw_other {A} : M A := fun st => (Thrown, st).
Definition undefined {A} : M A := fun st => (Undefined, st).
Definition out_of_fuel {A} : M A := fun st => (OutOfFuel, st).

Definition upd_log (f : list diag -> list diag) (st : mstate) : mstate :=
  mkMstate (globals st) (locals st) (frames st) (sMincList st) (list_stack st)
           (sArgListLen st) (sArgListIndex st) (inCalledFunctionArgList st)
           (sCalledFunctions st) (sFunctionCallDepth st) (sMincWarningLevel st)
           (f (log st)).

Definition upd_scopes (g : symbols) (l : list symbols) (fr : list (list symbols))
  (st : mstate) : mstate :=
  mkMstate g l fr (sMincList st) (list_stack st)
           (sArgListLen st) (sArgListIndex st) (inCalledFunctionArgList st)
           (sCalledFunctions st) (sFunctionCallDepth st) (sMincWarningLevel st)
           (log st).

Definition upd_lists (l : list MincValue) (stk : list (list MincValue))
  (st : mstate) : mstate :=
  mkMstate (globals st) (locals st) (frames st) l stk
           (sArgListLen st) (sArgListIndex st) (inCalledFunctionArgList st)
           (sCalledFunctions st) (sFunctionCallDepth st) (sMincWarningLevel st)
           (log st).

Definition upd_args (len idx : Z) (inl : bool) (st : mstate) : mstate :=
  mkMstate (globals st) (locals st) (frames st) (sMincList st) (list_stack st)
           len idx inl
           (sCalledFunctions st) (sFunctionCallDepth st) (sMincWarningLevel st)
           (log st).

Definition upd_calls (names : list string) (depth : Z) (st : mstate) : mstate :=
  mkMstate (globals st) (locals st) (frames st) (sMincList st) (list_stack st)
           (sArgListLen st) (sArgListIndex st) (inCalledFunctionArgList st)
           names depth (sMincWarningLevel st) (log st).

Section Interp.
Variable H : host.

Definition minc_warn (msg : string) : M unit :=
  modify (upd_log (fun l => l ++ [Warn msg])).

Definition minc_die (msg : string) : M unit :=
  modify (upd_log (fun l => l ++ [Die msg])) ;;;
  if die_throws H then throw_other else ret tt.

Definition minc_internal_error (msg : string) : M unit :=
  modify (upd_log (fun l => l ++ [InternalError msg])) ;;;
  if die_throws H then throw_other else ret tt.

(** *** Operators *)

Definition LONG_MIN : Z := - 2 ^ 63.
Definition LONG_MAX : Z := 2 ^ 63 - 1.
Definition INT_MIN : Z := - 2 ^ 31.
Definition INT_MAX : Z := 2 ^ 31 - 1.

(** (long) x and (int) x: truncation; out of range is undefined. *)
Definition to_long (x : double) : option Z :=
  match trunc x with
  | Some z => if (LONG_MIN <=? z) && (z <=? LONG_MAX) then Some z else None
  | None => None
  end.

Definition to_int (x : double) : option Z :=
  match trunc x with
  | Some z => if (INT_MIN <=? z) && (z <=? INT_MAX) then Some z else None
  | None => None
  end.

Definition one : double := dofZ 1.
Definition minus_one : double := dofZ (-1).

(** NodeOp::do_op_num; [v] is the value the node holds before the call
    and the result is the value it holds after it. *)
Definition do_op_num (v : MincValue) (val1 val2 : double) (op : OpKind) : M MincValue :=
  match op with
  | OpPlus => ret (MFloat (dadd val1 val2))
  | OpMinus => ret (MFloat (dsub val1 val2))
  | OpMul => ret (MFloat (dmul val1 val2))
  | OpDiv => ret (MFloat (ddiv val1 val2))
  | OpMod =>
      if SFltb val2 one && SFltb minus_one val2 then
        minc_die "Illegal value for RHS of a modulo operation" ;;;
        ret (MFloat zero)
      else
        match to_long val1, to_long val2 with
        | Some a, Some b =>
            if (b =? 0) || ((a =? LONG_MIN) && (b =? -1)) then undefined
            else ret (MFloat (dofZ (Z.rem a b)))
        | _, _ => undefined
        end
  | OpPow => ret (MFloat (c_pow H val1 val2))
  | OpNeg => ret (MFloat (SFopp val1))
  | _ => minc_internal_error "invalid numeric operator" ;;; ret v
  end.

(** NodeOp::do_op_string; strlen of a NULL string is undefined. *)
Definition do_op_string (v : MincValue) (str1 str2 : option string) (op : OpKind)
  : M MincValue :=
  match op with
  | OpPlus =>
      match str1, str2 with
      | Some s1, Some s2 => ret (MString (Some (String.append s1 s2)))
      | _, _ => undefined
      end
  | OpMinus | OpMul | OpDiv | OpMod | OpPow =>
      minc_warn "invalid operator for two strings" ;;; ret (MString None)
  | OpNeg => minc_warn "invalid operator on string" ;;; ret v
  | _ => minc_internal_error "invalid string operator" ;;; ret v
  end.

(** *** builtin.cpp: substring *)

Definition NUL : ascii := Ascii.zero.

(** A C string holds no NUL character. *)
Fixpoint no_nul (s : string) : Prop :=
  match s with
  | EmptyString => True
  | String c t => c <> NUL /\ no_nul t
  end.

(** &s[n], for n at most the length. *)
Fixpoint string_drop (n : nat) (s : string) : string :=
  match n, s with
  | O, _ => s
  | S n', String _ t => string_drop n' t
  | S _, EmptyString => EmptyString
  end.

(** strncpy(dst, src, n): the contents of dst afterwards, the first [n]
    characters of [src], NUL-padded to [n] characters. *)
Definition strncpy (src : string) (n : nat) : list ascii :=
  firstn n (list_ascii_of_string src ++ repeat NUL n).

(** buf[i] = c, for i inside the buffer. *)
Fixpoint poke (b : list ascii) (i : nat) (c : ascii) : list ascii :=
  match b, i with
  | [], _ => []
  | _ :: t, O => c :: t
  | h :: t, S i' => h :: poke t i' c
  end.

(** The C string that starts a buffer (what strdup copies); reading a
    buffer that holds no NUL runs past its end. *)
Fixpoint c_str (b : list ascii) : option string :=
  match b with
  | [] => None
  | c :: t =>
      if Ascii.eqb c NUL then Some EmptyString
      else match c_str t with
           | Some r => Some (String c r)
           | None => None
           end
  end.

Definition is_type (t : MincDataType) (v : MincValue) : bool :=
  MincDataType_eqb (dataType v) t.

(** _minc_substring(args, nargs), with nargs the length of [args]; the
    result is the MincString returned, [None] for NULL. *)
Definition _minc_substring (args : list MincValue) : M (option string) :=
  match args with
  | [a0; a1; a2] =>
      if negb (is_type MincStringType a0) then
        minc_warn "substring: first argument must be a string" ;;; ret None
      else if negb (is_type MincFloatType a1) || negb (is_type MincFloatType a2) then
        minc_warn "substring: second and third arguments must be floats" ;;; ret None
      else
        match a0, a1, a2 with
        | MString theString, MFloat f1, MFloat f2 =>
            match to_int f1, to_int f2, theString with
            | Some startIdx, Some endIdx, Some s =>
                let len := Z.of_nat (String.length s) in
                if (startIdx <? 0) || (endIdx <=? startIdx) then
                  minc_warn "substring: illegal indices" ;;; ret None
                else
                  endIdx <- (if endIdx >? len - 1 then
                               minc_warn "substring: end index out of range - using string endpoint" ;;;
                               ret (len - 1)
                             else ret endIdx) ;;
                  let newlen := len - startIdx + 1 in
                  (* new char[newlen] and &theString[startIdx] *)
                  if (newlen <? 0) || (len <? startIdx) then undefined
                  else
                    let sbuffer := strncpy (string_drop (Z.to_nat startIdx) s) (Z.to_nat newlen) in
                    (* sbuffer[endIdx - startIdx] = '\0' *)
                    if (endIdx - startIdx <? 0) || (newlen <=? endIdx - startIdx) then undefined
                    else
                      match c_str (poke sbuffer (Z.to_nat (endIdx - startIdx)) NUL) with
                      | Some r => ret (Some r)
                      | None => undefined
                      end
            | _, _, _ => undefined
            end
        | _, _, _ => undefined
        end
  | _ =>
      minc_warn "substring: must have three arguments (string, start_index, end_index)" ;;;
      ret None
  end.

(** *** The scope table *)

(** Modelled from the spec: Scope.cpp and Symbol.cpp are not among the
    sources.  "Scopes form a stack: a global scope at index 0 plus a scope
    pushed for each block and function body"; push_function_stack and
    pop_function_stack "bracket a call": the first puts the caller's scope
    stack aside and leaves the callee with the global scope alone, the
    second brings the caller's stack back. *)
Definition current_scope (st : mstate) : Z := Z.of_nat (List.length (locals st)).

Definition push_scope : M unit :=
  modify (fun st => upd_scopes (globals st) ([] :: locals st) (frames st) st).

Definition pop_scope : M unit :=
  modify (fun st => upd_scopes (globals st) (tl (locals st)) (frames st) st).

(** restore_scope(n): pop scopes while current_scope() > n. *)
Definition restore_scope (n : Z) : M unit :=
  modify (fun st =>
    upd_scopes (globals st)
               (skipn (List.length (locals st) - Z.to_nat n) (locals st))
               (frames st) st).

Definition push_function_stack : M unit :=
  modify (fun st => upd_scopes (globals st) [] (locals st :: frames st) st).

Definition pop_function_stack : M unit :=
  fun st =>
    match frames st with
    | l :: fr => (Normal tt, upd_scopes (globals st) l fr st)
    | [] => (Undefined, st)
    end.

Inductive ScopeLookupType := ThisLevel | GlobalLevel | AnyLevel.

Fixpoint find_sym (name : string) (s : symbols) : option MincValue :=
  match s with
  | [] => None
  | (n, v) :: t => if String.eqb n name then Some v else find_sym name t
  end.

Fixpoint set_in (name : string) (v : MincValue) (s : symbols) : symbols :=
  match s with
  | [] => []
  | (n, w) :: t => if String.eqb n name then (n, v) :: t else (n, w) :: set_in name v t
  end.

(** Search of the scopes of the running body, innermost (the head) first;
    [k] is the index of the head. *)
Fixpoint find_local (name : string) (l : list symbols) (k : nat) : option symref :=
  match l with
  | [] => None
  | s :: t =>
      match find_sym name s with
      | Some _ => Some (k, name)
      | None => find_local name t (k - 1)
      end
  end.

Definition find_global (name : string) (st : mstate) : option symref :=
  match find_sym name (globals st) with
  | Some _ => Some (O, name)
  | None => None
  end.

Definition lookupSymbol (name : string) (mode : ScopeLookupType) : M (option symref) :=
  fun st =>
    (Normal
       match mode with
       | GlobalLevel => find_global name st
       | ThisLevel =>
           match locals st with
           | [] => find_global name st
           | s :: _ => find_local name [s] (List.length (locals st))
           end
       | AnyLevel =>
           match find_local name (locals st) (List.length (locals st)) with
           | Some r => Some r
           | None => find_global name st
           end
       end, st).

(** The scope with index [k], for 1 <= k <= current_scope(), is the
    element [current_scope() - k] of [locals]. *)
Fixpoint map_nth {A} (f : A -> A) (n : nat) (l : list A) : list A :=
  match l, n with
  | [], _ => []
  | h :: t, O => f h :: t
  | h :: t, S n' => h :: map_nth f n' t
  end.

Definition symbol_scope (r : symref) : Z := Z.of_nat (fst r).

Definition symbol_value (r : symref) (st : mstate) : option MincValue :=
  match fst r with
  | O => find_sym (snd r) (globals st)
  | k => match nth_error (locals st) (List.length (locals st) - k) with
         | Some s => find_sym (snd r) s
         | None => None
         end
  end.

Definition set_symbol_value (r : symref) (v : MincValue) : M unit :=
  modify (fun st =>
    match fst r with
    | O => upd_scopes (set_in (snd r) v (globals st)) (locals st) (frames st) st
    | k => upd_scopes (globals st)
                      (map_nth (set_in (snd r) v) (List.length (locals st) - k) (locals st))
                      (frames st) st
    end).

(** installSymbol(name, isGlobal): a new symbol of type void in the
    global scope or in the current one. *)
Definition installSymbol (name : string) (isGlobal : bool) : M symref :=
  fun st =>
    match isGlobal, locals st with
    | true, _ | false, [] =>
        (Normal (O, name),
         upd_scopes ((name, MVoid) :: globals st) (locals st) (frames st) st)
    | false, s :: t =>
        (Normal (List.length (locals st), name),
         upd_scopes (globals st) (((name, MVoid) :: s) :: t) (frames st) st)
    end.

Definition lookupOrAutodeclare (name : string) (inFunctionCall : bool) : M symref :=
  r <- lookupSymbol name AnyLevel ;;
  match r with
  | Some r => ret r
  | None => installSymbol name false
  end.

Definition inFunctionCall (st : mstate) : bool := sFunctionCallDepth st >? 0.

(** Symbol::copyValue(Node *, allowTypeOverwrite), as Node::copyValue. *)
Definition Symbol_copyValue (r : symref) (v : MincValue) (allowTypeOverwrite : bool)
  : M unit :=
  st <- get ;;
  match symbol_value r st with
  | None => undefined
  | Some old =>
      (if negb (is_type MincVoidType old)
          && negb (MincDataType_eqb (dataType v) (dataType old)) then
         if allowTypeOverwrite then minc_warn "Overwriting %s variable '%s' with %s"
         else minc_die "Cannot overwrite %s member '%s' with %s"
       else ret tt) ;;;
      set_symbol_value r v
  end.

(** *** Node execution *)

(** What a node holds after exct(): its value and its symbol. *)
Definition nres := (MincValue * option symref)%type.

(** (bool) v and (MincFloat) v, for Float values; the conversions of the
    other types are defined in MincValue.cpp. *)
Definition as_bool (v : MincValue) : M bool :=
  match v with
  | MFloat d => ret (negb (SFeqb d zero))
  | _ => undefined
  end.

Definition as_float (v : MincValue) : M double :=
  match v with
  | MFloat d => ret d
  | _ => undefined
  end.

Definition bool_value (b : bool) : MincValue := MFloat (if b then one else zero).

(** Modelled from the spec: the comparison operators of MincValue
    (MincValue.cpp).  "Comparisons yield 1.0 or 0.0"; values of different
    types do not compare (NonmatchingTypeException), and the order is
    "defined only for Float and String" (InvalidTypeException otherwise). *)
Inductive cmp_result := CmpBool (b : bool) | Nonmatching | InvalidType | NotModelled.

Definition compare_values (op : OpKind) (v0 v1 : MincValue) : cmp_result :=
  if negb (MincDataType_eqb (dataType v0) (dataType v1)) then Nonmatching
  else
    match v0, v1 with
    | MFloat a, MFloat b =>
        match op with
        | OpEqual => CmpBool (SFeqb a b)
        | OpNotEqual => CmpBool (negb (SFeqb a b))
        | OpLess => CmpBool (SFltb a b)
        | OpGreater => CmpBool (SFltb b a)
        | OpLessEqual => CmpBool (SFleb a b)
        | OpGreaterEqual => CmpBool (SFleb b a)
        | _ => NotModelled
        end
    | MString (Some a), MString (Some b) =>
        match op with
        | OpEqual => CmpBool (String.eqb a b)
        | OpNotEqual => CmpBool (negb (String.eqb a b))
        | OpLess => CmpBool (String.ltb a b)
        | OpGreater => CmpBool (String.ltb b a)
        | OpLessEqual => CmpBool (String.leb a b)
        | OpGreaterEqual => CmpBool (String.leb b a)
        | _ => NotModelled
        end
    | _, _ =>
        match op with
        | OpLess | OpGreater | OpLessEqual | OpGreaterEqual => InvalidType
        | _ => NotModelled
        end
    end.

(** NodeRelation::doExct, after its children. *)
Definition NodeRelation_finish (op : OpKind) (v0 v1 : MincValue) : M MincValue :=
  match op with
  | OpEqual | OpNotEqual | OpLess | OpGreater | OpLessEqual | OpGreaterEqual =>
      match compare_values op v0 v1 with
      | CmpBool b => ret (bool_value b)
      | Nonmatching =>
          minc_warn "operator %s: attempt to compare variables having different types - returning false" ;;;
          ret (MFloat zero)
      | InvalidType =>
          minc_warn "operator %s: cannot compare variables of this type - returning false" ;;;
          ret (MFloat zero)
      | NotModelled => undefined
      end
  | _ => minc_internal_error "exct: tried to execute invalid NodeRelation" ;;; ret MVoid
  end.

(** NodeOp::doExct, after its children.  The operations on handles and
    lists and the %g formatting of a float next to a string are outside
    the model. *)
Definition NodeOp_finish (op : OpKind) (v0 v1 : MincValue) : M MincValue :=
  match v0 with
  | MFloat a =>
      match v1 with
      | MFloat b => do_op_num MVoid a b op
      | MString _ | MHandle | MList => undefined
      | MMap => minc_warn "operator %s: a map cannot be used for this operation" ;;; ret MVoid
      | MStruct => minc_warn "operator %s: a struct cannot be used for this operation" ;;; ret MVoid
      | _ => minc_internal_error "operator %s: invalid rhs type: %s" ;;; ret MVoid
      end
  | MString s0 =>
      match v1 with
      | MFloat _ => undefined
      | MString s1 => do_op_string MVoid s0 s1 op
      | MHandle => minc_warn "can't operate on a string and a handle" ;;; ret MVoid
      | MList => minc_warn "can't operate on a string and a list" ;;; ret MVoid
      | MMap => minc_warn "can't operate on a string and a map" ;;; ret MVoid
      | MStruct => minc_warn "operator %s: a struct cannot be used for this operation" ;;; ret MVoid
      | _ => minc_internal_error "operator %s: invalid rhs type: %s" ;;; ret MVoid
      end
  | MHandle =>
      match v1 with
      | MFloat _ | MHandle => undefined
      | MString _ => minc_warn "operator %s: can't operate on a string and a handle" ;;; ret MVoid
      | MList => minc_warn "operator %s: can't operate on a list and a handle" ;;; ret MVoid
      | MMap => minc_warn "operator %s: a map cannot be used for this operation" ;;; ret MVoid
      | MStruct => minc_warn "operator %s: a struct cannot be used for this operation" ;;; ret MVoid
      | _ => minc_internal_error "operator %s: invalid rhs type: %s" ;;; ret MVoid
      end
  | MList =>
      match v1 with
      | MFloat _ | MList => undefined
      | MString _ => minc_warn "operator %s: can't operate on a list and a string" ;;; ret MVoid
      | MHandle => minc_warn "operator %s: can't operate on a list and a handle" ;;; ret MVoid
      | MMap => minc_warn "operator %s: a map cannot be used for this operation" ;;; ret MVoid
      | MStruct => minc_warn "operator %s: a struct cannot be used for this operation" ;;; ret MVoid
      | _ => minc_internal_error "operator %s: invalid rhs type: %s" ;;; ret MVoid
      end
  | MStruct => minc_warn "operator %s: a struct cannot be used for this operation" ;;; ret MVoid
  | _ => minc_internal_error "operator %s: invalid lhs type: %s" ;;; ret MVoid
  end.

(** NodeLoadSym::finishExct and NodeLoadFuncSym::finishExct. *)
Definition NodeLoadSym_finishExct (r : option symref) : M nres :=
  match r with
  | Some r =>
      st <- get ;;
      match symbol_value r st with
      | Some v => ret (v, Some r)
      | None => undefined
      end
  | None => minc_die "'%s' is not declared" ;;; ret (MVoid, None)
  end.

Definition NodeLoadFuncSym_finishExct (name : string) (r : option symref) : M nres :=
  match r with
  | Some r =>
      st <- get ;;
      match symbol_value r st with
      | Some v => ret (v, Some r)
      | None => undefined
      end
  | None => ret (MString (Some name), None)
  end.

Definition push_list : M unit :=
  st <- get ;;
  (if Z.of_nat (List.length (list_stack st)) >=? MAXSTACK H then
     minc_die "stack overflow: too many nested list levels or function calls" ;;;
     undefined
   else ret tt) ;;;
  modify (fun st => upd_lists [] (sMincList st :: list_stack st) st).

Definition pop_list : M unit :=
  st <- get ;;
  match list_stack st with
  | [] => minc_die "stack underflow" ;;; undefined
  | l :: stk => modify (upd_lists l stk)
  end.

(** NodeDecl::doExct. *)
Definition NodeDecl_doExct (name : string) (type : MincDataType) : M nres :=
  st <- get ;;
  sym <- lookupSymbol name (if inCalledFunctionArgList st then ThisLevel else AnyLevel) ;;
  match sym with
  | None =>
      sym <- installSymbol name false ;;
      set_symbol_value sym (MincValue_of_type type) ;;;
      ret (MVoid, Some sym)
  | Some sym =>
      if symbol_scope sym =? current_scope st then
        (if inCalledFunctionArgList st then
           minc_die "%s(): argument variable '%s' already used"
         else ret tt) ;;;
        minc_warn "variable '%s' redefined - using existing one" ;;;
        ret (MVoid, Some sym)
      else
        (if negb (inFunctionCall st) && negb (inCalledFunctionArgList st) then
           minc_warn "variable '%s' also defined at enclosing scope"
         else ret tt) ;;;
        sym <- installSymbol name false ;;
        set_symbol_value sym (MincValue_of_type type) ;;;
        ret (MVoid, Some sym)
  end.

(** NodeFuncDecl::doExct (not EMBEDDED). *)
Definition NodeFuncDecl_doExct (name : string) : M nres :=
  st <- get ;;
  (if current_scope st >? 0 then
     minc_die "functions may only be declared at global scope"
   else ret tt) ;;;
  sym <- lookupSymbol name GlobalLevel ;;
  match sym with
  | None =>
      sym <- installSymbol name true ;;
      set_symbol_value sym (MincValue_of_type MincFunctionType) ;;;
      ret (MVoid, Some sym)
  | Some _ =>
      minc_die "function %s() is already declared" ;;;
      ret (MVoid, None)
  end.

(** NodeArgListElem::doExct, after its two children; [argSym] is the
    symbol of child(1). *)
Definition NodeArgListElem_finish (argSym : option symref) : M nres :=
  match argSym with
  | None => undefined
  | Some argSym =>
      st <- get ;;
      let sMincListLen := Z.of_nat (List.length (sMincList st)) in
      if sMincListLen >? sArgListLen st then
        minc_die "%s() takes %d arguments but was passed %d!" ;;;
        ret (MVoid, None)
      else if sArgListIndex st >=? sMincListLen then
        (if sMincWarningLevel st >? MincNoDefaultedArgWarnings then
           minc_warn "%s(): arg %d ('%s') not provided - defaulting to 0"
         else ret tt) ;;;
        match symbol_value argSym st with
        | None => undefined
        | Some v =>
            let zeroElem := MincValue_zero v in
            Symbol_copyValue argSym zeroElem true ;;;
            modify (fun st => upd_args (sArgListLen st) (sArgListIndex st + 1)
                                       (inCalledFunctionArgList st) st) ;;;
            ret (zeroElem, None)
        end
      else
        match nth_error (sMincList st) (Z.to_nat (sArgListIndex st)), symbol_value argSym st with
        | Some argValue, Some v =>
            r <- match dataType argValue with
                 | MincVoidType =>
                     minc_internal_error "%s() arg %d ('%s') is an unhandled type!" ;;;
                     ret (MVoid, None)
                 | t =>
                     if negb (MincDataType_eqb (dataType v) t) then
                       minc_die "%s() arg %d ('%s') passed as %s, expecting %s" ;;;
                       ret (MVoid, None)
                     else
                       Symbol_copyValue argSym argValue true ;;;
                       ret (argValue, None)
                 end ;;
            modify (fun st => upd_args (sArgListLen st) (sArgListIndex st + 1)
                                       (inCalledFunctionArgList st) st) ;;;
            ret r
        | _, _ => undefined
        end
  end.

Definition set_call_depth (d : Z) : M unit :=
  modify (fun st => upd_calls (sCalledFunctions st) d st).

(** The two handlers of the try block in callMincFunctionFromNode, applied
    to the way the block ended:
      catch (Node *returned) { temp = returned;
                               sFunctionCallDepth = savedCallDepth;
                               restore_scope(savedScope); }
      catch (...) { pop_function_stack(); --sFunctionCallDepth; throw; } *)
Definition catch_call (savedScope savedCallDepth : Z)
  (r : outcome MincValue * mstate) : outcome MincValue * mstate :=
  match r with
  | (Returned returned, st) =>
      (set_call_depth savedCallDepth ;;;
       restore_scope savedScope ;;;
       ret returned) st
  | (Thrown, st) =>
      (pop_function_stack ;;;
       st' <- get ;;
       set_call_depth (sFunctionCallDepth st' - 1) ;;;
       throw_other) st
  | r => r
  end.

(** The try block.  [copyArguments] and [execute] are the two methods of
    MincFunction, which execute the argument list and the body
    (MincValue.cpp; steps 4 and 5 of the spec's call protocol); the
    function is not a method, so handleThis has nothing to do.  The locals
    savedScope and savedCallDepth are 0 until the block sets them. *)
Definition try_call (copyArguments execute : MincFunction -> M nres)
  (theFunction : MincFunction) : M MincValue :=
  fun st =>
    match copyArguments theFunction st with
    | (Normal _, st1) =>
        let savedScope := current_scope st1 in
        let savedCallDepth := sFunctionCallDepth st1 + 1 in
        catch_call savedScope savedCallDepth
          ((set_call_depth savedCallDepth ;;;
            r <- execute theFunction ;;
            ret (fst r)) st1)
    | (Returned v, st1) => catch_call 0 0 (Returned v, st1)
    | (Thrown, st1) => catch_call 0 0 (Thrown, st1)
    | (OutOfFuel, st1) => (OutOfFuel, st1)
    | (Undefined, st1) => (Undefined, st1)
    end.

(** NodeCall::callMincFunctionFromNode. *)
Definition callMincFunctionFromNode
  (copyArguments execute : MincFunction -> M nres) (functionNode : nres) : M MincValue :=
  modify (fun st => upd_calls
            (sCalledFunctions st ++
               [match snd functionNode with Some r => snd r | None => "temp lhs" end])
            (sFunctionCallDepth st) st) ;;;
  v <- match fst functionNode with
       | MFunction (Some theFunction) =>
           push_function_stack ;;;
           push_scope ;;;
           temp <- try_call copyArguments execute theFunction ;;
           st <- get ;;
           set_call_depth (sFunctionCallDepth st - 1) ;;;
           pop_function_stack ;;;
           ret temp
       | MFunction None =>
           minc_die "mfunction variable '%s' is NULL" ;;; ret MVoid
       | _ => undefined
       end ;;
  modify (fun st => upd_calls (removelast (sCalledFunctions st))
                              (sFunctionCallDepth st) st) ;;;
  ret v.

(** NodeCall::callBuiltinFunction: of the builtins only substring is
    modelled, and no external function. *)
Definition callBuiltinFunction (functionName : option string) : M MincValue :=
  match functionName with
  | None => minc_die "string variable called as function is NULL" ;;; undefined
  | Some name =>
      if String.eqb name "substring" then
        st <- get ;;
        r <- _minc_substring (sMincList st) ;;
        ret (MString r)
      else undefined
  end.

(** Node::exct.  A node starts every execution with a void value: the
    value a node keeps from an earlier execution, which Node::copyValue
    compares the new one with, is not modelled. *)
Fixpoint exct (fuel : nat) (n : Node) {struct fuel} : M nres :=
  match fuel with
  | O => out_of_fuel
  | S fuel =>
      match n with
      | NodeNoop | NodeEmptyListElem => ret (MVoid, None)
      | NodeConstf number => ret (MFloat number, None)
      | NodeString s => ret (MString (Some s), None)
      | NodeLoadSym name =>
          r <- lookupSymbol name AnyLevel ;;
          NodeLoadSym_finishExct r
      | NodeAutoDeclLoadSym name =>
          st <- get ;;
          r <- lookupOrAutodeclare name (inFunctionCall st) ;;
          NodeLoadSym_finishExct (Some r)
      | NodeLoadFuncSym name =>
          r <- lookupSymbol name AnyLevel ;;
          NodeLoadFuncSym_finishExct name r
      | NodeListElem c0 c1 =>
          exct fuel c0 ;;;
          st <- get ;;
          if Z.of_nat (List.length (sMincList st)) =? MAXDISPARGS H then
            minc_die "exceeded maximum number of items for a list" ;;;
            ret (MVoid, None)
          else
            tmp <- exct fuel c1 ;;
            modify (fun st => upd_lists (sMincList st ++ [fst tmp]) (list_stack st) st) ;;;
            ret (fst tmp, None)
      | NodeStore c0 c1 allowTypeOverwrite =>
          rhs <- exct fuel c1 ;;
          lhs <- exct fuel c0 ;;
          match snd lhs with
          | None => undefined
          | Some sym =>
              Symbol_copyValue sym (fst rhs) allowTypeOverwrite ;;;
              ret (fst rhs, None)
          end
      | NodeOperator op c0 c1 =>
          v0 <- exct fuel c0 ;;
          v1 <- exct fuel c1 ;;
          v <- NodeOp_finish op (fst v0) (fst v1) ;;
          ret (v, None)
      | NodeUnaryOperator op c0 =>
          match op with
          | OpNeg =>
              v0 <- exct fuel c0 ;;
              d <- as_float (fst v0) ;;
              ret (MFloat (dmul minus_one d), None)
          | _ => ret (MVoid, None)
          end
      | NodeNot c0 =>
          v0 <- exct fuel c0 ;;
          b <- as_bool (fst v0) ;;
          ret (bool_value (negb b), None)
      | NodeAnd c0 c1 =>
          v0 <- exct fuel c0 ;;
          b0 <- as_bool (fst v0) ;;
          if b0 then
            v1 <- exct fuel c1 ;;
            b1 <- as_bool (fst v1) ;;
            ret (bool_value b1, None)
          else ret (bool_value false, None)
      | NodeOr c0 c1 =>
          v0 <- exct fuel c0 ;;
          b0 <- as_bool (fst v0) ;;
          if b0 then ret (bool_value true, None)
          else
            v1 <- exct fuel c1 ;;
            b1 <- as_bool (fst v1) ;;
            ret (bool_value b1, None)
      | NodeRelation op c0 c1 =>
          v0 <- exct fuel c0 ;;
          v1 <- exct fuel c1 ;;
          v <- NodeRelation_finish op (fst v0) (fst v1) ;;
          ret (v, None)
      | NodeIf c0 c1 =>
          v0 <- exct fuel c0 ;;
          b <- as_bool (fst v0) ;;
          (if b then exct fuel c1 ;;; ret tt else ret tt) ;;;
          ret (MVoid, None)
      | NodeIfElse c0 c1 c2 =>
          v0 <- exct fuel c0 ;;
          b <- as_bool (fst v0) ;;
          (if b then exct fuel c1 else exct fuel c2) ;;;
          ret (MVoid, None)
      | NodeWhile c0 c1 =>
          v0 <- exct fuel c0 ;;
          b <- as_bool (fst v0) ;;
          if b then exct fuel c1 ;;; exct fuel (NodeWhile c0 c1)
          else ret (MVoid, None)
      | NodeFor c0 c1 c2 c4 =>
          exct fuel c0 ;;;
          (fix loop (k : nat) : M nres :=
             match k with
             | O => out_of_fuel
             | S k =>
                 v1 <- exct fuel c1 ;;
                 b <- as_bool (fst v1) ;;
                 if b then exct fuel c4 ;;; exct fuel c2 ;;; loop k
                 else ret (MVoid, None)
             end) fuel
      | NodeSeq c0 c1 =>
          exct fuel c0 ;;;
          exct fuel c1 ;;;
          ret (MVoid, None)
      | NodeBlock c0 =>
          push_scope ;;;
          exct fuel c0 ;;;
          pop_scope ;;;
          ret (MVoid, None)
      | NodeDecl name type => NodeDecl_doExct name type
      | NodeFuncDecl name => NodeFuncDecl_doExct name
      | NodeFuncDef c0 c1 c2 isMethod =>
          d <- exct fuel c0 ;;
          match snd d with
          | None => undefined
          | Some sym =>
              set_symbol_value sym (MFunction (Some (mkFunction c1 c2 isMethod))) ;;;
              ret (MVoid, None)
          end
      | NodeArgList c0 =>
          modify (upd_args 0 0 true) ;;;
          exct fuel c0 ;;;
          modify (fun st => upd_args (sArgListLen st) (sArgListIndex st) false st) ;;;
          ret (MVoid, None)
      | NodeArgListElem c0 c1 =>
          modify (fun st => upd_args (sArgListLen st + 1) (sArgListIndex st)
                                     (inCalledFunctionArgList st) st) ;;;
          exct fuel c0 ;;;
          d <- exct fuel c1 ;;
          NodeArgListElem_finish (snd d)
      | NodeRet c0 =>
          v <- exct fuel c0 ;;
          throw_ret (fst v)
      | NodeFuncBodySeq c0 c1 =>
          exct fuel c0 ;;;
          v <- exct fuel c1 ;;
          ret (fst v, None)
      | NodeCall c0 c1 =>
          calledFunction <- exct fuel c0 ;;
          push_list ;;;
          exct fuel c1 ;;;
          v <- match dataType (fst calledFunction) with
               | MincFunctionType =>
                   callMincFunctionFromNode
                     (fun f => exct fuel (f_argumentList f))
                     (fun f => exct fuel (f_functionBody f))
                     calledFunction
               | MincStringType =>
                   match fst calledFunction with
                   | MString name => callBuiltinFunction name
                   | _ => undefined
                   end
               | _ =>
                   minc_die "variable is not a function or instrument" ;;;
                   ret MVoid
               end ;;
          pop_list ;;;
          ret (v, None)
      end
  end.

End Interp.
End Minc.

(** ** The bus routing graph (bus_config.cpp) *)

Module Bus.
Import Ascii String.
Local Open Scope list_scope.
Local Open Scope Z_scope.

Inductive ErrCode :=
| NO_ERR | LOOP_ERR | INVAL_BUS_ERR | INVAL_BUS_CHAN_ERR | UNKNOWN_ERR.

Inductive BusType :=
| BUS_IN | BUS_OUT | BUS_AUX_IN | BUS_AUX_OUT | BUS_NONE_IN | BUS_NONE_OUT.

(** How a modelled function ends: with a result, in undefined behaviour
    (an array index out of bounds, a pointer past the end of a string), or
    with the iteration bound of the model used up. *)
Inductive res (A : Type) :=
| Ok (a : A)
| Undef
| NoFuel.
Arguments Ok {A} a.
Arguments Undef {A}.
Arguments NoFuel {A}.

Definition rbind {A B} (m : res A) (k : A -> res B) : res B :=
  match m with
  | Ok a => k a
  | Undef => Undef
  | NoFuel => NoFuel
  end.

Notation "x <- m ;; k" := (rbind m (fun x => k))
  (at level 61, m at next level, right associativity).

(** Arrays indexed by a C integer. *)
Definition zget {A} (a : list A) (i : Z) : res A :=
  if i <? 0 then Undef
  else match nth_error a (Z.to_nat i) with
       | Some x => Ok x
       | None => Undef
       end.

Fixpoint upd {A} (a : list A) (n : nat) (v : A) : list A :=
  match a, n with
  | [], _ => []
  | _ :: t, O => v :: t
  | h :: t, S n' => h :: upd t n' v
  end.

Definition zset {A} (a : list A) (i : Z) (v : A) : res (list A) :=
  if (i <? 0) || (Z.of_nat (List.length a) <=? i) then Undef
  else Ok (upd a (Z.to_nat i) v).

(** The first [cnt] elements of an array, which a loop
    [for (i = 0; i < cnt; i++) ... a[i] ...] goes through. *)
Definition eff {A} (a : list A) (cnt : Z) : res (list A) :=
  if Z.of_nat (List.length a) <? cnt then Undef
  else Ok (firstn (Z.to_nat cnt) a).

(** *** Bus names *)

Definition isspace (c : ascii) : bool :=
  let n := nat_of_ascii c in
  (n =? 32)%nat || ((9 <=? n)%nat && (n <=? 13)%nat).

Definition digit (c : ascii) : option Z :=
  let n := nat_of_ascii c in
  if (48 <=? n)%nat && (n <=? 57)%nat then Some (Z.of_nat n - 48) else None.

Fixpoint skip_spaces (s : string) : string :=
  match s with
  | String c t => if isspace c then skip_spaces t else s
  | EmptyString => s
  end.

(** The decimal digits at the start of [s], accumulated onto [acc]; the
    boolean tells whether there was one. *)
Fixpoint digits (s : string) (acc : Z) (seen : bool) : Z * bool :=
  match s with
  | String c t =>
      match digit c with
      | Some d => digits t (10 * acc + d) true
      | None => (acc, seen)
      end
  | EmptyString => (acc, seen)
  end.

(** strtol(str, &pos, 10): the mathematical value of the number read, or
    [None] when no conversion is made (pos == str). *)
Definition strtol (str : string) : option Z :=
  match skip_spaces str with
  | String "-" t => let (v, seen) := digits t 0 false in if seen then Some (- v) else None
  | String "+" t => let (v, seen) := digits t 0 false in if seen then Some v else None
  | t => let (v, seen) := digits t 0 false in if seen then Some v else None
  end.

Definition LONG_MIN : Z := - 2 ^ 63.
Definition LONG_MAX : Z := 2 ^ 63 - 1.

(** (int) along *)
Definition to_int32 (z : Z) : Z := (z + 2 ^ 31) mod 2 ^ 32 - 2 ^ 31.

(** strtoint: [None] is the return value -1, [Some num] the value 0 with
    *num set.  A value outside long sets errno to ERANGE. *)
Definition strtoint (str : string) : option Z :=
  match strtol str with
  | None => None
  | Some along =>
      if (along <? LONG_MIN) || (LONG_MAX <? along) then None
      else Some (to_int32 along)
  end.

(** strchr(s, c) != NULL, and the string after the first [c]. *)
Fixpoint after_char (c : ascii) (s : string) : option string :=
  match s with
  | EmptyString => None
  | String d t => if Ascii.eqb d c then Some t else after_char c t
  end.

Definition has_char (c : ascii) (s : string) : bool :=
  match after_char c s with Some _ => true | None => false end.

(** What parse_bus_chan and parse_bus_name give back: the error code and,
    when it is NO_ERR, the values stored through the pointers. *)
Inductive parsed :=
| Parsed (type : BusType) (startchan endchan : Z)
| Rejected (e : ErrCode).

Definition parse_bus_chan (numstr : string) (maxBus : Z) : ErrCode * Z * Z :=
  match strtoint numstr with
  | None => (INVAL_BUS_CHAN_ERR, 0, 0)
  | Some startchan =>
      match after_char "-" numstr with
      | Some p =>
          match strtoint p with
          | None => (INVAL_BUS_CHAN_ERR, startchan, 0)
          | Some endchan =>
              if (startchan >=? maxBus) || (endchan >=? maxBus)
              then (INVAL_BUS_CHAN_ERR, startchan, endchan)
              else (NO_ERR, startchan, endchan)
          end
      | None =>
          if (startchan >=? maxBus) || (startchan >=? maxBus)
          then (INVAL_BUS_CHAN_ERR, startchan, startchan)
          else (NO_ERR, startchan, startchan)
      end
  end.

(** &busname[n]; a pointer past the terminating NUL is not a string. *)
Fixpoint from_index (n : nat) (s : string) : res string :=
  match n, s with
  | O, _ => Ok s
  | S n', String _ t => from_index n' t
  | S _, EmptyString => Undef
  end.

Definition finish_parse (type : BusType) (r : ErrCode * Z * Z) : parsed :=
  match r with
  | (NO_ERR, startchan, endchan) => Parsed type startchan endchan
  | (e, _, _) => Rejected e
  end.

(** parse_bus_name; [None] is the NULL pointer. *)
Definition parse_bus_name (busname : option string) (maxBus : Z) : res parsed :=
  match busname with
  | None => Ok (Rejected INVAL_BUS_ERR)
  | Some busname =>
      match busname with
      | String "i" _ =>
          p <- from_index 2 busname ;;
          Ok (finish_parse BUS_IN (parse_bus_chan p maxBus))
      | String "o" _ =>
          p <- from_index 3 busname ;;
          Ok (finish_parse BUS_OUT (parse_bus_chan p maxBus))
      | String "a" _ =>
          if has_char "i" busname then
            p <- from_index 3 busname ;;
            Ok (finish_parse BUS_AUX_IN (parse_bus_chan p maxBus))
          else if has_char "o" busname then
            p <- from_index 3 busname ;;
            Ok (finish_parse BUS_AUX_OUT (parse_bus_chan p maxBus))
          else Ok (Rejected INVAL_BUS_ERR)
      | String "c" _ =>
          p <- from_index 5 busname ;;
          if has_char "i" p then
            Ok (finish_parse BUS_NONE_IN (parse_bus_chan p maxBus))
          else if has_char "o" p then
            Ok (finish_parse BUS_NONE_OUT (parse_bus_chan p maxBus))
          else Ok (Rejected INVAL_BUS_ERR)
      | _ => Ok (Rejected INVAL_BUS_ERR)
      end
  end.

(** *** The bus graph *)

(** struct CheckNode: a list of bus numbers and its length. *)
Record CheckNode := mkCheckNode {
  bus_list : list Z;
  bus_count : Z
}.

(** class BusSlot: four arrays of busCount shorts and their counts. *)
Record BusSlot := mkBusSlot {
  s_in : list Z;
  s_out : list Z;
  auxin : list Z;
  auxout : list Z;
  in_count : Z;
  out_count : Z;
  auxin_count : Z;
  auxout_count : Z
}.

(** The engine's bus state.  BusConfigs[i].F is element [i] of the list
    [F]; all the arrays have busCount elements.  Inst_Bus_Config is the
    BusQueue: for each instrument name, the chain of its slots. *)
Record state := mkBState {
  busCount : Z;
  NCHANS : Z;
  rtsetparams_called : bool;
  Bus_Config_Status : bool;
  In_Config : list CheckNode;
  HasChild : list bool;
  HasParent : list bool;
  AuxInUse : list bool;
  AuxOutInUse : list bool;
  OutInUse : list bool;
  RevPlay : list Z;
  Visited : list bool;
  ToOutPlayList : list Z;
  ToAuxPlayList : list Z;
  AuxToAuxPlayList : list Z;
  Inst_Bus_Config : list (string * list BusSlot)
}.

Definition nbus (st : state) : nat := Z.to_nat (busCount st).

(** BusSlot::BusSlot(inBusCount) *)
Definition new_BusSlot (inBusCount : Z) : BusSlot :=
  let z := repeat 0 (Z.to_nat inBusCount) in
  mkBusSlot z z z z 0 0 0 0.

(** The engine after rtsetparams, before any bus_config: no flag is set,
    the play lists hold -1. *)
Definition initial (n chans : Z) : state :=
  let k := Z.to_nat n in
  mkBState n chans true false
           (repeat (mkCheckNode [] 0) k)
           (repeat false k) (repeat false k) (repeat false k)
           (repeat false k) (repeat false k)
           (repeat (-1) k) (repeat false k)
           (repeat (-1) k) (repeat (-1) k) (repeat (-1) k)
           [].

Definition set_graph (ic : list CheckNode) (hc hp au : list bool) (st : state) : state :=
  mkBState (busCount st) (NCHANS st) (rtsetparams_called st) (Bus_Config_Status st)
           ic hc hp au (AuxOutInUse st) (OutInUse st) (RevPlay st) (Visited st)
           (ToOutPlayList st) (ToAuxPlayList st) (AuxToAuxPlayList st)
           (Inst_Bus_Config st).

Definition set_status (b : bool) (ic : list CheckNode) (st : state) : state :=
  mkBState (busCount st) (NCHANS st) (rtsetparams_called st) b
           ic (HasChild st) (HasParent st) (AuxInUse st)
           (AuxOutInUse st) (OutInUse st) (RevPlay st) (Visited st)
           (ToOutPlayList st) (ToAuxPlayList st) (AuxToAuxPlayList st)
           (Inst_Bus_Config st).

Definition set_in_use (ao ou : list bool) (st : state) : state :=
  mkBState (busCount st) (NCHANS st) (rtsetparams_called st) (Bus_Config_Status st)
           (In_Config st) (HasChild st) (HasParent st) (AuxInUse st)
           ao ou (RevPlay st) (Visited st)
           (ToOutPlayList st) (ToAuxPlayList st) (AuxToAuxPlayList st)
           (Inst_Bus_Config st).

Definition set_scan (rp : list Z) (vis : list bool) (st : state) : state :=
  mkBState (busCount st) (NCHANS st) (rtsetparams_called st) (Bus_Config_Status st)
           (In_Config st) (HasChild st) (HasParent st) (AuxInUse st)
           (AuxOutInUse st) (OutInUse st) rp vis
           (ToOutPlayList st) (ToAuxPlayList st) (AuxToAuxPlayList st)
           (Inst_Bus_Config st).

Definition set_play (tout taux a2a : list Z) (st : state) : state :=
  mkBState (busCount st) (NCHANS st) (rtsetparams_called st) (Bus_Config_Status st)
           (In_Config st) (HasChild st) (HasParent st) (AuxInUse st)
           (AuxOutInUse st) (OutInUse st) (RevPlay st) (Visited st)
           tout taux a2a
           (Inst_Bus_Config st).

Definition set_queue (q : list (string * list BusSlot)) (st : state) : state :=
  mkBState (busCount st) (NCHANS st) (rtsetparams_called st) (Bus_Config_Status st)
           (In_Config st) (HasChild st) (HasParent st) (AuxInUse st)
           (AuxOutInUse st) (OutInUse st) (RevPlay st) (Visited st)
           (ToOutPlayList st) (ToAuxPlayList st) (AuxToAuxPlayList st)
           q.

(** The parents of bus [k]: the first bus_count entries of its In_Config. *)
Definition parents (st : state) (k : Z) : list Z :=
  match zget (In_Config st) k with
  | Ok n => firstn (Z.to_nat (bus_count n)) (bus_list n)
  | _ => []
  end.

(** for (i = 0; i < n; i++) body(i), with a body that can fail. *)
Fixpoint for_upto {S : Type} (n : nat) (body : Z -> S -> res S) (s : S) : res S :=
  match n with
  | O => Ok s
  | S m => s' <- for_upto m body s ;; body (Z.of_nat m) s'
  end.

(** for each element of a list, in order, with a body that can fail. *)
Fixpoint for_each {A S : Type} (l : list A) (body : A -> S -> res S) (s : S) : res S :=
  match l with
  | [] => Ok s
  | x :: t => s' <- body x s ;; for_each t body s'
  end.

(** **** check_bus_inst_config *)

(** The first loop: reset Visited (if visit), Checked and RevPlay, and
    rebuild ToOutPlayList and ToAuxPlayList.  The counters out_ctr and
    aux_ctr travel with the state. *)
Definition reset_body (visit : bool) (i : Z) (x : state * Z * Z) : res (state * Z * Z) :=
  let '(st, out_ctr, aux_ctr) := x in
  vis <- (if visit then zset (Visited st) i false else Ok (Visited st)) ;;
  rp <- zset (RevPlay st) i (-1) ;;
  let st := set_scan rp vis st in
  ou <- zget (OutInUse st) i ;;
  x1 <- (if ou : bool then
           l <- zset (ToOutPlayList st) out_ctr i ;;
           Ok (set_play l (ToAuxPlayList st) (AuxToAuxPlayList st) st, out_ctr + 1)
         else Ok (st, out_ctr)) ;;
  let '(st, out_ctr) := x1 in
  ao <- zget (AuxOutInUse st) i ;;
  if ao : bool then
    l <- zset (ToAuxPlayList st) aux_ctr i ;;
    Ok (set_play (ToOutPlayList st) l (AuxToAuxPlayList st) st, out_ctr, aux_ctr + 1)
  else Ok (st, out_ctr, aux_ctr).

(** The state of the traversal: the engine state, the local array
    Checked, r_p_count, and the nodes put on the queue while the current
    one is gone through. *)
Record scan := mkScan {
  sc_state : state;
  Checked : list bool;
  r_p_count : Z;
  added : list (list Z)
}.

(** The body of the loop over the buses of one node; [Some LOOP_ERR] is
    the return of the error from inside the loop. *)
Definition check_bus (outs : list Z) (t_in : Z) (c : scan) : res (option ErrCode * scan) :=
  let st := sc_state c in
  chk <- zget (Checked c) t_in ;;
  if negb chk && existsb (Z.eqb t_in) outs then Ok (Some LOOP_ERR, c)
  else
    checked <- zset (Checked c) t_in true ;;
    node <- zget (In_Config st) t_in ;;
    vis <- zget (Visited st) t_in ;;
    if (bus_count node >? 0) && negb vis then
      hp <- zget (HasParent st) t_in ;;
      x <- (if hp : bool then
              rp <- zset (RevPlay st) (r_p_count c) t_in ;;
              Ok (rp, r_p_count c + 1)
            else Ok (RevPlay st, r_p_count c)) ;;
      let '(rp, cnt) := x in
      vis' <- zset (Visited st) t_in true ;;
      l <- eff (bus_list node) (bus_count node) ;;
      Ok (None, mkScan (set_scan rp vis' st) checked cnt (added c ++ [l]))
    else Ok (None, mkScan st checked (r_p_count c) (added c)).

Fixpoint check_node (outs : list Z) (l : list Z) (c : scan) : res (option ErrCode * scan) :=
  match l with
  | [] => Ok (None, c)
  | t_in :: rest =>
      r <- check_bus outs t_in c ;;
      match r with
      | (Some e, c') => Ok (Some e, c')
      | (None, c') => check_node outs rest c'
      end
  end.

(** while (in_check_queue) { ...; in_check_queue = in_check_queue->next; }
    A bus puts its In_Config on the queue once at most, so the loop takes
    at most 1 + busCount turns. *)
Fixpoint check_queue (fuel : nat) (outs : list Z) (queue : list (list Z)) (c : scan)
  : res (ErrCode * scan) :=
  match queue with
  | [] => Ok (NO_ERR, c)
  | l :: rest =>
      match fuel with
      | O => NoFuel
      | S fuel' =>
          r <- check_node outs l (mkScan (sc_state c) (Checked c) (r_p_count c) []) ;;
          match r with
          | (Some e, c') => Ok (e, c')
          | (None, c') => check_queue fuel' outs (rest ++ added c') c'
          end
      end
  end.

(** The first use allocates the In_Config nodes. *)
Definition allocate_graph (st : state) : state :=
  if Bus_Config_Status st then st
  else set_status true (repeat (mkCheckNode (repeat 0 (nbus st)) 0) (nbus st)) st.

Definition check_bus_inst_config (slot : BusSlot) (visit : bool) (st : state)
  : res (ErrCode * state) :=
  let st := allocate_graph st in
  x <- for_upto (nbus st) (reset_body visit) (st, 0, 0) ;;
  let '(st, _, _) := x in
  ins <- eff (auxin slot) (auxin_count slot) ;;
  outs <- eff (auxout slot) (auxout_count slot) ;;
  r <- check_queue (S (nbus st)) outs [ins]
         (mkScan st (repeat false (nbus st)) 0 []) ;;
  Ok (fst r, sc_state (snd r)).

(** **** insert_bus_slot *)

Definition set_node_count (n : CheckNode) (c : Z) : CheckNode := mkCheckNode (bus_list n) c.

(** The body of the inner loop, for one aux-out bus and one aux-in bus. *)
Definition insert_edge (s_out s_in : Z) (st : state) : res state :=
  hp <- zget (HasParent st) s_out ;;
  hp' <- (if negb hp && negb (s_in =? 333) then zset (HasParent st) s_out true
          else Ok (HasParent st)) ;;
  let st := set_graph (In_Config st) (HasChild st) hp' (AuxInUse st) st in
  node <- zget (In_Config st) s_out ;;
  let t_in_count := bus_count node in
  if negb (s_in =? 333) then
    bl <- zset (bus_list node) t_in_count s_in ;;
    let cnt := t_in_count + 1 in
    (* the bus-wrapping hackeroo *)
    let cnt := if cnt >=? busCount st then 0 else cnt in
    ic <- zset (In_Config st) s_out (mkCheckNode bl cnt) ;;
    hc <- zset (HasChild st) s_in true ;;
    au <- zset (AuxInUse st) s_in true ;;
    Ok (set_graph ic hc (HasParent st) au st)
  else Ok st.

Definition insert_out (ins : list Z) (s_out : Z) (st : state) : res state :=
  au0 <- zget (AuxInUse st) s_out ;;
  au <- (if negb au0 then zset (AuxInUse st) s_out true else Ok (AuxInUse st)) ;;
  let st := set_graph (In_Config st) (HasChild st) (HasParent st) au st in
  for_each ins (insert_edge s_out) st.

(** The queue of instruments: a slot of a known name takes the place of
    the head of that name's chain (slot->next = qEntry->slot->next); a new
    name goes to the end of the queue. *)
Fixpoint enqueue_slot (name : string) (slot : BusSlot) (q : list (string * list BusSlot))
  : list (string * list BusSlot) :=
  match q with
  | [] => [(name, [slot])]
  | (n, chain) :: rest =>
      if String.eqb n name then (n, slot :: tl chain) :: rest
      else (n, chain) :: enqueue_slot name slot rest
  end.

Definition insert_bus_slot (name : string) (slot : BusSlot) (st : state)
  : res (ErrCode * state) :=
  ins <- eff (auxin slot) (auxin_count slot) ;;
  outs <- eff (auxout slot) (auxout_count slot) ;;
  st <- for_each outs (insert_out ins) st ;;
  Ok (NO_ERR, set_queue (enqueue_slot name slot (Inst_Bus_Config st)) st).

(** **** bf_traverse and create_play_order *)

Definition bf_traverse (bus : Z) (visit : bool) (st : state) : res state :=
  let temp := new_BusSlot (busCount st) in
  ai <- zset (auxin temp) 0 bus ;;
  ao <- zset (auxout temp) 0 333 ;;
  let temp := mkBusSlot (s_in temp) (s_out temp) ai ao 0 0 1 1 in
  r <- check_bus_inst_config temp visit st ;;
  Ok (snd r).

(** The locals of create_play_order travel with the state. *)
Definition roots_body (i : Z) (x : state * Z) : res (state * Z) :=
  let '(st, aux_p_count) := x in
  au <- zget (AuxInUse st) i ;;
  hp <- zget (HasParent st) i ;;
  if (au : bool) && negb hp then
    l <- zset (AuxToAuxPlayList st) aux_p_count i ;;
    Ok (set_play (ToOutPlayList st) (ToAuxPlayList st) l st, aux_p_count + 1)
  else Ok x.

(** for (j = busCount-1; j >= 0; j--) if (RevPlay[j] != -1) ... ;
    [n] is the number of values of j still to go, from n-1 down. *)
Fixpoint rev_loop (n : nat) (x : state * Z) : res (state * Z) :=
  match n with
  | O => Ok x
  | S m =>
      let '(st, aux_p_count) := x in
      rp <- zget (RevPlay st) (Z.of_nat m) ;;
      x' <- (if negb (rp =? -1) then
               l <- zset (AuxToAuxPlayList st) aux_p_count rp ;;
               Ok (set_play (ToOutPlayList st) (ToAuxPlayList st) l st, aux_p_count + 1)
             else Ok x) ;;
      rev_loop m x'
  end.

Definition leaves_body (i : Z) (x : state * Z * bool) : res (state * Z * bool) :=
  let '(st, aux_p_count, visit) := x in
  au <- zget (AuxInUse st) i ;;
  hc <- zget (HasChild st) i ;;
  if (au : bool) && negb hc then
    st <- bf_traverse i visit st ;;
    y <- rev_loop (nbus st) (st, aux_p_count) ;;
    Ok (fst y, snd y, false)
  else Ok x.

Definition create_play_order (st : state) : res state :=
  x <- for_upto (nbus st) roots_body (st, 0) ;;
  y <- for_upto (nbus st) leaves_body (fst x, snd x, true) ;;
  Ok (fst (fst y)).

(** **** bus_config *)

Inductive ExitCode := PARAM_ERROR | SYSTEM_ERROR | MEMORY_ERROR.

(** Modelled from the spec: RTExit is not among the sources.  "A fatal
    diagnostic ... aborts the currently running score pass via
    RTExit(errCode); partial state in the bus graph is not rolled back":
    the call ends there, with the state as it is. *)
Inductive ended :=
| Return0                    (* return 0 *)
| RTExit (code : ExitCode).

(** The locals of bus_config that the loop over the bus names changes. *)
Record locals := mkLocals {
  l_state : state;
  bus_slot : BusSlot;
  chain_incount : Z;
  chain_outcount : Z
}.

(** The integers startchan, ..., endchan. *)
Definition chans (startchan endchan : Z) : list Z :=
  map (fun i => startchan + Z.of_nat i) (seq 0 (Z.to_nat (endchan - startchan + 1))).

(** j = count; for (k = startchan; k <= endchan; k++) a[j++] = k; *)
Definition fill_chans (a : list Z) (count startchan endchan : Z) : res (list Z) :=
  x <- for_each (chans startchan endchan)
         (fun k (x : list Z * Z) =>
            a' <- zset (fst x) (snd x) k ;; Ok (a', snd x + 1))
         (a, count) ;;
  Ok (fst x).

(** for (k = startchan; k <= endchan; k++) flag[k] = YES; *)
Definition mark_chans (flag : list bool) (startchan endchan : Z) : res (list bool) :=
  for_each (chans startchan endchan) (fun k f => zset f k true) flag.

(** The switch on the type of one bus name. *)
Definition add_bus (type : BusType) (startchan endchan : Z) (x : locals)
  : res (option ExitCode * locals) :=
  let st := l_state x in
  let b := bus_slot x in
  let n := (endchan - startchan) + 1 in
  match type with
  | BUS_IN =>
      if auxin_count b >? 0 then Ok (Some PARAM_ERROR, x)
      else if chain_incount x >? 0 then Ok (Some PARAM_ERROR, x)
      else if endchan >=? NCHANS st then Ok (Some PARAM_ERROR, x)
      else
        a <- fill_chans (s_in b) (in_count b) startchan endchan ;;
        Ok (None, mkLocals st
                    (mkBusSlot a (s_out b) (auxin b) (auxout b)
                               (in_count b + n) (out_count b) (auxin_count b) (auxout_count b))
                    (chain_incount x) (chain_outcount x))
  | BUS_OUT =>
      if auxout_count b >? 0 then Ok (Some PARAM_ERROR, x)
      else if chain_outcount x >? 0 then Ok (Some PARAM_ERROR, x)
      else if endchan >=? NCHANS st then Ok (Some PARAM_ERROR, x)
      else
        a <- fill_chans (s_out b) (out_count b) startchan endchan ;;
        ou <- mark_chans (OutInUse st) startchan endchan ;;
        Ok (None, mkLocals (set_in_use (AuxOutInUse st) ou st)
                    (mkBusSlot (s_in b) a (auxin b) (auxout b)
                               (in_count b) (out_count b + n) (auxin_count b) (auxout_count b))
                    (chain_incount x) (chain_outcount x))
  | BUS_AUX_IN =>
      if in_count b >? 0 then Ok (Some PARAM_ERROR, x)
      else if chain_incount x >? 0 then Ok (Some PARAM_ERROR, x)
      else
        a <- fill_chans (auxin b) (auxin_count b) startchan endchan ;;
        Ok (None, mkLocals st
                    (mkBusSlot (s_in b) (s_out b) a (auxout b)
                               (in_count b) (out_count b) (auxin_count b + n) (auxout_count b))
                    (chain_incount x) (chain_outcount x))
  | BUS_AUX_OUT =>
      if out_count b >? 0 then Ok (Some PARAM_ERROR, x)
      else if chain_outcount x >? 0 then Ok (Some PARAM_ERROR, x)
      else
        a <- fill_chans (auxout b) (auxout_count b) startchan endchan ;;
        ao <- mark_chans (AuxOutInUse st) startchan endchan ;;
        Ok (None, mkLocals (set_in_use ao (OutInUse st) st)
                    (mkBusSlot (s_in b) (s_out b) (auxin b) a
                               (in_count b) (out_count b) (auxin_count b) (auxout_count b + n))
                    (chain_incount x) (chain_outcount x))
  | BUS_NONE_IN =>
      if in_count b + auxin_count b >? 0 then Ok (Some PARAM_ERROR, x)
      else Ok (None, mkLocals st b (chain_incount x + n) (chain_outcount x))
  | BUS_NONE_OUT =>
      if out_count b + auxout_count b >? 0 then Ok (Some PARAM_ERROR, x)
      else Ok (None, mkLocals st b (chain_incount x) n)
  end.

(** for (i = 1; i < n_args; i++) { parse_bus_name; switch (err); switch (type) } *)
Fixpoint parse_loop (busnames : list string) (x : locals) : res (option ExitCode * locals) :=
  match busnames with
  | [] => Ok (None, x)
  | busname :: rest =>
      r <- parse_bus_name (Some busname) (busCount (l_state x)) ;;
      match r with
      | Rejected (INVAL_BUS_ERR | INVAL_BUS_CHAN_ERR | LOOP_ERR) => Ok (Some PARAM_ERROR, x)
      | Rejected UNKNOWN_ERR => Ok (Some SYSTEM_ERROR, x)
      | Rejected NO_ERR => Undef
      | Parsed type startchan endchan =>
          y <- add_bus type startchan endchan x ;;
          match y with
          | (Some code, x') => Ok (Some code, x')
          | (None, x') => parse_loop rest x'
          end
      end
  end.

(** bus_slot->auxin_count += chain_incount; bus_slot->out_count += chain_outcount;
    the slot is the one the queue holds for [name]. *)
Fixpoint update_head (name : string) (f : BusSlot -> BusSlot)
  (q : list (string * list BusSlot)) : list (string * list BusSlot) :=
  match q with
  | [] => []
  | (n, chain) :: rest =>
      if String.eqb n name then
        (n, match chain with s :: t => f s :: t | [] => [] end) :: rest
      else (n, chain) :: update_head name f rest
  end.

Definition add_chain_counts (cin cout : Z) (b : BusSlot) : BusSlot :=
  mkBusSlot (s_in b) (s_out b) (auxin b) (auxout b)
            (in_count b) (out_count b + cout) (auxin_count b + cin) (auxout_count b).

(** bus_config(instname, busname...): p[0] is [instname], p[1..] are
    [busnames].  The buffers of the aux buses are not modelled. *)
Definition bus_config (instname : string) (busnames : list string) (st : state)
  : res (ended * state) :=
  if (List.length busnames <? 1)%nat then Ok (RTExit PARAM_ERROR, st)
  else if negb (rtsetparams_called st) then Ok (RTExit PARAM_ERROR, st)
  else
    r <- parse_loop busnames (mkLocals st (new_BusSlot (busCount st)) 0 0) ;;
    match r with
    | (Some code, x) => Ok (RTExit code, l_state x)
    | (None, x) =>
        c <- check_bus_inst_config (bus_slot x) true (l_state x) ;;
        match c with
        | (NO_ERR, st1) =>
            i <- insert_bus_slot instname (bus_slot x) st1 ;;
            match i with
            | (NO_ERR, st2) =>
                let st3 :=
                  set_queue (update_head instname
                               (add_chain_counts (chain_incount x) (chain_outcount x))
                               (Inst_Bus_Config st2)) st2 in
                st4 <- create_play_order st3 ;;
                Ok (Return0, st4)
            | (_, st2) => Ok (RTExit SYSTEM_ERROR, st2)
            end
        | (_, st1) => Ok (RTExit SYSTEM_ERROR, st1)
        end
    end.

(** The error code that the configuration check of a call gives, for the
    calls that get that far. *)
Definition bus_config_check (busnames : list string) (st : state) : res (option ErrCode) :=
  r <- parse_loop busnames (mkLocals st (new_BusSlot (busCount st)) 0 0) ;;
  match r with
  | (Some _, _) => Ok None
  | (None, x) =>
      c <- check_bus_inst_config (bus_slot x) true (l_state x) ;;
      Ok (Some (fst c))
  end.

(** A score: bus_config calls one after the other; a call that ends in
    RTExit leaves its state to the next one. *)
Fixpoint run (calls : list (string * list string)) (st : state) : res state :=
  match calls with
  | [] => Ok st
  | (instname, busnames) :: rest =>
      r <- bus_config instname busnames st ;;
      run rest (snd r)
  end.

(** *** The aux graph *)

(** [p] is a parent of [c]: p feeds c. *)
Definition edge (st : state) (p c : Z) : Prop := In p (parents st c).

(** [a] is [b] or an ancestor of [b]. *)
Inductive reach (st : state) : Z -> Z -> Prop :=
| reach_refl : forall a, reach st a a
| reach_step : forall a b c, reach st a b -> edge st b c -> reach st a c.

(** [a] is in the transitive parent set of [b]. *)
Inductive ancestor (st : state) : Z -> Z -> Prop :=
| anc_edge : forall a b, edge st a b -> ancestor st a b
| anc_step : forall a b c, ancestor st a b -> edge st b c -> ancestor st a c.

Definition acyclic (st : state) : Prop := forall k, ~ ancestor st k k.

(** The position of a bus in a play list. *)
Fixpoint index_of (x : Z) (l : list Z) (i : nat) : option nat :=
  match l with
  | [] => None
  | y :: t => if y =? x then Some i else index_of x t (S i)
  end.

(** [p] comes before [c] in the list [l]. *)
Definition before (l : list Z) (p c : Z) : Prop :=
  exists i j, index_of p l 0 = Some i /\ index_of c l 0 = Some j /\ (i < j)%nat.

End Bus.

(** * States, programs and invariants that the properties speak of *)

Module TempoCases.
Import Tempo.

(** What the second loop of [tempo] leaves behind when it ends in [die]:
    the flag and BASIS are untouched, rxtime and accel are as they were,
    and xtime and temp differ only at the indices 1..npts, where they
    hold the values of this call. *)
Definition written (A : arith) (p : list (num A)) (basis : num A) (st : state A) : Prop :=
  forall k, (1 <= k <= npts st)%nat ->
    exists pm pm1,
      nth_error p (2 * (k - 1)) = Some pm /\
      nth_error p (2 * (k - 1) + 1) = Some pm1 /\
      (k < length (xtime st) -> rd A (xtime st) k = to_float A pm)%nat /\
      (k < length (temp st) ->
       rd A (temp st) k = to_float A (ddiv A pm1 (to_double A basis)))%nat.

(** The tempo map of scenario S2: tbase(60); tempo(0, 60, 4, 120). *)
Definition s2_map : state b32 :=
  match tempo b32 init32 (map Ieee.dofZ [0; 60; 4; 120]) with
  | Done st => st
  | _ => init32
  end.

(** The state after tempo(0, 60, 4, 120) and then the failing tempo(5, 0). *)
Definition s2_failed : state b32 :=
  match tempo b32 s2_map (map Ieee.dofZ [5; 0]) with
  | Died st => st
  | _ => init32
  end.

Definition is_died {A} (o : outcome A) : bool :=
  match o with Died _ => true | _ => false end.

(** The state that the failed call would leave if the four arrays held
    0 throughout. *)
Definition s2_zeroed : state b32 :=
  mkState b32 (repeat Ieee.zero TLENP) (repeat Ieee.zero TLENP) (repeat Ieee.zero TLENP)
          (repeat Ieee.zero TLENP) (BASIS s2_failed) true (npts s2_failed).

(** Claim C5 as stated fails in the arithmetic of the program: for the
    map tbase(60), tempo(0, 60, 100, 180) and t = 3, beat_time(time_beat(t))
    is 3 + 7 * 2^-22, which is more than 1e-6 away from 3. *)
Definition s5_map : state b32 :=
  match tempo b32 init32 (map Ieee.dofZ [0; 60; 100; 180]) with
  | Done st => st
  | _ => init32
  end.

(** The value of a finite number is m * 2^e. *)
Definition finite_value (x : spec_float) : option (Z * Z) :=
  match x with
  | S754_zero _ => Some (0, 0)
  | S754_finite s m e => Some (if s then Z.neg m else Z.pos m, e)
  | _ => None
  end.

End TempoCases.

Module MincCases.
Import Ascii String.
Import Ieee Minc.
Local Open Scope string_scope.
Local Open Scope list_scope.
Local Open Scope Z_scope.

(** A host: the list stack holds 15 lists of 1024 values at most, pow is
    not used by the programs below, and minc_die returns. *)
Definition host0 : host := mkHost 15 1024 (fun x _ => x) false.

Definition substring_warning : diag :=
  Warn "substring: end index out of range - using string endpoint".

(** function g() { return 7 }  and the call  g(41). *)
Definition g_def : Node :=
  NodeFuncDef (NodeFuncDecl "g") (NodeArgList NodeEmptyListElem)
              (NodeFuncBodySeq NodeNoop (NodeRet (NodeConstf (dofZ 7)))) false.

Definition g_call_1 : Node :=
  NodeCall (NodeLoadFuncSym "g") (NodeListElem NodeEmptyListElem (NodeConstf (dofZ 41))).

(** function f(float x) { return x + 1 }  and the calls  f(), f(41), f(41, 5). *)
Definition f_def : Node :=
  NodeFuncDef (NodeFuncDecl "f")
              (NodeArgList (NodeArgListElem NodeEmptyListElem (NodeDecl "x" MincFloatType)))
              (NodeFuncBodySeq NodeNoop
                 (NodeRet (NodeOperator OpPlus (NodeLoadSym "x") (NodeConstf (dofZ 1)))))
              false.

Definition f_call_0 : Node := NodeCall (NodeLoadFuncSym "f") NodeEmptyListElem.

Definition f_call_1 : Node :=
  NodeCall (NodeLoadFuncSym "f") (NodeListElem NodeEmptyListElem (NodeConstf (dofZ 41))).

Definition f_call_2 : Node :=
  NodeCall (NodeLoadFuncSym "f")
           (NodeListElem (NodeListElem NodeEmptyListElem (NodeConstf (dofZ 41)))
                         (NodeConstf (dofZ 5))).

Definition run_program (H : host) (n : Node) : outcome nres * mstate :=
  exct H 30 n initial_state.

(** What a computation does to the scope table: however it ends, the
    saved stacks of the callers are as before; when it returns, the stack
    of the running body has the height it had. *)
Definition keeps {A} (m : M A) : Prop :=
  forall st o st', m st = (o, st') ->
    match o with
    | Normal _ =>
        frames st' = frames st /\ List.length (locals st') = List.length (locals st)
    | Returned _ | Thrown => frames st' = frames st
    | OutOfFuel | Undefined => True
    end.

(** function h() { { { return 3 } } }: the return statement leaves two
    nested blocks; function k() { { } }: the body runs to its end. *)
Definition h_def : Node :=
  NodeFuncDef (NodeFuncDecl "h") (NodeArgList NodeEmptyListElem)
              (NodeBlock (NodeBlock (NodeRet (NodeConstf (dofZ 3))))) false.

Definition k_def : Node :=
  NodeFuncDef (NodeFuncDecl "k") (NodeArgList NodeEmptyListElem)
              (NodeBlock NodeNoop) false.

Definition call_of (name : string) : Node := NodeCall (NodeLoadFuncSym name) NodeEmptyListElem.

(** The state in which the calls are made: h and k defined, inside one
    block. *)
Definition defs_state : mstate :=
  snd (exct host0 30 (NodeSeq (NodeSeq h_def k_def) (NodeDecl "y" MincFloatType))
         (upd_scopes [] [[]] [] initial_state)).

End MincCases.

Module BusGraph.
Import Bus.
Local Open Scope list_scope.
Local Open Scope Z_scope.

(** The fields that only insert_bus_slot and the allocation change. *)
Definition graph_eq (st st' : state) : Prop :=
  busCount st' = busCount st /\
  Bus_Config_Status st' = Bus_Config_Status st /\
  In_Config st' = In_Config st /\
  HasChild st' = HasChild st /\
  HasParent st' = HasParent st /\
  AuxInUse st' = AuxInUse st /\
  Inst_Bus_Config st' = Inst_Bus_Config st /\
  length (Visited st') = length (Visited st) /\
  rtsetparams_called st' = rtsetparams_called st.

(** After the first loop with visit set, no bus is marked as visited. *)
Definition isset (l : list bool) (x : Z) : Prop := zget l x = Ok true.

Inductive check_bus_case (outs : list Z) (t : Z) (c : scan) : option ErrCode -> scan -> Prop :=
| cb_loop :
    zget (Checked c) t = Ok false -> In t outs ->
    check_bus_case outs t c (Some LOOP_ERR) c
| cb_visit chk checked node rp cnt vis' l :
    zget (Checked c) t = Ok chk -> (chk = true \/ ~ In t outs) ->
    zset (Checked c) t true = Ok checked ->
    zget (In_Config (sc_state c)) t = Ok node ->
    zget (Visited (sc_state c)) t = Ok false ->
    bus_count node > 0 ->
    zset (Visited (sc_state c)) t true = Ok vis' ->
    eff (bus_list node) (bus_count node) = Ok l ->
    check_bus_case outs t c None
      (mkScan (set_scan rp vis' (sc_state c)) checked cnt (added c ++ [l]))
| cb_skip chk checked node vis :
    zget (Checked c) t = Ok chk -> (chk = true \/ ~ In t outs) ->
    zset (Checked c) t true = Ok checked ->
    zget (In_Config (sc_state c)) t = Ok node ->
    zget (Visited (sc_state c)) t = Ok vis ->
    (bus_count node <= 0 \/ vis = true) ->
    check_bus_case outs t c None
      (mkScan (sc_state c) checked (r_p_count c) (added c)).

(** The buses not yet visited. *)
Definition unvisited (l : list bool) : nat := count_occ bool_dec l false.

(** What holds while the queue is worked off; [P] holds of the buses still
    on the queue. *)
Definition Inv (G : state) (ins outs : list Z) (st : state) (chk : list bool) (P : Z -> Prop) : Prop :=
  graph_eq G st /\
  (forall x, isset chk x -> ~ In x outs) /\
  (forall a, In a ins -> isset chk a \/ P a) /\
  (forall x p, isset chk x -> In p (parents G x) -> isset chk p \/ P p) /\
  (forall x, isset (Visited st) x -> isset chk x).

Definition sub_graph (st' st : state) : Prop := forall p c, edge st' p c -> edge st p c.

(** The graph of [st'] has the edges of [st] and, at most, new ones among
    those of [X]; the size and the allocation flag are the same. *)
Definition grows (X : Z -> Z -> Prop) (st st' : state) : Prop :=
  busCount st' = busCount st /\
  Bus_Config_Status st' = Bus_Config_Status st /\
  length (Visited st') = length (Visited st) /\
  rtsetparams_called st' = rtsetparams_called st /\
  forall p c, edge st' p c -> edge st p c \/ X p c.

(** A path of one edge or more in a relation. *)
Inductive path (E : Z -> Z -> Prop) : Z -> Z -> Prop :=
| path_edge : forall a b, E a b -> path E a b
| path_step : forall a b c, path E a b -> E b c -> path E a c.

(** The graph is allocated and the arrays have their size. *)
Definition ready (st : state) : Prop :=
  Bus_Config_Status st = true /\ length (Visited st) = nbus st.

(** The graph with the edges that a slot asks for: from each of its
    aux-in buses to each of its aux-out buses. *)
Definition with_slot (st : state) (ins outs : list Z) (p c : Z) : Prop :=
  edge st p c \/ (In p ins /\ In c outs).

(** The slot's aux-in and aux-out buses would close a cycle. *)
Definition would_cycle (st : state) (slot : BusSlot) : Prop :=
  exists ins outs k,
    eff (auxin slot) (auxin_count slot) = Ok ins /\
    eff (auxout slot) (auxout_count slot) = Ok outs /\
    path (with_slot st ins outs) k k.

(** The bus graph and the queue of slots are the same. *)
Definition same_graph (st st' : state) : Prop :=
  (forall k, parents st' k = parents st k) /\
  HasChild st' = HasChild st /\
  HasParent st' = HasParent st /\
  AuxInUse st' = AuxInUse st /\
  Inst_Bus_Config st' = Inst_Bus_Config st.

(** What holds of the engine between two calls. *)
Definition wf (st : state) : Prop :=
  rtsetparams_called st = true /\
  length (Visited st) = nbus st /\
  (Bus_Config_Status st = false -> forall k, parents st k = []).

End BusGraph.

Module BusCases.
Import Ascii String.
Import Bus.
Local Open Scope string_scope.
Local Open Scope list_scope.
Local Open Scope Z_scope.

(** The score of five instruments: 0 -> 1 -> 2 -> 3 -> 4 and 1 -> 4. *)
Definition diamond_score : list (string * list string) :=
  [("i1", ["aux 0 in"; "aux 1 out"]);
   ("i2", ["aux 1 in"; "aux 2 out"]);
   ("i3", ["aux 2 in"; "aux 3 out"]);
   ("i4", ["aux 3 in"; "aux 4 out"]);
   ("i5", ["aux 1 in"; "aux 4 out"])].

Definition state_of (r : res state) : state :=
  match r with Ok st => st | _ => initial 0 0 end.

Definition is_ok {A} (r : res A) : bool := match r with Ok _ => true | _ => false end.

Definition diamond : state := state_of (run diamond_score (initial 8 2)).

Definition returns0 (r : res (ended * state)) : bool :=
  match r with Ok (Return0, _) => true | _ => false end.

(** A score whose second call would close the cycle 0 -> 1 -> 0. *)
Definition one_edge : list (String.string * list String.string) := [("A", ["aux 0 in"; "aux 1 out"])%string].

Definition back_edge : list String.string := ["aux 1 in"; "aux 0 out"]%string.

Definition after_A : state := Eval vm_compute in state_of (run one_edge (initial 4 2)).

Definition locals_B : locals :=
  Eval vm_compute in
    match parse_loop back_edge (mkLocals after_A (new_BusSlot (busCount after_A)) 0 0) with
    | Ok (_, x) => x
    | _ => mkLocals after_A (new_BusSlot 0) 0 0
    end.

Definition after_B : state :=
  Eval vm_compute in
    match bus_config "B"%string back_edge after_A with
    | Ok (_, st) => st
    | _ => after_A
    end.

End BusCases.

(** * The shape of a tempo map *)

Module TempoShapes.
Import Tempo.

(** The arrays keep their lengths. *)
Definition same_sizes {A : arith} (st st' : state A) : Prop :=
  length (xtime st') = length (xtime st) /\
  length (temp st') = length (temp st) /\
  length (rxtime st') = length (rxtime st) /\
  length (accel st') = length (accel st).

(** The pairs that the second loop of [tempo] has stored at the indices
    from [lo] up to, not including, [hi]. *)
Definition stored {A : arith} (p : list (num A)) (basis : num A) (lo hi : nat) (st : state A) : Prop :=
  forall k, (lo <= k < hi)%nat ->
    exists pm pm1,
      nth_error p (2 * (k - 1)) = Some pm /\
      nth_error p (2 * (k - 1) + 1) = Some pm1 /\
      (k < length (xtime st) -> rd A (xtime st) k = to_float A pm)%nat /\
      (k < length (temp st) ->
       rd A (temp st) k = to_float A (ddiv A pm1 (to_double A basis)))%nat /\
      eqb A (to_double A (to_float A (ddiv A pm1 (to_double A basis)))) (zero A) = false.

(** The four arrays have their TLENP elements. *)
Definition full_size {A : arith} (st : state A) : Prop :=
  length (xtime st) = TLENP /\ length (temp st) = TLENP /\
  length (rxtime st) = TLENP /\ length (accel st) = TLENP.

(** The third loop of [tempo] writes accel[m] and rxtime[m+1] only. *)
Definition seg_frame {A : arith} (st st' : state A) : Prop :=
  xtime st' = xtime st /\ temp st' = temp st /\ BASIS st' = BASIS st /\
  tset st' = tset st /\ npts st' = npts st /\ same_sizes st st'.

(** The call returned 0. *)
Definition is_done {A} (o : outcome A) : bool :=
  match o with Done _ => true | _ => false end.

End TempoShapes.

(** * The tempo map in exact arithmetic *)

Module Exact.
Import Reals.
Import Tempo.
Local Open Scope R_scope.

Definition Reqb (x y : R) : bool := if Req_dec_T x y then true else false.
Definition Rltb (x y : R) : bool := if Rlt_dec x y then true else false.
Definition Rleb (x y : R) : bool := if Rle_dec x y then true else false.

(** The arithmetic of the real numbers: every operation is exact and the
    conversions between float and double change nothing. *)
Definition exact : arith :=
  mkArith R 0 2 2 9999990000
          (fun x => x) (fun x => x)
          Rplus Rminus Rmult Rdiv
          Rplus Rminus Rmult Rdiv
          sqrt Reqb Rltb Rleb.

(** The arguments p[0], p[1], ... of a call tempo(t1, T1, t2, T2, ...). *)
Fixpoint flatten (pairs : list (R * R)) : list R :=
  match pairs with
  | [] => []
  | (t, T) :: rest => t :: T :: flatten rest
  end.

(** The times do not decrease, from [lo] on, and stay below the time that
    closes the map; the tempi are positive. *)
Fixpoint ascending (lo : R) (pairs : list (R * R)) : Prop :=
  match pairs with
  | [] => lo <= far exact
  | (t, T) :: rest => lo <= t /\ 0 < T /\ ascending t rest
  end.

(** The four arrays have their TLENP elements. *)
Definition sized (st : state exact) : Prop :=
  length (xtime st) = TLENP /\ length (temp st) = TLENP /\
  length (rxtime st) = TLENP /\ length (accel st) = TLENP.

(** A legal call of tempo: one to ten pairs, times from 0 on that do not
    decrease, positive tempi, and a positive BASIS. *)
Definition legal (st : state exact) (pairs : list (R * R)) : Prop :=
  sized st /\ 0 < BASIS st /\ (1 <= length pairs <= 10)%nat /\ ascending 0 pairs.

(** The beats that pass in the first [d] seconds of a segment that starts
    at tempo [T] with acceleration [a], and the seconds that its first [e]
    beats take: the two expressions of time_beat and beat_time. *)
Definition beats (T a d : R) : R :=
  if Reqb a 0 then d / T else (sqrt (T * T + 2 * a * d) - T) / a.

Definition secs (T a e : R) : R :=
  if Reqb a 0 then e * T else ((e * a + T) * (e * a + T) - T * T) / (2 * a).

(** Segment [m] of a map: what the second loop of tempo stores for it. *)
Definition seg_ok (st : state exact) (m : nat) : Prop :=
  let dur := rd exact (xtime st) (m + 1) - rd exact (xtime st) m in
  (dur = 0 ->
   rd exact (accel st) m = 0 /\ rd exact (rxtime st) (m + 1) = rd exact (rxtime st) m) /\
  (dur <> 0 ->
   rd exact (accel st) m =
     (rd exact (temp st) (m + 1) * rd exact (temp st) (m + 1)
      - rd exact (temp st) m * rd exact (temp st) m) / (2 * dur) /\
   rd exact (rxtime st) (m + 1) =
     beats (rd exact (temp st) m) (rd exact (accel st) m) dur + rd exact (rxtime st) m).

(** A map as tempo leaves it. *)
Definition good (st : state exact) : Prop :=
  tset st = true /\
  (1 <= npts st)%nat /\
  rd exact (xtime st) 0 = 0 /\
  rd exact (rxtime st) 0 = 0 /\
  rd exact (xtime st) (npts st) = far exact /\
  (forall m, (m < npts st)%nat -> rd exact (xtime st) m <= rd exact (xtime st) (m + 1)) /\
  (forall m, (m <= npts st)%nat -> 0 < rd exact (temp st) m) /\
  (forall m, (m < npts st)%nat -> seg_ok st m).

End Exact.

(** * More of bus_config.cpp *)

Module BusMore.
Import Ascii String.
Import Bus BusGraph BusCases.
Local Open Scope string_scope.
Local Open Scope list_scope.
Local Open Scope Z_scope.

(** The buses that the traversal meets feed one of the slot's aux-in
    buses, or are one. *)
Definition feeds (G : state) (ins : list Z) (x : Z) : Prop := exists a, In a ins /\ reach G x a.

(** Every edge of the graph has left its marks: the child has HasParent,
    the parent has HasChild, and both are in use as aux buses. *)
Definition flagged (st : state) : Prop :=
  forall p c, edge st p c ->
    isset (HasParent st) c /\ isset (HasChild st) p /\
    isset (AuxInUse st) p /\ isset (AuxInUse st) c.

(** The arrays of the graph have busCount elements, and once the graph is
    allocated each node's bus_list has busCount elements and its bus_count
    is an index into it. *)
Definition in_bounds (st : state) : Prop :=
  List.length (In_Config st) = nbus st /\
  List.length (HasChild st) = nbus st /\
  List.length (HasParent st) = nbus st /\
  List.length (AuxInUse st) = nbus st /\
  (Bus_Config_Status st = true ->
   forall k node, zget (In_Config st) k = Ok node ->
     0 <= bus_count node < busCount st /\ List.length (bus_list node) = nbus st).

(** What a score keeps of the marks. *)
Definition marked (st : state) : Prop :=
  (Bus_Config_Status st = false -> forall k, parents st k = []) /\ flagged st.

(** insert_edge, case by case. *)
Inductive insert_edge_case (s_out s_in : Z) (st : state) : state -> Prop :=
| ie_skip hp' :
    s_in = 333 ->
    (forall x, isset hp' x <-> isset (HasParent st) x) ->
    List.length hp' = List.length (HasParent st) ->
    insert_edge_case s_out s_in st
      (set_graph (In_Config st) (HasChild st) hp' (AuxInUse st) st)
| ie_add node bl ic hc au hp' :
    s_in <> 333 ->
    zget (In_Config st) s_out = Ok node ->
    zset (bus_list node) (bus_count node) s_in = Ok bl ->
    zset (In_Config st) s_out
         (mkCheckNode bl (if bus_count node + 1 >=? busCount st then 0
                          else bus_count node + 1)) = Ok ic ->
    zset (HasChild st) s_in true = Ok hc ->
    zset (AuxInUse st) s_in true = Ok au ->
    isset hp' s_out ->
    (forall x, isset hp' x <-> x = s_out \/ isset (HasParent st) x) ->
    List.length hp' = List.length (HasParent st) ->
    insert_edge_case s_out s_in st (set_graph ic hc hp' au st).


(** The search of get_bus_config:
      for (q = Inst_Bus_Config; q; q = q->next)
        if (strcmp(inst_name, q->instName()) == 0) return q->slot;
    The answer is the slot with the slots that its next links lead to;
    [None] is the case in which the loop ends and get_bus_config goes on to
    build the default slot. *)
Fixpoint find_bus_config (inst_name : string) (q : list (string * list BusSlot))
  : option (list BusSlot) :=
  match q with
  | [] => None
  | (n, chain) :: rest =>
      if String.eqb inst_name n then Some chain else find_bus_config inst_name rest
  end.

(** The state that the check of the second call of [one_edge]'s score
    leaves. *)
Definition checked_B : state :=
  Eval vm_compute in
    match check_bus_inst_config (bus_slot locals_B) true (l_state locals_B) with
    | Ok (_, st) => st
    | _ => after_A
    end.

(** The buses that the first loop of create_play_order puts on the play
    list: those below [n] that are in use as aux buses and have no parent,
    in increasing order. *)
Definition is_root (st : state) (i : nat) : bool :=
  match zget (AuxInUse st) (Z.of_nat i), zget (HasParent st) (Z.of_nat i) with
  | Ok true, Ok false => true
  | _, _ => false
  end.

Definition roots (st : state) (n : nat) : list Z :=
  map Z.of_nat (filter (is_root st) (seq 0 n)).

(** The entries below [r] stay, the counter does not go down. *)
Definition settled (r : nat) (a b : state * Z) : Prop :=
  (Z.of_nat r <= snd a -> Z.of_nat r <= snd b /\
   firstn r (AuxToAuxPlayList (fst b)) = firstn r (AuxToAuxPlayList (fst a))).

Definition replayed : state :=
  Eval vm_compute in state_of (create_play_order diamond).

(** The buses below [n] whose flag is set, in increasing order. *)
Definition flag_set (flags : list bool) (i : nat) : bool :=
  match zget flags (Z.of_nat i) with
  | Ok true => true
  | _ => false
  end.

Definition in_use (flags : list bool) (n : nat) : list Z :=
  map Z.of_nat (filter (flag_set flags) (seq 0 n)).

(** A play list starts with the buses in use. *)
Definition lists (flags : list bool) (n : nat) (l : list Z) : Prop :=
  firstn (List.length (in_use flags n)) l = in_use flags n.

Definition listed (st : state) : Prop :=
  lists (OutInUse st) (nbus st) (ToOutPlayList st) /\
  lists (AuxOutInUse st) (nbus st) (ToAuxPlayList st).

(** The flags and the play lists of the output buses are the same. *)
Definition same_outputs (a b : state) : Prop :=
  busCount b = busCount a /\
  OutInUse b = OutInUse a /\ AuxOutInUse b = AuxOutInUse a /\
  ToOutPlayList b = ToOutPlayList a /\ ToAuxPlayList b = ToAuxPlayList a.

(** A slot does not have 'in' and 'aux-in' buses at once, nor 'out' and
    'aux-out' buses. *)
Definition unmixed (b : BusSlot) : Prop :=
  ~ (in_count b > 0 /\ auxin_count b > 0) /\
  ~ (out_count b > 0 /\ auxout_count b > 0).

(** A call that asks for 'in' and 'aux-in' buses at once. *)
Definition mixed_names : list string := ["in 0"; "aux 1 in"].

Definition after_mixed : state :=
  Eval vm_compute in
    match bus_config "C" mixed_names after_A with
    | Ok (_, st) => st
    | _ => after_A
    end.

(** A call that reads aux bus 1 and writes to out 0-1. *)
Definition name_out : string := "D".

Definition names_out : list string := ["aux 1 in"; "out 0-1"].

Definition after_out : state :=
  Eval vm_compute in
    match bus_config name_out names_out after_A with
    | Ok (_, st) => st
    | _ => after_A
    end.

Definition names_A : list string := ["aux 0 in"; "aux 1 out"].

End BusMore.

(** * Mixing into the bus buffers (bus_config.cpp: addToBus, mixOperation, mixToBus) *)

Module Mix.
Import Bus.
Local Open Scope list_scope.
Local Open Scope Z_scope.

Section Code.
(** BUFTYPE and its [+]. *)
Variable F : Type.
Variable add : F -> F -> F.

(** aux_buffer[bus] and out_buffer[bus]. *)
Record buffers := mkBuffers {
  aux_buffer : list (list F);
  out_buffer : list (list F)
}.

(** A BufPtr into a bus buffer: the array it comes from, the bus and the
    index. *)
Record dest_ptr := mkDest {
  d_type : BusType;
  d_bus : Z;
  d_at : Z
}.

(** A BufPtr into the buffer of an instrument, which mixing reads only:
    the contents of the buffer and the index. *)
Record src_ptr := mkSrc {
  s_buf : list F;
  s_at : Z
}.

Record MixData := mkMixData {
  src : src_ptr;
  dest : dest_ptr;
  frames : Z;
  channels : Z
}.

(** (type == BUS_AUX_OUT) ? aux_buffer[bus] : out_buffer[bus] *)
Definition bus_buffer (type : BusType) (bus : Z) (b : buffers) : res (list F) :=
  match type with
  | BUS_AUX_OUT => zget (aux_buffer b) bus
  | _ => zget (out_buffer b) bus
  end.

Definition set_bus_buffer (type : BusType) (bus : Z) (buf : list F) (b : buffers)
  : res buffers :=
  match type with
  | BUS_AUX_OUT => l <- zset (aux_buffer b) bus buf ;; Ok (mkBuffers l (out_buffer b))
  | _ => l <- zset (out_buffer b) bus buf ;; Ok (mkBuffers (aux_buffer b) l)
  end.

(** dest[d] += src[s] *)
Definition mix_one (sbuf : list F) (d s : Z) (buf : list F) : res (list F) :=
  x <- zget sbuf s ;;
  y <- zget buf d ;;
  zset buf d (add y x).

(** for (n = 0; n < count; ++n) { dest[n] += *src; src += chans; }
    The state of the loop is the position of src and the bus buffer. *)
Definition frame_body (sbuf : list F) (d chans : Z) (n : Z) (x : Z * list F)
  : res (Z * list F) :=
  let '(s, buf) := x in
  buf <- mix_one sbuf (d + n) s buf ;;
  Ok (s + chans, buf).

(** The first loop of mixOperation, four frames a turn; the state is the
    positions of dest and src and the bus buffer. *)
Definition four_body (sbuf : list F) (chans chansx2 chansx3 chansx4 : Z) (n : Z)
  (x : Z * Z * list F) : res (Z * Z * list F) :=
  let '(d, s, buf) := x in
  buf <- mix_one sbuf (d + 0) (s + 0) buf ;;
  buf <- mix_one sbuf (d + 1) (s + chans) buf ;;
  buf <- mix_one sbuf (d + 2) (s + chansx2) buf ;;
  buf <- mix_one sbuf (d + 3) (s + chansx3) buf ;;
  Ok (d + 4, s + chansx4, buf).

(** mixOperation on the buffer that m.dest points into.  The int values
    wrap around. *)
Definition mix_into (m : MixData) (buf : list F) : res (list F) :=
  let framesOverFour := Z.shiftr (frames m) 2 in
  let framesRemaining := to_int32 (frames m - to_int32 (Z.shiftl framesOverFour 2)) in
  let chans := channels m in
  let chansx2 := to_int32 (Z.shiftl chans 1) in
  let chansx3 := to_int32 (chansx2 + chans) in
  let chansx4 := to_int32 (chansx2 + chansx2) in
  x <- for_upto (Z.to_nat framesOverFour)
         (four_body (s_buf (src m)) chans chansx2 chansx3 chansx4)
         (d_at (dest m), s_at (src m), buf) ;;
  let '(d, s, buf) := x in
  y <- for_upto (Z.to_nat framesRemaining) (frame_body (s_buf (src m)) d chans) (s, buf) ;;
  Ok (snd y).

Definition mixOperation (m : MixData) (b : buffers) : res buffers :=
  buf <- bus_buffer (d_type (dest m)) (d_bus (dest m)) b ;;
  buf <- mix_into m buf ;;
  set_bus_buffer (d_type (dest m)) (d_bus (dest m)) buf b.

(** The arguments of a call of addToBus. *)
Record call := mkCall {
  c_type : BusType;
  c_bus : Z;
  c_src : src_ptr;
  c_offset : Z;
  c_endfr : Z;
  c_chans : Z
}.

(** MixData(src, buffer[bus] + offset, endfr - offset, chans) *)
Definition request (c : call) : MixData :=
  mkMixData (c_src c) (mkDest (c_type c) (c_bus c) (c_offset c))
            (to_int32 (c_endfr c - c_offset c)) (c_chans c).

(** With MULTI_THREAD: addToBus puts the request on the vector of the
    calling thread, [thread] being RTThread::GetIndexForThread(). *)
Definition addToBus_deferred (thread : Z) (c : call) (mixVectors : list (list MixData))
  : res (list (list MixData)) :=
  v <- zget mixVectors thread ;;
  zset mixVectors thread (v ++ [request c]).

(** mixToBus: the vectors of the threads one after the other, each one
    emptied afterwards; mixVectors has RT_THREAD_COUNT elements. *)
Definition mixToBus (mixVectors : list (list MixData)) (b : buffers)
  : res (list (list MixData) * buffers) :=
  b <- for_each mixVectors (fun v b => for_each v mixOperation b) b ;;
  Ok (map (fun _ => []) mixVectors, b).

(** Without MULTI_THREAD: addToBus mixes at once,
      for (frame = offset; frame < endfr; frame++) { dest[frame] += *src; src += chans; } *)
Definition addToBus (c : call) (b : buffers) : res buffers :=
  buf <- bus_buffer (c_type c) (c_bus c) b ;;
  y <- for_upto (Z.to_nat (c_endfr c - c_offset c))
         (frame_body (s_buf (c_src c)) (c_offset c) (c_chans c)) (s_at (c_src c), buf) ;;
  set_bus_buffer (c_type c) (c_bus c) (snd y) b.

(** The immediate mix of a request that was put aside. *)
Definition mix_at_once (m : MixData) (b : buffers) : res buffers :=
  addToBus (mkCall (d_type (dest m)) (d_bus (dest m)) (src m)
                   (d_at (dest m)) (d_at (dest m) + frames m) (channels m)) b.

(** A request whose int values the shifts and sums of mixOperation keep. *)
Definition in_range (m : MixData) : Prop :=
  0 <= frames m < 2 ^ 31 /\ 0 <= channels m /\ 4 * channels m < 2 ^ 31.

(** A call whose frames are not fewer than 0 and whose int values the
    shifts and sums of mixOperation keep. *)
Definition call_in_range (c : call) : Prop :=
  c_offset c <= c_endfr c /\ c_endfr c - c_offset c < 2 ^ 31 /\
  0 <= c_chans c /\ 4 * c_chans c < 2 ^ 31.

End Code.

Arguments mkBuffers {F} _ _.
Arguments aux_buffer {F} _.
Arguments out_buffer {F} _.
Arguments mkSrc {F} _ _.
Arguments s_buf {F} _.
Arguments s_at {F} _.
Arguments mkMixData {F} _ _ _ _.
Arguments src {F} _.
Arguments dest {F} _.
Arguments frames {F} _.
Arguments channels {F} _.
Arguments in_range {F} _.
Arguments mkCall {F} _ _ _ _ _ _.
Arguments c_type {F} _.
Arguments c_bus {F} _.
Arguments c_src {F} _.
Arguments c_offset {F} _.
Arguments c_endfr {F} _.
Arguments c_chans {F} _.
Arguments call_in_range {F} _.

(** Two calls that mix into out_buffer[0]: 6 frames of a buffer of two
    channels, then 3 frames of a buffer of one. *)
Definition two_calls : list (call Z) :=
  [mkCall BUS_OUT 0 (mkSrc [1; 2; 3; 4; 5; 6; 7; 8; 9; 10; 11; 12] 0) 1 7 2;
   mkCall BUS_OUT 0 (mkSrc [100; 200; 300] 0) 0 3 1].

Definition silence : buffers Z := mkBuffers [[0; 0; 0; 0]] [[0; 0; 0; 0; 0; 0; 0; 0]].

End Mix.

(** * More of builtin.cpp: type, index and contains *)

Module Builtin.
Import Ascii String.
Import Ieee Minc.
Local Open Scope string_scope.
Local Open Scope list_scope.
Local Open Scope Z_scope.

(** A MincValue with what these builtins read of it: the number, the
    string, the address that a handle, list or map pointer holds ([None]
    for NULL) and, for a list, its elements (len is their number). *)
Inductive Value :=
| VVoid
| VFloat (d : double)
| VString (s : option string)
| VHandle (h : option Z)
| VList (l : option (Z * list Value))
| VMap (m : option Z)
| VStruct
| VFunction.

Definition dataType (v : Value) : MincDataType :=
  match v with
  | VVoid => MincVoidType
  | VFloat _ => MincFloatType
  | VString _ => MincStringType
  | VHandle _ => MincHandleType
  | VList _ => MincListType
  | VMap _ => MincMapType
  | VStruct => MincStructType
  | VFunction => MincFunctionType
  end.

(** _make_type_string *)
Definition _make_type_string (type : MincDataType) : option string :=
  match type with
  | MincVoidType => Some "void"
  | MincFloatType => Some "float"
  | MincStringType => Some "string"
  | MincHandleType => Some "handle"
  | MincListType => Some "list"
  | MincMapType => Some "map"
  | MincStructType => Some "struct"
  | MincFunctionType => Some "function"
  end.

(** _minc_type(args, nargs), with nargs the length of [args]; [None] is
    the NULL string. *)
Definition _minc_type (args : list Value) : M (option string) :=
  match args with
  | [a0] => ret (_make_type_string (dataType a0))
  | _ => minc_warn "type: must have one argument" ;;; ret None
  end.

(** p == q for two pointers. *)
Definition ptr_eqb (p q : option Z) : bool :=
  match p, q with
  | None, None => true
  | Some a, Some b => a =? b
  | _, _ => false
  end.

Definition list_ptr (l : option (Z * list Value)) : option Z :=
  match l with
  | Some (a, _) => Some a
  | None => None
  end.

(** The test of one element in the loop of _minc_index; [None] is the
    strcmp of a NULL string. *)
Definition item_matches (argtype : MincDataType) (d item : Value) : option bool :=
  if MincDataType_eqb (dataType d) argtype then
    match argtype, d, item with
    | MincFloatType, VFloat x, VFloat y => Some (SFeqb x y)
    | MincStringType, VString (Some a), VString (Some b) => Some (String.eqb a b)
    | MincStringType, VString _, VString _ => None
    | MincListType, VList a, VList b => Some (ptr_eqb (list_ptr a) (list_ptr b))
    | MincHandleType, VHandle a, VHandle b => Some (ptr_eqb a b)
    | _, _, _ => Some false
    end
  else Some false.

(** for (i = 0; i < len; i++) ... index = i; break; with [i] the index of
    the head of [data]; the result is index, [None] undefined behaviour. *)
Fixpoint index_loop (argtype : MincDataType) (item : Value) (data : list Value) (i : Z)
  : option Z :=
  match data with
  | [] => Some (-1)
  | d :: rest =>
      match item_matches argtype d item with
      | None => None
      | Some true => Some i
      | Some false => index_loop argtype item rest (i + 1)
      end
  end.

(** _minc_index(args, nargs).  The assertion that the item is not void
    ends the program when it fails. *)
Definition _minc_index (args : list Value) : M double :=
  match args with
  | [a0; a1] =>
      if negb (MincDataType_eqb (dataType a0) MincListType) then
        minc_warn "index: first argument must be a list" ;;; ret minus_one
      else if MincDataType_eqb (dataType a1) MincVoidType then undefined
      else
        match a0 with
        | VList (Some (_, data)) =>
            match index_loop (dataType a1) a1 data 0 with
            | Some index => ret (dofZ index)
            | None => undefined
            end
        | _ => undefined     (* ((MincList * )NULL)->len *)
        end
  | _ => minc_warn "index: must have two arguments (list, item_to_find)" ;;; ret minus_one
  end.

(** strstr(haystack, needle) != NULL *)
Fixpoint strstr (haystack needle : string) : bool :=
  prefix needle haystack ||
  match haystack with
  | EmptyString => false
  | String _ t => strstr t needle
  end.

Definition of_bool (b : bool) : double := if b then one else zero.

(** _minc_contains(args, nargs).  MincMap::contains is not among the
    sources: a map that is not NULL is not modelled. *)
Definition _minc_contains (args : list Value) : M double :=
  match args with
  | [a0; a1] =>
      if MincDataType_eqb (dataType a1) MincVoidType then undefined
      else
        match a0 with
        | VList _ =>
            r <- _minc_index args ;;
            ret (of_bool (negb (SFeqb r minus_one)))
        | VMap None => ret zero
        | VMap (Some _) => undefined
        | VString theString =>
            match a1 with
            | VString theNeedle =>
                match theNeedle, theString with
                | None, _ => ret zero
                | Some n, Some s => ret (of_bool (strstr s n))
                | Some _, None => undefined
                end
            | _ =>
                minc_warn "contains: second argument must be a string if examining a string" ;;;
                ret zero
            end
        | _ =>
            minc_warn "contains: first argument must be a string, list, or map" ;;;
            ret zero
        end
  | _ =>
      minc_warn "contains: must have two arguments (container, item_to_find)" ;;;
      ret zero
  end.

(** The item is found at [i], and not before. *)
Definition first_match (item : Value) (data : list Value) (i : nat) : Prop :=
  (exists d, nth_error data i = Some d /\ item_matches (dataType item) d item = Some true) /\
  forall k d, (k < i)%nat -> nth_error data k = Some d ->
    item_matches (dataType item) d item = Some false.

Definition no_match (item : Value) (data : list Value) : Prop :=
  forall d, In d data -> item_matches (dataType item) d item = Some false.

(** The list {1, 2, "three", 4} of the comment of index, at address 64. *)
Definition one_two_three_four : Value :=
  VList (Some (64, [VFloat (dofZ 1); VFloat (dofZ 2); VString (Some "three"); VFloat (dofZ 4)])).

End Builtin.

(** * bus_config inside its arrays *)

Module BusSafe.
Import Bus BusGraph BusCases BusMore.
Local Open Scope list_scope.
Local Open Scope Z_scope.

(** A bus number. *)
Definition valid (n : Z) (k : Z) : Prop := 0 <= k < n.

(** Every array of the engine has busCount elements. *)
Definition sized_all (st : state) : Prop :=
  length (In_Config st) = nbus st /\
  length (HasChild st) = nbus st /\
  length (HasParent st) = nbus st /\
  length (AuxInUse st) = nbus st /\
  length (AuxOutInUse st) = nbus st /\
  length (OutInUse st) = nbus st /\
  length (RevPlay st) = nbus st /\
  length (Visited st) = nbus st /\
  length (ToOutPlayList st) = nbus st /\
  length (ToAuxPlayList st) = nbus st /\
  length (AuxToAuxPlayList st) = nbus st.

(** Once the graph is allocated, a node has busCount places for parents,
    its count is an index, and the parents it lists are bus numbers. *)
Definition nodes_valid (st : state) : Prop :=
  Bus_Config_Status st = true ->
  forall k node, zget (In_Config st) k = Ok node ->
    length (bus_list node) = nbus st /\
    0 <= bus_count node < busCount st /\
    forall p, In p (firstn (Z.to_nat (bus_count node)) (bus_list node)) ->
      valid (busCount st) p.

Definition safe (st : state) : Prop := sized_all st /\ nodes_valid st.

(** The graph of [n] buses is allocated. *)
Definition allocated (n : Z) (st : state) : Prop :=
  busCount st = n /\ safe st /\ Bus_Config_Status st = true.

(** A result that is not undefined behaviour, and satisfies [Q] when the
    function has returned. *)
Definition fine {T} (Q : T -> Prop) (r : res T) : Prop :=
  match r with
  | Ok t => Q t
  | Undef => False
  | NoFuel => True
  end.

(** The number of indices below [n] that satisfy [f]. *)
Definition cnt (f : nat -> bool) (n : nat) : nat := length (filter f (seq 0 n)).

Definition with_parent (st : state) (i : nat) : bool := flag_set (HasParent st) i.

(** The buses with a parent that no traversal has visited. *)
Definition waiting (st : state) (i : nat) : bool :=
  flag_set (HasParent st) i && negb (flag_set (Visited st) i).

(** Their number; before the first traversal of create_play_order, which
    resets Visited, all the buses with a parent. *)
Definition W (visit : bool) (st : state) : nat :=
  if visit then cnt (with_parent st) (nbus st) else cnt (waiting st) (nbus st).

(** RevPlay holds a bus at the index [i]. *)
Definition rev_set (st : state) (i : nat) : bool :=
  match zget (RevPlay st) (Z.of_nat i) with
  | Ok rp => negb (rp =? -1)
  | _ => false
  end.

(** What holds of the traversal of [n] buses while it runs: [w0] buses
    with a parent were waiting when it started. *)
Definition scanning (n : Z) (w0 : nat) (c : scan) : Prop :=
  busCount (sc_state c) = n /\
  safe (sc_state c) /\
  Bus_Config_Status (sc_state c) = true /\
  length (Checked c) = nbus (sc_state c) /\
  0 <= r_p_count c /\
  (Z.to_nat (r_p_count c) + W false (sc_state c) <= w0)%nat /\
  (w0 <= nbus (sc_state c))%nat /\
  (forall j, r_p_count c <= j < busCount (sc_state c) ->
     zget (RevPlay (sc_state c)) j = Ok (-1)) /\
  Forall (Forall (valid n)) (added c).

(** What the check leaves for create_play_order: the entries of RevPlay
    are as many as the buses with a parent that it has visited, at most. *)
Definition scanned (w0 : nat) (st : state) : Prop :=
  safe st /\ Bus_Config_Status st = true /\
  (cnt (rev_set st) (nbus st) + W false st <= w0)%nat.

(** The second loop of create_play_order: the play list has room for the
    buses that wait. *)
Definition playing (x : state * Z * bool) : Prop :=
  let '(st, aux_p_count, visit) := x in
  safe st /\ Bus_Config_Status st = true /\
  0 <= aux_p_count /\ (Z.to_nat aux_p_count + W visit st <= nbus st)%nat.

(** The arrays that the graph does not hold keep their sizes from [a] to
    [b]. *)
Definition sizes_kept (a b : state) : Prop :=
  length (AuxOutInUse b) = length (AuxOutInUse a) /\
  length (OutInUse b) = length (OutInUse a) /\
  length (RevPlay b) = length (RevPlay a) /\
  length (Visited b) = length (Visited a) /\
  length (ToOutPlayList b) = length (ToOutPlayList a) /\
  length (ToAuxPlayList b) = length (ToAuxPlayList a) /\
  length (AuxToAuxPlayList b) = length (AuxToAuxPlayList a).

(** The locals of the call D of the scenario, once its bus names are
    parsed. *)
Definition locals_out : locals :=
  Eval vm_compute in
    match parse_loop names_out (mkLocals after_A (new_BusSlot (busCount after_A)) 0 0) with
    | Ok (_, x) => x
    | _ => mkLocals after_A (new_BusSlot (busCount after_A)) 0 0
    end.

End BusSafe.

(** * Options set from a script (set_option.cpp, Option.cpp) *)

Module SetOption.
Import Ascii String.
Import Bus.
Local Open Scope list_scope.
Local Open Scope Z_scope.

(** A C string is the list of its characters, without the NUL that ends
    it. *)
Definition chars (s : String.string) : list ascii := String.list_ascii_of_string s.
Arguments chars s%_string.

Definition code (c : ascii) : Z := Z.of_nat (nat_of_ascii c).

(** tolower in the C locale. *)
Definition tolower (c : ascii) : ascii :=
  let n := nat_of_ascii c in
  if (65 <=? n)%nat && (n <=? 90)%nat then ascii_of_nat (n + 32) else c.

(** strcasecmp(a, b): the difference of the first two lowered characters
    that differ, the end of a string counting as the character 0. *)
Fixpoint strcasecmp (a b : list ascii) : Z :=
  match a, b with
  | [], [] => 0
  | [], d :: _ => 0 - code (tolower d)
  | c :: _, [] => code (tolower c) - 0
  | c :: a', d :: b' =>
      if code (tolower c) =? code (tolower d) then strcasecmp a' b'
      else code (tolower c) - code (tolower d)
  end.

Definition OPT_STRLEN : nat := 128.

Inductive ParamType :=
| DEVICE | INDEVICE | OUTDEVICE | AUDIO | RECORD | CLOBBER
| REPORT_CLIPPING | CHECK_PEAKS | FULL_DUPLEX.

Record Param := mkParam {
  arg : list ascii;
  type : ParamType;
  value : bool      (* false if not relevant, i.e. for key=value style *)
}.

Definition param_list : list Param :=
  [ mkParam (chars "DEVICE") DEVICE false;
    mkParam (chars "INDEVICE") INDEVICE false;
    mkParam (chars "OUTDEVICE") OUTDEVICE false;
    mkParam (chars "AUDIO_ON") AUDIO true;
    mkParam (chars "AUDIO_OFF") AUDIO false;
    mkParam (chars "RECORD_ON") RECORD true;
    mkParam (chars "RECORD_OFF") RECORD false;
    mkParam (chars "PLAY_ON") AUDIO true;
    mkParam (chars "PLAY_OFF") AUDIO false;
    mkParam (chars "CLOBBER_ON") CLOBBER true;
    mkParam (chars "CLOBBER_OFF") CLOBBER false;
    mkParam (chars "REPORT_CLIPPING_ON") REPORT_CLIPPING true;
    mkParam (chars "REPORT_CLIPPING_OFF") REPORT_CLIPPING false;
    mkParam (chars "CHECK_PEAKS_ON") CHECK_PEAKS true;
    mkParam (chars "CHECK_PEAKS_OFF") CHECK_PEAKS false;
    mkParam (chars "FULL_DUPLEX_ON") FULL_DUPLEX true;
    mkParam (chars "FULL_DUPLEX_OFF") FULL_DUPLEX false ].

(** One turn of the loop that copies arg into opt:
      if (space_state > 1) *p++ = arg[j];
      else if (!isspace(arg[j])) { ...; *p++ = arg[j]; }
    [x] is space_state and what opt holds up to p. *)
Definition strip_body (x : Z * list ascii) (c : ascii) : Z * list ascii :=
  let '(space_state, opt) := x in
  if space_state >? 1 then (space_state, opt ++ [c])
  else if negb (isspace c) then
    let space_state :=
      if space_state =? 1 then space_state + 1
      else if Ascii.eqb c "="%char then 1
      else space_state in
    (space_state, opt ++ [c])
  else (space_state, opt).

(** What opt holds after the loop and *p = '\0'; [None] is the NULL
    pointer, whose len is 0. *)
Definition strip (a : option (list ascii)) : list ascii :=
  let s := match a with Some s => s | None => [] end in
  let len := List.length s in
  let len := if (OPT_STRLEN - 1 <? len)%nat then (OPT_STRLEN - 1)%nat else len in
  snd (fold_left strip_body (firstn len s) (0, [])).

(** p = strchr(opt, '='); if (p) *p++ = '\0': the key that opt holds from
    then on, and the value that p points to ([None]: p is NULL). *)
Fixpoint split_at_equals (opt : list ascii) : list ascii * option (list ascii) :=
  match opt with
  | [] => ([], None)
  | c :: t =>
      if Ascii.eqb c "="%char then ([], Some t)
      else let '(k, v) := split_at_equals t in (c :: k, v)
  end.

(** for (j = 0; j < num_params; j++)
      if (strcasecmp(param_list[j].arg, opt) == 0) { matched = 1; break; }
    [Some] is param_list[j] when matched is 1. *)
Fixpoint find_param (opt : list ascii) (l : list Param) : option Param :=
  match l with
  | [] => None
  | prm :: rest =>
      if strcasecmp (arg prm) opt =? 0 then Some prm else find_param opt rest
  end.

(** The accessors of the options object that set_option calls.  The
    setters of the strings are in Option.cpp; those of the flags are inline
    in Option.h. *)
Class Options (O : Type) := {
  device : list ascii -> O -> O;
  inDevice : list ascii -> O -> O;
  outDevice : list ascii -> O -> O;
  play : bool -> O -> O;
  record : bool -> O -> O;
  clobber : bool -> O -> O;
  reportClipping : bool -> O -> O;
  checkPeaks : bool -> O -> O;
  get_record : O -> bool;
  get_play : O -> bool
}.

(** The calls of die. *)
Inductive message :=
| Missing_value (key : list ascii)    (* Missing value for key "%s" *)
| Unrecognized (opt : list ascii)     (* Unrecognized argument "%s" *)
| No_value (t : ParamType)            (* No value for "device", "indevice", "outdevice" *)
| Full_duplex_late                    (* Turn on full duplex BEFORE calling rtsetparams. *)
| Record_late.                        (* Turn on record BEFORE calling rtsetparams. *)

(** How one turn of the loop over the arguments ends. *)
Inductive result (O : Type) :=
| Next (o : O)                        (* the loop goes on *)
| Fatal (m : message) (o : O).        (* die(...); return -1.0; *)
Arguments Next {O} o.
Arguments Fatal {O} m o.

Section Code.
Context {O : Type} {ops : Options O}.

(** The second half of the body of the loop over the arguments, from the
    test of the value on: [opt] is the key and [p] the value. *)
Definition dispatch (rtsetparams_called : bool) (opt : list ascii) (p : option (list ascii))
  (o : O) : result O :=
  match p with
  | Some [] => Fatal (Missing_value opt) o
  | _ =>
      match find_param opt param_list with
      | None => Fatal (Unrecognized opt) o
      | Some prm =>
          match type prm with
          | DEVICE =>
              match p with
              | None => Fatal (No_value DEVICE) o
              | Some v => Next (device v o)
              end
          | INDEVICE =>
              match p with
              | None => Fatal (No_value INDEVICE) o
              | Some v => Next (inDevice v o)
              end
          | OUTDEVICE =>
              match p with
              | None => Fatal (No_value OUTDEVICE) o
              | Some v => Next (outDevice v o)
              end
          | AUDIO => Next (play (value prm) o)
          | RECORD => Next (record (value prm) o)
          | CLOBBER => Next (clobber (value prm) o)
          | REPORT_CLIPPING => Next (reportClipping (value prm) o)
          | CHECK_PEAKS => Next (checkPeaks (value prm) o)
          | FULL_DUPLEX =>
              let full_duplex := value prm in
              if full_duplex && rtsetparams_called then Fatal Full_duplex_late o
              else
                let o :=
                  if full_duplex then record true o
                  else record (get_record o && negb (get_play o)) o in
                if get_record o && rtsetparams_called then Fatal Record_late o
                else Next o
          end
      end
  end.

(** The body of the loop over the arguments. *)
Definition one_option (rtsetparams_called : bool) (a : option (list ascii)) (o : O)
  : result O :=
  let '(opt, p) := split_at_equals (strip a) in
  dispatch rtsetparams_called opt p o.

(** set_option(p, nargs, pp): [pp] holds the nargs strings. *)
Fixpoint set_option (rtsetparams_called : bool) (pp : list (option (list ascii))) (o : O)
  : result O :=
  match pp with
  | [] => Next o
  | a :: rest =>
      match one_option rtsetparams_called a o with
      | Next o' => set_option rtsetparams_called rest o'
      | Fatal m o' => Fatal m o'
      end
  end.

(** The value that set_option returns, and the options it leaves. *)
Definition returned (r : result O) : Z :=
  match r with Next _ => 0 | Fatal _ _ => -1 end.

Definition options_of (r : result O) : O :=
  match r with Next o => o | Fatal _ o => o end.

(** The keys of the key=value style. *)
Definition takes_value (t : ParamType) : bool :=
  match t with
  | DEVICE | INDEVICE | OUTDEVICE => true
  | _ => false
  end.

(** The setter that a key of a string option calls. *)
Definition string_setter (t : ParamType) : option (list ascii -> O -> O) :=
  match t with
  | DEVICE => Some device
  | INDEVICE => Some inDevice
  | OUTDEVICE => Some outDevice
  | _ => None
  end.

End Code.

(** class Option, with the members that set_option reaches. *)
Record Option_ := mkOption {
  _playOn : bool;
  _recordOn : bool;
  _clobberOn : bool;
  _reportClippingOn : bool;
  _checkPeaksOn : bool;
  _device : option (list ascii);
  _inDevice : option (list ascii);
  _outDevice : option (list ascii)
}.

(** Option::Option() *)
Definition new_Option : Option_ := mkOption true false false true true None None None.

#[export] Instance Option_ops : Options Option_ := {
  device v o := mkOption (_playOn o) (_recordOn o) (_clobberOn o) (_reportClippingOn o)
                         (_checkPeaksOn o) (Some v) (_inDevice o) (_outDevice o);
  inDevice v o := mkOption (_playOn o) (_recordOn o) (_clobberOn o) (_reportClippingOn o)
                           (_checkPeaksOn o) (_device o) (Some v) (_outDevice o);
  outDevice v o := mkOption (_playOn o) (_recordOn o) (_clobberOn o) (_reportClippingOn o)
                            (_checkPeaksOn o) (_device o) (_inDevice o) (Some v);
  play b o := mkOption b (_recordOn o) (_clobberOn o) (_reportClippingOn o)
                       (_checkPeaksOn o) (_device o) (_inDevice o) (_outDevice o);
  record b o := mkOption (_playOn o) b (_clobberOn o) (_reportClippingOn o)
                         (_checkPeaksOn o) (_device o) (_inDevice o) (_outDevice o);
  clobber b o := mkOption (_playOn o) (_recordOn o) b (_reportClippingOn o)
                          (_checkPeaksOn o) (_device o) (_inDevice o) (_outDevice o);
  reportClipping b o := mkOption (_playOn o) (_recordOn o) (_clobberOn o) b
                                 (_checkPeaksOn o) (_device o) (_inDevice o) (_outDevice o);
  checkPeaks b o := mkOption (_playOn o) (_recordOn o) (_clobberOn o) (_reportClippingOn o)
                             b (_device o) (_inDevice o) (_outDevice o);
  get_record := _recordOn;
  get_play := _playOn
}.

(** An argument of the key=value style: the key, the blanks after the
    equals sign, and the value. *)
Definition key_value (key sp v : list ascii) : list ascii := key ++ "="%char :: sp ++ v.

Definition blank (c : ascii) : Prop := isspace c = true.

Definition no_blank (c : ascii) : bool := negb (isspace c).

(** "device = MOTU 828", "Audio_Off = now", "dsopath =  " *)
Definition motu_key : list ascii := chars "device ".
Definition motu_value : list ascii := chars "MOTU 828".
Definition motu_rest : list ascii := chars "OTU 828".
Definition device_param : Param := mkParam (chars "DEVICE") DEVICE false.
Definition audio_key : list ascii := chars "Audio_Off ".
Definition audio_value : list ascii := chars "now".
Definition audio_rest : list ascii := chars "ow".
Definition path_key : list ascii := chars "dsopath ".
Definition upper_key : list ascii := chars "OUT DEVICE".
Definition lower_key : list ascii := chars " outdevice".

End SetOption.

(** * The default bus configuration (bus_config.cpp: get_bus_config) *)

Module BusDefault.
Import Ascii String.
Import Bus BusGraph BusCases BusMore.
Local Open Scope list_scope.
Local Open Scope Z_scope.

(** What get_bus_config reads outside the bus tables: the channels of the
    last input file, inputFileTable[get_last_input_index()].channels()
    ([None]: the index is -1), RTOption::record() and RTOption::play(). *)
Record inputs := mkInputs {
  last_input : option Z;
  record_on : bool;
  play_on : bool
}.

(** How get_bus_config ends: with the slot it returns and the texts it has
    given to rtcmix_advise, in assert(in_chans > 0), or in RTExit. *)
Inductive got :=
| Slot (slot : BusSlot) (advice : list string) (st : state)
| Assert_failed
| Exited (code : ExitCode) (st : state).

(** Some init stuff normally done in check_bus_inst_config: the body of
    the loop over the buses. *)
Definition init_body (i : Z) (st : state) : res state :=
  a2a <- zset (AuxToAuxPlayList st) i (-1) ;;
  ta <- zset (ToAuxPlayList st) i (-1) ;;
  to <- zset (ToOutPlayList st) i (-1) ;;
  ou <- zset (OutInUse st) i false ;;
  ic <- zset (In_Config st) i (mkCheckNode (repeat 0 (nbus st)) 0) ;;
  Ok (set_graph ic (HasChild st) (HasParent st) (AuxInUse st)
        (set_in_use (AuxOutInUse st) ou (set_play to ta a2a st))).

Definition init_tables (st : state) : res state :=
  if Bus_Config_Status st then Ok st
  else
    st <- for_upto (nbus st) init_body st ;;
    Ok (set_status true (In_Config st) st).

(** for (i = 0; i < NCHANS; i++) { BusConfigs[i].OutInUse = YES; ToOutPlayList[i] = i; } *)
Definition out_body (i : Z) (st : state) : res state :=
  ou <- zset (OutInUse st) i true ;;
  to <- zset (ToOutPlayList st) i i ;;
  Ok (set_play to (ToAuxPlayList st) (AuxToAuxPlayList st)
        (set_in_use (AuxOutInUse st) ou st)).

(** in_chans; [None] is the assertion that fails. *)
Definition in_chans_of (inp : inputs) (st : state) : option Z :=
  match last_input inp with
  | None => Some (if record_on inp && play_on inp then NCHANS st else 0)
  | Some channels => if channels >? 0 then Some channels else None
  end.

(** for (i = 0; i < count; i++) a[i] = i; *)
Definition fill_identity (a : list Z) (count : Z) : res (list Z) :=
  for_upto (Z.to_nat count) (fun i a => zset a i i) a.

(** The default slot: in 0..in_chans-1, out 0..NCHANS-1. *)
Definition default_bus_slot (in_chans : Z) (st : state) : res BusSlot :=
  let b := new_BusSlot (busCount st) in
  a_in <- fill_identity (s_in b) in_chans ;;
  a_out <- fill_identity (s_out b) (NCHANS st) ;;
  Ok (mkBusSlot a_in a_out (auxin b) (auxout b) in_chans (NCHANS st) 0 0).

(** What %d prints. *)
Definition decimal (n : Z) : string :=
  DecimalString.NilZero.string_of_int (Z.to_int n).

(** What the sprintf and strcat calls put into buslist. *)
Definition buslist_text (in_count out_count : Z) (inst_name : string) : string :=
  let ins :=
    match in_count with
    | 0 => "() => "%string
    | 1 => "(in 0) => "%string
    | _ => ("(in 0-" ++ decimal (in_count - 1) ++ ") => ")%string
    end in
  let outs :=
    if out_count =? 1 then " => (out 0)"%string
    else (" => (out 0-" ++ decimal (out_count - 1) ++ ")")%string in
  (ins ++ inst_name ++ outs)%string.

(** char buslist[64] *)
Definition BUSLIST_SIZE : nat := 64.

(** The two calls of rtcmix_advise; the second prints "default: %s\n". *)
Definition default_advice (buslist : string) : list string :=
  ["No bus_config defined, setting default (in/out)."%string;
   ("default: " ++ buslist ++ String "010"%char EmptyString)%string].

(** get_bus_config(inst_name).  The locks are not modelled.  An entry of
    the queue holds a slot; for an entry without one, which no call builds,
    the model gives no answer. *)
Definition get_bus_config (inst_name : string) (inp : inputs) (st : state) : res got :=
  match find_bus_config inst_name (Inst_Bus_Config st) with
  | Some (slot :: _) => Ok (Slot slot [] st)
  | Some [] => Undef
  | None =>
      st <- init_tables st ;;
      st <- for_upto (Z.to_nat (NCHANS st)) out_body st ;;
      match in_chans_of inp st with
      | None => Ok Assert_failed
      | Some in_chans =>
          slot <- default_bus_slot in_chans st ;;
          c <- check_bus_inst_config slot true st ;;
          r <- (match c with
                | (NO_ERR, st1) => insert_bus_slot inst_name slot st1
                | (err, st1) => Ok (err, st1)
                end) ;;
          match r with
          | (NO_ERR, st2) =>
              let buslist := buslist_text (in_count slot) (out_count slot) inst_name in
              if (BUSLIST_SIZE <=? String.length buslist)%nat then Undef
              else
                Ok (Slot slot (default_advice buslist) st2)
          | (_, st2) => Ok (Exited SYSTEM_ERROR st2)
          end
      end
  end.

(** The numbers below [n], in order. *)
Definition upto (n : Z) : list Z := map Z.of_nat (seq 0 (Z.to_nat n)).

(** No input file is open and the audio device does not record; an
    instrument name, and one that is too long for the advice; an engine of
    8 buses and 2 output channels before its first bus_config. *)
Definition no_input : inputs := mkInputs None false true.

Definition wave : string := "WAVETABLE".

Definition long_name : string := "AN_INSTRUMENT_WITH_A_NAME_OF_MORE_THAN_FORTY_CHARACTERS".

Definition engine_8_2 : state := Eval vm_compute in initial 8 2.

End BusDefault.

(** * Properties *)

(** ** The tempo map *)

Module TempoFacts.
Import Tempo TempoCases.

Section Arrays.
Variable A : arith.

Lemma length_wr (a : list (num A)) m v : length (wr A a m v) = length a.
Proof.
  revert m; induction a as [|h t IH]; intros [|m]; simpl; auto.
Qed.

Lemma rd_wr_other (a : list (num A)) m n v : m <> n -> rd A (wr A a m v) n = rd A a n.
Proof.
  unfold rd. revert m n; induction a as [|h t IH]; intros [|m] [|n] Hne; simpl; auto;
    try congruence.
Qed.

Lemma rd_wr_same (a : list (num A)) m v :
  (m < length a)%nat -> rd A (wr A a m v) m = v.
Proof.
  unfold rd. revert m; induction a as [|h t IH]; intros [|m] Hlt; simpl in *; try lia; auto.
  apply IH; lia.
Qed.

(** Writing the default value: the length does not matter. *)
Lemma rd_wr_zero (a : list (num A)) m : rd A (wr A a m (zero A)) m = zero A.
Proof.
  unfold rd. revert m; induction a as [|h t IH]; intros [|m]; simpl; auto.
Qed.

Lemma rd_wr_cases (a : list (num A)) m n v :
  rd A (wr A a m v) n = rd A a n \/ (n = m /\ rd A (wr A a m v) n = v).
Proof.
  destruct (Nat.eq_dec m n) as [->|Hne].
  - destruct (Nat.lt_ge_cases n (length a)).
    + right; split; auto using rd_wr_same.
    + left. unfold rd. rewrite !nth_overflow; auto. rewrite length_wr; auto.
  - left; apply rd_wr_other; auto.
Qed.

(** After the first loop of [tempo] the four arrays hold 0 below TLEN. *)
Lemma zero_loop_spec n (st : state A) :
  tset (zero_loop A n st) = tset st /\
  BASIS (zero_loop A n st) = BASIS st /\
  forall m, (m < n)%nat ->
    rd A (xtime (zero_loop A n st)) m = zero A /\
    rd A (temp (zero_loop A n st)) m = zero A /\
    rd A (rxtime (zero_loop A n st)) m = zero A /\
    rd A (accel (zero_loop A n st)) m = zero A.
Proof.
  induction n as [|n IH]; simpl.
  - repeat split; intros; lia.
  - destruct IH as (Ht & Hb & IH). split; [|split]; auto. intros k Hk.
    destruct (Nat.eq_dec k n) as [->|Hne].
    + repeat split; apply rd_wr_zero.
    + rewrite !rd_wr_other by congruence. apply IH; lia.
Qed.

Lemma fill_loop_died fuel : forall p m st st',
  fill_loop A fuel p m st = Died st' ->
  (m = 2 * (npts st - 1))%nat -> (1 <= npts st)%nat ->
  written A p (BASIS st) (set_npts A st (npts st - 1)) ->
  tset st' = tset st /\ BASIS st' = BASIS st /\
  rxtime st' = rxtime st /\ accel st' = accel st /\
  (npts st <= npts st')%nat /\
  (forall n, (n = 0 \/ npts st' < n)%nat ->
     rd A (xtime st') n = rd A (xtime st) n /\ rd A (temp st') n = rd A (temp st) n) /\
  written A p (BASIS st) st'.
Proof.
  induction fuel as [|fuel IH]; intros p m st st' Hrun Hm Hn Hw; simpl in Hrun.
  - discriminate.
  - destruct (negb (m <? TLEN)%nat); [discriminate|].
    destruct (negb (m =? 0)%nat && (length p <=? m)%nat); [discriminate|].
    destruct (nth_error p m) as [pm|] eqn:Epm; [|discriminate].
    destruct (nth_error p (m + 1)) as [pm1|] eqn:Epm1; [|discriminate].
    unfold set_xtime, set_temp, set_npts in Hrun.
    cbn [xtime temp rxtime accel BASIS tset npts] in Hrun.
    set (st1 := mkState A (wr A (xtime st) (npts st) (to_float A pm))
                 (wr A (temp st) (npts st)
                    (to_float A (ddiv A pm1 (to_double A (BASIS st)))))
                 (rxtime st) (accel st) (BASIS st) (tset st) (npts st)) in *.
    assert (Hstep : written A p (BASIS st) st1).
    { intros k Hk. subst st1. cbn [npts xtime temp] in *.
      destruct (Nat.eq_dec k (npts st)) as [->|Hne].
      - exists pm, pm1. rewrite <- Hm. repeat split; auto.
        + intros Hl. rewrite length_wr in Hl. apply rd_wr_same; auto.
        + intros Hl. rewrite length_wr in Hl. apply rd_wr_same; auto.
      - destruct (Hw k) as (qm & qm1 & H1 & H2 & H3 & H4).
        { unfold set_npts; cbn [npts]. lia. }
        exists qm, qm1. unfold set_npts in H3, H4. cbn [xtime temp] in H3, H4.
        rewrite !length_wr, !rd_wr_other by congruence. auto. }
    match type of Hrun with (if ?c then _ else _) = _ => destruct c end.
    + injection Hrun as <-. subst st1. cbn [tset BASIS rxtime accel npts xtime temp].
      split; [|split; [|split; [|split; [|split; [|split]]]]]; auto.
      intros n Hn'. split; apply rd_wr_other; lia.
    + apply IH in Hrun.
      * subst st1. cbn [tset BASIS rxtime accel npts xtime temp] in Hrun.
        destruct Hrun as (H1 & H2 & H3 & H4 & H5 & H6 & H7).
        split; [|split; [|split; [|split; [|split; [|split]]]]]; auto; try lia.
        intros n Hn'. destruct (H6 n Hn') as [E1 E2]. rewrite E1, E2.
        split; apply rd_wr_other; lia.
      * subst st1; cbn [npts]. lia.
      * subst st1; cbn [npts]. lia.
      * subst st1. cbn [npts BASIS].
        replace (S (npts st) - 1)%nat with (npts st) by lia.
        intros k Hk. apply Hstep. exact Hk.
Qed.

End Arrays.

(** *** In the arithmetic of the program *)

(** A zero tempo value among the pairs that the loop reads stops it. *)

Lemma rd_wr_any_zero (a : list spec_float) m sg n :
  n = m ->
  exists sg', rd b32 (wr b32 a m (S754_zero sg)) n = S754_zero sg'.
Proof.
  intros ->. destruct (Nat.lt_ge_cases m (length a)).
  - exists sg. apply (rd_wr_same b32); auto.
  - exists false. unfold rd. rewrite nth_overflow; auto.
    rewrite (length_wr b32); auto.
Qed.

Lemma fill_loop_zero_tempo fuel : forall (p : list (num b32)) i sg k (st : state b32),
  (exists s m e, Ieee.to_double (BASIS st) = S754_finite s m e) ->
  nth_error p (2 * i + 1) = Some (S754_zero sg) ->
  (i < 10)%nat -> (k <= i)%nat -> (i - k < fuel)%nat ->
  exists st', fill_loop b32 fuel p (2 * k) st = Died st' /\ tset st' = tset st.
Proof.
  induction fuel as [|fuel IH]; intros p i sg k st HB Hz Hi Hk Hf; [lia|].
  cbn [fill_loop].
  assert (Hlen : (2 * i + 1 < length p)%nat).
  { apply nth_error_Some. rewrite Hz. discriminate. }
  replace (2 * k <? TLEN)%nat with true
    by (symmetry; apply Nat.ltb_lt; unfold TLEN; lia).
  replace (length p <=? 2 * k)%nat with false
    by (symmetry; apply Nat.leb_gt; lia).
  rewrite andb_false_r. cbn [negb].
  destruct (nth_error p (2 * k)) as [pm|] eqn:Epm.
  2:{ apply nth_error_None in Epm. lia. }
  destruct (nth_error p (2 * k + 1)) as [pm1|] eqn:Epm1.
  2:{ apply nth_error_None in Epm1. lia. }
  unfold set_xtime, set_temp, set_npts.
  cbn [xtime temp rxtime accel BASIS tset npts].
  match goal with |- exists _, (if ?c then _ else _) = _ /\ _ => destruct c eqn:Ec end.
  - eexists; split; [reflexivity|reflexivity].
  - destruct (Nat.eq_dec k i) as [->|Hne].
    + exfalso. rewrite Hz in Epm1. injection Epm1 as <-.
      destruct HB as (s & m & e & HB). cbn [to_double ddiv to_float eqb zero b32] in Ec.
      rewrite HB in Ec. unfold Ieee.ddiv in Ec. cbn [SFdiv] in Ec.
      unfold Ieee.to_float, Ieee.round_to in Ec.
      destruct (rd_wr_any_zero (temp st) (npts st) (xorb sg s) (npts st) eq_refl)
        as [sg' E].
      rewrite E in Ec. discriminate.
    + replace (2 * k + 2)%nat with (2 * (S k))%nat by lia.
      destruct (IH p i sg (S k)
                  (mkState b32 (wr b32 (xtime st) (npts st) (Ieee.to_float pm))
                     (wr b32 (temp st) (npts st)
                        (Ieee.to_float (Ieee.ddiv pm1 (Ieee.to_double (BASIS st)))))
                     (rxtime st) (accel st) (BASIS st) (tset st) (S (npts st))))
        as (st' & E & T); auto; try lia.
      exists st'; split; auto.
Qed.

Lemma tempo_died (A : arith) (st st' : state A) p :
  tempo A st p = Died st' ->
  fill_loop A TLEN p 0 (set_npts A (zero_loop A TLEN st) 1) = Died st'.
Proof.
  unfold tempo. destruct (length p =? 0)%nat; [discriminate|].
  destruct (fill_loop A TLEN p 0 _); congruence.
Qed.




(** Scenario S1: with no tempo map, time_beat(3.14) is 3.14 and
    beat_time(-2) is -2. *)
Example scenario_S1 :
  time_beat b32 init32 (Ieee.to_float (Ieee.ddec 314 2)) = Ieee.to_float (Ieee.ddec 314 2) /\
  beat_time b32 init32 (Ieee.fofZ (-2)) = Ieee.fofZ (-2).
Proof. split; vm_compute; reflexivity. Qed.

(** Claim C10, as the code has it.  When a call of tempo ends in die
    while a map is set, the flag tset is still set afterwards, and the
    four arrays are those that the call has reset to zero and then begun
    to fill: rxtime and accel hold 0 (below TLEN), xtime and temp hold 0
    except at the indices 1..npts, which the call itself has written from
    its arguments; time_beat and beat_time then take their tempo-mapped
    branch on these arrays. *)
Theorem failed_tempo_keeps_flag_and_resets_arrays :
  forall (st st' : state b32) (p : list (num b32)),
    tset st = true ->
    tempo b32 st p = Died st' ->
    tset st' = true /\
    (forall m, (m < TLEN)%nat ->
       rd b32 (rxtime st') m = Ieee.zero /\ rd b32 (accel st') m = Ieee.zero) /\
    (forall m, (m < TLEN)%nat -> (m = 0 \/ npts st' < m)%nat ->
       rd b32 (xtime st') m = Ieee.zero /\ rd b32 (temp st') m = Ieee.zero) /\
    written b32 p (BASIS st) st' /\
    (forall t, time_beat b32 st' t =
               time_beat_mapped b32 st' (if SFltb t Ieee.zero then Ieee.zero else t)) /\
    (forall b, beat_time b32 st' b = beat_time_mapped b32 st' b).
Proof.
  intros st st' p Hset Hdie. apply tempo_died in Hdie.
  destruct (zero_loop_spec b32 TLEN st) as (Zt & Zb & Zz).
  remember (zero_loop b32 TLEN st) as sz eqn:Esz. clear Esz.
  apply fill_loop_died in Hdie.
  - unfold set_npts in Hdie. cbn [tset BASIS rxtime accel npts xtime temp] in Hdie.
    destruct Hdie as (H1 & H2 & H3 & H4 & H5 & H6 & H7).
    assert (Ht : tset st' = true) by congruence.
    split; [exact Ht|]. split; [|split; [|split; [|split]]].
    + intros m Hm. rewrite H3, H4. destruct (Zz m Hm) as (_ & _ & R & Ac). auto.
    + intros m Hm Hout. destruct (H6 m Hout) as [E1 E2]. rewrite E1, E2.
      destruct (Zz m Hm) as (X & T & _ & _). auto.
    + rewrite <- Zb. exact H7.
    + intros t. unfold time_beat. rewrite Ht. reflexivity.
    + intros b. unfold beat_time. rewrite Ht. reflexivity.
  - reflexivity.
  - unfold set_npts; cbn [npts]. lia.
  - unfold written, set_npts; cbn [npts]. intros k Hk. lia.
Qed.

Lemma s2_failed_eq : tempo b32 s2_map (map Ieee.dofZ [5; 0]) = Died s2_failed.
Proof.
  assert (H : is_died (tempo b32 s2_map (map Ieee.dofZ [5; 0])) = true)
    by (vm_compute; reflexivity).
  unfold s2_failed.
  destruct (tempo b32 s2_map (map Ieee.dofZ [5; 0])); try discriminate. reflexivity.
Qed.

Lemma failed_tempo_keeps_flag_and_resets_arrays_witness :
  tset s2_map = true /\
  tempo b32 s2_map (map Ieee.dofZ [5; 0]) = Died s2_failed /\
  tset s2_failed = true /\
  (forall m, (m < TLEN)%nat ->
     rd b32 (rxtime s2_failed) m = Ieee.zero /\ rd b32 (accel s2_failed) m = Ieee.zero) /\
  (forall t, time_beat b32 s2_failed t =
             time_beat_mapped b32 s2_failed (if SFltb t Ieee.zero then Ieee.zero else t)).
Proof.
  assert (H1 : tset s2_map = true) by (vm_compute; reflexivity).
  pose proof (failed_tempo_keeps_flag_and_resets_arrays s2_map s2_failed _ H1 s2_failed_eq)
    as (T & Z & _ & _ & M & _).
  exact (conj H1 (conj s2_failed_eq (conj T (conj Z M)))).
Defined.

(** Claim C10 as stated fails in its middle part: the arrays are not all
    zero after the failed call.  After the map of S2, the call tempo(5, 0)
    ends in die with xtime[1] = 5, which it stored before it met the zero
    tempo; time_beat(4), 2.6666667 under the map, is then infinite, where
    arrays of zeros would give NaN. *)
Lemma failed_tempo_leaves_its_own_breakpoints :
  time_beat b32 s2_map (Ieee.fofZ 4) = S754_finite false 11184811 (-22) /\
  is_died (tempo b32 s2_map (map Ieee.dofZ [5; 0])) = true /\
  rd b32 (xtime s2_failed) 1 = Ieee.fofZ 5 /\
  Ieee.fofZ 5 <> Ieee.zero /\
  time_beat b32 s2_failed (Ieee.fofZ 4) = S754_infinity false /\
  time_beat b32 s2_zeroed (Ieee.fofZ 4) = S754_nan.
Proof.
  split; [vm_compute; reflexivity|].
  split; [vm_compute; reflexivity|].
  split; [vm_compute; reflexivity|].
  split; [vm_compute; discriminate|].
  split; vm_compute; reflexivity.
Qed.

Lemma round_trip_error_exceeds_tolerance :
  finite_value (Ieee.fofZ 3) = Some (12582912, -22) /\
  finite_value (beat_time b32 s5_map (time_beat b32 s5_map (Ieee.fofZ 3)))
    = Some (12582919, -22) /\
  (12582919 - 12582912) * 10 ^ 6 > 1 * 2 ^ 22.
Proof.
  split; [|split]; vm_compute; reflexivity.
Qed.

(** Scenario S2: tbase(60); tempo(0, 60, 4, 120).  time_beat(4) is the
    float nearest to (sqrt(1 + 2*a*4) - 1)/a = 8/3 with a = 0.375, and
    beat_time(time_beat(4)) is 4. *)
Example scenario_S2 :
  rd b32 (accel s2_map) 1 = Ieee.to_float (Ieee.ddec 375 3) /\
  time_beat b32 s2_map (Ieee.fofZ 4) = Ieee.to_float (Ieee.ddiv (Ieee.dofZ 8) (Ieee.dofZ 3)) /\
  beat_time b32 s2_map (time_beat b32 s2_map (Ieee.fofZ 4)) = Ieee.fofZ 4.
Proof.
  split; [|split]; vm_compute; reflexivity.
Qed.

End TempoFacts.

(** ** The Minc interpreter *)

Module MincFacts.
Import Ascii String.
Import Ieee Minc MincCases.
Local Open Scope string_scope.
Local Open Scope list_scope.
Local Open Scope Z_scope.

(** *** Operators *)

(** Claim C3, as the code has it.  For two Float operands, [%] with
    |rhs| < 1 reports "Illegal value for RHS of a modulo operation" as a
    fatal error and the node holds 0 when the report returns; otherwise [%]
    is the remainder of the truncated operands; [/] is the IEEE quotient
    and reports nothing, whatever the right-hand side is. *)
Theorem modulo_checks_rhs_and_division_does_not :
  forall (H : host) (v : MincValue) (val1 val2 : double) (st : mstate),
    (SFltb val2 one && SFltb minus_one val2 = true ->
     do_op_num H v val1 val2 OpMod st =
       ((if die_throws H then Thrown else Normal (MFloat zero)),
        upd_log (fun l => l ++ [Die "Illegal value for RHS of a modulo operation"]) st)) /\
    (forall a b : Z,
       SFltb val2 one && SFltb minus_one val2 = false ->
       to_long val1 = Some a ->
       to_long val2 = Some b ->
       b <> 0 ->
       (a, b) <> (LONG_MIN, -1) ->
       do_op_num H v val1 val2 OpMod st = (Normal (MFloat (dofZ (Z.rem a b))), st)) /\
    do_op_num H v val1 val2 OpDiv st = (Normal (MFloat (ddiv val1 val2)), st).
Proof.
  intros H v val1 val2 st. split; [|split; [|reflexivity]].
  - intros Ht. unfold do_op_num. rewrite Ht.
    unfold minc_die, bind, modify, ret, throw_other. destruct (die_throws H); reflexivity.
  - intros a b Ht Ha Hb Hb0 Hab. unfold do_op_num. rewrite Ht, Ha, Hb.
    assert (E0 : (b =? 0) = false) by (apply Z.eqb_neq; exact Hb0).
    assert (E1 : (a =? LONG_MIN) && (b =? -1) = false).
    { destruct (a =? LONG_MIN) eqn:E2; destruct (b =? -1) eqn:E3; auto.
      apply Z.eqb_eq in E2, E3. subst. congruence. }
    rewrite E0, E1. reflexivity.
Qed.

Lemma modulo_checks_rhs_and_division_does_not_witness :
  (SFltb (ddec 5 1) one && SFltb minus_one (ddec 5 1) = true /\
   do_op_num host0 MVoid (dofZ 7) (ddec 5 1) OpMod initial_state =
     (Normal (MFloat zero),
      upd_log (fun l => l ++ [Die "Illegal value for RHS of a modulo operation"])
              initial_state)) /\
  (SFltb (dofZ 2) one && SFltb minus_one (dofZ 2) = false /\
   to_long (dofZ (-7)) = Some (-7) /\
   to_long (dofZ 2) = Some 2 /\
   2 <> 0 /\
   (-7, 2) <> (LONG_MIN, -1) /\
   do_op_num host0 MVoid (dofZ (-7)) (dofZ 2) OpMod initial_state =
     (Normal (MFloat (dofZ (Z.rem (-7) 2))), initial_state)) /\
  do_op_num host0 MVoid (dofZ (-7)) (dofZ 2) OpDiv initial_state =
    (Normal (MFloat (ddiv (dofZ (-7)) (dofZ 2))), initial_state).
Proof.
  assert (H0 : SFltb (ddec 5 1) one && SFltb minus_one (ddec 5 1) = true) by reflexivity.
  assert (H1 : SFltb (dofZ 2) one && SFltb minus_one (dofZ 2) = false) by reflexivity.
  assert (H2 : to_long (dofZ (-7)) = Some (-7)) by reflexivity.
  assert (H3 : to_long (dofZ 2) = Some 2) by reflexivity.
  assert (H4 : 2 <> 0) by lia.
  assert (H5 : (-7, 2) <> (LONG_MIN, -1)) by (intro E; discriminate E).
  split; [|split].
  - split; [exact H0|].
    exact (proj1 (modulo_checks_rhs_and_division_does_not
                    host0 MVoid (dofZ 7) (ddec 5 1) initial_state) H0).
  - repeat (split; [assumption|]).
    exact (proj1 (proj2 (modulo_checks_rhs_and_division_does_not
                           host0 MVoid (dofZ (-7)) (dofZ 2) initial_state))
             (-7) 2 H1 H2 H3 H4 H5).
  - exact (proj2 (proj2 (modulo_checks_rhs_and_division_does_not
                           host0 MVoid (dofZ (-7)) (dofZ 2) initial_state))).
Defined.

(** Claim C3 as stated fails for [/]: 1 / 0 reports nothing and is
    +infinity, not 0. *)
Lemma division_by_zero_is_not_reported :
  fst (do_op_num host0 MVoid one zero OpDiv initial_state)
    = Normal (MFloat (S754_infinity false)) /\
  log (snd (do_op_num host0 MVoid one zero OpDiv initial_state)) = [] /\
  MFloat (S754_infinity false) <> MFloat zero.
Proof.
  split; [reflexivity|]. split; [reflexivity|]. discriminate.
Qed.

(** 7 % 0.5: the report, and 0. *)
Example modulo_small_rhs :
  do_op_num host0 MVoid (dofZ 7) (ddec 5 1) OpMod initial_state =
  (Normal (MFloat zero),
   upd_log (fun _ => [Die "Illegal value for RHS of a modulo operation"]) initial_state).
Proof. reflexivity. Qed.

(** *** substring *)

Lemma no_nul_Forall s : no_nul s -> Forall (fun c => c <> NUL) (list_ascii_of_string s).
Proof.
  induction s as [|c t IH]; simpl; intros Hs; constructor; tauto.
Qed.

Lemma list_of_string_drop n : forall s,
  list_ascii_of_string (string_drop n s) = skipn n (list_ascii_of_string s).
Proof.
  induction n as [|n IH]; intros [|c t]; simpl; auto.
Qed.

Lemma length_list_of_string s : List.length (list_ascii_of_string s) = String.length s.
Proof. induction s; simpl; auto. Qed.

Lemma list_of_substring : forall n m s,
  list_ascii_of_string (substring n m s) = firstn m (skipn n (list_ascii_of_string s)).
Proof.
  induction n as [|n IH]; intros m s.
  - revert m; induction s as [|c t IHs]; intros [|m]; simpl; auto.
    rewrite IHs. reflexivity.
  - destruct s as [|c t]; simpl.
    + destruct m; reflexivity.
    + apply IH.
Qed.

Lemma strncpy_whole src :
  strncpy src (S (String.length src)) = list_ascii_of_string src ++ [NUL].
Proof.
  unfold strncpy. rewrite <- length_list_of_string.
  generalize (list_ascii_of_string src) as l. intros l.
  rewrite firstn_app. rewrite firstn_all2 by lia.
  replace (S (List.length l) - List.length l)%nat with 1%nat by lia. reflexivity.
Qed.

Lemma c_str_poke : forall l k,
  Forall (fun c => c <> NUL) l -> (k <= List.length l)%nat ->
  c_str (poke (l ++ [NUL]) k NUL) = Some (string_of_list_ascii (firstn k l)).
Proof.
  induction l as [|c t IH]; intros k Hl Hk.
  - simpl in Hk. assert (k = 0%nat) by lia. subst. reflexivity.
  - inversion Hl as [|? ? Hc Ht]; subst. destruct k as [|k]; simpl.
    + reflexivity.
    + destruct (Ascii.eqb c NUL) eqn:E.
      * apply Ascii.eqb_eq in E. contradiction.
      * rewrite IH by (auto; simpl in Hk; lia). reflexivity.
Qed.

Lemma Forall_skipn {A} (P : A -> Prop) n : forall l, Forall P l -> Forall P (skipn n l).
Proof.
  induction n as [|n IH]; intros [|x l] Hl; simpl; auto.
  inversion Hl; auto.
Qed.

(** What substring returns for a range that starts inside the string and
    is not empty: the characters from start up to the end index, or up to
    length - 1 when the end index is larger, then with a warning. *)
Lemma substring_value (s : string) (f1 f2 : double) (i j : Z) (st : mstate) :
  no_nul s -> to_int f1 = Some i -> to_int f2 = Some j ->
  0 <= i < j -> i < Z.of_nat (String.length s) ->
  _minc_substring [MString (Some s); MFloat f1; MFloat f2] st =
  (Normal (Some (substring (Z.to_nat i)
                           (Z.to_nat (Z.min j (Z.of_nat (String.length s) - 1) - i)) s)),
   if j >? Z.of_nat (String.length s) - 1
   then upd_log (fun l => l ++ [substring_warning]) st else st).
Proof.
  intros Hs H1 H2 Hij Hi.
  unfold _minc_substring. cbn [is_type dataType MincDataType_eqb negb orb].
  rewrite H1, H2.
  set (len := Z.of_nat (String.length s)) in *.
  replace (i <? 0) with false by (symmetry; apply Z.ltb_ge; lia).
  replace (j <=? i) with false by (symmetry; apply Z.leb_gt; lia).
  cbn [orb].
  set (e := Z.min j (len - 1)).
  assert (He : i <= e <= len - 1) by (unfold e; lia).
  assert (Hval :
    forall st',
      (let newlen := len - i + 1 in
       if (newlen <? 0) || (len <? i) then undefined
       else
         let sbuffer := strncpy (string_drop (Z.to_nat i) s) (Z.to_nat newlen) in
         if (e - i <? 0) || (newlen <=? e - i) then undefined
         else
           match c_str (poke sbuffer (Z.to_nat (e - i)) NUL) with
           | Some r => ret (Some r)
           | None => undefined
           end) st' =
      (Normal (Some (substring (Z.to_nat i) (Z.to_nat (e - i)) s)), st')).
  { intros st'. cbv zeta.
    replace (len - i + 1 <? 0) with false by (symmetry; apply Z.ltb_ge; lia).
    replace (len <? i) with false by (symmetry; apply Z.ltb_ge; lia).
    replace (e - i <? 0) with false by (symmetry; apply Z.ltb_ge; lia).
    replace (len - i + 1 <=? e - i) with false by (symmetry; apply Z.leb_gt; lia).
    cbn [orb].
    assert (Hlen : String.length (string_drop (Z.to_nat i) s)
                   = (String.length s - Z.to_nat i)%nat).
    { rewrite <- !length_list_of_string, list_of_string_drop, length_skipn.
      reflexivity. }
    replace (Z.to_nat (len - i + 1))
      with (S (String.length (string_drop (Z.to_nat i) s)))
      by (rewrite Hlen; unfold len; lia).
    rewrite strncpy_whole, c_str_poke.
    - unfold ret. f_equal. f_equal. f_equal.
      rewrite <- (string_of_list_ascii_of_string
                    (substring (Z.to_nat i) (Z.to_nat (e - i)) s)).
      f_equal. rewrite list_of_substring, list_of_string_drop. reflexivity.
    - rewrite list_of_string_drop. apply Forall_skipn, no_nul_Forall, Hs.
    - rewrite length_list_of_string, Hlen. unfold len in *. lia. }
  destruct (j >? len - 1) eqn:Ej.
  - unfold bind at 1. unfold bind at 1. unfold minc_warn, modify. cbn [ret].
    replace e with (len - 1) in Hval by (unfold e; lia).
    unfold ret at 1. fold len. rewrite Hval.
    replace e with (len - 1) by (unfold e; lia). reflexivity.
  - unfold bind at 1. unfold ret at 1.
    replace e with j in * by (unfold e; lia). apply Hval.
Qed.

(** The ranges that substring refuses: a negative start and an end that
    is not after the start, the empty range included. *)
Lemma substring_illegal (s : string) (f1 f2 : double) (i j : Z) (st : mstate) :
  to_int f1 = Some i -> to_int f2 = Some j ->
  i < 0 \/ j <= i ->
  _minc_substring [MString (Some s); MFloat f1; MFloat f2] st =
  (Normal None, upd_log (fun l => l ++ [Warn "substring: illegal indices"]) st).
Proof.
  intros H1 H2 Hij.
  unfold _minc_substring. cbn [is_type dataType MincDataType_eqb negb orb].
  rewrite H1, H2.
  replace ((i <? 0) || (j <=? i)) with true.
  - reflexivity.
  - symmetry. apply orb_true_iff. destruct Hij; [left; apply Z.ltb_lt | right; apply Z.leb_le]; lia.
Qed.

Lemma firstn_plus {A} (a b : nat) : forall l : list A,
  firstn (a + b) l = firstn a l ++ firstn b (skipn a l).
Proof.
  induction a as [|a IH]; intros [|x l]; simpl; auto.
  - destruct b; reflexivity.
  - rewrite IH. reflexivity.
Qed.

Lemma firstn_skipn_split {A} (l : list A) (i j k : nat) :
  (i <= j)%nat -> (j <= k)%nat ->
  firstn (j - i) (skipn i l) ++ firstn (k - j) (skipn j l) = firstn (k - i) (skipn i l).
Proof.
  intros Hij Hjk.
  replace (k - i)%nat with ((j - i) + (k - j))%nat by lia.
  rewrite firstn_plus. f_equal. rewrite skipn_skipn.
  replace (j - i + i)%nat with j by lia. reflexivity.
Qed.

Lemma string_append_list a b :
  list_ascii_of_string (a ++ b)%string = list_ascii_of_string a ++ list_ascii_of_string b.
Proof. induction a; simpl; congruence. Qed.

Lemma string_eq_of_list a b : list_ascii_of_string a = list_ascii_of_string b -> a = b.
Proof.
  intros E. rewrite <- (string_of_list_ascii_of_string a), E.
  apply string_of_list_ascii_of_string.
Qed.




(** The clamp is to length - 1: substring("abc", 0, 3) is "ab". *)
Example substring_never_returns_the_last_character :
  fst (_minc_substring [MString (Some "abc"); MFloat (dofZ 0); MFloat (dofZ 3)] initial_state)
    = Normal (Some "ab").
Proof. reflexivity. Qed.

(** *** Argument lists *)

(** Claim C8 against the code: a function declared without arguments has
    no NodeArgListElem in its argument list, so nothing compares the number
    of arguments passed with the number declared: g(41) reports nothing
    and returns 7, whether minc_die throws or not. *)
Theorem extra_argument_of_a_function_without_arguments_is_not_reported :
  forall throws : bool,
    fst (run_program (mkHost 15 1024 (fun x _ => x) throws) (NodeFuncBodySeq g_def g_call_1))
      = Normal (MFloat (dofZ 7), None) /\
    log (snd (run_program (mkHost 15 1024 (fun x _ => x) throws)
                (NodeFuncBodySeq g_def g_call_1))) = [].
Proof.
  intros [|]; split; vm_compute; reflexivity.
Qed.

(** With one argument declared, the same mistake is reported as fatal, by
    the NodeArgListElem of the declared argument. *)
Example extra_argument_is_fatal :
  log (snd (run_program host0 (NodeFuncBodySeq f_def f_call_2)))
    = [Die "%s() takes %d arguments but was passed %d!"] /\
  fst (run_program (mkHost 15 1024 (fun x _ => x) true) (NodeFuncBodySeq f_def f_call_2))
    = Thrown.
Proof. split; vm_compute; reflexivity. Qed.

(** A missing argument is 0 of its declared type, with a warning unless
    the warning level is MincNoDefaultedArgWarnings or below; the call goes
    on: f() is 1. *)
Example missing_argument_defaults_to_zero :
  run_program host0 (NodeFuncBodySeq f_def f_call_0)
    = (Normal (MFloat (dofZ 1), None),
       snd (run_program host0 (NodeFuncBodySeq f_def f_call_0))) /\
  log (snd (run_program host0 (NodeFuncBodySeq f_def f_call_0)))
    = [Warn "%s(): arg %d ('%s') not provided - defaulting to 0"] /\
  log (snd (exct host0 30 (NodeFuncBodySeq f_def f_call_0)
              (mkMstate [] [] [] [] [] 0 0 false [] 0 MincNoDefaultedArgWarnings [])))
    = [] /\
  fst (run_program host0 (NodeFuncBodySeq f_def f_call_1)) = Normal (MFloat (dofZ 42), None).
Proof. split; [|split; [|split]]; vm_compute; reflexivity. Qed.

(** *** Scopes across calls *)

Create HintDb keeps.

Section Scopes.
Variable H : host.

Lemma keeps_ret {A} (a : A) : keeps (ret a).
Proof. intros st o st' E. injection E as <- <-. auto. Qed.

Lemma keeps_bind {A B} (m : M A) (k : A -> M B) :
  keeps m -> (forall a, keeps (k a)) -> keeps (bind m k).
Proof.
  intros Hm Hk st o st' E. unfold bind in E.
  destruct (m st) as [o1 st1] eqn:E1. specialize (Hm _ _ _ E1).
  destruct o1 as [a|v| | |].
  - specialize (Hk a _ _ _ E). destruct Hm as [F L].
    destruct o as [b|w| | |]; auto.
    + destruct Hk as [F' L']. split; congruence.
    + congruence.
    + congruence.
  - injection E as <- <-. exact Hm.
  - injection E as <- <-. exact Hm.
  - injection E as <- <-. exact I.
  - injection E as <- <-. exact I.
Qed.

Lemma keeps_modify (f : mstate -> mstate) :
  (forall st, frames (f st) = frames st /\ locals (f st) = locals st) ->
  keeps (modify f).
Proof.
  intros Hf st o st' E. injection E as <- <-. destruct (Hf st) as [-> ->]. auto.
Qed.

Lemma keeps_get : keeps get.
Proof. intros st o st' E. injection E as <- <-. auto. Qed.

Lemma keeps_undefined {A} : keeps (@undefined A).
Proof. intros st o st' E. injection E as <- <-. exact I. Qed.

Lemma keeps_out_of_fuel {A} : keeps (@out_of_fuel A).
Proof. intros st o st' E. injection E as <- <-. exact I. Qed.

Lemma keeps_throw_other {A} : keeps (@throw_other A).
Proof. intros st o st' E. injection E as <- <-. reflexivity. Qed.

Lemma keeps_throw_ret {A} v : keeps (@throw_ret A v).
Proof. intros st o st' E. injection E as <- <-. reflexivity. Qed.

Lemma keeps_if {A} (c : bool) (m1 m2 : M A) : keeps m1 -> keeps m2 -> keeps (if c then m1 else m2).
Proof. destruct c; auto. Qed.

Ltac keeps_step :=
  match goal with
  | |- keeps (ret _) => apply keeps_ret
  | |- keeps (bind _ _) => apply keeps_bind; [|intros ?]
  | |- keeps get => apply keeps_get
  | |- keeps undefined => apply keeps_undefined
  | |- keeps out_of_fuel => apply keeps_out_of_fuel
  | |- keeps throw_other => apply keeps_throw_other
  | |- keeps (throw_ret _) => apply keeps_throw_ret
  | |- keeps (modify _) => apply keeps_modify; intros ?; split; reflexivity
  | |- keeps (if ?c then _ else _) => destruct c
  | |- keeps (match ?x with _ => _ end) => destruct x
  | |- keeps _ => assumption
  end.

Ltac keeps_auto := repeat keeps_step.

Lemma keeps_minc_warn msg : keeps (minc_warn msg).
Proof. unfold minc_warn. keeps_auto. Qed.

Lemma keeps_minc_die msg : keeps (minc_die H msg).
Proof. unfold minc_die. keeps_auto. Qed.

Lemma keeps_minc_internal_error msg : keeps (minc_internal_error H msg).
Proof. unfold minc_internal_error. keeps_auto. Qed.

Hint Resolve keeps_minc_warn keeps_minc_die keeps_minc_internal_error : keeps.

Ltac keeps_more := repeat (keeps_step || (progress auto with keeps)).

Lemma keeps_lookupSymbol name mode : keeps (lookupSymbol name mode).
Proof. intros st o st' E. injection E as <- <-. auto. Qed.

Lemma length_map_nth {A} (f : A -> A) n : forall l : list A,
  List.length (map_nth f n l) = List.length l.
Proof. induction n as [|n IH]; intros [|x l]; simpl; auto. Qed.

Lemma keeps_set_symbol_value r v : keeps (set_symbol_value r v).
Proof.
  intros st o st' E. unfold set_symbol_value, modify in E. injection E as <- <-.
  destruct (fst r); cbn [upd_scopes frames locals]; split; auto.
  apply length_map_nth.
Qed.

Lemma keeps_installSymbol name g : keeps (installSymbol name g).
Proof.
  intros st o st' E. unfold installSymbol in E.
  destruct g; destruct (locals st) as [|s t] eqn:El; injection E as <- <-;
    cbn [upd_scopes frames locals]; rewrite ?El; auto.
Qed.

Hint Resolve keeps_lookupSymbol keeps_set_symbol_value keeps_installSymbol : keeps.

Lemma keeps_lookupOrAutodeclare name b : keeps (lookupOrAutodeclare name b).
Proof. unfold lookupOrAutodeclare. keeps_more. Qed.

Lemma keeps_Symbol_copyValue r v a : keeps (Symbol_copyValue H r v a).
Proof. unfold Symbol_copyValue. keeps_more. Qed.

Lemma keeps_as_bool v : keeps (as_bool v).
Proof. unfold as_bool. keeps_more. Qed.

Lemma keeps_as_float v : keeps (as_float v).
Proof. unfold as_float. keeps_more. Qed.

Lemma keeps_do_op_num v a b op : keeps (do_op_num H v a b op).
Proof. unfold do_op_num. keeps_more. Qed.

Lemma keeps_do_op_string v a b op : keeps (do_op_string H v a b op).
Proof. unfold do_op_string. keeps_more. Qed.

Hint Resolve keeps_lookupOrAutodeclare keeps_Symbol_copyValue keeps_as_bool
  keeps_as_float keeps_do_op_num keeps_do_op_string : keeps.

Lemma keeps_NodeOp_finish op v0 v1 : keeps (NodeOp_finish H op v0 v1).
Proof. unfold NodeOp_finish. keeps_more. Qed.

Lemma keeps_NodeRelation_finish op v0 v1 : keeps (NodeRelation_finish H op v0 v1).
Proof. unfold NodeRelation_finish. keeps_more. Qed.

Lemma keeps_NodeLoadSym_finishExct r : keeps (NodeLoadSym_finishExct H r).
Proof. unfold NodeLoadSym_finishExct. keeps_more. Qed.

Lemma keeps_NodeLoadFuncSym_finishExct name r : keeps (NodeLoadFuncSym_finishExct name r).
Proof. unfold NodeLoadFuncSym_finishExct. keeps_more. Qed.

Lemma keeps_push_list : keeps (push_list H).
Proof. unfold push_list. keeps_more. Qed.

Lemma keeps_pop_list : keeps (pop_list H).
Proof. unfold pop_list. keeps_more. Qed.

Lemma keeps_NodeDecl_doExct name t : keeps (NodeDecl_doExct H name t).
Proof. unfold NodeDecl_doExct. keeps_more. Qed.

Lemma keeps_NodeFuncDecl_doExct name : keeps (NodeFuncDecl_doExct H name).
Proof. unfold NodeFuncDecl_doExct. keeps_more. Qed.

Lemma keeps_NodeArgListElem_finish r : keeps (NodeArgListElem_finish H r).
Proof. unfold NodeArgListElem_finish. keeps_more. Qed.

Lemma keeps_minc_substring args : keeps (_minc_substring args).
Proof. unfold _minc_substring. keeps_more. Qed.

Hint Resolve keeps_minc_substring : keeps.

Lemma keeps_callBuiltinFunction name : keeps (callBuiltinFunction H name).
Proof. unfold callBuiltinFunction. keeps_more. Qed.

Hint Resolve keeps_NodeOp_finish keeps_NodeRelation_finish keeps_NodeLoadSym_finishExct
  keeps_NodeLoadFuncSym_finishExct keeps_push_list keeps_pop_list keeps_NodeDecl_doExct
  keeps_NodeFuncDecl_doExct keeps_NodeArgListElem_finish keeps_callBuiltinFunction : keeps.

(** A block: the scope pushed is popped when the body returns. *)
Lemma keeps_block (m : M nres) (r : nres) :
  keeps m -> keeps (push_scope ;;; m ;;; pop_scope ;;; ret r).
Proof.
  intros Hm st o st' E. unfold bind, push_scope, pop_scope, modify, ret in E.
  match type of E with context [m ?s] => destruct (m s) as [o1 st1] eqn:E1 end.
  specialize (Hm _ _ _ E1). cbn [upd_scopes frames locals] in Hm.
  destruct o1 as [a|v| | |]; injection E as <- <-; auto.
  destruct Hm as [F L]. cbn [upd_scopes frames locals]. split; auto.
  destruct (locals st1); simpl in *; lia.
Qed.

(** The handlers of the call: after a return statement the stacks of the
    callers are untouched; after another exception the function stack is
    popped before the exception goes on, so the callee's frame is gone. *)
Lemma catch_call_frames ss sd (r : outcome MincValue * mstate) st0 l fr :
  frames st0 = l :: fr ->
  (match fst r with
   | Normal _ | Returned _ | Thrown => frames (snd r) = frames st0
   | _ => True
   end) ->
  match fst (catch_call ss sd r) with
  | Normal _ => frames (snd (catch_call ss sd r)) = l :: fr
  | Thrown => frames (snd (catch_call ss sd r)) = fr
  | Returned _ => False
  | _ => True
  end.
Proof.
  intros Hf Hr. destruct r as [[a|v| | |] st]; cbn [fst snd] in *; cbn [catch_call fst snd].
  - congruence.
  - unfold bind, set_call_depth, restore_scope, modify, ret.
    cbn [fst snd upd_scopes upd_calls frames]. congruence.
  - unfold bind, pop_function_stack. rewrite Hr, Hf.
    unfold get, set_call_depth, modify, throw_other.
    cbn [fst snd upd_scopes upd_calls frames]. reflexivity.
  - exact I.
  - exact I.
Qed.

Lemma try_call_frames (copyArguments execute : MincFunction -> M nres) f st l fr :
  keeps (copyArguments f) -> keeps (execute f) ->
  frames st = l :: fr ->
  match fst (try_call copyArguments execute f st) with
  | Normal _ => frames (snd (try_call copyArguments execute f st)) = l :: fr
  | Thrown => frames (snd (try_call copyArguments execute f st)) = fr
  | Returned _ => False
  | _ => True
  end.
Proof.
  intros Hc He Hf. unfold try_call.
  destruct (copyArguments f st) as [o1 st1] eqn:E1. specialize (Hc _ _ _ E1).
  destruct o1 as [a|v| | |]; cbn [fst snd]; try exact I.
  - destruct Hc as [F1 L1].
    assert (Hb : keeps (set_call_depth (sFunctionCallDepth st1 + 1) ;;;
                        r <- execute f ;; ret (fst r))).
    { unfold set_call_depth. keeps_auto. }
    match goal with |- context [catch_call ?a ?b (?m st1)] =>
      destruct (m st1) as [o2 st2] eqn:E2 end.
    specialize (Hb _ _ _ E2).
    apply catch_call_frames with (st0 := st1); [congruence|].
    cbn [fst snd]. destruct o2 as [b|w| | |]; auto. destruct Hb; auto.
  - apply catch_call_frames with (st0 := st1) (r := (Returned v, st1)); cbn [fst snd]; congruence.
  - apply catch_call_frames with (st0 := st1) (r := (Thrown, st1)); cbn [fst snd]; congruence.
Qed.

(** callMincFunctionFromNode: the caller's scope stack is put aside by
    push_function_stack and is back after pop_function_stack. *)
Lemma keeps_callMincFunctionFromNode copyArguments execute fn :
  (forall f, keeps (copyArguments f)) -> (forall f, keeps (execute f)) ->
  keeps (callMincFunctionFromNode H copyArguments execute fn).
Proof.
  intros Hc He. unfold callMincFunctionFromNode.
  apply keeps_bind; [keeps_auto|intros _].
  apply keeps_bind; [|intros v; keeps_auto].
  destruct (fst fn) as [| | | | | | |[f|]]; try (keeps_more; fail).
  intros st o st' E.
  unfold bind at 1 in E. unfold push_function_stack at 1 in E. unfold modify at 1 in E.
  unfold bind at 1 in E. unfold push_scope at 1 in E. unfold modify at 1 in E.
  cbn [upd_scopes globals locals frames] in E.
  unfold bind at 1 in E.
  match type of E with context [try_call _ _ _ ?s] =>
    pose proof (try_call_frames copyArguments execute f s (locals st) (frames st)
                  (Hc f) (He f) eq_refl) as Ht;
    destruct (try_call copyArguments execute f s) as [o1 st1] eqn:E1
  end.
  cbn [fst snd] in Ht.
  destruct o1 as [a|w| | |].
  - unfold bind, get, set_call_depth, modify, pop_function_stack in E.
    cbn [upd_calls frames] in E. rewrite Ht in E.
    injection E as <- <-. cbn [upd_scopes upd_calls frames locals]. auto.
  - contradiction.
  - injection E as <- <-. exact Ht.
  - injection E as <- <-. exact I.
  - injection E as <- <-. exact I.
Qed.

(** Every node keeps the scope table in this sense. *)
Lemma exct_keeps : forall fuel n, keeps (exct H fuel n).
Proof.
  induction fuel as [|fuel IH]; intros n.
  - apply keeps_out_of_fuel.
  - destruct n; cbn [exct];
      try (keeps_more; fail).
    + (* NodeFor *)
      apply keeps_bind; [apply IH|intros _].
      match goal with |- keeps (?loop fuel) =>
        assert (Hl : forall k, keeps (loop k));
          [intros k; induction k as [|k IHk]; keeps_more | apply Hl]
      end.
    + (* NodeBlock *)
      apply keeps_block. apply IH.
    + (* NodeCall *)
      apply keeps_bind; [apply IH|intros cf].
      apply keeps_bind; [auto with keeps|intros _].
      apply keeps_bind; [apply IH|intros _].
      apply keeps_bind; [|intros v; keeps_more].
      destruct (dataType (fst cf)); try (keeps_more; fail).
      apply keeps_callMincFunctionFromNode; intros f; apply IH.
Qed.

End Scopes.



(** In the first of these calls the body does leave through the return
    statement, from inside its two blocks: executed on its own, it ends as
    [Returned] with current_scope() two above. *)
Example return_leaves_blocks_open :
  fst (exct host0 30 (NodeBlock (NodeBlock (NodeRet (NodeConstf (dofZ 3))))) defs_state)
    = Returned (MFloat (dofZ 3)) /\
  current_scope
    (snd (exct host0 30 (NodeBlock (NodeBlock (NodeRet (NodeConstf (dofZ 3))))) defs_state))
    = current_scope defs_state + 2.
Proof. split; vm_compute; reflexivity. Qed.

End MincFacts.

(** ** The bus routing graph *)

Module BusFacts.
Import Ascii String.
Import Bus BusGraph BusCases.
Local Open Scope string_scope.
Local Open Scope list_scope.
Local Open Scope Z_scope.

(** *** Bus names *)

Lemma parse_bus_chan_ok numstr maxBus a b :
  parse_bus_chan numstr maxBus = (NO_ERR, a, b) -> a < maxBus /\ b < maxBus.
Proof.
  unfold parse_bus_chan.
  destruct (strtoint numstr) as [s|]; [|discriminate].
  destruct (after_char "-" numstr) as [p|].
  - destruct (strtoint p) as [e|]; [|discriminate].
    destruct ((s >=? maxBus) || (e >=? maxBus)) eqn:E; [discriminate|].
    intros H; injection H as <- <-.
    apply orb_false_iff in E. destruct E as [E1 E2].
    rewrite Z.geb_leb in E1, E2. apply Z.leb_gt in E1, E2. lia.
  - destruct ((s >=? maxBus) || (s >=? maxBus)) eqn:E; [discriminate|].
    intros H; injection H as <- <-.
    apply orb_false_iff in E. destruct E as [E1 E2].
    rewrite Z.geb_leb in E1. apply Z.leb_gt in E1. lia.
Qed.

Lemma finish_parse_ok type r t a b :
  finish_parse type r = Parsed t a b -> r = (NO_ERR, a, b) /\ t = type.
Proof.
  destruct r as [[e s] f]. destruct e; simpl; intros H; try discriminate.
  injection H as <- <- <-. auto.
Qed.




(** *** The play order *)

(** Claim C2 against the code.  After five successful bus_config calls
    bus 1 is a parent of bus 2 (it is listed in In_Config[2]), and
    AuxToAuxPlayList is 0, 2, 1, 3, 4: bus 2 is played before its parent.
    The traversal from the childless bus 4 meets bus 1 one step away,
    through the edge 1 -> 4, before it meets bus 2 three steps away, and
    the list is the reverse of the order of meeting. *)
Theorem play_order_puts_a_child_before_its_parent :
  is_ok (run diamond_score (initial 8 2)) = true /\
  returns0 (bus_config "i5" ["aux 1 in"; "aux 4 out"]
              (state_of (run (firstn 4 diamond_score) (initial 8 2)))) = true /\
  parents diamond 2 = [1] /\
  AuxToAuxPlayList diamond = [0; 2; 1; 3; 4; -1; -1; -1] /\
  index_of 1 (AuxToAuxPlayList diamond) 0 = Some 2%nat /\
  index_of 2 (AuxToAuxPlayList diamond) 0 = Some 1%nat /\
  ~ before (AuxToAuxPlayList diamond) 1 2.
Proof.
  assert (E : AuxToAuxPlayList diamond = [0; 2; 1; 3; 4; -1; -1; -1])
    by (vm_compute; reflexivity).
  split; [vm_compute; reflexivity|].
  split; [vm_compute; reflexivity|].
  split; [vm_compute; reflexivity|].
  split; [exact E|]. rewrite E.
  split; [reflexivity|]. split; [reflexivity|].
  intros (i & j & Hi & Hj & Hlt). cbn in Hi, Hj. injection Hi as <-. injection Hj as <-. lia.
Qed.

End BusFacts.

(** *** The graph stays acyclic *)

Module GraphFacts.
Import Bus BusGraph BusCases.
Local Open Scope list_scope.
Local Open Scope Z_scope.

(** **** Arrays *)

Lemma length_upd {A} (a : list A) n v : length (upd a n v) = length a.
Proof. revert n; induction a as [|h t IH]; intros [|n]; simpl; auto. Qed.

Lemma nth_error_upd_same {A} (a : list A) n v :
  (n < length a)%nat -> nth_error (upd a n v) n = Some v.
Proof.
  revert n; induction a as [|h t IH]; intros [|n] Hn; simpl in *; try lia; auto.
  apply IH; lia.
Qed.

Lemma nth_error_upd_other {A} (a : list A) n m v :
  n <> m -> nth_error (upd a n v) m = nth_error a m.
Proof.
  revert n m; induction a as [|h t IH]; intros [|n] [|m] Hne; simpl; auto; try congruence.
Qed.

Lemma zset_length {A} (a a' : list A) i v : zset a i v = Ok a' -> length a' = length a.
Proof.
  unfold zset. destruct ((i <? 0) || (Z.of_nat (length a) <=? i)); [discriminate|].
  intros H; injection H as <-. apply length_upd.
Qed.

Lemma zset_range {A} (a a' : list A) i v :
  zset a i v = Ok a' -> 0 <= i < Z.of_nat (length a).
Proof.
  unfold zset. destruct (i <? 0) eqn:E1; [discriminate|].
  destruct (Z.of_nat (length a) <=? i) eqn:E2; [discriminate|].
  intros _. apply Z.ltb_ge in E1. apply Z.leb_gt in E2. lia.
Qed.

Lemma zget_range {A} (a : list A) i x : zget a i = Ok x -> 0 <= i < Z.of_nat (length a).
Proof.
  unfold zget. destruct (i <? 0) eqn:E1; [discriminate|].
  destruct (nth_error a (Z.to_nat i)) eqn:E2; [|discriminate].
  intros _. apply Z.ltb_ge in E1.
  assert (Z.to_nat i < length a)%nat by (apply nth_error_Some; congruence). lia.
Qed.

Lemma zget_zset_same {A} (a a' : list A) i v : zset a i v = Ok a' -> zget a' i = Ok v.
Proof.
  intros H. pose proof (zset_range _ _ _ _ H) as Hr.
  unfold zset in H. destruct ((i <? 0) || (Z.of_nat (length a) <=? i)); [discriminate|].
  injection H as <-. unfold zget.
  replace (i <? 0) with false by (symmetry; apply Z.ltb_ge; lia).
  rewrite nth_error_upd_same by lia. reflexivity.
Qed.

Lemma zget_zset_other {A} (a a' : list A) i j v :
  zset a i v = Ok a' -> i <> j -> zget a' j = zget a j.
Proof.
  intros H Hne. pose proof (zset_range _ _ _ _ H) as Hr.
  unfold zset in H. destruct ((i <? 0) || (Z.of_nat (length a) <=? i)); [discriminate|].
  injection H as <-. unfold zget.
  destruct (j <? 0) eqn:Ej; auto. apply Z.ltb_ge in Ej.
  rewrite nth_error_upd_other by lia. reflexivity.
Qed.

Lemma eff_firstn {A} (a l : list A) cnt :
  eff a cnt = Ok l -> l = firstn (Z.to_nat cnt) a.
Proof.
  unfold eff. destruct (Z.of_nat (length a) <? cnt); [discriminate|]. congruence.
Qed.

(** **** Loops *)

Lemma for_upto_inv {S} (R : S -> S -> Prop) (body : Z -> S -> res S) :
  (forall s, R s s) -> (forall a b c, R a b -> R b c -> R a c) ->
  (forall i s s', body i s = Ok s' -> R s s') ->
  forall n s s', for_upto n body s = Ok s' -> R s s'.
Proof.
  intros Hrefl Htrans Hbody. induction n as [|n IH]; intros s s' H; simpl in H.
  - injection H as <-. apply Hrefl.
  - destruct (for_upto n body s) as [s1| |] eqn:E; try discriminate.
    simpl in H. eapply Htrans; [apply IH; exact E | eapply Hbody; eauto].
Qed.

Lemma for_each_inv {A S} (R : S -> S -> Prop) (body : A -> S -> res S) :
  (forall s, R s s) -> (forall a b c, R a b -> R b c -> R a c) ->
  (forall x s s', body x s = Ok s' -> R s s') ->
  forall l s s', for_each l body s = Ok s' -> R s s'.
Proof.
  intros Hrefl Htrans Hbody. induction l as [|x l IH]; intros s s' H; simpl in H.
  - injection H as <-. apply Hrefl.
  - destruct (body x s) as [s1| |] eqn:E; try discriminate.
    simpl in H. eapply Htrans; [eapply Hbody; eauto | apply IH; auto].
Qed.

(** **** What the traversal leaves alone *)

Lemma graph_eq_refl st : graph_eq st st.
Proof. unfold graph_eq; repeat split; reflexivity. Qed.

Lemma graph_eq_trans a b c : graph_eq a b -> graph_eq b c -> graph_eq a c.
Proof.
  unfold graph_eq. intros (A1 & A2 & A3 & A4 & A5 & A6 & A7 & A8 & A9)
                          (B1 & B2 & B3 & B4 & B5 & B6 & B7 & B8 & B9).
  repeat split; congruence.
Qed.

Ltac res_cases H :=
  repeat match type of H with
  | context [rbind ?m _] =>
      let E := fresh "E" in destruct m eqn:E; cbn [rbind] in H; try discriminate H
  | context [if ?c then _ else _] =>
      let E := fresh "E" in destruct c eqn:E; try discriminate H
  | context [let '(_, _) := ?x in _] =>
      let E := fresh "E" in destruct x eqn:E
  | context [match ?x with _ => _ end] =>
      let E := fresh "E" in destruct x eqn:E; try discriminate H
  end.


Lemma graph_eq_sym a b : graph_eq a b -> graph_eq b a.
Proof.
  unfold graph_eq. intros (A1 & A2 & A3 & A4 & A5 & A6 & A7 & A8 & A9).
  repeat split; congruence.
Qed.

Lemma graph_eq_set_scan rp vis st :
  length vis = length (Visited st) -> graph_eq st (set_scan rp vis st).
Proof. intros H. unfold graph_eq, set_scan; cbn. repeat split; auto. Qed.

Lemma graph_eq_set_play a b c st : graph_eq st (set_play a b c st).
Proof. unfold graph_eq, set_play; cbn. repeat split; auto. Qed.

Lemma graph_eq_set_in_use a b st : graph_eq st (set_in_use a b st).
Proof. unfold graph_eq, set_in_use; cbn. repeat split; auto. Qed.

Lemma graph_eq_parents a b k : graph_eq a b -> parents b k = parents a k.
Proof. intros (_ & _ & H & _). unfold parents. rewrite H. reflexivity. Qed.

Lemma reset_body_graph visit i st o a st' o' a' :
  reset_body visit i (st, o, a) = Ok (st', o', a') -> graph_eq st st'.
Proof.
  unfold reset_body. intros H.
  assert (Hv : forall vis, (if visit then zset (Visited st) i false else Ok (Visited st)) = Ok vis ->
                           length vis = length (Visited st)).
  { intros vis Hvis. destruct visit; [eapply zset_length; eauto | congruence]. }
  destruct (if visit then zset (Visited st) i false else Ok (Visited st)) as [vis| |] eqn:E1;
    cbn [rbind] in H; try discriminate.
  specialize (Hv vis eq_refl).
  destruct (zset (RevPlay st) i (-1)) as [rp| |] eqn:E2; cbn [rbind] in H; try discriminate.
  pose proof (graph_eq_set_scan rp vis st Hv) as G1.
  remember (set_scan rp vis st) as s1.
  destruct (zget (OutInUse s1) i) as [ou| |]; cbn [rbind] in H; try discriminate.
  assert (G2 : forall x1, (if ou then l <- zset (ToOutPlayList s1) o i;;
                  Ok (set_play l (ToAuxPlayList s1) (AuxToAuxPlayList s1) s1, o + 1)
                else Ok (s1, o)) = Ok x1 -> graph_eq s1 (fst x1)).
  { intros x1 Hx. destruct ou.
    - destruct (zset (ToOutPlayList s1) o i); cbn [rbind] in Hx; try discriminate.
      injection Hx as <-. apply graph_eq_set_play.
    - injection Hx as <-. apply graph_eq_refl. }
  destruct (if ou then _ else _) as [[s2 o2]| |]; cbn [rbind] in H; try discriminate.
  specialize (G2 _ eq_refl). cbn in G2.
  destruct (zget (AuxOutInUse s2) i) as [ao| |]; cbn [rbind] in H; try discriminate.
  destruct ao.
  - destruct (zset (ToAuxPlayList s2) a i); cbn [rbind] in H; try discriminate.
    injection H as <- _ _.
    eapply graph_eq_trans; [exact G1|]. eapply graph_eq_trans; [exact G2|].
    apply graph_eq_set_play.
  - injection H as <- _ _.
    eapply graph_eq_trans; [exact G1|]. exact G2.
Qed.

Lemma reset_loop_graph visit n st x :
  for_upto n (reset_body visit) (st, 0, 0) = Ok x -> graph_eq st (fst (fst x)).
Proof.
  intros H.
  apply (for_upto_inv (fun (a b : state * Z * Z) => graph_eq (fst (fst a)) (fst (fst b)))
           (reset_body visit)) in H; auto.
  - intros s; apply graph_eq_refl.
  - intros a b c; apply graph_eq_trans.
  - intros i [[s o] a] [[s' o'] a'] Hb. eapply reset_body_graph; eauto.
Qed.

Lemma reset_body_visited i st o a st' o' a' :
  reset_body true i (st, o, a) = Ok (st', o', a') ->
  zget (Visited st') i = Ok false /\
  forall j, j <> i -> zget (Visited st') j = zget (Visited st) j.
Proof.
  unfold reset_body. intros H.
  destruct (zset (Visited st) i false) as [vis| |] eqn:E1; cbn [rbind] in H; try discriminate.
  destruct (zset (RevPlay st) i (-1)) as [rp| |] eqn:E2; cbn [rbind] in H; try discriminate.
  assert (V1 : Visited (set_scan rp vis st) = vis) by reflexivity.
  remember (set_scan rp vis st) as s1.
  destruct (zget (OutInUse s1) i) as [ou| |]; cbn [rbind] in H; try discriminate.
  assert (G2 : forall x1, (if ou then l <- zset (ToOutPlayList s1) o i;;
                  Ok (set_play l (ToAuxPlayList s1) (AuxToAuxPlayList s1) s1, o + 1)
                else Ok (s1, o)) = Ok x1 -> Visited (fst x1) = vis).
  { intros x1 Hx. destruct ou.
    - destruct (zset (ToOutPlayList s1) o i); cbn [rbind] in Hx; try discriminate.
      injection Hx as <-. exact V1.
    - injection Hx as <-. exact V1. }
  destruct (if ou then _ else _) as [[s2 o2]| |]; cbn [rbind] in H; try discriminate.
  specialize (G2 _ eq_refl). cbn in G2.
  destruct (zget (AuxOutInUse s2) i) as [ao| |]; cbn [rbind] in H; try discriminate.
  assert (V3 : Visited st' = vis).
  { destruct ao.
    - destruct (zset (ToAuxPlayList s2) a i); cbn [rbind] in H; try discriminate.
      injection H as <- _ _. exact G2.
    - injection H as <- _ _. exact G2. }
  rewrite V3. split.
  - eapply zget_zset_same; eauto.
  - intros j Hj. eapply zget_zset_other; eauto.
Qed.

Lemma reset_loop_visited n st x :
  for_upto n (reset_body true) (st, 0, 0) = Ok x ->
  forall j, 0 <= j < Z.of_nat n -> zget (Visited (fst (fst x))) j = Ok false.
Proof.
  revert x. induction n as [|n IH]; intros x H j Hj; [lia|].
  simpl in H.
  destruct (for_upto n (reset_body true) (st, 0, 0)) as [[[s1 o1] a1]| |] eqn:E;
    cbn [rbind] in H; try discriminate.
  destruct x as [[s2 o2] a2]. cbn [fst].
  destruct (reset_body_visited _ _ _ _ _ _ _ H) as [Hi Ho].
  destruct (Z.eq_dec j (Z.of_nat n)) as [->|Hne]; [exact Hi|].
  rewrite Ho by exact Hne. apply (IH _ eq_refl). lia.
Qed.


(** **** One step of the traversal *)

Lemma existsb_eqb_In t outs : existsb (Z.eqb t) outs = true <-> In t outs.
Proof.
  rewrite existsb_exists. split.
  - intros (x & Hx & E). apply Z.eqb_eq in E. congruence.
  - intros H. exists t. split; [exact H | apply Z.eqb_refl].
Qed.

Lemma check_bus_inv outs t c r c' :
  check_bus outs t c = Ok (r, c') -> check_bus_case outs t c r c'.
Proof.
  unfold check_bus. intros H.
  destruct (zget (Checked c) t) as [chk| |] eqn:E1; cbn [rbind] in H; try discriminate.
  destruct (negb chk && existsb (Z.eqb t) outs) eqn:E2.
  - injection H as <- <-. apply andb_true_iff in E2 as [Ea Eb].
    apply negb_true_iff in Ea. subst chk. apply existsb_eqb_In in Eb.
    constructor; assumption.
  - assert (Hc : chk = true \/ ~ In t outs).
    { apply andb_false_iff in E2 as [Ea|Eb].
      - left. apply negb_false_iff in Ea. exact Ea.
      - right. intros Hin. apply existsb_eqb_In in Hin. congruence. }
    destruct (zset (Checked c) t true) as [checked| |] eqn:E3; cbn [rbind] in H; try discriminate.
    destruct (zget (In_Config (sc_state c)) t) as [node| |] eqn:E4; cbn [rbind] in H;
      try discriminate.
    destruct (zget (Visited (sc_state c)) t) as [vis| |] eqn:E5; cbn [rbind] in H;
      try discriminate.
    destruct ((bus_count node >? 0) && negb vis) eqn:E6.
    + apply andb_true_iff in E6 as [Ea Eb]. apply negb_true_iff in Eb. subst vis.
      apply Z.gtb_lt in Ea.
      destruct (zget (HasParent (sc_state c)) t) as [hp| |]; cbn [rbind] in H; try discriminate.
      destruct (if hp then _ else _) as [[rp cnt]| |]; cbn [rbind] in H; try discriminate.
      destruct (zset (Visited (sc_state c)) t true) as [vis'| |] eqn:E7; cbn [rbind] in H;
        try discriminate.
      destruct (eff (bus_list node) (bus_count node)) as [l| |] eqn:E8; cbn [rbind] in H;
        try discriminate.
      injection H as <- <-. eapply cb_visit; eauto. lia.
    + injection H as <- <-. eapply cb_skip; eauto.
      apply andb_false_iff in E6 as [Ea|Eb].
      * left. rewrite Z.gtb_ltb in Ea. apply Z.ltb_ge in Ea. exact Ea.
      * right. apply negb_false_iff in Eb. exact Eb.
Qed.

Lemma check_bus_fuel outs t c : check_bus outs t c <> NoFuel.
Proof.
  unfold check_bus, zget, zset, eff. intros H.
  repeat match type of H with
  | context [if ?b then _ else _] => destruct b; cbn [rbind] in H; try discriminate H
  | context [match ?x with _ => _ end] => destruct x; cbn [rbind] in H; try discriminate H
  end.
Qed.


Lemma isset_zset l l' t x :
  zset l t true = Ok l' -> (isset l' x <-> x = t \/ isset l x).
Proof.
  intros H. unfold isset. destruct (Z.eq_dec t x) as [->|Hne].
  - rewrite (zget_zset_same _ _ _ _ H). tauto.
  - rewrite (zget_zset_other _ _ _ _ _ H Hne). split; [tauto|]. intros [E|E]; congruence.
Qed.

Lemma unvisited_upd l n :
  nth_error l n = Some false -> S (unvisited (upd l n true)) = unvisited l.
Proof.
  unfold unvisited. revert n. induction l as [|h t IH]; intros [|n] H; simpl in *;
    try discriminate.
  - injection H as ->. reflexivity.
  - specialize (IH n H). destruct (bool_dec h false); lia.
Qed.

Lemma unvisited_zset l l' t :
  zget l t = Ok false -> zset l t true = Ok l' -> S (unvisited l') = unvisited l.
Proof.
  unfold zget, zset. intros Hg Hs.
  destruct (t <? 0); [discriminate|]. cbn [orb] in Hs.
  destruct (Z.of_nat (length l) <=? t); [discriminate|].
  injection Hs as <-.
  destruct (nth_error l (Z.to_nat t)) as [b|] eqn:E; [|discriminate].
  injection Hg as ->. apply unvisited_upd. exact E.
Qed.

Lemma unvisited_le l : (unvisited l <= length l)%nat.
Proof. apply count_occ_bound. Qed.

Lemma parents_nil_of_count st t node :
  zget (In_Config st) t = Ok node -> bus_count node <= 0 -> parents st t = [].
Proof.
  intros H Hc. unfold parents. rewrite H.
  replace (Z.to_nat (bus_count node)) with 0%nat by lia. reflexivity.
Qed.

Lemma parents_of_eff st t node l :
  zget (In_Config st) t = Ok node -> eff (bus_list node) (bus_count node) = Ok l ->
  parents st t = l.
Proof.
  intros H He. unfold parents. rewrite H. symmetry. apply eff_firstn. exact He.
Qed.

(** **** The traversal finds every ancestor *)

Ltac inv_split := split; [|split; [|split; [|split]]].

Section Traversal.
Variable G : state.
Variables ins outs : list Z.

Lemma Inv_mono st chk (P P' : Z -> Prop) :
  (forall x, P x -> P' x) -> Inv G ins outs st chk P -> Inv G ins outs st chk P'.
Proof.
  intros HP (I0 & I1 & I2 & I3 & I4). inv_split; auto.
  - intros a Ha. destruct (I2 a Ha); auto.
  - intros x p Hx Hp. destruct (I3 x p Hx Hp); auto.
Qed.

Lemma check_bus_Inv t c c' (Q : Z -> Prop) :
  Inv G ins outs (sc_state c) (Checked c) (fun x => x = t \/ In x (concat (added c)) \/ Q x) ->
  check_bus outs t c = Ok (None, c') ->
  Inv G ins outs (sc_state c') (Checked c') (fun x => In x (concat (added c')) \/ Q x).
Proof.
  intros (I0 & I1 & I2 & I3 & I4) H. apply check_bus_inv in H.
  inversion H as [ | chk checked node rp cnt vis' l Hchk Hc Hset Hnode Hvis Hcnt Hvset Heff
                   | chk checked node vis Hchk Hc Hset Hnode Hvis Hcnt ]; subst; cbn [sc_state Checked added].
  - (* the bus is visited: its parents go on the queue *)
    assert (Hl : parents G t = l).
    { rewrite <- (graph_eq_parents _ _ t I0). eapply parents_of_eff; eauto. }
    inv_split.
    + eapply graph_eq_trans; [exact I0|]. apply graph_eq_set_scan.
      eapply zset_length; eauto.
    + intros x Hx. apply (isset_zset _ _ _ _ Hset) in Hx. destruct Hx as [->|Hx]; auto.
      destruct Hc as [->|Hc]; auto.
    + intros a Ha. rewrite (isset_zset _ _ _ _ Hset).
      destruct (I2 a Ha) as [?|[?|[?|?]]]; auto.
      right. left. rewrite concat_app. apply in_or_app. auto.
    + intros x p Hx Hp. rewrite (isset_zset _ _ _ _ Hset).
      apply (isset_zset _ _ _ _ Hset) in Hx. destruct Hx as [->|Hx].
      * right. left. rewrite concat_app. apply in_or_app. right.
        simpl. rewrite app_nil_r. congruence.
      * destruct (I3 x p Hx Hp) as [?|[?|[?|?]]]; auto.
        right. left. rewrite concat_app. apply in_or_app. auto.
    + intros x Hx. cbn in Hx. apply (isset_zset _ _ _ _ Hvset) in Hx.
      rewrite (isset_zset _ _ _ _ Hset). destruct Hx; auto.
  - (* nothing to visit *)
    assert (Ht : forall p, In p (parents G t) -> isset (Checked c) p \/
                   (p = t \/ In p (concat (added c)) \/ Q p)).
    { intros p Hp. destruct Hcnt as [Hcnt| ->].
      - rewrite <- (graph_eq_parents _ _ t I0) in Hp.
        rewrite (parents_nil_of_count _ _ _ Hnode Hcnt) in Hp. destruct Hp.
      - apply (I3 t p); auto. }
    inv_split.
    + exact I0.
    + intros x Hx. apply (isset_zset _ _ _ _ Hset) in Hx. destruct Hx as [->|Hx]; auto.
      destruct Hc as [->|Hc]; auto.
    + intros a Ha. rewrite (isset_zset _ _ _ _ Hset).
      destruct (I2 a Ha) as [?|[?|[?|?]]]; auto.
    + intros x p Hx Hp. rewrite (isset_zset _ _ _ _ Hset).
      apply (isset_zset _ _ _ _ Hset) in Hx. destruct Hx as [->|Hx].
      * destruct (Ht p Hp) as [?|[?|[?|?]]]; auto.
      * destruct (I3 x p Hx Hp) as [?|[?|[?|?]]]; auto.
    + intros x Hx. rewrite (isset_zset _ _ _ _ Hset). auto.
Qed.

Lemma check_node_Inv l : forall c c' (Q : Z -> Prop),
  Inv G ins outs (sc_state c) (Checked c) (fun x => In x l \/ In x (concat (added c)) \/ Q x) ->
  check_node outs l c = Ok (None, c') ->
  Inv G ins outs (sc_state c') (Checked c') (fun x => In x (concat (added c')) \/ Q x).
Proof.
  induction l as [|t rest IH]; intros c c' Q HI H; simpl in H.
  - injection H as <-. eapply Inv_mono; [|exact HI]. cbn. intros x [[]|?]; auto.
  - destruct (check_bus outs t c) as [[[e|] c1]| |] eqn:E; cbn [rbind] in H; try discriminate.
    apply (check_bus_Inv t c c1 (fun x => In x rest \/ Q x)) in E.
    + apply (IH c1 c' Q); [|exact H].
      eapply Inv_mono; [|exact E]. cbn. intros x [?|[?|?]]; auto.
    + eapply Inv_mono; [|exact HI]. cbn. intros x [[?|?]|[?|?]]; auto.
Qed.

Lemma check_node_error l : forall c e c',
  check_node outs l c = Ok (Some e, c') -> e = LOOP_ERR.
Proof.
  induction l as [|t rest IH]; intros c e c' H; simpl in H; [discriminate|].
  destruct (check_bus outs t c) as [[[e1|] c1]| |] eqn:E; cbn [rbind] in H; try discriminate.
  - injection H as <- <-. apply check_bus_inv in E. inversion E. reflexivity.
  - eapply IH; eauto.
Qed.

Lemma check_queue_Inv fuel : forall queue c c',
  Inv G ins outs (sc_state c) (Checked c) (fun x => In x (concat queue)) ->
  check_queue fuel outs queue c = Ok (NO_ERR, c') ->
  Inv G ins outs (sc_state c') (Checked c') (fun _ => False).
Proof.
  induction fuel as [|fuel IH]; intros queue c c' HI H.
  - destruct queue; simpl in H; [|discriminate]. injection H as <-.
    eapply Inv_mono; [|exact HI]. cbn. auto.
  - destruct queue as [|l rest]; simpl in H.
    + injection H as <-. eapply Inv_mono; [|exact HI]. cbn. auto.
    + destruct (check_node outs l _) as [[[e|] c1]| |] eqn:E; cbn [rbind] in H;
        try discriminate.
      * injection H as -> _. apply check_node_error in E. discriminate.
      * apply (check_node_Inv l _ c1 (fun x => In x (concat rest))) in E.
        -- apply (IH (rest ++ added c1) c1 c'); [|exact H].
           eapply Inv_mono; [|exact E]. cbn. intros x [?|?];
             rewrite concat_app; apply in_or_app; auto.
        -- cbn [sc_state Checked added]. eapply Inv_mono; [|exact HI]. cbn.
           intros x Hx. apply in_app_or in Hx. destruct Hx; auto.
Qed.

Lemma check_queue_error fuel : forall queue c e c',
  check_queue fuel outs queue c = Ok (e, c') -> e = NO_ERR \/ e = LOOP_ERR.
Proof.
  induction fuel as [|fuel IH]; intros queue c e c' H.
  - destruct queue; simpl in H; [|discriminate]. injection H as <- _. auto.
  - destruct queue as [|l rest]; simpl in H.
    + injection H as <- _. auto.
    + destruct (check_node outs l _) as [[[e1|] c1]| |] eqn:E; cbn [rbind] in H;
        try discriminate.
      * injection H as <- _. apply check_node_error in E. auto.
      * eapply IH; eauto.
Qed.

End Traversal.


(** **** The traversal ends *)

Lemma for_upto_fuel {S} (body : Z -> S -> res S) :
  (forall i s, body i s <> NoFuel) -> forall n s, for_upto n body s <> NoFuel.
Proof.
  intros Hb. induction n as [|n IH]; intros s; simpl; [discriminate|].
  specialize (IH s). destruct (for_upto n body s); cbn [rbind]; auto; try discriminate.
Qed.

Lemma for_each_fuel {A S} (body : A -> S -> res S) :
  (forall x s, body x s <> NoFuel) -> forall l s, for_each l body s <> NoFuel.
Proof.
  intros Hb. induction l as [|x l IH]; intros s; simpl; [discriminate|].
  specialize (Hb x s). destruct (body x s); cbn [rbind]; auto; try discriminate.
Qed.

Ltac no_fuel H :=
  repeat match type of H with
  | context [if ?b then _ else _] => destruct b; cbn [rbind] in H; try discriminate H
  | context [match ?x with _ => _ end] => destruct x; cbn [rbind] in H; try discriminate H
  end.

Lemma reset_body_fuel visit i x : reset_body visit i x <> NoFuel.
Proof.
  destruct x as [[st o] a]. unfold reset_body, zget, zset. intros H. no_fuel H.
Qed.

Lemma check_bus_graph outs t c r c' :
  check_bus outs t c = Ok (r, c') -> graph_eq (sc_state c) (sc_state c').
Proof.
  intros H. apply check_bus_inv in H. inversion H; subst; cbn [sc_state].
  - apply graph_eq_refl.
  - apply graph_eq_set_scan. eapply zset_length; eauto.
  - apply graph_eq_refl.
Qed.

Lemma check_bus_measure outs t c r c' :
  check_bus outs t c = Ok (r, c') ->
  (length (added c') + unvisited (Visited (sc_state c'))
   <= length (added c) + unvisited (Visited (sc_state c)))%nat.
Proof.
  intros H. apply check_bus_inv in H.
  inversion H as [ | chk checked node rp cnt vis' l Hchk Hc Hset Hnode Hvis Hcnt Hvset Heff
                   | ]; subst; cbn [sc_state added]; try lia.
  unfold set_scan; cbn [Visited]. rewrite length_app. cbn [length].
  pose proof (unvisited_zset _ _ _ Hvis Hvset). lia.
Qed.

Lemma check_node_graph outs l : forall c r c',
  check_node outs l c = Ok (r, c') -> graph_eq (sc_state c) (sc_state c').
Proof.
  induction l as [|t rest IH]; intros c r c' H; simpl in H.
  - injection H as _ <-. apply graph_eq_refl.
  - destruct (check_bus outs t c) as [[[e|] c1]| |] eqn:E; cbn [rbind] in H; try discriminate.
    + injection H as _ <-. eapply check_bus_graph; eauto.
    + eapply graph_eq_trans; [eapply check_bus_graph; eauto | eapply IH; eauto].
Qed.

Lemma check_node_measure outs l : forall c r c',
  check_node outs l c = Ok (r, c') ->
  (length (added c') + unvisited (Visited (sc_state c'))
   <= length (added c) + unvisited (Visited (sc_state c)))%nat.
Proof.
  induction l as [|t rest IH]; intros c r c' H; simpl in H.
  - injection H as _ <-. lia.
  - destruct (check_bus outs t c) as [[[e|] c1]| |] eqn:E; cbn [rbind] in H; try discriminate.
    + injection H as _ <-. eapply check_bus_measure; eauto.
    + apply check_bus_measure in E. apply IH in H. lia.
Qed.

Lemma check_node_fuel outs l : forall c, check_node outs l c <> NoFuel.
Proof.
  induction l as [|t rest IH]; intros c; simpl; [discriminate|].
  pose proof (check_bus_fuel outs t c) as Hb.
  destruct (check_bus outs t c) as [[[e|] c1]| |]; cbn [rbind]; auto; discriminate.
Qed.

Lemma check_queue_graph outs fuel : forall queue c e c',
  check_queue fuel outs queue c = Ok (e, c') -> graph_eq (sc_state c) (sc_state c').
Proof.
  induction fuel as [|fuel IH]; intros queue c e c' H.
  - destruct queue; simpl in H; [|discriminate]. injection H as _ <-. apply graph_eq_refl.
  - destruct queue as [|l rest]; simpl in H.
    + injection H as _ <-. apply graph_eq_refl.
    + destruct (check_node outs l _) as [[[e1|] c1]| |] eqn:E; cbn [rbind] in H;
        try discriminate.
      * injection H as _ <-. apply check_node_graph in E. exact E.
      * apply check_node_graph in E. cbn [sc_state] in E.
        eapply graph_eq_trans; [exact E | eapply IH; eauto].
Qed.

(** A bus puts its parents on the queue once, when it is visited: as many
    turns as there are nodes on the queue and buses not yet visited are
    enough. *)
Lemma check_queue_fuel outs fuel : forall queue c,
  (length queue + unvisited (Visited (sc_state c)) <= fuel)%nat ->
  check_queue fuel outs queue c <> NoFuel.
Proof.
  induction fuel as [|fuel IH]; intros queue c Hm.
  - destruct queue; simpl in *; [discriminate | lia].
  - destruct queue as [|l rest]; simpl; [discriminate|].
    pose proof (check_node_fuel outs l (mkScan (sc_state c) (Checked c) (r_p_count c) [])) as Hn.
    destruct (check_node outs l _) as [[[e1|] c1]| |] eqn:E; cbn [rbind]; auto;
      try discriminate.
    apply check_node_measure in E. cbn [sc_state added] in E.
    apply IH. rewrite length_app. simpl in *. lia.
Qed.

(** **** check_bus_inst_config *)

Lemma allocate_graph_frame st :
  busCount (allocate_graph st) = busCount st /\
  Visited (allocate_graph st) = Visited st /\
  HasChild (allocate_graph st) = HasChild st /\
  HasParent (allocate_graph st) = HasParent st /\
  AuxInUse (allocate_graph st) = AuxInUse st /\
  Inst_Bus_Config (allocate_graph st) = Inst_Bus_Config st /\
  Bus_Config_Status (allocate_graph st) = true.
Proof.
  unfold allocate_graph. destruct (Bus_Config_Status st) eqn:E; cbn; repeat split; auto.
Qed.

Lemma allocate_graph_same st : Bus_Config_Status st = true -> allocate_graph st = st.
Proof. unfold allocate_graph. intros ->. reflexivity. Qed.

Lemma check_config_graph slot visit st e st' :
  check_bus_inst_config slot visit st = Ok (e, st') -> graph_eq (allocate_graph st) st'.
Proof.
  unfold check_bus_inst_config. intros H.
  destruct (for_upto _ _ _) as [[[s1 o1] a1]| |] eqn:E1; cbn [rbind] in H; try discriminate.
  apply reset_loop_graph in E1. cbn [fst] in E1.
  destruct (eff (auxin slot) _) as [ins| |]; cbn [rbind] in H; try discriminate.
  destruct (eff (auxout slot) _) as [outs| |]; cbn [rbind] in H; try discriminate.
  destruct (check_queue _ _ _ _) as [[e1 c1]| |] eqn:E2; cbn [rbind] in H; try discriminate.
  injection H as _ <-. apply check_queue_graph in E2. cbn [sc_state snd] in *.
  eapply graph_eq_trans; eauto.
Qed.

Lemma check_config_error slot visit st e st' :
  check_bus_inst_config slot visit st = Ok (e, st') -> e = NO_ERR \/ e = LOOP_ERR.
Proof.
  unfold check_bus_inst_config. intros H.
  destruct (for_upto _ _ _) as [[[s1 o1] a1]| |] eqn:E1; cbn [rbind] in H; try discriminate.
  destruct (eff (auxin slot) _) as [ins| |]; cbn [rbind] in H; try discriminate.
  destruct (eff (auxout slot) _) as [outs| |]; cbn [rbind] in H; try discriminate.
  destruct (check_queue _ _ _ _) as [[e1 c1]| |] eqn:E2; cbn [rbind] in H; try discriminate.
  injection H as <- _. eapply check_queue_error; eauto.
Qed.

Lemma check_config_fuel slot visit st :
  length (Visited st) = nbus st -> check_bus_inst_config slot visit st <> NoFuel.
Proof.
  intros Hlen. unfold check_bus_inst_config.
  destruct (allocate_graph_frame st) as (Hb & Hv & _).
  pose proof (for_upto_fuel (reset_body visit) (reset_body_fuel visit)
                (nbus (allocate_graph st)) (allocate_graph st, 0, 0)) as Hf.
  destruct (for_upto _ _ _) as [[[s1 o1] a1]| |] eqn:E1; cbn [rbind]; auto; try discriminate.
  apply reset_loop_graph in E1. cbn [fst] in E1.
  unfold eff.
  destruct (_ <? auxin_count slot); cbn [rbind]; try discriminate.
  destruct (_ <? auxout_count slot); cbn [rbind]; try discriminate.
  match goal with |- context [check_queue ?f ?o ?q ?c] =>
    pose proof (check_queue_fuel o f q c) as Hq;
    destruct (check_queue f o q c) as [[e1 c1]| |]; cbn [rbind]; try discriminate
  end.
  exfalso. apply Hq; [|reflexivity]. cbn [sc_state length].
  destruct E1 as (B1 & _ & _ & _ & _ & _ & _ & B8 & _).
  pose proof (unvisited_le (Visited s1)) as Hu.
  unfold nbus in *. rewrite B8, Hv, Hlen, B1, Hb in *. lia.
Qed.


(** **** Paths *)

Lemma reach_sub st' st a b : sub_graph st' st -> reach st' a b -> reach st a b.
Proof.
  intros Hs H. induction H as [a | a b c _ IH He].
  - apply reach_refl.
  - eapply reach_step; [exact IH | apply Hs; exact He].
Qed.

Lemma ancestor_sub st' st a b : sub_graph st' st -> ancestor st' a b -> ancestor st a b.
Proof.
  intros Hs H. induction H as [a b He | a b c _ IH He].
  - apply anc_edge. apply Hs; exact He.
  - eapply anc_step; [exact IH | apply Hs; exact He].
Qed.

Lemma acyclic_sub st' st : sub_graph st' st -> acyclic st -> acyclic st'.
Proof. intros Hs Ha k Hk. apply (Ha k). eapply ancestor_sub; eauto. Qed.

Lemma sub_graph_of_parents st' st :
  (forall k, parents st' k = parents st k) -> sub_graph st' st.
Proof. intros H p c. unfold edge. rewrite H. auto. Qed.

Lemma graph_eq_sub a b : graph_eq a b -> sub_graph b a.
Proof. intros H. apply sub_graph_of_parents. intros k. apply graph_eq_parents. exact H. Qed.

Lemma graph_eq_sub' a b : graph_eq a b -> sub_graph a b.
Proof. intros H. apply graph_eq_sub. apply graph_eq_sym. exact H. Qed.

Lemma reach_trans st a b c : reach st a b -> reach st b c -> reach st a c.
Proof.
  intros Hab Hbc. induction Hbc as [b | b c d _ IH He]; auto.
  eapply reach_step; [apply IH; exact Hab | exact He].
Qed.

Lemma ancestor_reach st a b : ancestor st a b -> reach st a b.
Proof.
  intros H. induction H as [a b He | a b c _ IH He].
  - eapply reach_step; [apply reach_refl | exact He].
  - eapply reach_step; eauto.
Qed.

Lemma reach_ancestor st a b c : reach st a b -> edge st b c -> ancestor st a c.
Proof.
  intros H. revert c. induction H as [a | a b c _ IH He]; intros d Hd.
  - apply anc_edge. exact Hd.
  - eapply anc_step; [apply IH; exact He | exact Hd].
Qed.

Lemma isset_repeat_false n x : ~ isset (repeat false n) x.
Proof.
  unfold isset, zget. destruct (x <? 0); [discriminate|].
  destruct (nth_error (repeat false n) (Z.to_nat x)) as [b|] eqn:E; [|discriminate].
  apply nth_error_In in E. apply repeat_spec in E. subst b. discriminate.
Qed.

Lemma Inv_closed G ins outs st chk :
  Inv G ins outs st chk (fun _ => False) ->
  forall b a, reach G b a -> isset chk a -> isset chk b.
Proof.
  intros (_ & _ & _ & I3 & _) b a H. induction H as [a | b x a _ IH He]; auto.
  intros Ha. apply IH. destruct (I3 a x Ha He) as [?|[]]. assumption.
Qed.

(** When the check of a slot gives NO_ERR, none of the slot's aux-out buses
    is among its aux-in buses or their ancestors. *)
Lemma check_config_complete slot st st' ins outs :
  length (Visited st) = nbus st ->
  check_bus_inst_config slot true st = Ok (NO_ERR, st') ->
  eff (auxin slot) (auxin_count slot) = Ok ins ->
  eff (auxout slot) (auxout_count slot) = Ok outs ->
  forall a b, In a ins -> In b outs -> ~ reach st' b a.
Proof.
  intros Hlen H Hins Houts a b Ha Hb Hr.
  unfold check_bus_inst_config in H. rewrite Hins, Houts in H.
  destruct (allocate_graph_frame st) as (Hbc & Hv & _).
  destruct (for_upto _ _ _) as [[[s1 o1] a1]| |] eqn:E1; cbn [rbind] in H; try discriminate.
  pose proof (reset_loop_graph _ _ _ _ E1) as G1. cbn [fst] in G1.
  pose proof (reset_loop_visited _ _ _ E1) as V1. cbn [fst] in V1.
  destruct (check_queue _ _ _ _) as [[e1 c1]| |] eqn:E2; cbn [rbind] in H; try discriminate.
  cbn [fst snd] in H. injection H as -> <-.
  assert (HI : Inv s1 ins outs s1 (repeat false (nbus s1)) (fun x => In x (concat [ins]))).
  { inv_split.
    - apply graph_eq_refl.
    - intros x Hx. destruct (isset_repeat_false _ _ Hx).
    - intros x Hx. right. simpl. rewrite app_nil_r. exact Hx.
    - intros x p Hx. destruct (isset_repeat_false _ _ Hx).
    - intros x Hx. exfalso. unfold isset in Hx.
      pose proof (zget_range _ _ _ Hx) as Hrg.
      destruct G1 as (B1 & _ & _ & _ & _ & _ & _ & B8 & _).
      rewrite V1 in Hx; [discriminate|].
      unfold nbus in *. rewrite B8, Hv, Hlen in Hrg. rewrite Hbc. exact Hrg. }
  pose proof (check_queue_graph _ _ _ _ _ _ E2) as G2. cbn [sc_state] in G2.
  apply (check_queue_Inv s1 ins outs) in E2; [|exact HI].
  pose proof (Inv_closed _ _ _ _ _ E2) as Hcl.
  destruct E2 as (_ & I1 & I2 & _ & _).
  destruct (I2 a Ha) as [Hca|[]].
  apply (I1 b); [|exact Hb].
  apply (Hcl b a); [|exact Hca].
  eapply reach_sub; [|exact Hr]. apply graph_eq_sub. exact G2.
Qed.


(** **** insert_bus_slot *)

Lemma for_each_inv_in {A S} (R : S -> S -> Prop) (body : A -> S -> res S) (l : list A) :
  (forall s, R s s) -> (forall a b c, R a b -> R b c -> R a c) ->
  (forall x s s', In x l -> body x s = Ok s' -> R s s') ->
  forall s s', for_each l body s = Ok s' -> R s s'.
Proof.
  intros Hrefl Htrans. induction l as [|x l IH]; intros Hbody s s' H; simpl in H.
  - injection H as <-. apply Hrefl.
  - destruct (body x s) as [s1| |] eqn:E; try discriminate.
    simpl in H. eapply Htrans; [eapply Hbody; [left; reflexivity | exact E] |].
    apply IH; auto. intros y t t' Hy. apply Hbody. right. exact Hy.
Qed.

Lemma grows_refl X st : grows X st st.
Proof. unfold grows. repeat split; auto. Qed.

Lemma grows_trans X a b c : grows X a b -> grows X b c -> grows X a c.
Proof.
  intros (A1 & A2 & A3 & A4 & A5) (B1 & B2 & B3 & B4 & B5).
  split; [congruence|]. split; [congruence|]. split; [congruence|]. split; [congruence|].
  intros p k H. destruct (B5 p k H) as [H1|H1]; auto.
Qed.

Lemma grows_mono (X Y : Z -> Z -> Prop) a b :
  (forall p c, X p c -> Y p c) -> grows X a b -> grows Y a b.
Proof.
  intros HXY (A1 & A2 & A3 & A4 & A5). split; [|split; [|split; [|split]]]; auto.
  intros p c H. destruct (A5 p c H); auto.
Qed.

Lemma In_firstn_upd {A} (l : list A) n v x :
  In x (firstn (S n) (upd l n v)) -> x = v \/ In x (firstn n l).
Proof.
  revert n. induction l as [|h t IH]; intros n H.
  - destruct n; simpl in H; destruct H.
  - destruct n as [|n].
    + simpl in H. destruct H as [H|[]]. left; congruence.
    + cbn [upd] in H. rewrite firstn_cons in H. destruct H as [H|H].
      * right. left. exact H.
      * destruct (IH n H) as [?|?]; auto. right. right. assumption.
Qed.

Lemma insert_edge_grows s_out s_in st st' :
  insert_edge s_out s_in st = Ok st' ->
  grows (fun p c => p = s_in /\ c = s_out) st st'.
Proof.
  unfold insert_edge. intros H.
  destruct (zget (HasParent st) s_out) as [hp| |]; cbn [rbind] in H; try discriminate.
  destruct (if negb hp && negb (s_in =? 333) then _ else _) as [hp'| |]; cbn [rbind] in H;
    try discriminate.
  set (s1 := set_graph (In_Config st) (HasChild st) hp' (AuxInUse st) st) in *.
  assert (F1 : In_Config s1 = In_Config st) by reflexivity.
  destruct (zget (In_Config s1) s_out) as [node| |] eqn:En; cbn [rbind] in H; try discriminate.
  destruct (negb (s_in =? 333)).
  - destruct (zset (bus_list node) (bus_count node) s_in) as [bl| |] eqn:Eb; cbn [rbind] in H;
      try discriminate.
    destruct (zset (In_Config s1) s_out _) as [ic| |] eqn:Ei; cbn [rbind] in H;
      try discriminate.
    destruct (zset (HasChild s1) s_in true) as [hc| |]; cbn [rbind] in H; try discriminate.
    destruct (zset (AuxInUse s1) s_in true) as [au| |]; cbn [rbind] in H; try discriminate.
    injection H as <-. unfold grows. cbn. repeat split; auto.
    intros p c. unfold edge, parents. cbn [In_Config set_graph].
    destruct (Z.eq_dec s_out c) as [<-|Hne].
    + rewrite (zget_zset_same _ _ _ _ Ei). cbn [bus_count bus_list].
      rewrite F1 in En. rewrite En.
      change (busCount s1) with (busCount st).
      destruct (bus_count node + 1 >=? busCount st); [cbn; intros []|].
      pose proof (zset_range _ _ _ _ Eb) as Hr.
      replace (Z.to_nat (bus_count node + 1)) with (S (Z.to_nat (bus_count node))) by lia.
      unfold zset in Eb. destruct (_ || _); [discriminate|]. injection Eb as <-.
      intros Hp. apply In_firstn_upd in Hp. destruct Hp; auto.
    + rewrite (zget_zset_other _ _ _ _ _ Ei Hne). rewrite F1. auto.
  - injection H as <-. unfold grows. cbn. repeat split; auto.
Qed.

Lemma insert_out_grows ins s_out st st' :
  insert_out ins s_out st = Ok st' ->
  grows (fun p c => In p ins /\ c = s_out) st st'.
Proof.
  unfold insert_out. intros H.
  destruct (zget (AuxInUse st) s_out) as [au0| |]; cbn [rbind] in H; try discriminate.
  destruct (if negb au0 then _ else _) as [au| |]; cbn [rbind] in H; try discriminate.
  set (s1 := set_graph (In_Config st) (HasChild st) (HasParent st) au st) in *.
  assert (G1 : grows (fun p c => In p ins /\ c = s_out) st s1).
  { unfold grows. cbn. repeat split; auto. }
  eapply grows_trans; [exact G1|].
  revert H. apply for_each_inv_in.
  - apply grows_refl.
  - apply grows_trans.
  - intros x s s' Hx Hb. apply insert_edge_grows in Hb.
    eapply grows_mono; [|exact Hb]. cbn. intros p c [-> ->]. auto.
Qed.

Lemma insert_bus_slot_grows name slot st e st' ins outs :
  insert_bus_slot name slot st = Ok (e, st') ->
  eff (auxin slot) (auxin_count slot) = Ok ins ->
  eff (auxout slot) (auxout_count slot) = Ok outs ->
  e = NO_ERR /\ grows (fun p c => In p ins /\ In c outs) st st'.
Proof.
  unfold insert_bus_slot. intros H Hi Ho. rewrite Hi, Ho in H. cbn [rbind] in H.
  destruct (for_each outs (insert_out ins) st) as [s1| |] eqn:E; cbn [rbind] in H;
    try discriminate.
  injection H as <- <-. split; [reflexivity|].
  assert (G1 : grows (fun p c => In p ins /\ In c outs) st s1).
  { revert E. apply for_each_inv_in.
    - apply grows_refl.
    - apply grows_trans.
    - intros x s s' Hx Hb. apply insert_out_grows in Hb.
      eapply grows_mono; [|exact Hb]. cbn. intros p c [? ->]. auto. }
  eapply grows_trans; [exact G1|]. unfold grows. cbn. repeat split; auto.
Qed.

Lemma insert_edge_fuel s_out s_in st : insert_edge s_out s_in st <> NoFuel.
Proof. unfold insert_edge, zget, zset. intros H. no_fuel H. Qed.

Lemma insert_out_fuel ins s_out st : insert_out ins s_out st <> NoFuel.
Proof.
  unfold insert_out. 
  destruct (zget (AuxInUse st) s_out) as [au0| |] eqn:E0; cbn [rbind]; try discriminate.
  - destruct (if negb au0 then _ else _) as [au| |] eqn:E1; cbn [rbind]; try discriminate.
    + apply for_each_fuel. intros x s. apply insert_edge_fuel.
    + destruct (negb au0); [|discriminate]. unfold zset in E1. no_fuel E1.
  - unfold zget in E0. no_fuel E0.
Qed.

Lemma insert_bus_slot_fuel name slot st : insert_bus_slot name slot st <> NoFuel.
Proof.
  unfold insert_bus_slot, eff.
  destruct (_ <? auxin_count slot); cbn [rbind]; try discriminate.
  destruct (_ <? auxout_count slot); cbn [rbind]; try discriminate.
  match goal with |- context [for_each ?l ?b ?s] =>
    pose proof (for_each_fuel b (insert_out_fuel _) l s) as Hf;
    destruct (for_each l b s); cbn [rbind]; auto; discriminate
  end.
Qed.

(** **** Adding the edges of a slot *)

Lemma ancestor_path st a b : ancestor st a b <-> path (edge st) a b.
Proof.
  split; intros H.
  - induction H as [a b He | a b c _ IH He].
    + apply path_edge; exact He.
    + eapply path_step; eauto.
  - induction H as [a b He | a b c _ IH He].
    + apply anc_edge; exact He.
    + eapply anc_step; eauto.
Qed.

Section NewEdges.
Variable st : state.
Variable E' : Z -> Z -> Prop.
Variables ins outs : list Z.
Hypothesis Hsub : forall p c, E' p c -> edge st p c \/ (In p ins /\ In c outs).
Hypothesis Hfree : forall a b, In a ins -> In b outs -> ~ reach st b a.

Lemma path_new_edges u v :
  path E' u v ->
  ancestor st u v \/
  exists a b, In a ins /\ In b outs /\ reach st u a /\ reach st b v.
Proof.
  intros H. induction H as [u v He | u w v _ IH He].
  - destruct (Hsub _ _ He) as [Ho|[Hi Ho]].
    + left. apply anc_edge. exact Ho.
    + right. exists u, v. repeat split; auto; apply reach_refl.
  - destruct IH as [IH|(a & b & Ha & Hb & Hua & Hbw)].
    + destruct (Hsub _ _ He) as [Ho|[Hi Ho]].
      * left. eapply anc_step; eauto.
      * right. exists w, v. repeat split; auto.
        -- apply ancestor_reach. exact IH.
        -- apply reach_refl.
    + destruct (Hsub _ _ He) as [Ho|[Hi Ho]].
      * right. exists a, b. repeat split; auto. eapply reach_step; eauto.
      * exfalso. apply (Hfree w b Hi Hb). exact Hbw.
Qed.

Lemma no_cycle_new_edges : acyclic st -> forall k, ~ path E' k k.
Proof.
  intros Hac k Hk. apply path_new_edges in Hk.
  destruct Hk as [Hk|(a & b & Ha & Hb & Hka & Hbk)].
  - apply (Hac k Hk).
  - apply (Hfree a b Ha Hb). eapply reach_trans; eauto.
Qed.

End NewEdges.


(** **** The loop over the bus names *)

Lemma from_index_fuel n : forall s, from_index n s <> NoFuel.
Proof.
  induction n as [|n IH]; intros s; simpl; [discriminate|].
  destruct s; [discriminate | apply IH].
Qed.

Lemma rbind_ok_fuel {A B} (m : res A) (f : A -> B) :
  m <> NoFuel -> rbind m (fun p => Ok (f p)) <> NoFuel.
Proof. destruct m; cbn; auto; discriminate. Qed.

Lemma parse_bus_name_fuel busname maxBus : parse_bus_name busname maxBus <> NoFuel.
Proof.
  unfold parse_bus_name. destruct busname as [[|a s]|]; try discriminate.
  destruct a as [[] [] [] [] [] [] [] []]; try discriminate;
    repeat match goal with
    | |- context [if ?b then _ else _] => destruct b
    end;
    try discriminate;
    try (apply rbind_ok_fuel; apply from_index_fuel).
  all: match goal with
       | |- context [from_index ?n ?s] =>
           pose proof (from_index_fuel n s);
           destruct (from_index n s); cbn [rbind]; try discriminate; try congruence
       end.
  all: repeat match goal with
    | |- context [if ?b then _ else _] => destruct b
    end; discriminate.
Qed.

Lemma fill_chans_fuel a count startchan endchan : fill_chans a count startchan endchan <> NoFuel.
Proof.
  unfold fill_chans.
  match goal with |- context [for_each ?l ?b ?s] =>
    assert (Hf : for_each l b s <> NoFuel);
    [ apply for_each_fuel | destruct (for_each l b s); cbn [rbind]; auto; discriminate ]
  end.
  intros x y. unfold zset. destruct (_ || _); cbn [rbind]; discriminate.
Qed.

Lemma mark_chans_fuel flag startchan endchan : mark_chans flag startchan endchan <> NoFuel.
Proof.
  unfold mark_chans. apply for_each_fuel.
  intros x y. unfold zset. destruct (_ || _); discriminate.
Qed.

Lemma add_bus_fuel type startchan endchan x : add_bus type startchan endchan x <> NoFuel.
Proof.
  unfold add_bus. destruct type;
    repeat match goal with
    | |- context [if ?b then _ else _] => destruct b
    end; try discriminate.
  all: repeat match goal with
       | |- context [fill_chans ?a ?c ?s ?e] =>
           pose proof (fill_chans_fuel a c s e);
           destruct (fill_chans a c s e); cbn [rbind]; try discriminate; try congruence
       | |- context [mark_chans ?a ?s ?e] =>
           pose proof (mark_chans_fuel a s e);
           destruct (mark_chans a s e); cbn [rbind]; try discriminate; try congruence
       end.
Qed.

Lemma add_bus_graph type startchan endchan x r x' :
  add_bus type startchan endchan x = Ok (r, x') -> graph_eq (l_state x) (l_state x').
Proof.
  unfold add_bus. intros H. destruct type;
    repeat match type of H with
    | context [if ?b then _ else _] => destruct b
    end;
    repeat match type of H with
    | context [fill_chans ?a ?c ?s ?e] =>
        destruct (fill_chans a c s e); cbn [rbind] in H; try discriminate H
    | context [mark_chans ?a ?s ?e] =>
        destruct (mark_chans a s e); cbn [rbind] in H; try discriminate H
    end;
    injection H as _ <-; cbn [l_state];
    try apply graph_eq_refl; apply graph_eq_set_in_use.
Qed.

Lemma parse_loop_graph busnames : forall x r x',
  parse_loop busnames x = Ok (r, x') -> graph_eq (l_state x) (l_state x').
Proof.
  induction busnames as [|b rest IH]; intros x r x' H; cbn [parse_loop] in H.
  - injection H as _ <-. apply graph_eq_refl.
  - destruct (parse_bus_name _ _) as [[type sc ec|e]| |]; cbn [rbind] in H; try discriminate.
    + destruct (add_bus type sc ec x) as [[[code|] x1]| |] eqn:E; cbn [rbind] in H;
        try discriminate.
      * injection H as _ <-. eapply add_bus_graph; eauto.
      * eapply graph_eq_trans; [eapply add_bus_graph; eauto | eapply IH; eauto].
    + destruct e; try discriminate; injection H as _ <-; apply graph_eq_refl.
Qed.

Lemma parse_loop_fuel busnames : forall x, parse_loop busnames x <> NoFuel.
Proof.
  induction busnames as [|b rest IH]; intros x; cbn [parse_loop]; [discriminate|].
  pose proof (parse_bus_name_fuel (Some b) (busCount (l_state x))) as Hp.
  destruct (parse_bus_name _ _) as [[type sc ec|e]| |]; cbn [rbind]; try discriminate;
    try congruence.
  - pose proof (add_bus_fuel type sc ec x) as Ha.
    destruct (add_bus type sc ec x) as [[[code|] x1]| |]; cbn [rbind]; try discriminate;
      try congruence; try apply IH.
  - destruct e; discriminate.
Qed.


(** **** create_play_order *)

Lemma for_upto_fuel_inv {S} (I : S -> Prop) (body : Z -> S -> res S) :
  (forall i s, I s -> body i s <> NoFuel) ->
  (forall i s s', I s -> body i s = Ok s' -> I s') ->
  forall n s, I s ->
    for_upto n body s <> NoFuel /\ (forall s', for_upto n body s = Ok s' -> I s').
Proof.
  intros Hf Hi. induction n as [|n IH]; intros s Hs; simpl.
  - split; [discriminate|]. intros s' E. injection E as <-. exact Hs.
  - destruct (IH s Hs) as [IH1 IH2].
    destruct (for_upto n body s) as [s1| |]; cbn [rbind].
    + split; [apply Hf; apply IH2; reflexivity|].
      intros s' E. eapply Hi; [apply IH2; reflexivity | exact E].
    + split; discriminate.
    + congruence.
Qed.

Lemma ready_graph_eq a b : graph_eq a b -> ready a -> ready b.
Proof.
  intros (B1 & B2 & _ & _ & _ & _ & _ & B8 & _) [R1 R2]. unfold ready, nbus in *.
  split; congruence.
Qed.

Lemma bf_traverse_graph bus visit st st' :
  Bus_Config_Status st = true -> bf_traverse bus visit st = Ok st' -> graph_eq st st'.
Proof.
  unfold bf_traverse. intros Hs H.
  destruct (zset _ 0 bus); cbn [rbind] in H; try discriminate.
  destruct (zset _ 0 333); cbn [rbind] in H; try discriminate.
  destruct (check_bus_inst_config _ visit st) as [[e s1]| |] eqn:E; cbn [rbind] in H;
    try discriminate.
  injection H as <-. apply check_config_graph in E.
  rewrite (allocate_graph_same _ Hs) in E. exact E.
Qed.

Lemma bf_traverse_fuel bus visit st :
  length (Visited st) = nbus st -> bf_traverse bus visit st <> NoFuel.
Proof.
  unfold bf_traverse. intros Hl.
  destruct (zset _ 0 bus) eqn:E1; cbn [rbind]; try discriminate.
  - destruct (zset _ 0 333) eqn:E2; cbn [rbind]; try discriminate.
    + match goal with |- context [check_bus_inst_config ?s ?v ?t] =>
        pose proof (check_config_fuel s v t Hl);
        destruct (check_bus_inst_config s v t); cbn [rbind]; try discriminate; try congruence
      end.
    + unfold zset in E2. no_fuel E2.
  - unfold zset in E1. no_fuel E1.
Qed.

Lemma roots_body_graph i st cnt st' cnt' :
  roots_body i (st, cnt) = Ok (st', cnt') -> graph_eq st st'.
Proof.
  unfold roots_body. intros H.
  destruct (zget (AuxInUse st) i) as [au| |]; cbn [rbind] in H; try discriminate.
  destruct (zget (HasParent st) i) as [hp| |]; cbn [rbind] in H; try discriminate.
  destruct (au && negb hp).
  - destruct (zset _ cnt i); cbn [rbind] in H; try discriminate.
    injection H as <- _. apply graph_eq_set_play.
  - injection H as <- _. apply graph_eq_refl.
Qed.

Lemma roots_body_fuel i x : roots_body i x <> NoFuel.
Proof. destruct x as [st cnt]. unfold roots_body, zget, zset. intros H. no_fuel H. Qed.

Lemma rev_loop_graph n : forall st cnt st' cnt',
  rev_loop n (st, cnt) = Ok (st', cnt') -> graph_eq st st'.
Proof.
  induction n as [|n IH]; intros st cnt st' cnt' H; simpl in H.
  - injection H as <- _. apply graph_eq_refl.
  - destruct (zget (RevPlay st) (Z.of_nat n)) as [rp| |]; cbn [rbind] in H; try discriminate.
    destruct (negb (rp =? -1)).
    + destruct (zset _ cnt rp); cbn [rbind] in H; try discriminate.
      eapply graph_eq_trans; [|eapply IH; exact H]. apply graph_eq_set_play.
    + cbn [rbind] in H. eapply IH; exact H.
Qed.

Lemma rev_loop_fuel n : forall x, rev_loop n x <> NoFuel.
Proof.
  induction n as [|n IH]; intros [st cnt]; simpl; [discriminate|].
  destruct (zget (RevPlay st) (Z.of_nat n)) as [rp| |] eqn:E; cbn [rbind]; try discriminate.
  - destruct (negb (rp =? -1)); cbn [rbind]; [|apply IH].
    destruct (zset _ cnt rp) eqn:E2; cbn [rbind]; try discriminate; [apply IH|].
    unfold zset in E2. no_fuel E2.
  - unfold zget in E. no_fuel E.
Qed.

Lemma leaves_body_graph i st cnt visit st' cnt' visit' :
  Bus_Config_Status st = true ->
  leaves_body i (st, cnt, visit) = Ok (st', cnt', visit') -> graph_eq st st'.
Proof.
  unfold leaves_body. intros Hs H.
  destruct (zget (AuxInUse st) i) as [au| |]; cbn [rbind] in H; try discriminate.
  destruct (zget (HasChild st) i) as [hc| |]; cbn [rbind] in H; try discriminate.
  destruct (au && negb hc).
  - destruct (bf_traverse i visit st) as [s1| |] eqn:E1; cbn [rbind] in H; try discriminate.
    destruct (rev_loop (nbus s1) (s1, cnt)) as [[s2 c2]| |] eqn:E2; cbn [rbind] in H;
      try discriminate.
    injection H as <- _ _. cbn [fst].
    eapply graph_eq_trans; [eapply bf_traverse_graph; eauto | eapply rev_loop_graph; eauto].
  - injection H as <- _ _. apply graph_eq_refl.
Qed.

Lemma leaves_body_fuel i st cnt visit :
  length (Visited st) = nbus st -> leaves_body i (st, cnt, visit) <> NoFuel.
Proof.
  unfold leaves_body. intros Hl.
  destruct (zget (AuxInUse st) i) as [au| |] eqn:E1; cbn [rbind]; try discriminate.
  - destruct (zget (HasChild st) i) as [hc| |] eqn:E2; cbn [rbind]; try discriminate.
    + destruct (au && negb hc); [|discriminate].
      pose proof (bf_traverse_fuel i visit st Hl) as Hb.
      destruct (bf_traverse i visit st) as [s1| |]; cbn [rbind]; try discriminate;
        try congruence.
      pose proof (rev_loop_fuel (nbus s1) (s1, cnt)) as Hr.
      destruct (rev_loop (nbus s1) (s1, cnt)); cbn [rbind]; try discriminate; try congruence.
    + unfold zget in E2. no_fuel E2.
  - unfold zget in E1. no_fuel E1.
Qed.

Lemma create_play_order_graph st st' :
  Bus_Config_Status st = true -> create_play_order st = Ok st' -> graph_eq st st'.
Proof.
  unfold create_play_order. intros Hs H.
  destruct (for_upto (nbus st) roots_body (st, 0)) as [[s1 c1]| |] eqn:E1; cbn [rbind] in H;
    try discriminate.
  destruct (for_upto (nbus st) leaves_body _) as [[[s2 c2] v2]| |] eqn:E2; cbn [rbind] in H;
    try discriminate.
  injection H as <-. cbn [fst snd] in *.
  assert (G1 : graph_eq st s1).
  { apply (for_upto_inv (fun (a b : state * Z) => graph_eq (fst a) (fst b))) in E1; auto.
    - intros s; apply graph_eq_refl.
    - intros a b c; apply graph_eq_trans.
    - intros i [a ca] [b cb] Hb. eapply roots_body_graph; eauto. }
  assert (Hs1 : Bus_Config_Status s1 = true).
  { destruct G1 as (_ & B2 & _). congruence. }
  eapply graph_eq_trans; [exact G1|].
  apply (for_upto_inv (fun (a b : state * Z * bool) =>
           Bus_Config_Status (fst (fst a)) = true -> graph_eq (fst (fst a)) (fst (fst b))))
    in E2; auto.
  - intros s _; apply graph_eq_refl.
  - intros a b c Hab Hbc Ha. specialize (Hab Ha).
    eapply graph_eq_trans; [exact Hab|]. apply Hbc.
    destruct Hab as (_ & B2 & _). congruence.
  - intros i [[a ca] va] [[b cb] vb] Hb Ha. eapply leaves_body_graph; eauto.
Qed.

Lemma create_play_order_fuel st : ready st -> create_play_order st <> NoFuel.
Proof.
  unfold create_play_order. intros Hr.
  pose proof (for_upto_fuel roots_body roots_body_fuel (nbus st) (st, 0)) as Hf.
  destruct (for_upto (nbus st) roots_body (st, 0)) as [[s1 c1]| |] eqn:E1; cbn [rbind];
    try discriminate; try congruence.
  assert (G1 : graph_eq st s1).
  { apply (for_upto_inv (fun (a b : state * Z) => graph_eq (fst a) (fst b))) in E1; auto.
    - intros s; apply graph_eq_refl.
    - intros a b c; apply graph_eq_trans.
    - intros i [a ca] [b cb] Hb. eapply roots_body_graph; eauto. }
  pose proof (ready_graph_eq _ _ G1 Hr) as Hr1.
  destruct (for_upto_fuel_inv (fun x : state * Z * bool => ready (fst (fst x))) leaves_body)
    with (n := nbus st) (s := (s1, c1, true)) as [Hn _].
  - intros i [[a ca] va] [_ Ha]. apply leaves_body_fuel. exact Ha.
  - intros i [[a ca] va] [[b cb] vb] Ha Hb. cbn [fst] in *.
    eapply ready_graph_eq; [|exact Ha]. eapply leaves_body_graph; [apply Ha | exact Hb].
  - exact Hr1.
  - cbn [fst snd]. destruct (for_upto (nbus st) leaves_body (s1, c1, true)); cbn [rbind];
      try discriminate; congruence.
Qed.


(** **** bus_config *)

Lemma wf_initial n chans : wf (initial n chans) /\ acyclic (initial n chans).
Proof.
  assert (Hp : forall k, parents (initial n chans) k = []).
  { intros k. unfold parents, initial. cbn [In_Config].
    destruct (zget _ k) as [node| |] eqn:E; auto.
    unfold zget in E. destruct (k <? 0); [discriminate|].
    destruct (nth_error _ _) as [x|] eqn:E2; [|discriminate].
    apply nth_error_In in E2. apply repeat_spec in E2. injection E as <-. subst x.
    reflexivity. }
  split.
  - unfold wf. split; [reflexivity|]. split; [|auto].
    unfold initial, nbus. cbn. apply repeat_length.
  - intros k Hk. inversion Hk as [a b He|a b c _ He]; subst;
      unfold edge in He; rewrite Hp in He; destruct He.
Qed.

Lemma wf_graph_eq a b : graph_eq a b -> wf a -> wf b.
Proof.
  intros G (W1 & W2 & W3). pose proof (fun k => graph_eq_parents _ _ k G) as Hp.
  destruct G as (B1 & B2 & _ & _ & _ & _ & _ & B8 & B9).
  unfold wf, nbus in *. split; [congruence|]. split; [congruence|].
  intros Hs k. rewrite Hp. apply W3. congruence.
Qed.

Lemma allocate_parents st :
  (Bus_Config_Status st = false -> forall k, parents st k = []) ->
  forall k, parents (allocate_graph st) k = parents st k.
Proof.
  intros H k. unfold allocate_graph. destruct (Bus_Config_Status st) eqn:Es; auto.
  rewrite (H eq_refl k). unfold parents, set_status. cbn [In_Config].
  destruct (zget _ k) as [node| |] eqn:E; auto.
  unfold zget in E. destruct (k <? 0); [discriminate|].
  destruct (nth_error _ _) as [x|] eqn:E2; [|discriminate].
  apply nth_error_In in E2. apply repeat_spec in E2. injection E as <-. subst x.
  reflexivity.
Qed.

Lemma allocate_rtsetparams st :
  rtsetparams_called (allocate_graph st) = rtsetparams_called st.
Proof. unfold allocate_graph. destruct (Bus_Config_Status st); reflexivity. Qed.

(** What the configuration check leaves behind, whatever it answers. *)
Lemma check_config_frame slot visit st e st' :
  wf st -> check_bus_inst_config slot visit st = Ok (e, st') ->
  wf st' /\ ready st' /\ same_graph st st'.
Proof.
  intros (W1 & W2 & W3) H. apply check_config_graph in H.
  pose proof (fun k => graph_eq_parents _ _ k H) as Hp.
  destruct (allocate_graph_frame st) as (A1 & A2 & A3 & A4 & A5 & A6 & A7).
  pose proof (allocate_rtsetparams st) as A8.
  destruct H as (B1 & B2 & B3 & B4 & B5 & B6 & B7 & B8 & B9).
  assert (Hr : ready st').
  { unfold ready, nbus in *. split; congruence. }
  split; [|split]; auto.
  - destruct Hr as [R1 R2]. unfold wf. split; [congruence|]. split; [exact R2|].
    intros Hs. congruence.
  - unfold same_graph. split; [|repeat split; congruence].
    intros k. rewrite Hp. apply allocate_parents. exact W3.
Qed.

Lemma same_graph_sub st st' : same_graph st st' -> sub_graph st' st /\ sub_graph st st'.
Proof.
  intros (Hp & _). split; apply sub_graph_of_parents; intros k; rewrite Hp; reflexivity.
Qed.

Lemma graph_eq_same a b : graph_eq a b -> same_graph a b.
Proof.
  intros G. pose proof (fun k => graph_eq_parents _ _ k G) as Hp.
  destruct G as (B1 & B2 & B3 & B4 & B5 & B6 & B7 & B8 & B9).
  unfold same_graph. repeat split; auto.
Qed.

Lemma same_graph_trans a b c : same_graph a b -> same_graph b c -> same_graph a c.
Proof.
  intros (A1 & A2 & A3 & A4 & A5) (B1 & B2 & B3 & B4 & B5).
  unfold same_graph. split; [intros k; rewrite B1; apply A1|].
  repeat split; congruence.
Qed.

Lemma check_config_effs slot visit st r :
  check_bus_inst_config slot visit st = Ok r ->
  exists ins outs,
    eff (auxin slot) (auxin_count slot) = Ok ins /\
    eff (auxout slot) (auxout_count slot) = Ok outs.
Proof.
  unfold check_bus_inst_config. intros H.
  destruct (for_upto _ _ _) as [[[s1 o1] a1]| |]; cbn [rbind] in H; try discriminate.
  destruct (eff (auxin slot) _) as [ins| |]; cbn [rbind] in H; try discriminate.
  destruct (eff (auxout slot) _) as [outs| |]; cbn [rbind] in H; try discriminate.
  eauto.
Qed.

(** The part of bus_config after an accepted check. *)
Lemma insert_phase name slot cin cout st1 :
  wf st1 -> ready st1 -> acyclic st1 ->
  (forall ins outs,
     eff (auxin slot) (auxin_count slot) = Ok ins ->
     eff (auxout slot) (auxout_count slot) = Ok outs ->
     forall a b, In a ins -> In b outs -> ~ reach st1 b a) ->
  forall ins0 outs0,
  eff (auxin slot) (auxin_count slot) = Ok ins0 ->
  eff (auxout slot) (auxout_count slot) = Ok outs0 ->
  (i <- insert_bus_slot name slot st1 ;;
   match i with
   | (NO_ERR, st2) =>
       let st3 := set_queue (update_head name (add_chain_counts cin cout)
                               (Inst_Bus_Config st2)) st2 in
       st4 <- create_play_order st3 ;; Ok (Return0, st4)
   | (_, st2) => Ok (RTExit SYSTEM_ERROR, st2)
   end) <> NoFuel /\
  forall e st',
  (i <- insert_bus_slot name slot st1 ;;
   match i with
   | (NO_ERR, st2) =>
       let st3 := set_queue (update_head name (add_chain_counts cin cout)
                               (Inst_Bus_Config st2)) st2 in
       st4 <- create_play_order st3 ;; Ok (Return0, st4)
   | (_, st2) => Ok (RTExit SYSTEM_ERROR, st2)
   end) = Ok (e, st') ->
  wf st' /\ acyclic st'.
Proof.
  intros Hwf Hr Hac Hfree ins outs Hins Houts.
  pose proof (insert_bus_slot_fuel name slot st1) as Hif.
  destruct (insert_bus_slot name slot st1) as [[ie st2]| |] eqn:Ei; cbn [rbind];
    try (split; [discriminate | intros; discriminate]); [|congruence].
  destruct (insert_bus_slot_grows _ _ _ _ _ _ _ Ei Hins Houts) as [-> Hg].
  destruct Hg as (G1 & G2 & G3 & G4 & G5).
  assert (Hac2 : acyclic st2).
  { intros k Hk. apply ancestor_path in Hk. revert k Hk.
    apply (no_cycle_new_edges st1 (edge st2) ins outs); auto.
    apply (Hfree ins outs); auto. }
  set (st3 := set_queue _ st2).
  assert (Hr3 : ready st3).
  { destruct Hr as [R1 R2]. unfold ready, nbus in *. cbn. split; congruence. }
  assert (Hp3 : forall k, parents st3 k = parents st2 k) by reflexivity.
  pose proof (create_play_order_fuel st3 Hr3) as Hcf.
  destruct (create_play_order st3) as [st4| |] eqn:Ec; cbn [rbind];
    try (split; [discriminate | intros; discriminate]); [|congruence].
  split; [discriminate|]. intros e st' H. injection H as _ <-.
  apply create_play_order_graph in Ec; [|apply Hr3].
  pose proof (ready_graph_eq _ _ Ec Hr3) as [R1 R2].
  split.
  - unfold wf. split; [|split; [exact R2 | intros Hs; congruence]].
    destruct Ec as (_ & _ & _ & _ & _ & _ & _ & _ & B9). rewrite B9. cbn.
    destruct Hwf as (W1 & _). congruence.
  - eapply acyclic_sub; [apply graph_eq_sub; exact Ec|].
    eapply acyclic_sub; [apply sub_graph_of_parents; exact Hp3 | exact Hac2].
Qed.


Lemma bus_config_keeps name busnames st :
  wf st -> acyclic st ->
  bus_config name busnames st <> NoFuel /\
  forall e st', bus_config name busnames st = Ok (e, st') -> wf st' /\ acyclic st'.
Proof.
  intros Hwf Hac. unfold bus_config.
  destruct (length busnames <? 1)%nat.
  { split; [discriminate|]. intros e st' H. injection H as _ <-. auto. }
  destruct (negb (rtsetparams_called st)).
  { split; [discriminate|]. intros e st' H. injection H as _ <-. auto. }
  pose proof (parse_loop_fuel busnames (mkLocals st (new_BusSlot (busCount st)) 0 0)) as Hpf.
  destruct (parse_loop busnames _) as [[[code|] x]| |] eqn:Ep; cbn [rbind];
    try (split; [discriminate | intros; discriminate]); [| |congruence].
  - apply parse_loop_graph in Ep. cbn [l_state] in Ep.
    split; [discriminate|]. intros e st' H. injection H as _ <-. split.
    + eapply wf_graph_eq; eauto.
    + eapply acyclic_sub; [apply graph_eq_sub; exact Ep | exact Hac].
  - apply parse_loop_graph in Ep. cbn [l_state] in Ep.
    pose proof (wf_graph_eq _ _ Ep Hwf) as Hwx.
    assert (Hax : acyclic (l_state x)).
    { eapply acyclic_sub; [apply graph_eq_sub; exact Ep | exact Hac]. }
    pose proof (check_config_fuel (bus_slot x) true (l_state x) (proj1 (proj2 Hwx))) as Hcf.
    destruct (check_bus_inst_config (bus_slot x) true (l_state x)) as [[ce st1]| |] eqn:Ec;
      cbn [rbind]; try (split; [discriminate | intros; discriminate]); [|congruence].
    destruct (check_config_frame _ _ _ _ _ Hwx Ec) as (Hw1 & Hr1 & Hs1).
    assert (Ha1 : acyclic st1).
    { eapply acyclic_sub; [apply (same_graph_sub _ _ Hs1) | exact Hax]. }
    destruct (check_config_effs _ _ _ _ Ec) as (ins & outs & Hins & Houts).
    destruct ce; try (split; [discriminate|]; intros e st' H; injection H as _ <-; auto).
    apply insert_phase with (ins0 := ins) (outs0 := outs); auto.
    intros ins' outs' Hi' Ho'.
    eapply check_config_complete; eauto. apply Hwx.
Qed.

Lemma run_keeps calls : forall st,
  wf st -> acyclic st ->
  run calls st <> NoFuel /\
  forall st', run calls st = Ok st' -> wf st' /\ acyclic st'.
Proof.
  induction calls as [|[name busnames] rest IH]; intros st Hwf Hac; simpl.
  - split; [discriminate|]. intros st' H. injection H as <-. auto.
  - destruct (bus_config_keeps name busnames st Hwf Hac) as [Hf Hk].
    destruct (bus_config name busnames st) as [[e s1]| |]; cbn [rbind];
      try (split; [discriminate | intros; discriminate]); [|congruence].
    destruct (Hk e s1 eq_refl) as [Hw1 Ha1]. cbn [snd]. apply IH; auto.
Qed.

Lemma path_without_slot st outs a b : path (with_slot st [] outs) a b -> ancestor st a b.
Proof.
  intros H. induction H as [a b [He|[[] _]] | a b c _ IH [He|[[] _]]].
  - apply anc_edge; exact He.
  - eapply anc_step; eauto.
Qed.

Lemma bus_config_rejects name busnames st x :
  wf st -> acyclic st ->
  parse_loop busnames (mkLocals st (new_BusSlot (busCount st)) 0 0) = Ok (None, x) ->
  would_cycle st (bus_slot x) ->
  forall e st', bus_config name busnames st = Ok (e, st') ->
    bus_config_check busnames st = Ok (Some LOOP_ERR) /\
    e = RTExit SYSTEM_ERROR /\
    same_graph st st'.
Proof.
  intros Hwf Hac Ep (ins & outs & k & Hins & Houts & Hk) e st' H.
  destruct busnames as [|b rest].
  { exfalso. cbn [parse_loop] in Ep. injection Ep as <-. cbn [bus_slot] in Hins.
    apply eff_firstn in Hins. cbn in Hins. subst ins.
    apply path_without_slot in Hk. apply (Hac k Hk). }
  unfold bus_config in H. unfold bus_config_check.
  change (length (b :: rest) <? 1)%nat with false in H. cbv iota in H.
  destruct Hwf as (W1 & W2 & W3). rewrite W1 in H. cbn [negb] in H.
  rewrite Ep in *. cbn [rbind] in *.
  pose proof (parse_loop_graph _ _ _ _ Ep) as G0. cbn [l_state] in G0.
  pose proof (wf_graph_eq _ _ G0 (conj W1 (conj W2 W3))) as Hwx.
  destruct (check_bus_inst_config (bus_slot x) true (l_state x)) as [[ce st1]| |] eqn:Ec;
    cbn [rbind] in *; try discriminate.
  destruct (check_config_frame _ _ _ _ _ Hwx Ec) as (Hw1 & Hr1 & Hs1).
  pose proof (same_graph_trans _ _ _ (graph_eq_same _ _ G0) Hs1) as Hs.
  destruct (check_config_error _ _ _ _ _ Ec) as [-> | ->].
  - exfalso.
    apply (no_cycle_new_edges st1 (with_slot st ins outs) ins outs) with (k := k); auto.
    + intros p c [He|Hn]; [left|right; exact Hn].
      apply (proj2 (same_graph_sub _ _ Hs)). exact He.
    + apply (check_config_complete (bus_slot x) (l_state x) st1 ins outs
               (proj1 (proj2 Hwx)) Ec Hins Houts).
    + eapply acyclic_sub; [apply (same_graph_sub _ _ Hs) | exact Hac].
  - cbn [fst]. injection H as <- <-. auto.
Qed.

Import Ascii String.
Local Open Scope string_scope.
Local Open Scope list_scope.
Local Open Scope Z_scope.

(** Claim C1 as stated fails in its last part: a rejected call does not
    leave everything as it was.  After bus_config("A", "aux 0 in",
    "aux 1 out") on four buses, the call bus_config("B", "aux 1 in",
    "aux 0 out") would close the cycle 0 -> 1 -> 0 and ends in
    RTExit(SYSTEM_ERROR); but the loop over the bus names has set
    AuxOutInUse[0] before the check ran, and the check has rebuilt
    ToAuxPlayList from the flags, so that bus 0 is now in it. *)
Lemma rejected_call_leaves_its_marks :
  bus_config "B" back_edge after_A = Ok (RTExit SYSTEM_ERROR, after_B) /\
  bus_config_check back_edge after_A = Ok (Some LOOP_ERR) /\
  AuxOutInUse after_A = [false; true; false; false] /\
  AuxOutInUse after_B = [true; true; false; false] /\
  ToAuxPlayList after_A = [1; -1; -1; -1] /\
  ToAuxPlayList after_B = [0; 1; -1; -1].
Proof.
  split; [vm_compute; reflexivity|].
  split; [vm_compute; reflexivity|].
  split; [reflexivity|]. split; [reflexivity|]. split; reflexivity.
Qed.

(** Claim C1, as the code has it.  From the engine as rtsetparams leaves
    it, every sequence of bus_config calls runs to its end within the
    iteration bound of the model, and whenever it ends without undefined
    behaviour the aux graph of the resulting state has no cycle: no bus is
    among its own ancestors.  In such a state, a call whose bus names are
    accepted and whose slot would close a cycle (the graph with an edge
    from each aux-in bus of the slot to each aux-out bus has one) gets
    LOOP_ERR from the configuration check, ends in RTExit(SYSTEM_ERROR)
    before insert_bus_slot runs, and leaves the parent lists, the HasChild,
    HasParent and AuxInUse flags and the queue of slots as they were. *)
Theorem bus_graph_stays_acyclic (n chans : Z) (calls : list (String.string * list String.string)) :
  run calls (initial n chans) <> NoFuel /\
  forall st, run calls (initial n chans) = Ok st ->
    acyclic st /\
    forall instname busnames x,
      parse_loop busnames (mkLocals st (new_BusSlot (busCount st)) 0 0) = Ok (None, x) ->
      would_cycle st (bus_slot x) ->
      bus_config instname busnames st <> NoFuel /\
      forall e st', bus_config instname busnames st = Ok (e, st') ->
        bus_config_check busnames st = Ok (Some LOOP_ERR) /\
        e = RTExit SYSTEM_ERROR /\
        same_graph st st'.
Proof.
  destruct (wf_initial n chans) as [Hw0 Ha0].
  destruct (run_keeps calls _ Hw0 Ha0) as [Hf Hk].
  split; [exact Hf|]. intros st Hst. destruct (Hk st Hst) as [Hw Ha].
  split; [exact Ha|]. intros instname busnames x Ep Hc. split.
  - apply bus_config_keeps; assumption.
  - apply bus_config_rejects with (x := x); assumption.
Qed.

(** The second call of scenario S3 is such a call. *)
Lemma bus_graph_stays_acyclic_witness :
  acyclic after_A /\
  bus_config_check back_edge after_A = Ok (Some LOOP_ERR) /\
  same_graph after_A after_B.
Proof.
  destruct (bus_graph_stays_acyclic 4 2 one_edge) as [_ H].
  destruct (H after_A) as [Hac Hrej]; [vm_compute; reflexivity|].
  split; [exact Hac|].
  destruct (Hrej "B"%string back_edge locals_B) as [_ Hr].
  - vm_compute; reflexivity.
  - exists [1], [0], 0. split; [vm_compute; reflexivity|]. split; [vm_compute; reflexivity|].
    apply path_step with (b := 1).
    + apply path_edge. left. vm_compute. left. reflexivity.
    + right. split; left; reflexivity.
  - destruct (Hr (RTExit SYSTEM_ERROR) after_B) as (H1 & _ & H3); [vm_compute; reflexivity|].
    split; assumption.
Defined.

End GraphFacts.

(** ** What a successful call of tempo leaves *)

Module TempoShape.
Import Tempo TempoShapes.

Section Shape.
Variable A : arith.

Local Abbreviation rdA := (rd A).

Lemma same_sizes_refl (st : state A) : same_sizes st st.
Proof. unfold same_sizes; auto. Qed.

Lemma same_sizes_trans (a b c : state A) : same_sizes a b -> same_sizes b c -> same_sizes a c.
Proof.
  unfold same_sizes. intros (A1 & A2 & A3 & A4) (B1 & B2 & B3 & B4).
  repeat split; congruence.
Qed.

Lemma zero_loop_sizes n (st : state A) : same_sizes st (zero_loop A n st).
Proof.
  induction n as [|n IH]; simpl; [apply same_sizes_refl|].
  eapply same_sizes_trans; [exact IH|].
  unfold same_sizes; cbn [xtime temp rxtime accel].
  rewrite !TempoFacts.length_wr. auto.
Qed.

Lemma zero_loop_npts n (st : state A) : npts (zero_loop A n st) = npts st.
Proof. induction n as [|n IH]; simpl; auto. Qed.

Lemma fill_loop_done fuel : forall p m st st',
  fill_loop A fuel p m st = Done st' ->
  (m = 2 * (npts st - 1))%nat -> (1 <= npts st)%nat ->
  (m <= TLEN)%nat -> (TLEN < m + 2 * fuel)%nat ->
  (TLEN < 2 * length (temp st))%nat ->
  tset st' = tset st /\ BASIS st' = BASIS st /\
  rxtime st' = rxtime st /\ accel st' = accel st /\
  same_sizes st st' /\
  (npts st <= npts st')%nat /\
  (2 * (npts st' - 1) <= TLEN)%nat /\
  (TLEN <= 2 * (npts st' - 1) \/
   (2 * (npts st' - 1) <> 0 /\ length p <= 2 * (npts st' - 1)))%nat /\
  (forall n, (n < npts st \/ npts st' <= n)%nat ->
     rdA (xtime st') n = rdA (xtime st) n /\ rdA (temp st') n = rdA (temp st) n) /\
  stored p (BASIS st) (npts st) (npts st') st'.
Proof.
  induction fuel as [|fuel IH]; intros p m st st' Hrun Hm Hn Hle Hfuel Hsz; simpl in Hrun.
  - unfold TLEN in *. lia.
  - destruct (m <? TLEN)%nat eqn:Elt; cbn [negb] in Hrun.
    2:{ injection Hrun as <-. apply Nat.ltb_ge in Elt.
        repeat split; auto; try lia.
        intros k Hk. lia. }
    apply Nat.ltb_lt in Elt.
    destruct (negb (m =? 0)%nat && (length p <=? m)%nat) eqn:Ebrk.
    { injection Hrun as <-. apply andb_true_iff in Ebrk as [E1 E2].
      apply negb_true_iff in E1. apply Nat.eqb_neq in E1. apply Nat.leb_le in E2.
      repeat split; auto; try lia.
      intros k Hk. lia. }
    destruct (nth_error p m) as [pm|] eqn:Epm; [|discriminate].
    destruct (nth_error p (m + 1)) as [pm1|] eqn:Epm1; [|discriminate].
    unfold set_xtime, set_temp, set_npts in Hrun.
    cbn [xtime temp rxtime accel BASIS tset npts] in Hrun.
    set (tv := to_float A (ddiv A pm1 (to_double A (BASIS st)))) in *.
    set (st1 := mkState A (wr A (xtime st) (npts st) (to_float A pm))
                 (wr A (temp st) (npts st) tv)
                 (rxtime st) (accel st) (BASIS st) (tset st) (npts st)) in *.
    destruct (eqb A (to_double A (rdA (wr A (temp st) (npts st) tv) (npts st))) (zero A))
      eqn:Ez; [discriminate|].
    apply IH in Hrun; cbn [npts temp] in *; rewrite ?TempoFacts.length_wr; try lia.
    cbn [tset BASIS rxtime accel npts xtime temp] in Hrun.
    destruct Hrun as (H1 & H2 & H3 & H4 & H5 & H6 & H7 & H8 & H9 & H10).
    split; [exact H1|]. split; [exact H2|]. split; [exact H3|]. split; [exact H4|].
    split.
    { eapply same_sizes_trans; [|exact H5].
      unfold same_sizes; cbn [xtime temp rxtime accel].
      rewrite !TempoFacts.length_wr. auto. }
    split; [lia|]. split; [exact H7|]. split; [exact H8|]. split.
    { intros n Hn'. destruct (H9 n ltac:(lia)) as [E1 E2]. rewrite E1, E2.
      split; apply TempoFacts.rd_wr_other; lia. }
    intros k Hk.
    destruct (Nat.eq_dec k (npts st)) as [->|Hne].
    + destruct (H9 (npts st) ltac:(lia)) as [E1 E2].
      destruct H5 as (L1 & L2 & _). cbn [xtime temp] in L1, L2.
      rewrite !TempoFacts.length_wr in L1, L2.
      exists pm, pm1. rewrite <- Hm. split; [exact Epm|]. split; [exact Epm1|].
      split; [|split].
      * intros Hl. rewrite E1. apply TempoFacts.rd_wr_same. lia.
      * intros Hl. rewrite E2. apply TempoFacts.rd_wr_same. lia.
      * rewrite TempoFacts.rd_wr_same in Ez by (unfold TLEN in *; lia). exact Ez.
    + apply H10. lia.
    + unfold TLEN in *. lia.
Qed.


Lemma full_size_same (st st' : state A) : same_sizes st st' -> full_size st -> full_size st'.
Proof.
  unfold same_sizes, full_size. intros (A1 & A2 & A3 & A4) (B1 & B2 & B3 & B4).
  repeat split; congruence.
Qed.

Lemma seg_frame_trans (a b c : state A) : seg_frame a b -> seg_frame b c -> seg_frame a c.
Proof.
  unfold seg_frame. intros (A1 & A2 & A3 & A4 & A5 & A6) (B1 & B2 & B3 & B4 & B5 & B6).
  do 5 (split; [congruence|]). eapply same_sizes_trans; eauto.
Qed.

Lemma seg_step_frame m (st : state A) prvbt :
  seg_frame st (fst (seg_step A m (st, prvbt))) /\
  (forall k, k <> m -> rdA (accel (fst (seg_step A m (st, prvbt)))) k = rdA (accel st) k) /\
  (forall k, k <> (m + 1)%nat ->
     rdA (rxtime (fst (seg_step A m (st, prvbt)))) k = rdA (rxtime st) k) /\
  snd (seg_step A m (st, prvbt)) = rdA (rxtime (fst (seg_step A m (st, prvbt)))) (m + 1).
Proof.
  unfold seg_step, seg_frame, same_sizes.
  destruct (eqb A (fsub A (rd A (xtime st) (m + 1)) (rd A (xtime st) m)) (zero A)).
  - unfold set_accel, set_rxtime. cbn [fst snd xtime temp rxtime accel BASIS tset npts].
    rewrite !TempoFacts.length_wr.
    split; [repeat split; auto|]. split; [|split; [|reflexivity]];
      intros k Hk; apply TempoFacts.rd_wr_other; lia.
  - match goal with |- context [if ?c then _ else _] => destruct c end;
      unfold set_accel, set_rxtime; cbn [fst snd xtime temp rxtime accel BASIS tset npts];
      rewrite !TempoFacts.length_wr;
      (split; [repeat split; auto|]); (split; [|split; [|reflexivity]]);
      intros k Hk; apply TempoFacts.rd_wr_other; lia.
Qed.

Lemma seg_loop_frame n : forall (st : state A) prvbt,
  seg_frame st (fst (seg_loop A n (st, prvbt))) /\
  (forall k, (n <= k)%nat ->
     rdA (accel (fst (seg_loop A n (st, prvbt)))) k = rdA (accel st) k) /\
  (forall k, (n < k)%nat \/ k = 0%nat ->
     rdA (rxtime (fst (seg_loop A n (st, prvbt)))) k = rdA (rxtime st) k).
Proof.
  induction n as [|n IH]; intros st prvbt.
  - cbn [seg_loop fst]. unfold seg_frame.
    split; [|auto]. do 5 (split; [reflexivity|]). apply same_sizes_refl.
  - cbn [seg_loop].
    destruct (IH st prvbt) as (H1 & H7 & H8).
    destruct (seg_loop A n (st, prvbt)) as [s pv]. cbn [fst] in *.
    destruct (seg_step_frame n s pv) as (F & G1 & G2 & G3).
    split; [eapply seg_frame_trans; eauto|]. split.
    + intros k Hk. rewrite G1 by lia. apply H7; lia.
    + intros k Hk. rewrite G2 by lia. apply H8. lia.
Qed.

(** The statements between the loops. *)
Lemma close_map_shape (st : state A) :
  full_size st -> (2 <= npts st < TLENP)%nat ->
  tset (close_map A st) = true /\ BASIS (close_map A st) = BASIS st /\
  npts (close_map A st) = npts st /\ same_sizes st (close_map A st) /\
  rdA (xtime (close_map A st)) 0 = zero A /\
  rdA (rxtime (close_map A st)) 0 = zero A /\
  rdA (xtime (close_map A st)) (npts st) = far A /\
  (forall k, (1 <= k < npts st)%nat ->
     rdA (xtime (close_map A st)) k = rdA (xtime st) k /\
     rdA (temp (close_map A st)) k = rdA (temp st) k) /\
  rdA (temp (close_map A st)) 0 = rdA (temp st) 1 /\
  rdA (temp (close_map A st)) (npts st) = rdA (temp st) (npts st - 1).
Proof.
  intros (Lx & Lt & Lr & La) Hn.
  unfold same_sizes.
  cbn [close_map set_tset set_xtime set_rxtime set_temp set_accel
       xtime temp rxtime accel BASIS tset npts].
  rewrite !TempoFacts.length_wr.
  assert (Hl : (0 < TLENP)%nat) by (unfold TLENP; lia).
  split; [reflexivity|]. split; [reflexivity|]. split; [reflexivity|].
  split; [auto|].
  assert (Ea : rd A (wr A (accel st) 0 (zero A)) 0 = zero A) by apply TempoFacts.rd_wr_zero.
  rewrite Ea.
  assert (Er : forall a, length a = TLENP -> rd A (wr A a 0 (zero A)) 0 = zero A)
    by (intros; apply TempoFacts.rd_wr_zero).
  split.
  { rewrite TempoFacts.rd_wr_same by (rewrite TempoFacts.length_wr; lia).
    apply TempoFacts.rd_wr_zero. }
  split; [apply TempoFacts.rd_wr_zero|].
  split.
  { rewrite TempoFacts.rd_wr_other by lia. apply TempoFacts.rd_wr_same. lia. }
  split.
  { intros k Hk. rewrite !TempoFacts.rd_wr_other by lia. auto. }
  split.
  { rewrite TempoFacts.rd_wr_same by (rewrite TempoFacts.length_wr; lia).
    rewrite TempoFacts.rd_wr_other by lia. reflexivity. }
  rewrite TempoFacts.rd_wr_other by lia. rewrite TempoFacts.rd_wr_same by lia. reflexivity.
Qed.

Lemma tempo_done_steps (st st' : state A) (p : list (num A)) :
  tempo A st p = Done st' ->
  exists sz s1 sc,
    tset sz = tset st /\ BASIS sz = BASIS st /\ same_sizes st sz /\
    fill_loop A TLEN p 0 (set_npts A sz 1) = Done s1 /\
    sc = close_map A s1 /\
    st' = fst (seg_loop A (npts sc) (sc, rd A (xtime sc) 0)).
Proof.
  intros Hrun. unfold tempo in Hrun.
  destruct (length p =? 0)%nat; [discriminate|].
  pose proof (zero_loop_sizes TLEN st) as Hz.
  destruct (TempoFacts.zero_loop_spec A TLEN st) as (Zt & Zb & _).
  remember (zero_loop A TLEN st) as sz eqn:Esz. clear Esz.
  destruct (fill_loop A TLEN p 0 (set_npts A sz 1)) as [| |s1|] eqn:Ef;
    try discriminate.
  exists sz, s1, (close_map A s1).
  split; [exact Zt|]. split; [exact Zb|]. split; [exact Hz|].
  split; [exact Ef|]. split; [reflexivity|].
  injection Hrun as <-. reflexivity.
Qed.

(** A call of tempo that returns 0.  The map is flagged as set; npts
    counts one more than the pairs read, of which there are between one
    and ten; xtime[0] and rxtime[0] are 0; xtime[k] and temp[k] are the
    k-th time and the k-th tempo over BASIS, each rounded to float, and no
    such tempo is 0; xtime[npts] is the closing time .999999e+10; temp[0]
    repeats temp[1] and temp[npts] repeats temp[npts-1]. *)
Lemma tempo_done_shape (st st' : state A) (p : list (num A)) :
  full_size st ->
  tempo A st p = Done st' ->
  tset st' = true /\ BASIS st' = BASIS st /\ full_size st' /\
  (2 <= npts st' <= 11)%nat /\
  (TLEN <= 2 * (npts st' - 1) \/ length p <= 2 * (npts st' - 1))%nat /\
  rdA (xtime st') 0 = zero A /\
  rdA (rxtime st') 0 = zero A /\
  rdA (xtime st') (npts st') = far A /\
  rdA (temp st') 0 = rdA (temp st') 1 /\
  rdA (temp st') (npts st') = rdA (temp st') (npts st' - 1) /\
  (forall k, (1 <= k < npts st')%nat ->
     exists pm pm1,
       nth_error p (2 * (k - 1)) = Some pm /\
       nth_error p (2 * (k - 1) + 1) = Some pm1 /\
       rdA (xtime st') k = to_float A pm /\
       rdA (temp st') k = to_float A (ddiv A pm1 (to_double A (BASIS st))) /\
       eqb A (to_double A (rdA (temp st') k)) (zero A) = false) /\
  (exists sc, full_size sc /\ npts sc = npts st' /\
     st' = fst (seg_loop A (npts sc) (sc, rdA (rxtime sc) 0))).
Proof.
  intros Hsz Hrun.
  destruct (tempo_done_steps st st' p Hrun) as (sz & s1 & sc & Zt & Zb & Hz & Ef & Esc & ->).
  pose proof (full_size_same _ _ Hz Hsz) as Hsz0.
  assert (Hfill := fill_loop_done TLEN p 0 (set_npts A sz 1) s1 Ef).
  unfold set_npts in Hfill. cbn [npts temp BASIS tset xtime rxtime accel] in Hfill.
  destruct Hfill as (H1 & H2 & H3 & H4 & H5 & H6 & H7 & H8 & H9 & H10);
    try (destruct Hsz0 as (_ & L2 & _); rewrite ?L2; unfold TLEN, TLENP; lia).
  assert (Hsz1 : full_size s1).
  { eapply full_size_same; [exact H5|]. exact Hsz0. }
  assert (Hn : (2 <= npts s1 <= 11)%nat) by (unfold TLEN in *; lia).
  destruct (close_map_shape s1 Hsz1 ltac:(unfold TLENP; lia))
    as (C1 & C2 & C3 & C4 & C5 & C6 & C7 & C8 & C9 & C10).
  rewrite <- Esc in *. clear Esc.
  destruct (seg_loop_frame (npts sc) sc (rd A (xtime sc) 0))
    as ((F1 & F2 & F3 & F4 & F5 & F6) & G1 & G2).
  assert (Hsc : full_size sc) by (eapply full_size_same; eauto).
  assert (Hex : exists sc0, full_size sc0 /\
            npts sc0 = npts (fst (seg_loop A (npts sc) (sc, rd A (xtime sc) 0))) /\
            fst (seg_loop A (npts sc) (sc, rd A (xtime sc) 0))
              = fst (seg_loop A (npts sc0) (sc0, rdA (rxtime sc0) 0))).
  { exists sc. split; [exact Hsc|]. split; [congruence|]. rewrite C5, C6. reflexivity. }
  remember (fst (seg_loop A (npts sc) (sc, rd A (xtime sc) 0))) as sf eqn:Esf. clear Esf.
  rewrite F1, F2, F4, F5, C3.
  split; [exact C1|]. split; [congruence|].
  split; [eapply full_size_same; [exact F6|]; eapply full_size_same; eauto|].
  split; [exact Hn|]. split; [unfold TLEN in *; lia|].
  split; [exact C5|]. split; [rewrite G2 by auto; exact C6|].
  split; [exact C7|].
  assert (T1 : rdA (temp sc) 1 = rdA (temp s1) 1).
  { apply (C8 1%nat). lia. }
  split; [rewrite C9, T1; reflexivity|].
  split.
  { rewrite C10. destruct (C8 (npts s1 - 1)%nat ltac:(lia)) as [_ E]. rewrite E. reflexivity. }
  split; [|rewrite <- C3, <- F5; exact Hex].
  intros k Hk. destruct (C8 k Hk) as [Ex Et].
  destruct (H10 k ltac:(lia)) as (pm & pm1 & N1 & N2 & V1 & V2 & V3).
  destruct Hsz1 as (L1 & L2 & _).
  exists pm, pm1. split; [exact N1|]. split; [exact N2|].
  rewrite Ex, Et, V1, V2 by (rewrite ?L1, ?L2; unfold TLENP; lia).
  rewrite <- Zb. repeat split; auto.
Qed.

End Shape.

(** In the arithmetic of the program, a call of tempo that returns 0
    leaves a closed map: the flag is set and BASIS is untouched; npts is
    one more than the number of pairs read, which is between one and ten
    (all the pairs supplied, or the first ten); xtime[0] and rxtime[0] are
    0 and xtime[npts] is the closing time .999999e+10; for 1 <= k < npts,
    xtime[k] is the k-th time and temp[k] the k-th tempo over BASIS, both
    rounded to float, and temp[k] is not 0; temp[0] repeats temp[1] and
    temp[npts] repeats temp[npts-1]. *)
Theorem successful_tempo_leaves_a_closed_map (st st' : state b32) (p : list (num b32)) :
  full_size st ->
  tempo b32 st p = Done st' ->
  tset st' = true /\ BASIS st' = BASIS st /\ full_size st' /\
  (2 <= npts st' <= 11)%nat /\
  (TLEN <= 2 * (npts st' - 1) \/ length p <= 2 * (npts st' - 1))%nat /\
  rd b32 (xtime st') 0 = Ieee.zero /\
  rd b32 (rxtime st') 0 = Ieee.zero /\
  rd b32 (xtime st') (npts st') = Ieee.to_float (Ieee.dofZ 9999990000) /\
  rd b32 (temp st') 0 = rd b32 (temp st') 1 /\
  rd b32 (temp st') (npts st') = rd b32 (temp st') (npts st' - 1) /\
  (forall k, (1 <= k < npts st')%nat ->
     exists pm pm1,
       nth_error p (2 * (k - 1)) = Some pm /\
       nth_error p (2 * (k - 1) + 1) = Some pm1 /\
       rd b32 (xtime st') k = Ieee.to_float pm /\
       rd b32 (temp st') k = Ieee.to_float (Ieee.ddiv pm1 (Ieee.to_double (BASIS st))) /\
       SFeqb (Ieee.to_double (rd b32 (temp st') k)) Ieee.zero = false).
Proof.
  intros Hsz Hrun.
  destruct (tempo_done_shape b32 st st' p Hsz Hrun)
    as (H1 & H2 & H3 & H4 & H5 & H6 & H7 & H8 & H9 & H10 & H11 & _).
  split; [exact H1|]. split; [exact H2|]. split; [exact H3|]. split; [exact H4|].
  split; [exact H5|]. split; [exact H6|]. split; [exact H7|]. split; [exact H8|].
  split; [exact H9|]. split; [exact H10|]. exact H11.
Qed.

Lemma s2_map_done : tempo b32 init32 (map Ieee.dofZ [0; 60; 4; 120]) = Done TempoCases.s2_map.
Proof.
  assert (H : is_done (tempo b32 init32 (map Ieee.dofZ [0; 60; 4; 120])) = true)
    by (vm_compute; reflexivity).
  unfold TempoCases.s2_map.
  destruct (tempo b32 init32 (map Ieee.dofZ [0; 60; 4; 120])); try discriminate. reflexivity.
Qed.

Lemma init32_full_size : full_size init32.
Proof. unfold full_size, init32, init. cbn [xtime temp rxtime accel]. rewrite !repeat_length. auto. Qed.

Lemma successful_tempo_leaves_a_closed_map_witness :
  full_size init32 /\
  tempo b32 init32 (map Ieee.dofZ [0; 60; 4; 120]) = Done TempoCases.s2_map /\
  tset TempoCases.s2_map = true /\
  (2 <= npts TempoCases.s2_map <= 11)%nat /\
  rd b32 (xtime TempoCases.s2_map) (npts TempoCases.s2_map)
    = Ieee.to_float (Ieee.dofZ 9999990000).
Proof.
  destruct (successful_tempo_leaves_a_closed_map init32 TempoCases.s2_map _
              init32_full_size s2_map_done)
    as (H1 & _ & _ & H4 & _ & _ & _ & H8 & _).
  exact (conj init32_full_size (conj s2_map_done (conj H1 (conj H4 H8)))).
Defined.

End TempoShape.

(** ** The tempo map in exact arithmetic *)

Module ExactFacts.
Import Reals Lra.
Import Tempo TempoShapes Exact.
Local Open Scope R_scope.

Lemma Reqb_true x y : Reqb x y = true <-> x = y.
Proof. unfold Reqb. destruct (Req_dec_T x y); split; auto; discriminate. Qed.

Lemma Reqb_false x y : Reqb x y = false <-> x <> y.
Proof. unfold Reqb. destruct (Req_dec_T x y); split; auto; try discriminate; tauto. Qed.

Lemma Rltb_true x y : Rltb x y = true <-> x < y.
Proof. unfold Rltb. destruct (Rlt_dec x y); split; auto; discriminate. Qed.

Lemma Rltb_false x y : Rltb x y = false <-> ~ x < y.
Proof. unfold Rltb. destruct (Rlt_dec x y); split; auto; try discriminate; tauto. Qed.

Lemma Rleb_true x y : Rleb x y = true <-> x <= y.
Proof. unfold Rleb. destruct (Rle_dec x y); split; auto; discriminate. Qed.

Lemma Rleb_false x y : Rleb x y = false <-> ~ x <= y.
Proof. unfold Rleb. destruct (Rle_dec x y); split; auto; try discriminate; tauto. Qed.

(** *** One segment *)

Section Segment.
Variables T T1 dur : R.
Hypothesis HT : 0 < T.
Hypothesis HT1 : 0 < T1.
Hypothesis Hdur : 0 < dur.

Variable a : R.
Hypothesis Haccel : a = (T1 * T1 - T * T) / (2 * dur).

Lemma accel_dur : 2 * a * dur = T1 * T1 - T * T.
Proof. rewrite Haccel. field. lra. Qed.

(** Under the square root there is a number between T^2 and T1^2. *)
Lemma radicand_pos d : 0 <= d <= dur -> 0 < T * T + 2 * a * d.
Proof.
  intros Hd. pose proof accel_dur as Ha.
  assert (H0 : 0 < T * T) by nra. assert (H1 : 0 < T1 * T1) by nra.
  destruct (Rle_lt_dec 0 a) as [Hp|Hn].
  - nra.
  - assert (a * d >= a * dur) by nra. nra.
Qed.

Lemma sqrt_radicand_dur : sqrt (T * T + 2 * a * dur) = T1.
Proof.
  rewrite accel_dur. replace (T * T + (T1 * T1 - T * T)) with (T1 * T1) by ring.
  apply sqrt_square. lra.
Qed.

Lemma beats_secs d : 0 < d <= dur -> secs T a (beats T a d) = d.
Proof.
  intros Hd. unfold secs, beats. destruct (Reqb a 0) eqn:E.
  - field. lra.
  - apply Reqb_false in E.
    pose proof (radicand_pos d ltac:(lra)) as Hq.
    replace ((sqrt (T * T + 2 * a * d) - T) / a * a + T)
      with (sqrt (T * T + 2 * a * d)) by (field; exact E).
    rewrite sqrt_sqrt by lra. field. exact E.
Qed.

(** e * (sqrt Q + T) = 2 d *)
Lemma beats_product d :
  0 <= d <= dur -> a <> 0 ->
  (sqrt (T * T + 2 * a * d) - T) / a * (sqrt (T * T + 2 * a * d) + T) = 2 * d.
Proof.
  intros Hd Ha. pose proof (radicand_pos d Hd) as Hq.
  pose proof (sqrt_sqrt (T * T + 2 * a * d) ltac:(lra)) as Hs.
  set (q := sqrt (T * T + 2 * a * d)) in *.
  replace ((q - T) / a * (q + T)) with ((q * q - T * T) / a) by (field; exact Ha).
  rewrite Hs. field. exact Ha.
Qed.

Lemma beats_pos d : 0 < d <= dur -> 0 < beats T a d.
Proof.
  intros Hd. unfold beats. destruct (Reqb a 0) eqn:E.
  - apply Rdiv_lt_0_compat; lra.
  - apply Reqb_false in E.
    pose proof (beats_product d ltac:(lra) E) as Hp.
    pose proof (radicand_pos d ltac:(lra)) as Hq.
    pose proof (sqrt_lt_R0 _ Hq) as Hs.
    set (e := (sqrt (T * T + 2 * a * d) - T) / a) in *.
    set (q := sqrt (T * T + 2 * a * d)) in *.
    destruct (Rle_lt_dec e 0) as [Hle|]; [|assumption]. nra.
Qed.

(** a e + T is the square root. *)
Lemma beats_speed d :
  0 <= d <= dur -> a <> 0 ->
  (sqrt (T * T + 2 * a * d) - T) / a * a + T = sqrt (T * T + 2 * a * d).
Proof. intros Hd Ha. field. exact Ha. Qed.

Lemma secs_diff e1 e2 :
  a <> 0 ->
  secs T a e2 - secs T a e1 = (e2 - e1) * (((e1 * a + T) + (e2 * a + T)) / 2).
Proof.
  intros Ha. unfold secs. apply Reqb_false in Ha. rewrite Ha.
  apply Reqb_false in Ha. field. exact Ha.
Qed.

Lemma beats_le d : 0 < d <= dur -> beats T a d <= beats T a dur.
Proof.
  intros Hd. destruct (Req_dec_T a 0) as [E|E].
  - unfold beats. apply Reqb_true in E. rewrite E.
    apply Rmult_le_compat_r; [|lra]. left. apply Rinv_0_lt_compat. exact HT.
  - pose proof (beats_secs d Hd) as S1.
    pose proof (beats_secs dur ltac:(lra)) as S2.
    pose proof (secs_diff (beats T a d) (beats T a dur) E) as Hdiff.
    rewrite S1, S2 in Hdiff.
    assert (U1 : 0 < beats T a d * a + T).
    { unfold beats. apply Reqb_false in E. rewrite E. apply Reqb_false in E.
      rewrite beats_speed by (auto; lra). apply sqrt_lt_R0. apply radicand_pos. lra. }
    assert (U2 : 0 < beats T a dur * a + T).
    { unfold beats. apply Reqb_false in E. rewrite E. apply Reqb_false in E.
      rewrite beats_speed by (auto; lra). apply sqrt_lt_R0. apply radicand_pos. lra. }
    set (e1 := beats T a d) in *. set (e2 := beats T a dur) in *.
    destruct (Rle_lt_dec e1 e2) as [|Hgt]; [assumption|]. nra.
Qed.

Lemma beats_mono d1 d2 : 0 < d1 <= d2 -> d2 <= dur -> beats T a d1 <= beats T a d2.
Proof.
  intros Hd Hd2. destruct (Req_dec_T a 0) as [E|E].
  - unfold beats. apply Reqb_true in E. rewrite E.
    apply Rmult_le_compat_r; [|lra]. left. apply Rinv_0_lt_compat. exact HT.
  - pose proof (beats_secs d1 ltac:(lra)) as S1.
    pose proof (beats_secs d2 ltac:(lra)) as S2.
    pose proof (secs_diff (beats T a d1) (beats T a d2) E) as Hdiff.
    rewrite S1, S2 in Hdiff.
    assert (U1 : 0 < beats T a d1 * a + T).
    { unfold beats. apply Reqb_false in E. rewrite E. apply Reqb_false in E.
      rewrite beats_speed by (auto; lra). apply sqrt_lt_R0. apply radicand_pos. lra. }
    assert (U2 : 0 < beats T a d2 * a + T).
    { unfold beats. apply Reqb_false in E. rewrite E. apply Reqb_false in E.
      rewrite beats_speed by (auto; lra). apply sqrt_lt_R0. apply radicand_pos. lra. }
    set (e1 := beats T a d1) in *. set (e2 := beats T a d2) in *.
    destruct (Rle_lt_dec e1 e2) as [|Hgt]; [assumption|]. nra.
Qed.

(** The other way round: from beats to seconds. *)
Lemma speed_pos e : 0 < e <= beats T a dur -> 0 < e * a + T.
Proof.
  intros He. destruct (Req_dec_T a 0) as [E|E].
  - rewrite E. lra.
  - assert (U2 : beats T a dur * a + T = T1).
    { unfold beats. apply Reqb_false in E. rewrite E. apply Reqb_false in E.
      rewrite beats_speed by (auto; lra). apply sqrt_radicand_dur. }
    destruct (Rle_lt_dec 0 a) as [Hp|Hn]; nra.
Qed.

Lemma secs_pos e : 0 < e <= beats T a dur -> 0 < secs T a e.
Proof.
  intros He. pose proof (speed_pos e He) as Hu.
  unfold secs. destruct (Reqb a 0) eqn:E; [nra|].
  apply Reqb_false in E.
  replace (((e * a + T) * (e * a + T) - T * T) / (2 * a))
    with (e * ((e * a + T) + T) / 2) by (field; exact E).
  nra.
Qed.

Lemma secs_le e : 0 < e <= beats T a dur -> secs T a e <= dur.
Proof.
  intros He. pose proof (speed_pos e He) as Hu.
  pose proof (beats_secs dur ltac:(lra)) as S2.
  destruct (Req_dec_T a 0) as [E|E].
  - unfold secs, beats in *. apply Reqb_true in E. rewrite E in *.
    rewrite <- S2. apply Rmult_le_compat_r; lra.
  - pose proof (secs_diff e (beats T a dur) E) as Hdiff.
    assert (U2 : 0 < beats T a dur * a + T).
    { apply speed_pos. pose proof (beats_pos dur ltac:(lra)). lra. }
    rewrite S2 in Hdiff. nra.
Qed.

Lemma secs_beats e : 0 < e <= beats T a dur -> beats T a (secs T a e) = e.
Proof.
  intros He. pose proof (speed_pos e He) as Hu.
  unfold secs, beats. destruct (Reqb a 0) eqn:E.
  - field. lra.
  - apply Reqb_false in E.
    replace (T * T + 2 * a * (((e * a + T) * (e * a + T) - T * T) / (2 * a)))
      with ((e * a + T) * (e * a + T)) by (field; exact E).
    rewrite sqrt_square by lra. field. exact E.
Qed.

End Segment.


Lemma beats_zero T a : 0 < T -> beats T a 0 = 0.
Proof.
  intros HT. unfold beats. destruct (Reqb a 0) eqn:E.
  - unfold Rdiv. ring.
  - apply Reqb_false in E. replace (T * T + 2 * a * 0) with (T * T) by ring.
    rewrite sqrt_square by lra. field. exact E.
Qed.

Lemma secs_zero T a : secs T a 0 = 0.
Proof.
  unfold secs. destruct (Reqb a 0) eqn:E; [ring|].
  apply Reqb_false in E. field. exact E.
Qed.

Ltac exact_ops :=
  unfold pow2;
  cbn [fadd fsub fmul fdiv dadd dsub dmul ddiv dsqrt to_float to_double
       two_d two_f zero far eqb ltb leb exact].

(** An equation between numbers of the exact arithmetic is one between
    reals. *)
Ltac as_real :=
  match goal with |- @eq _ ?x ?y => change (@eq R x y) end.

(** *** The search loops *)

Lemma search_hit (a : list R) (v : R) (n : nat) : forall fuel m0 m,
  (m0 <= m <= n)%nat -> (m - m0 < fuel)%nat ->
  rd exact a m < v <= rd exact a (m + 1) ->
  (forall j, (m0 <= j < m)%nat -> ~ (rd exact a j < v <= rd exact a (j + 1))) ->
  search exact fuel a v m0 n = (m, true).
Proof.
  induction fuel as [|fuel IH]; intros m0 m Hm Hf Hhit Hfirst; [lia|].
  cbn [search]. replace (m0 <=? n)%nat with true by (symmetry; apply Nat.leb_le; lia).
  change (ltb exact) with Rltb. change (leb exact) with Rleb.
  destruct (Nat.eq_dec m0 m) as [->|Hne].
  - replace (Rltb (rd exact a m) v) with true by (symmetry; apply Rltb_true; lra).
    replace (Rleb v (rd exact a (m + 1))) with true by (symmetry; apply Rleb_true; lra).
    reflexivity.
  - assert (Hno : Rltb (rd exact a m0) v && Rleb v (rd exact a (m0 + 1)) = false).
    { destruct (Rltb (rd exact a m0) v) eqn:E1; [|reflexivity].
      destruct (Rleb v (rd exact a (m0 + 1))) eqn:E2; [|reflexivity].
      apply Rltb_true in E1. apply Rleb_true in E2.
      exfalso. apply (Hfirst m0); [lia | lra]. }
    rewrite Hno. apply IH; try lia; auto.
    intros j Hj. apply Hfirst. lia.
Qed.

Lemma steps_mono (f : nat -> R) (n : nat) :
  (forall m, (m < n)%nat -> f m <= f (m + 1)%nat) ->
  forall i j, (i <= j <= n)%nat -> f i <= f j.
Proof.
  intros Hs i j. induction j as [|j IH]; intros Hij.
  - replace i with 0%nat by lia. lra.
  - destruct (Nat.eq_dec i (S j)) as [->|Hne]; [lra|].
    specialize (IH ltac:(lia)). specialize (Hs j ltac:(lia)).
    replace (j + 1)%nat with (S j) in Hs by lia. lra.
Qed.

Lemma exists_hit (f : nat -> R) (v : R) : forall n,
  (forall m, (m < n)%nat -> f m <= f (m + 1)%nat) ->
  f 0%nat < v <= f n ->
  exists m, (m < n)%nat /\ f m < v <= f (m + 1)%nat /\
            forall j, (0 <= j < m)%nat -> ~ (f j < v <= f (j + 1)%nat).
Proof.
  induction n as [|n IH]; intros Hs Hv; [lra|].
  destruct (Rle_lt_dec v (f n)) as [Hle|Hgt].
  - destruct IH as (m & Hm & Hhit & Hfirst); [intros; apply Hs; lia | lra |].
    exists m. split; [lia|]. auto.
  - exists n. replace (n + 1)%nat with (S n) by lia. split; [lia|]. split; [lra|].
    intros j Hj Hjhit.
    pose proof (steps_mono f (S n) Hs (j + 1)%nat n ltac:(lia)). lra.
Qed.

(** *** Both functions on a map *)

Section Map.
Variable st : state exact.
Hypothesis Hgood : good st.

Local Abbreviation X m := (rd exact (xtime st) m).
Local Abbreviation RX m := (rd exact (rxtime st) m).
Local Abbreviation TT m := (rd exact (temp st) m).
Local Abbreviation AC m := (rd exact (accel st) m).

Lemma time_beat_zero : time_beat exact st 0 = 0.
Proof.
  destruct Hgood as (Hset & Hn & Hx0 & Hr0 & Hfar & Hmono & Htemp & Hseg).
  unfold time_beat, time_beat_mapped. rewrite Hset. cbn [negb]. exact_ops.
  assert (E0 : Rltb 0 0 = false) by (apply Rltb_false; lra).
  rewrite E0. cbv beta iota zeta. rewrite E0. cbv beta iota zeta.
  pose proof (beats_zero (TT 0) (AC 0) (Htemp 0%nat ltac:(lia))) as Hb.
  unfold beats in Hb.
  destruct (Reqb (AC 0) 0); rewrite Hr0; lra.
Qed.

Lemma beat_time_zero : beat_time exact st 0 = 0.
Proof.
  destruct Hgood as (Hset & Hn & Hx0 & Hr0 & Hfar & Hmono & Htemp & Hseg).
  unfold beat_time, beat_time_mapped. rewrite Hset. cbn [negb]. exact_ops.
  replace (Reqb 0 0) with true by (symmetry; apply Reqb_true; reflexivity).
  cbn [negb]. cbv beta iota zeta.
  pose proof (secs_zero (TT 0) (AC 0)) as Hb.
  unfold secs in Hb.
  destruct (Reqb (AC 0) 0); rewrite Hr0, Hx0.
  - lra.
  - replace ((0 - 0) * AC 0 + TT 0) with (0 * AC 0 + TT 0) by ring. lra.
Qed.

Lemma time_beat_hit t m :
  0 < t -> (m <= npts st)%nat ->
  X m < t <= X (m + 1) ->
  (forall j, (0 <= j < m)%nat -> ~ (X j < t <= X (j + 1))) ->
  time_beat exact st t = beats (TT m) (AC m) (t - X m) + RX m.
Proof.
  intros Ht Hm Hhit Hfirst.
  destruct Hgood as (Hset & Hn & Hx0 & Hr0 & Hfar & Hmono & Htemp & Hseg).
  unfold time_beat, time_beat_mapped. rewrite Hset. cbn [negb].
  exact_ops.
  assert (E0 : Rltb t 0 = false) by (apply Rltb_false; lra).
  assert (E1 : Rltb 0 t = true) by (apply Rltb_true; lra).
  rewrite E0. cbv beta iota zeta. rewrite E1.
  rewrite (search_hit (xtime st) t (npts st) _ 0%nat m) by (auto; lia).
  cbv beta iota zeta. unfold beats.
  destruct (Reqb (AC m) 0); reflexivity.
Qed.

Lemma beat_time_hit b m :
  b <> 0 -> (m <= npts st)%nat ->
  RX m < b <= RX (m + 1) ->
  (forall j, (0 <= j < m)%nat -> ~ (RX j < b <= RX (j + 1))) ->
  beat_time exact st b = secs (TT m) (AC m) (b - RX m) + X m.
Proof.
  intros Hb Hm Hhit Hfirst.
  destruct Hgood as (Hset & Hn & Hx0 & Hr0 & Hfar & Hmono & Htemp & Hseg).
  unfold beat_time, beat_time_mapped. rewrite Hset. cbn [negb].
  rewrite (search_hit (rxtime st) b (npts st) _ 0%nat m) by (auto; lia).
  exact_ops.
  replace (Reqb b 0) with false by (symmetry; apply Reqb_false; exact Hb).
  cbn [negb fst]. cbv beta iota zeta. unfold secs.
  destruct (Reqb (AC m) 0); reflexivity.
Qed.

(** A segment that takes time. *)
Lemma segment_facts m :
  (m < npts st)%nat -> X m < X (m + 1) ->
  0 < TT m /\ 0 < TT (m + 1) /\
  AC m = (TT (m + 1) * TT (m + 1) - TT m * TT m) / (2 * (X (m + 1) - X m)) /\
  RX (m + 1) = beats (TT m) (AC m) (X (m + 1) - X m) + RX m.
Proof.
  intros Hm Hlt.
  destruct Hgood as (Hset & Hn & Hx0 & Hr0 & Hfar & Hmono & Htemp & Hseg).
  destruct (Hseg m Hm) as [_ Hnz]. destruct Hnz as [Ha Hr]; [lra|].
  split; [apply Htemp; lia|]. split; [apply Htemp; lia|]. auto.
Qed.

Lemma beats_steps_mono m : (m < npts st)%nat -> RX m <= RX (m + 1).
Proof.
  intros Hm.
  pose proof Hgood as (Hset & Hn & Hx0 & Hr0 & Hfar & Hmono & Htemp & Hseg).
  destruct (Req_dec_T (X (m + 1) - X m) 0) as [E|E].
  - destruct (Hseg m Hm) as [Hz _]. destruct (Hz E) as [_ ->]. lra.
  - assert (Hlt : X m < X (m + 1)) by (specialize (Hmono m Hm); lra).
    destruct (segment_facts m Hm Hlt) as (T0 & T1 & Ha & Hr).
    assert (Hd : 0 < X (m + 1) - X m) by lra.
    pose proof (beats_pos _ _ _ T0 T1 Hd _ Ha (X (m + 1) - X m) ltac:(lra)).
    lra.
Qed.

Lemma times_from_zero m : (m <= npts st)%nat -> 0 <= X m.
Proof.
  intros Hm.
  pose proof Hgood as (Hset & Hn & Hx0 & Hr0 & Hfar & Hmono & Htemp & Hseg).
  rewrite <- Hx0.
  apply (steps_mono (fun k => X k) (npts st)); [|lia].
  intros k Hk. apply Hmono. exact Hk.
Qed.

Lemma beats_from_zero m : (m <= npts st)%nat -> 0 <= RX m.
Proof.
  intros Hm.
  pose proof Hgood as (Hset & Hn & Hx0 & Hr0 & Hfar & Hmono & Htemp & Hseg).
  rewrite <- Hr0.
  apply (steps_mono (fun k => RX k) (npts st)); [|lia].
  intros k Hk. apply beats_steps_mono. exact Hk.
Qed.

Lemma first_hit_of_mono (f : nat -> R) v m :
  (forall k, (k < npts st)%nat -> f k <= f (k + 1)%nat) ->
  (m < npts st)%nat -> f m < v ->
  forall j, (0 <= j < m)%nat -> ~ (f j < v <= f (j + 1)%nat).
Proof.
  intros Hs Hm Hv j Hj Hhit.
  pose proof (steps_mono f (npts st) Hs (j + 1)%nat m ltac:(lia)). lra.
Qed.

Lemma seconds_round_trip t :
  0 <= t <= far exact -> beat_time exact st (time_beat exact st t) = t.
Proof.
  intros Ht.
  pose proof Hgood as (Hset & Hn & Hx0 & Hr0 & Hfar & Hmono & Htemp & Hseg).
  destruct (Req_dec_T t 0) as [->|Hnz].
  { rewrite time_beat_zero. apply beat_time_zero. }
  destruct (exists_hit (fun k => X k) t (npts st)) as (m & Hm & Hhit & Hfirst).
  { intros k Hk. apply Hmono. exact Hk. }
  { rewrite Hx0, Hfar. lra. }
  cbv beta in Hhit, Hfirst.
  rewrite (time_beat_hit t m) by (auto; try lra; lia).
  destruct (segment_facts m Hm ltac:(lra)) as (T0 & T1 & Ha & Hr).
  set (dur := X (m + 1) - X m) in *. set (d := t - X m).
  assert (Hdur : 0 < dur) by (unfold dur; lra).
  assert (Hd : 0 < d <= dur) by (unfold d, dur; lra).
  pose proof (beats_pos _ _ _ T0 T1 Hdur _ Ha d Hd) as Hpos.
  pose proof (beats_le _ _ _ T0 T1 Hdur _ Ha d Hd) as Hle.
  pose proof (beats_from_zero m ltac:(lia)) as Hrm.
  rewrite (beat_time_hit _ m).
  - replace (beats (TT m) (AC m) d + RX m - RX m) with (beats (TT m) (AC m) d) by ring.
    rewrite (beats_secs _ _ _ T0 T1 Hdur _ Ha d Hd).
    unfold d. as_real. ring.
  - lra.
  - lia.
  - rewrite Hr. lra.
  - apply (first_hit_of_mono (fun k => RX k)); auto.
    + intros k Hk. apply beats_steps_mono. exact Hk.
    + lra.
Qed.

Lemma beats_round_trip b :
  0 <= b <= rd exact (rxtime st) (npts st) ->
  time_beat exact st (beat_time exact st b) = b.
Proof.
  intros Hb.
  pose proof Hgood as (Hset & Hn & Hx0 & Hr0 & Hfar & Hmono & Htemp & Hseg).
  destruct (Req_dec_T b 0) as [->|Hnz].
  { rewrite beat_time_zero. apply time_beat_zero. }
  destruct (exists_hit (fun k => RX k) b (npts st)) as (m & Hm & Hhit & Hfirst).
  { intros k Hk. apply beats_steps_mono. exact Hk. }
  { rewrite Hr0. lra. }
  cbv beta in Hhit, Hfirst.
  rewrite (beat_time_hit b m) by (auto; try lra; lia).
  assert (Hlt : X m < X (m + 1)).
  { specialize (Hmono m Hm). destruct (Req_dec_T (X (m + 1) - X m) 0) as [E|E]; [|lra].
    destruct (Hseg m Hm) as [Hz _]. destruct (Hz E) as [_ Heq]. lra. }
  destruct (segment_facts m Hm Hlt) as (T0 & T1 & Ha & Hr).
  set (dur := X (m + 1) - X m) in *. set (e := b - RX m).
  assert (Hdur : 0 < dur) by (unfold dur; lra).
  assert (He : 0 < e <= beats (TT m) (AC m) dur) by (unfold e; lra).
  pose proof (secs_pos _ _ _ T0 T1 Hdur _ Ha e He) as Hpos.
  pose proof (secs_le _ _ _ T0 T1 Hdur _ Ha e He) as Hle.
  pose proof (times_from_zero m ltac:(lia)) as Hxm.
  rewrite (time_beat_hit _ m).
  - replace (secs (TT m) (AC m) e + X m - X m) with (secs (TT m) (AC m) e) by ring.
    rewrite (secs_beats _ _ _ T0 T1 Hdur _ Ha e He).
    unfold e. as_real. ring.
  - lra.
  - lia.
  - unfold dur in Hle. lra.
  - apply (first_hit_of_mono (fun k => X k)); auto. lra.
Qed.

Lemma time_beat_in_segment t m :
  0 < t -> (m < npts st)%nat -> X m < t <= X (m + 1) ->
  (forall j, (0 <= j < m)%nat -> ~ (X j < t <= X (j + 1))) ->
  time_beat exact st t = beats (TT m) (AC m) (t - X m) + RX m /\
  RX m < time_beat exact st t <= RX (m + 1).
Proof.
  intros Ht Hm Hhit Hfirst.
  rewrite (time_beat_hit t m) by (auto; lia). split; [reflexivity|].
  destruct (segment_facts m Hm ltac:(lra)) as (T0 & T1 & Ha & Hr).
  set (dur := X (m + 1) - X m) in *. set (d := t - X m).
  assert (Hdur : 0 < dur) by (unfold dur; lra).
  assert (Hd : 0 < d <= dur) by (unfold d, dur; lra).
  pose proof (beats_pos _ _ _ T0 T1 Hdur _ Ha d Hd) as Hpos.
  pose proof (beats_le _ _ _ T0 T1 Hdur _ Ha d Hd) as Hle.
  rewrite Hr. lra.
Qed.

Lemma time_beat_mono t1 t2 :
  0 <= t1 <= t2 -> t2 <= far exact -> time_beat exact st t1 <= time_beat exact st t2.
Proof.
  intros Ht Hfar2.
  pose proof Hgood as (Hset & Hn & Hx0 & Hr0 & Hfar & Hmono & Htemp & Hseg).
  assert (Hseg_of : forall t, 0 < t <= far exact ->
            exists m, (m < npts st)%nat /\ X m < t <= X (m + 1) /\
                      forall j, (0 <= j < m)%nat -> ~ (X j < t <= X (j + 1))).
  { intros t Ht0.
    destruct (exists_hit (fun k => X k) t (npts st)) as (m & Hm & Hhit & Hfirst).
    - intros k Hk. apply Hmono. exact Hk.
    - rewrite Hx0, Hfar. lra.
    - exists m. auto. }
  destruct (Req_dec_T t2 0) as [E2|N2].
  { replace t1 with 0 by lra. rewrite E2. lra. }
  destruct (Hseg_of t2 ltac:(lra)) as (m2 & Hm2 & Hhit2 & Hfirst2).
  destruct (time_beat_in_segment t2 m2 ltac:(lra) Hm2 Hhit2 Hfirst2) as [E2 B2].
  pose proof (beats_from_zero m2 ltac:(lia)) as Hz2.
  destruct (Req_dec_T t1 0) as [E1|N1].
  { rewrite E1, time_beat_zero. lra. }
  destruct (Hseg_of t1 ltac:(lra)) as (m1 & Hm1 & Hhit1 & Hfirst1).
  destruct (time_beat_in_segment t1 m1 ltac:(lra) Hm1 Hhit1 Hfirst1) as [E1 B1].
  destruct (Nat.lt_trichotomy m1 m2) as [Hlt|[Heq|Hgt]].
  - pose proof (steps_mono (fun k => RX k) (npts st)
                  (fun k Hk => beats_steps_mono k Hk) (m1 + 1)%nat m2 ltac:(lia)) as Hs.
    cbv beta in Hs. lra.
  - subst m2. rewrite E1, E2.
    destruct (segment_facts m1 Hm1 ltac:(lra)) as (T0 & T1 & Ha & Hr).
    assert (Hdur : 0 < X (m1 + 1) - X m1) by lra.
    pose proof (beats_mono _ _ _ T0 T1 Hdur _ Ha (t1 - X m1) (t2 - X m1)
                  ltac:(lra) ltac:(lra)).
    lra.
  - exfalso.
    pose proof (steps_mono (fun k => X k) (npts st)
                  (fun k Hk => Hmono k Hk) (m2 + 1)%nat m1 ltac:(lia)) as Hs.
    cbv beta in Hs. lra.
Qed.

Lemma time_beat_strict t1 t2 :
  0 <= t1 < t2 -> t2 <= far exact -> time_beat exact st t1 < time_beat exact st t2.
Proof.
  intros Ht Hfar2.
  pose proof (time_beat_mono t1 t2 ltac:(lra) Hfar2) as Hle.
  destruct Hle as [Hlt|Heq]; [exact Hlt|].
  exfalso.
  pose proof (seconds_round_trip t1 ltac:(lra)) as R1.
  pose proof (seconds_round_trip t2 ltac:(lra)) as R2.
  rewrite Heq in R1. lra.
Qed.

End Map.


(** *** The map that tempo builds *)

Lemma sized_full st : sized st <-> full_size st.
Proof. unfold sized, full_size. tauto. Qed.

Lemma length_flatten pairs : length (flatten pairs) = (2 * length pairs)%nat.
Proof. induction pairs as [|[t T] r IH]; simpl; [reflexivity|]. rewrite IH. lia. Qed.

Lemma nth_error_flatten pairs : forall i,
  nth_error (flatten pairs) (2 * i) = option_map fst (nth_error pairs i) /\
  nth_error (flatten pairs) (2 * i + 1) = option_map snd (nth_error pairs i).
Proof.
  induction pairs as [|[t T] r IH]; intros [|i].
  - split; reflexivity.
  - split; reflexivity.
  - split; reflexivity.
  - destruct (IH i) as [E1 E2].
    replace (2 * S i)%nat with (S (S (2 * i))) by lia.
    replace (S (S (2 * i)) + 1)%nat with (S (S (2 * i + 1))) by lia.
    cbn [flatten nth_error]. auto.
Qed.

Lemma ascending_spec pairs : forall lo,
  ascending lo pairs ->
  (forall i t T, nth_error pairs i = Some (t, T) -> lo <= t /\ t <= far exact /\ 0 < T) /\
  (forall i t T t' T', nth_error pairs i = Some (t, T) ->
     nth_error pairs (S i) = Some (t', T') -> t <= t') /\
  lo <= far exact.
Proof.
  induction pairs as [|[t0 T0] r IH]; intros lo H; cbn [ascending] in H.
  - split; [|split]; auto; intros [|i]; discriminate.
  - destruct H as (H1 & H2 & H3). destruct (IH t0 H3) as (A1 & A2 & A3).
    split; [|split].
    + intros [|i] t T E; cbn [nth_error] in E.
      * injection E as <- <-. auto.
      * destruct (A1 i t T E) as (B1 & B2 & B3). repeat split; auto. lra.
    + intros [|i] t T t' T' E E'; cbn [nth_error] in E, E'.
      * injection E as <- <-. destruct (A1 0%nat t' T' E') as (B1 & _). exact B1.
      * eapply A2; eauto.
    + lra.
Qed.

(** The second loop of tempo ends without die on legal arguments. *)
Lemma fill_loop_legal (pairs : list (R * R)) : forall fuel i (st : state exact),
  (1 <= length pairs <= 10)%nat ->
  (i <= length pairs)%nat -> (length pairs - i < fuel)%nat ->
  (forall j t T, nth_error pairs j = Some (t, T) -> T <> 0) ->
  BASIS st <> 0 ->
  npts st = (i + 1)%nat -> length (temp st) = TLENP ->
  (1 <= i)%nat \/ fuel = TLEN ->
  exists st', fill_loop exact fuel (flatten pairs) (2 * i) st = Done st'.
Proof.
  induction fuel as [|fuel IH]; intros i st Hlen Hi Hfuel Hnz HB Hn Hsz Hfirst; [lia|].
  cbn [fill_loop].
  destruct (2 * i <? TLEN)%nat eqn:Elt; cbn [negb]; [|eexists; reflexivity].
  apply Nat.ltb_lt in Elt.
  match goal with |- context [if ?c then Done _ else _] => destruct c eqn:Ebrk end;
    [eexists; reflexivity|].
  assert (Hlt : (i < length pairs)%nat).
  { change (@length _ (flatten pairs)) with (@length R (flatten pairs)) in Ebrk.
    rewrite length_flatten in Ebrk. apply andb_false_iff in Ebrk as [E|E].
    - apply negb_false_iff in E. apply Nat.eqb_eq in E. lia.
    - apply Nat.leb_gt in E. lia. }
  destruct (nth_error pairs i) as [[t T]|] eqn:Ep.
  2:{ apply nth_error_None in Ep. lia. }
  destruct (nth_error_flatten pairs i) as [E1 E2]. rewrite Ep in E1, E2.
  cbn [option_map fst snd] in E1, E2.
  repeat match goal with
  | |- context [@nth_error ?T (flatten pairs) ?n] =>
      lazymatch T with
      | R => fail
      | _ => change (@nth_error T (flatten pairs) n) with (@nth_error R (flatten pairs) n)
      end
  end.
  rewrite E1, E2.
  unfold set_xtime, set_temp, set_npts.
  cbn [xtime temp rxtime accel BASIS tset npts].
  rewrite TempoFacts.rd_wr_same by (rewrite Hsz, Hn; unfold TLENP, TLEN in *; lia).
  exact_ops.
  assert (Hq : T / BASIS st <> 0).
  { pose proof (Hnz i t T Ep) as HT. intros Hq. apply HT.
    apply (Rmult_eq_reg_r (/ BASIS st)); [|apply Rinv_neq_0_compat; exact HB].
    unfold Rdiv in Hq. rewrite Hq. ring. }
  apply Reqb_false in Hq. rewrite Hq.
  replace (2 * i + 2)%nat with (2 * (i + 1))%nat by lia.
  apply IH; cbn [BASIS npts temp]; auto; try lia.
  rewrite TempoFacts.length_wr. exact Hsz.
Qed.

(** Segment [m] keeps what was stored for it when later segments are
    gone through. *)
Lemma seg_ok_transfer (st st' : state exact) m :
  xtime st' = xtime st -> temp st' = temp st ->
  rd exact (accel st') m = rd exact (accel st) m ->
  rd exact (rxtime st') m = rd exact (rxtime st) m ->
  rd exact (rxtime st') (m + 1) = rd exact (rxtime st) (m + 1) ->
  seg_ok st m -> seg_ok st' m.
Proof.
  unfold seg_ok. intros -> -> -> -> ->. auto.
Qed.

Lemma seg_step_exact m (st : state exact) pv :
  sized st -> (m + 1 < TLENP)%nat -> pv = rd exact (rxtime st) m ->
  seg_ok (fst (seg_step exact m (st, pv))) m.
Proof.
  intros (Lx & Lt & Lr & La) Hm ->. unfold seg_step, seg_ok.
  exact_ops.
  destruct (Reqb (rd exact (xtime st) (m + 1) - rd exact (xtime st) m) 0) eqn:Ed.
  - apply Reqb_true in Ed.
    unfold set_accel, set_rxtime. cbn [fst xtime temp rxtime accel].
    rewrite !TempoFacts.rd_wr_same by lia.
    rewrite TempoFacts.rd_wr_other by lia.
    split; [auto|]. intros Hne. contradiction.
  - apply Reqb_false in Ed.
    unfold set_accel. cbn [accel xtime temp rxtime].
    rewrite !TempoFacts.rd_wr_same by lia.
    match goal with |- context [Reqb ?a 0] => set (ac := a) end.
    destruct (Reqb ac 0) eqn:Ea;
      unfold set_rxtime; cbn [fst xtime temp rxtime accel];
      rewrite !TempoFacts.rd_wr_same by lia;
      rewrite TempoFacts.rd_wr_other by lia;
      (split; [intros Hz; contradiction|]); intros _;
      (split; [reflexivity|]); unfold beats; fold ac; rewrite Ea; reflexivity.
Qed.

Lemma seg_loop_exact n : forall (st : state exact),
  sized st -> (n < TLENP)%nat ->
  snd (seg_loop exact n (st, rd exact (rxtime st) 0))
    = rd exact (rxtime (fst (seg_loop exact n (st, rd exact (rxtime st) 0)))) n /\
  forall m, (m < n)%nat -> seg_ok (fst (seg_loop exact n (st, rd exact (rxtime st) 0))) m.
Proof.
  induction n as [|n IH]; intros st Hsz Hn.
  - cbn [seg_loop fst snd]. split; [reflexivity|]. intros m Hm. lia.
  - cbn [seg_loop].
    destruct (IH st Hsz ltac:(lia)) as [Hpv Hok].
    destruct (TempoShape.seg_loop_frame exact n st (rd exact (rxtime st) 0))
      as ((F1 & F2 & F3 & F4 & F5 & F6) & _ & _).
    destruct (seg_loop exact n (st, rd exact (rxtime st) 0)) as [s pv].
    cbn [fst snd] in *.
    assert (Hs : sized s).
    { apply sized_full. eapply (TempoShape.full_size_same exact); [exact F6|].
      apply sized_full. exact Hsz. }
    destruct (TempoShape.seg_step_frame exact n s pv)
      as ((S1 & S2 & S3 & S4 & S5 & S6) & G1 & G2 & G3).
    split.
    + replace (S n) with (n + 1)%nat by lia. exact G3.
    + intros m Hm. destruct (Nat.eq_dec m n) as [->|Hne].
      * apply seg_step_exact; auto. lia.
      * apply (seg_ok_transfer s _ m S1 S2).
        -- apply G1. lia.
        -- apply G2. lia.
        -- apply G2. lia.
        -- apply Hok. lia.
Qed.


Lemma tempo_legal_good (st : state exact) (pairs : list (R * R)) :
  legal st pairs ->
  exists st', tempo exact st (flatten pairs) = Done st' /\ good st'.
Proof.
  intros (Hsz & HB & Hlen & Hasc).
  destruct (ascending_spec pairs 0 Hasc) as (A1 & A2 & A3).
  assert (Hrun : exists st', tempo exact st (flatten pairs) = Done st').
  { unfold tempo.
    assert (E0 : (length (flatten pairs) =? 0)%nat = false).
    { apply Nat.eqb_neq. rewrite length_flatten. lia. }
    change (@length _ (flatten pairs)) with (@length R (flatten pairs)). rewrite E0.
    pose proof (TempoShape.zero_loop_sizes exact TLEN st) as Hz.
    destruct (TempoFacts.zero_loop_spec exact TLEN st) as (Zt & Zb & _).
    remember (zero_loop exact TLEN st) as sz eqn:Esz. clear Esz.
    destruct (fill_loop_legal pairs TLEN 0 (set_npts exact sz 1)) as (s1 & E1); auto;
      try (unfold TLEN; lia).
    - intros j t T E. destruct (A1 j t T E) as (_ & _ & HT). lra.
    - unfold set_npts; cbn [BASIS]. rewrite Zb. lra.
    - unfold set_npts; cbn [temp]. destruct Hz as (_ & L2 & _). rewrite L2. apply Hsz.
    - change (2 * 0)%nat with 0%nat in E1. rewrite E1. eexists. reflexivity. }
  destruct Hrun as (st' & Hrun). exists st'. split; [exact Hrun|].
  destruct (TempoShape.tempo_done_shape exact st st' (flatten pairs)
              (proj1 (sized_full st) Hsz) Hrun)
    as (S1 & S2 & S3 & S4 & S5 & S6 & S7 & S8 & S9 & S10 & S11 & (sc & C1 & C2 & C3)).
  (* the entries of the arrays, from the pairs *)
  assert (Hent : forall k, (1 <= k < npts st')%nat ->
            exists t T, nth_error pairs (k - 1) = Some (t, T) /\
                        rd exact (xtime st') k = t /\
                        rd exact (temp st') k = T / BASIS st).
  { intros k Hk. destruct (S11 k Hk) as (pm & pm1 & N1 & N2 & V1 & V2 & _).
    destruct (nth_error_flatten pairs (k - 1)) as [E1 E2].
    change (@nth_error _ (flatten pairs)) with (@nth_error R (flatten pairs)) in N1, N2.
    rewrite N1 in E1. rewrite N2 in E2.
    destruct (nth_error pairs (k - 1)) as [[t T]|]; [|discriminate].
    cbn in E1, E2. injection E1 as ->. injection E2 as ->.
    exists t, T. auto. }
  assert (Hcount : npts st' = (length pairs + 1)%nat).
  { change (@length _ (flatten pairs)) with (@length R (flatten pairs)) in S5.
    rewrite length_flatten in S5.
    destruct (Hent (npts st' - 1)%nat ltac:(lia)) as (t & T & E & _).
    assert (npts st' - 1 - 1 < length pairs)%nat by (apply nth_error_Some; congruence).
    unfold TLEN in S5. lia. }
  assert (Hpos : forall m, (m <= npts st')%nat -> 0 < rd exact (temp st') m).
  { assert (Hin : forall k, (1 <= k < npts st')%nat -> 0 < rd exact (temp st') k).
    { intros k Hk. destruct (Hent k Hk) as (t & T & E & _ & ->).
      destruct (A1 _ _ _ E) as (_ & _ & HT). apply Rdiv_lt_0_compat; assumption. }
    intros m Hm. destruct (Nat.eq_dec m 0) as [->|H0].
    - rewrite S9. apply Hin. lia.
    - destruct (Nat.eq_dec m (npts st')) as [->|Hn].
      + rewrite S10. apply Hin. lia.
      + apply Hin. lia. }
  unfold good. split; [exact S1|]. split; [lia|]. split; [exact S6|].
  split; [exact S7|]. split; [exact S8|]. split; [|split; [exact Hpos|]].
  - intros m Hm. replace (m + 1)%nat with (S m) by lia.
    destruct (Nat.eq_dec m 0) as [->|H0].
    + rewrite S6. change (zero exact) with 0.
      destruct (Hent 1%nat ltac:(lia)) as (t & T & E & -> & _).
      destruct (A1 _ _ _ E) as (B1 & _). exact B1.
    + destruct (Hent m ltac:(lia)) as (t & T & E & -> & _).
      destruct (Nat.eq_dec (S m) (npts st')) as [Hl|Hl].
      * rewrite Hl, S8. destruct (A1 _ _ _ E) as (_ & B2 & _). exact B2.
      * destruct (Hent (S m) ltac:(lia)) as (t' & T' & E' & -> & _).
        replace (S m - 1)%nat with (S (m - 1)) in E' by lia.
        eapply A2; eauto.
  - intros m Hm. rewrite C3.
    destruct (seg_loop_exact (npts sc) sc (proj2 (sized_full sc) C1)
                ltac:(rewrite C2; unfold TLENP; lia)) as [_ Hok].
    apply Hok. rewrite C2. exact Hm.
Qed.






End ExactFacts.

(** ** More on the bus graph *)

Module BusMoreFacts.
Import Bus BusGraph BusCases BusMore GraphFacts.
Local Open Scope list_scope.
Local Open Scope Z_scope.

(** *** The check reports a loop only where there is one *)

Section Sound.
Variable G : state.
Variables ins outs : list Z.

Lemma feeds_parent p x : feeds G ins x -> In p (parents G x) -> feeds G ins p.
Proof.
  intros (a & Ha & Hr) Hp. exists a. split; [exact Ha|].
  eapply reach_trans; [|exact Hr].
  eapply reach_step; [apply reach_refl | exact Hp].
Qed.

Lemma check_bus_sound t c r c' :
  graph_eq G (sc_state c) -> feeds G ins t ->
  (forall x, In x (concat (added c)) -> feeds G ins x) ->
  check_bus outs t c = Ok (r, c') ->
  (r <> None -> exists a b, In a ins /\ In b outs /\ reach G b a) /\
  (forall x, In x (concat (added c')) -> feeds G ins x).
Proof.
  intros HG Ht Hadd H. apply check_bus_inv in H.
  inversion H as [ Hchk Hin
                 | chk checked node rp cnt vis' l Hchk Hc Hset Hnode Hvis Hcnt Hvset Heff
                 | chk checked node vis Hchk Hc Hset Hnode Hvis Hcnt ]; subst; cbn [added].
  - split; [|exact Hadd]. intros _. destruct Ht as (a & Ha & Hr). exists a, t. auto.
  - split; [intros E; contradiction|].
    intros x Hx. rewrite concat_app in Hx. apply in_app_or in Hx. destruct Hx as [Hx|Hx].
    + apply Hadd. exact Hx.
    + simpl in Hx. rewrite app_nil_r in Hx.
      apply (feeds_parent x t Ht).
      rewrite <- (graph_eq_parents _ _ t HG). rewrite (parents_of_eff _ _ _ _ Hnode Heff).
      exact Hx.
  - split; [intros E; contradiction|]. exact Hadd.
Qed.

Lemma check_node_sound l : forall c r c',
  graph_eq G (sc_state c) -> (forall x, In x l -> feeds G ins x) ->
  (forall x, In x (concat (added c)) -> feeds G ins x) ->
  check_node outs l c = Ok (r, c') ->
  (r <> None -> exists a b, In a ins /\ In b outs /\ reach G b a) /\
  (forall x, In x (concat (added c')) -> feeds G ins x).
Proof.
  induction l as [|t rest IH]; intros c r c' HG Hl Hadd H; simpl in H.
  - injection H as <- <-. split; [intros E; contradiction | exact Hadd].
  - destruct (check_bus outs t c) as [[[e|] c1]| |] eqn:E; cbn [rbind] in H; try discriminate.
    + injection H as <- <-. eapply check_bus_sound; eauto. apply Hl. left. reflexivity.
    + pose proof (check_bus_graph _ _ _ _ _ E) as G1.
      destruct (check_bus_sound t c None c1 HG (Hl t (or_introl eq_refl)) Hadd E) as [_ Hadd1].
      apply (IH c1 r c'); auto.
      * eapply graph_eq_trans; eauto.
      * intros x Hx. apply Hl. right. exact Hx.
Qed.

Lemma check_queue_sound fuel : forall queue c e c',
  graph_eq G (sc_state c) -> (forall x, In x (concat queue) -> feeds G ins x) ->
  check_queue fuel outs queue c = Ok (e, c') ->
  e <> NO_ERR -> exists a b, In a ins /\ In b outs /\ reach G b a.
Proof.
  induction fuel as [|fuel IH]; intros queue c e c' HG Hq H He.
  - destruct queue; simpl in H; [|discriminate]. injection H as <- _. contradiction.
  - destruct queue as [|l rest]; simpl in H.
    + injection H as <- _. contradiction.
    + set (c0 := mkScan (sc_state c) (Checked c) (r_p_count c) []) in *.
      assert (Hl : forall x, In x l -> feeds G ins x).
      { intros x Hx. apply Hq. simpl. apply in_or_app. left. exact Hx. }
      assert (Hnil : forall x, In x (concat (added c0)) -> feeds G ins x).
      { intros x Hx. destruct Hx. }
      assert (HG0 : graph_eq G (sc_state c0)) by exact HG.
      destruct (check_node outs l c0) as [[[e1|] c1]| |] eqn:E; cbn [rbind] in H;
        try discriminate.
      * destruct (check_node_sound l c0 (Some e1) c1 HG0 Hl Hnil E) as [Hs _].
        apply Hs. discriminate.
      * pose proof (check_node_graph _ _ _ _ _ E) as G1. cbn [sc_state] in G1.
        destruct (check_node_sound l c0 None c1 HG0 Hl Hnil E) as [_ Hadd1].
        apply (IH (rest ++ added c1) c1 e c'); auto.
        -- eapply graph_eq_trans; eauto.
        -- intros x Hx. rewrite concat_app in Hx. apply in_app_or in Hx.
           destruct Hx as [Hx|Hx]; [|apply Hadd1; exact Hx].
           apply Hq. simpl. apply in_or_app. right. exact Hx.
Qed.

End Sound.

Lemma check_config_sound slot visit st e st' ins outs :
  check_bus_inst_config slot visit st = Ok (e, st') ->
  eff (auxin slot) (auxin_count slot) = Ok ins ->
  eff (auxout slot) (auxout_count slot) = Ok outs ->
  e <> NO_ERR ->
  exists a b, In a ins /\ In b outs /\ reach st' b a.
Proof.
  intros H Hins Houts He. unfold check_bus_inst_config in H. rewrite Hins, Houts in H.
  destruct (for_upto _ _ _) as [[[s1 o1] a1]| |] eqn:E1; cbn [rbind] in H; try discriminate.
  destruct (check_queue _ _ _ _) as [[e1 c1]| |] eqn:E2; cbn [rbind] in H; try discriminate.
  cbn [fst snd] in H. injection H as -> <-.
  pose proof (check_queue_graph _ _ _ _ _ _ E2) as G2. cbn [sc_state] in G2.
  assert (Hq : forall x, In x (concat [ins]) -> feeds s1 ins x).
  { intros x Hx. simpl in Hx. rewrite app_nil_r in Hx. exists x. split; [exact Hx|].
    apply reach_refl. }
  destruct (check_queue_sound s1 ins outs _ _
              (mkScan s1 (repeat false (nbus s1)) 0 []) _ _ (graph_eq_refl s1) Hq E2 He)
    as (a & b & Ha & Hb & Hr).
  exists a, b. split; [exact Ha|]. split; [exact Hb|].
  eapply reach_sub; [|exact Hr]. apply graph_eq_sub'. exact G2.
Qed.




(** *** A call that ends in RTExit *)

Lemma same_graph_refl st : same_graph st st.
Proof. unfold same_graph. repeat split; auto. Qed.

Lemma insert_bus_slot_no_error name slot st e st' :
  insert_bus_slot name slot st = Ok (e, st') -> e = NO_ERR.
Proof.
  unfold insert_bus_slot. intros H.
  destruct (eff (auxin slot) _); cbn [rbind] in H; try discriminate.
  destruct (eff (auxout slot) _); cbn [rbind] in H; try discriminate.
  destruct (for_each _ _ _); cbn [rbind] in H; try discriminate.
  injection H as <- _. reflexivity.
Qed.

Lemma rejected_call_frame name busnames st code st' :
  wf st ->
  bus_config name busnames st = Ok (RTExit code, st') ->
  same_graph st st'.
Proof.
  intros Hwf H. unfold bus_config in H.
  destruct (length busnames <? 1)%nat.
  { injection H as _ <-. apply same_graph_refl. }
  destruct (negb (rtsetparams_called st)).
  { injection H as _ <-. apply same_graph_refl. }
  destruct (parse_loop busnames _) as [[[c|] x]| |] eqn:Ep; cbn [rbind] in H; try discriminate.
  - injection H as _ <-. apply parse_loop_graph in Ep. cbn [l_state] in Ep.
    apply graph_eq_same. exact Ep.
  - apply parse_loop_graph in Ep. cbn [l_state] in Ep.
    pose proof (wf_graph_eq _ _ Ep Hwf) as Hwx.
    destruct (check_bus_inst_config (bus_slot x) true (l_state x)) as [[ce st1]| |] eqn:Ec;
      cbn [rbind] in H; try discriminate.
    destruct (check_config_frame _ _ _ _ _ Hwx Ec) as (_ & _ & Hs1).
    pose proof (same_graph_trans _ _ _ (graph_eq_same _ _ Ep) Hs1) as Hs.
    destruct ce; try (injection H as _ <-; exact Hs).
    destruct (insert_bus_slot name (bus_slot x) st1) as [[ie st2]| |] eqn:Ei;
      cbn [rbind] in H; try discriminate.
    rewrite (insert_bus_slot_no_error _ _ _ _ _ Ei) in H.
    destruct (create_play_order _); cbn [rbind] in H; discriminate.
Qed.

(** A call of bus_config that ends in RTExit, whatever the reason, has
    changed nothing of the graph: the parent lists, the flags HasChild,
    HasParent and AuxInUse, and the queue of the instruments' slots are as
    before the call. *)
Theorem failed_call_leaves_the_graph
  (n chans : Z) (calls : list (String.string * list String.string)) (st : state)
  (name : String.string) (busnames : list String.string) (code : ExitCode) (st' : state) :
  run calls (initial n chans) = Ok st ->
  bus_config name busnames st = Ok (RTExit code, st') ->
  same_graph st st'.
Proof.
  intros Hrun H.
  destruct (wf_initial n chans) as [Hw0 Ha0].
  destruct (run_keeps calls _ Hw0 Ha0) as [_ Hk].
  destruct (Hk st Hrun) as [Hw _].
  eapply rejected_call_frame; eauto.
Qed.


(** *** What every state of a score satisfies *)

Section Invariant.
Variable P : state -> Prop.
Hypothesis P_eq : forall a b, graph_eq a b -> P a -> P b.
Hypothesis P_alloc : forall st, P st -> P (allocate_graph st).
Hypothesis P_insert : forall name slot st e st',
  Bus_Config_Status st = true ->
  P st -> insert_bus_slot name slot st = Ok (e, st') -> P st'.
Hypothesis P_queue : forall q st, P st -> P (set_queue q st).

Lemma bus_config_invariant name busnames st e st' :
  P st -> bus_config name busnames st = Ok (e, st') -> P st'.
Proof.
  intros HP H. unfold bus_config in H.
  destruct (length busnames <? 1)%nat.
  { injection H as _ <-. exact HP. }
  destruct (negb (rtsetparams_called st)).
  { injection H as _ <-. exact HP. }
  destruct (parse_loop busnames _) as [[[c|] x]| |] eqn:Ep; cbn [rbind] in H; try discriminate.
  - injection H as _ <-. apply parse_loop_graph in Ep. cbn [l_state] in Ep. eauto.
  - apply parse_loop_graph in Ep. cbn [l_state] in Ep.
    destruct (check_bus_inst_config (bus_slot x) true (l_state x)) as [[ce st1]| |] eqn:Ec;
      cbn [rbind] in H; try discriminate.
    pose proof (check_config_graph _ _ _ _ _ Ec) as G1.
    assert (P1 : P st1) by eauto.
    assert (S1 : Bus_Config_Status st1 = true).
    { destruct G1 as (_ & B2 & _). rewrite B2. apply allocate_graph_frame. }
    destruct ce; try (injection H as _ <-; exact P1).
    destruct (insert_bus_slot name (bus_slot x) st1) as [[ie st2]| |] eqn:Ei;
      cbn [rbind] in H; try discriminate.
    assert (P2 : P st2) by eauto.
    assert (S2 : Bus_Config_Status st2 = true).
    { destruct (check_config_effs _ _ _ _ Ec) as (ins & outs & Hins & Houts).
      destruct (insert_bus_slot_grows _ _ _ _ _ _ _ Ei Hins Houts) as [_ (_ & B2 & _)].
      congruence. }
    rewrite (insert_bus_slot_no_error _ _ _ _ _ Ei) in H.
    destruct (create_play_order _) as [st4| |] eqn:Ecp; cbn [rbind] in H; try discriminate.
    injection H as _ <-.
    apply create_play_order_graph in Ecp; [|exact S2].
    eapply P_eq; [exact Ecp|]. apply P_queue. exact P2.
Qed.

Lemma run_invariant calls : forall st st',
  P st -> run calls st = Ok st' -> P st'.
Proof.
  induction calls as [|[name busnames] rest IH]; intros st st' HP H; simpl in H.
  - injection H as <-. exact HP.
  - destruct (bus_config name busnames st) as [[e s1]| |] eqn:E; cbn [rbind] in H;
      try discriminate.
    cbn [snd] in H. eapply IH; [|exact H]. eapply bus_config_invariant; eauto.
Qed.

End Invariant.

Lemma for_each_keeps {A S} (P : S -> Prop) (body : A -> S -> res S) :
  (forall x s s', P s -> body x s = Ok s' -> P s') ->
  forall l s s', P s -> for_each l body s = Ok s' -> P s'.
Proof.
  intros Hb. induction l as [|x l IH]; intros s s' HP H; simpl in H.
  - injection H as <-. exact HP.
  - destruct (body x s) as [s1| |] eqn:E; cbn [rbind] in H; try discriminate.
    eapply IH; [|exact H]. eapply Hb; eauto.
Qed.

Lemma insert_edge_inv s_out s_in st st' :
  insert_edge s_out s_in st = Ok st' -> insert_edge_case s_out s_in st st'.
Proof.
  unfold insert_edge. intros H.
  destruct (zget (HasParent st) s_out) as [hp| |] eqn:Ehp; cbn [rbind] in H; try discriminate.
  destruct (s_in =? 333) eqn:E333.
  - apply Z.eqb_eq in E333. rewrite andb_false_r in H. cbn [rbind negb] in H.
    destruct (zget (In_Config _) s_out) as [node| |]; cbn [rbind negb] in H;
      try discriminate.
    injection H as <-. apply ie_skip; [exact E333 | tauto | reflexivity].
  - apply Z.eqb_neq in E333. rewrite andb_true_r in H. cbn [negb] in H.
    assert (Hhp : forall hp', (if negb hp then zset (HasParent st) s_out true
                                else Ok (HasParent st)) = Ok hp' ->
              isset hp' s_out /\
              (forall x, isset hp' x <-> x = s_out \/ isset (HasParent st) x) /\
              length hp' = length (HasParent st)).
    { intros hp' E. destruct hp; cbn [negb] in E.
      - injection E as <-. split; [exact Ehp|]. split; [|reflexivity]. intros x.
        split; [tauto|]. intros [->|Hx]; [exact Ehp | exact Hx].
      - split; [apply (isset_zset _ _ _ s_out E); auto|]. split.
        + intros x. apply (isset_zset _ _ _ x E).
        + eapply zset_length; eauto. }
    destruct (if negb hp then _ else _) as [hp'| |]; cbn [rbind] in H; try discriminate.
    destruct (Hhp hp' eq_refl) as (Hs & Hiff & Hlen).
    change (In_Config (set_graph (In_Config st) (HasChild st) hp' (AuxInUse st) st))
      with (In_Config st) in H.
    destruct (zget (In_Config st) s_out) as [node| |] eqn:En; cbn [rbind] in H;
      try discriminate.
    destruct (zset (bus_list node) (bus_count node) s_in) as [bl| |] eqn:Eb; cbn [rbind] in H;
      try discriminate.
    cbn [busCount set_graph HasChild AuxInUse HasParent] in H.
    destruct (zset (In_Config st) s_out _) as [ic| |] eqn:Ei; cbn [rbind] in H;
      try discriminate.
    destruct (zset (HasChild st) s_in true) as [hc| |] eqn:Ehc; cbn [rbind] in H;
      try discriminate.
    destruct (zset (AuxInUse st) s_in true) as [au| |] eqn:Eau; cbn [rbind] in H;
      try discriminate.
    injection H as <-.
    replace (set_graph ic hc hp' au
               (set_graph (In_Config st) (HasChild st) hp' (AuxInUse st) st))
      with (set_graph ic hc hp' au st) by reflexivity.
    eapply ie_add; eauto.
Qed.


(** *** The marks of an edge *)

Lemma marked_graph_eq a b : graph_eq a b -> marked a -> marked b.
Proof.
  intros G [M1 M2]. pose proof (fun k => graph_eq_parents _ _ k G) as Hp.
  destruct G as (_ & B2 & _ & B4 & B5 & B6 & _). split.
  - intros Hs k. rewrite Hp. apply M1. congruence.
  - intros p c E. unfold edge in E. rewrite Hp in E.
    rewrite B4, B5, B6. apply M2. exact E.
Qed.

Lemma marked_allocate st : marked st -> marked (allocate_graph st).
Proof.
  intros [M1 M2]. pose proof (allocate_parents st M1) as Hp.
  destruct (allocate_graph_frame st) as (_ & _ & F3 & F4 & F5 & _ & F7). split.
  - intros Hs. congruence.
  - intros p c E. unfold edge in E. rewrite Hp in E. rewrite F3, F4, F5.
    apply M2. exact E.
Qed.

Lemma flagged_insert_edge s_out s_in st st' :
  flagged st /\ isset (AuxInUse st) s_out ->
  insert_edge s_out s_in st = Ok st' ->
  flagged st' /\ isset (AuxInUse st') s_out.
Proof.
  intros [F Hout] H. pose proof (insert_edge_grows _ _ _ _ H) as (_ & _ & _ & _ & G).
  destruct (insert_edge_inv _ _ _ _ H)
    as [hp' E333 Hhp Hlen | node bl ic hc au hp' E333 En Eb Ei Ehc Eau Hs Hhp Hlen].
  - split; [|exact Hout]. intros p c E.
    assert (E0 : edge st p c) by exact E.
    destruct (F p c E0) as (F1 & F2 & F3 & F4). cbn [set_graph HasParent HasChild AuxInUse].
    repeat split; auto. apply Hhp. exact F1.
  - pose proof (isset_zset _ _ _ s_in Ehc) as Hc1.
    pose proof (isset_zset _ _ _ s_in Eau) as Ha1.
    split.
    + intros p c E. cbn [set_graph HasParent HasChild AuxInUse].
      destruct (G p c E) as [E0|[-> ->]].
      * destruct (F p c E0) as (F1 & F2 & F3 & F4).
        split; [apply Hhp; auto|]. split; [apply (isset_zset _ _ _ p Ehc); auto|].
        split; apply (isset_zset _ _ _ _ Eau); auto.
      * split; [exact Hs|]. split; [apply Hc1; auto|]. split; [apply Ha1; auto|].
        apply (isset_zset _ _ _ s_out Eau); auto.
    + cbn [set_graph AuxInUse]. apply (isset_zset _ _ _ s_out Eau); auto.
Qed.

Lemma flagged_insert_out ins s_out st st' :
  flagged st -> insert_out ins s_out st = Ok st' -> flagged st'.
Proof.
  unfold insert_out. intros F H.
  destruct (zget (AuxInUse st) s_out) as [au0| |] eqn:E0; cbn [rbind] in H; try discriminate.
  assert (Hau : forall au, (if negb au0 then zset (AuxInUse st) s_out true
                            else Ok (AuxInUse st)) = Ok au ->
            isset au s_out /\ forall x, isset (AuxInUse st) x -> isset au x).
  { intros au E. destruct au0; cbn [negb] in E.
    - injection E as <-. split; [exact E0 | auto].
    - split; [apply (isset_zset _ _ _ s_out E); auto|].
      intros x Hx. apply (isset_zset _ _ _ x E); auto. }
  destruct (if negb au0 then _ else _) as [au| |]; cbn [rbind] in H; try discriminate.
  destruct (Hau au eq_refl) as [Hs Hmono].
  set (s1 := set_graph (In_Config st) (HasChild st) (HasParent st) au st) in *.
  assert (F1 : flagged s1 /\ isset (AuxInUse s1) s_out).
  { split; [|exact Hs]. intros p c E. assert (E' : edge st p c) by exact E.
    destruct (F p c E') as (A1 & A2 & A3 & A4). unfold s1.
    cbn [set_graph HasParent HasChild AuxInUse]. repeat split; auto. }
  apply (for_each_keeps (fun s => flagged s /\ isset (AuxInUse s) s_out)
           (insert_edge s_out)) in H; [tauto | | exact F1].
  intros x s s' Hs0 Hx. eapply flagged_insert_edge; eauto.
Qed.

Lemma marked_insert name slot st e st' :
  Bus_Config_Status st = true ->
  marked st -> insert_bus_slot name slot st = Ok (e, st') -> marked st'.
Proof.
  intros Hst [_ F] H.
  assert (Hs' : Bus_Config_Status st' = true).
  { pose proof H as H0. unfold insert_bus_slot in H0.
    destruct (eff (auxin slot) _) as [ins| |] eqn:Hi; cbn [rbind] in H0; try discriminate.
    destruct (eff (auxout slot) _) as [outs| |] eqn:Ho; cbn [rbind] in H0; try discriminate.
    destruct (insert_bus_slot_grows _ _ _ _ _ _ _ H Hi Ho) as [_ (_ & B2 & _)]. congruence. }
  split; [congruence|].
  unfold insert_bus_slot in H.
  destruct (eff (auxin slot) _) as [ins| |]; cbn [rbind] in H; try discriminate.
  destruct (eff (auxout slot) _) as [outs| |]; cbn [rbind] in H; try discriminate.
  destruct (for_each outs (insert_out ins) st) as [s1| |] eqn:E; cbn [rbind] in H;
    try discriminate.
  injection H as _ <-.
  apply (for_each_keeps flagged (insert_out ins)) in E; [exact E | | exact F].
  intros x s s' Hs0 Hx. eapply flagged_insert_out; eauto.
Qed.

Lemma marked_queue q st : marked st -> marked (set_queue q st).
Proof. intros M. exact M. Qed.

Lemma marked_initial n chans : marked (initial n chans).
Proof.
  destruct (wf_initial n chans) as [(_ & _ & W) _].
  assert (Hp : forall k, parents (initial n chans) k = []) by (apply W; reflexivity).
  split; [auto|]. intros p c E. unfold edge in E. rewrite Hp in E. destruct E.
Qed.

(** Whatever the score, every edge of the graph has left its marks: the
    child bus has HasParent, the parent bus has HasChild and both have
    AuxInUse, which is what create_play_order reads. *)
Theorem every_edge_is_marked
  (n chans : Z) (calls : list (String.string * list String.string)) (st : state) :
  run calls (initial n chans) = Ok st ->
  forall p c, edge st p c ->
    isset (HasParent st) c /\ isset (HasChild st) p /\
    isset (AuxInUse st) p /\ isset (AuxInUse st) c.
Proof.
  intros H.
  apply (run_invariant marked marked_graph_eq marked_allocate marked_insert marked_queue
           calls _ _ (marked_initial n chans) H).
Qed.

Lemma every_edge_is_marked_witness :
  edge diamond 1 4 /\
  isset (HasParent diamond) 4 /\ isset (HasChild diamond) 1 /\
  isset (AuxInUse diamond) 1 /\ isset (AuxInUse diamond) 4.
Proof.
  assert (E : edge diamond 1 4) by (vm_compute; auto).
  split; [exact E|].
  apply (every_edge_is_marked 8 2 diamond_score diamond); [vm_compute; reflexivity | exact E].
Defined.


(** *** Indices stay inside the arrays *)

Lemma in_bounds_graph_eq a b : graph_eq a b -> in_bounds a -> in_bounds b.
Proof.
  intros (B1 & B2 & B3 & B4 & B5 & B6 & _) (I1 & I2 & I3 & I4 & I5).
  unfold in_bounds, nbus. rewrite B1, B2, B3, B4, B5, B6. auto.
Qed.

Lemma zget_repeat {A} (x y : A) n k : zget (repeat x n) k = Ok y -> y = x /\ 0 <= k < Z.of_nat n.
Proof.
  intros H. pose proof (zget_range _ _ _ H) as Hr. rewrite repeat_length in Hr.
  split; [|exact Hr].
  unfold zget in H. destruct (k <? 0); [discriminate|].
  destruct (nth_error _ _) as [z|] eqn:E; [|discriminate].
  apply nth_error_In in E. apply repeat_spec in E. congruence.
Qed.

Lemma in_bounds_allocate st : in_bounds st -> in_bounds (allocate_graph st).
Proof.
  intros (I1 & I2 & I3 & I4 & I5). unfold allocate_graph.
  destruct (Bus_Config_Status st) eqn:Es;
    [unfold in_bounds; rewrite Es; exact (conj I1 (conj I2 (conj I3 (conj I4 I5))))|].
  unfold in_bounds, nbus, set_status.
  cbn [In_Config HasChild HasParent AuxInUse busCount Bus_Config_Status].
  rewrite repeat_length. repeat (split; [assumption || reflexivity|]).
  intros _ k node H. apply zget_repeat in H. destruct H as [-> Hr].
  cbn [bus_count bus_list]. rewrite repeat_length. unfold nbus in Hr. split; [lia | reflexivity].
Qed.

Lemma in_bounds_insert_edge s_out s_in st st' :
  Bus_Config_Status st = true ->
  in_bounds st -> insert_edge s_out s_in st = Ok st' ->
  Bus_Config_Status st' = true /\ in_bounds st'.
Proof.
  intros Hst (I1 & I2 & I3 & I4 & I5) H. specialize (I5 Hst).
  unfold insert_edge in H.
  destruct (zget (HasParent st) s_out) as [hp| |] eqn:Ehp; cbn [rbind] in H; try discriminate.
  assert (Hhp : forall hp', (if negb hp && negb (s_in =? 333)
                             then zset (HasParent st) s_out true
                             else Ok (HasParent st)) = Ok hp' ->
            length hp' = nbus st).
  { intros hp' E. destruct (negb hp && negb (s_in =? 333)).
    - apply zset_length in E. congruence.
    - congruence. }
  destruct (if negb hp && negb (s_in =? 333) then _ else _) as [hp'| |]; cbn [rbind] in H;
    try discriminate.
  specialize (Hhp hp' eq_refl).
  set (s1 := set_graph (In_Config st) (HasChild st) hp' (AuxInUse st) st) in *.
  assert (B1 : Bus_Config_Status s1 = true /\ in_bounds s1).
  { split; [exact Hst|]. unfold in_bounds, s1, nbus.
    cbn [set_graph In_Config HasChild HasParent AuxInUse busCount Bus_Config_Status].
    repeat (split; [assumption|]). intros _. exact I5. }
  change (In_Config s1) with (In_Config st) in H.
  destruct (zget (In_Config st) s_out) as [node| |] eqn:En; cbn [rbind] in H; try discriminate.
  destruct (negb (s_in =? 333)); [|injection H as <-; exact B1].
  destruct (zset (bus_list node) (bus_count node) s_in) as [bl| |] eqn:Eb; cbn [rbind] in H;
    try discriminate.
  change (busCount s1) with (busCount st) in H.
  destruct (zset (In_Config st) s_out _) as [ic| |] eqn:Ei; cbn [rbind] in H; try discriminate.
  change (HasChild s1) with (HasChild st) in H.
  change (AuxInUse s1) with (AuxInUse st) in H.
  change (HasParent s1) with hp' in H.
  destruct (zset (HasChild st) s_in true) as [hc| |] eqn:Ehc; cbn [rbind] in H; try discriminate.
  destruct (zset (AuxInUse st) s_in true) as [au| |] eqn:Eau; cbn [rbind] in H; try discriminate.
  injection H as <-. split; [exact Hst|].
  unfold in_bounds, nbus.
  cbn [set_graph s1 In_Config HasChild HasParent AuxInUse busCount Bus_Config_Status].
  apply zset_length in Ehc, Eau. pose proof (zset_length _ _ _ _ Ei) as Li.
  unfold nbus in *.
  split; [congruence|]. split; [congruence|]. split; [congruence|]. split; [congruence|].
  intros _ k nd Hk. destruct (Z.eq_dec s_out k) as [<-|Hne].
  - rewrite (zget_zset_same _ _ _ _ Ei) in Hk. injection Hk as <-.
    cbn [bus_count bus_list]. destruct (I5 _ _ En) as [Hc Hl].
    apply zset_length in Eb. split; [|congruence].
    destruct (bus_count node + 1 >=? busCount st) eqn:Ew; [lia|].
    rewrite Z.geb_leb in Ew. apply Z.leb_gt in Ew. lia.
  - rewrite (zget_zset_other _ _ _ _ _ Ei Hne) in Hk. eapply I5; eauto.
Qed.

Lemma in_bounds_insert_out ins s_out st st' :
  Bus_Config_Status st = true /\ in_bounds st -> insert_out ins s_out st = Ok st' ->
  Bus_Config_Status st' = true /\ in_bounds st'.
Proof.
  unfold insert_out. intros [Hst (I1 & I2 & I3 & I4 & I5)] H.
  destruct (zget (AuxInUse st) s_out) as [au0| |] eqn:E0; cbn [rbind] in H; try discriminate.
  assert (Hau : forall au, (if negb au0 then zset (AuxInUse st) s_out true
                            else Ok (AuxInUse st)) = Ok au -> length au = nbus st).
  { intros au E. destruct (negb au0).
    - apply zset_length in E. congruence.
    - congruence. }
  destruct (if negb au0 then _ else _) as [au| |]; cbn [rbind] in H; try discriminate.
  specialize (Hau au eq_refl).
  set (s1 := set_graph (In_Config st) (HasChild st) (HasParent st) au st) in *.
  assert (B1 : Bus_Config_Status s1 = true /\ in_bounds s1).
  { split; [exact Hst|]. unfold in_bounds, s1, nbus.
    cbn [set_graph In_Config HasChild HasParent AuxInUse busCount Bus_Config_Status].
    repeat (split; [assumption|]). exact I5. }
  apply (for_each_keeps (fun s => Bus_Config_Status s = true /\ in_bounds s)
           (insert_edge s_out)) in H; [exact H | | exact B1].
  intros x s s' [Hs0 Hb0] Hx. eapply in_bounds_insert_edge; eauto.
Qed.

Lemma in_bounds_insert name slot st e st' :
  Bus_Config_Status st = true ->
  in_bounds st -> insert_bus_slot name slot st = Ok (e, st') -> in_bounds st'.
Proof.
  intros Hst Hb H. unfold insert_bus_slot in H.
  destruct (eff (auxin slot) _) as [ins| |]; cbn [rbind] in H; try discriminate.
  destruct (eff (auxout slot) _) as [outs| |]; cbn [rbind] in H; try discriminate.
  destruct (for_each outs (insert_out ins) st) as [s1| |] eqn:E; cbn [rbind] in H;
    try discriminate.
  injection H as _ <-.
  apply (for_each_keeps (fun s => Bus_Config_Status s = true /\ in_bounds s)
           (insert_out ins)) in E; [exact (proj2 E) | | auto].
  intros x s s' Hs0 Hx. eapply in_bounds_insert_out; eauto.
Qed.

Lemma in_bounds_queue q st : in_bounds st -> in_bounds (set_queue q st).
Proof. intros M. exact M. Qed.

Lemma in_bounds_initial n chans : in_bounds (initial n chans).
Proof.
  unfold in_bounds, initial, nbus.
  cbn [In_Config HasChild HasParent AuxInUse busCount Bus_Config_Status].
  rewrite !repeat_length. repeat (split; [reflexivity|]). discriminate.
Qed.

(** Whatever the score, the bus-wrapping reset keeps every node's bus_count
    an index into its bus_list, so that once the graph is allocated an edge
    between two buses below busCount is stored without a write outside an
    array. *)
Theorem insert_edge_stays_inside_the_arrays
  (n chans : Z) (calls : list (String.string * list String.string)) (st : state)
  (s_out s_in : Z) :
  run calls (initial n chans) = Ok st ->
  Bus_Config_Status st = true ->
  0 <= s_out < busCount st -> 0 <= s_in < busCount st ->
  (forall k node, zget (In_Config st) k = Ok node ->
     0 <= bus_count node < busCount st /\ length (bus_list node) = nbus st) /\
  exists st', insert_edge s_out s_in st = Ok st'.
Proof.
  intros H Hst Ho Hi.
  pose proof (run_invariant in_bounds in_bounds_graph_eq in_bounds_allocate in_bounds_insert
                in_bounds_queue calls _ _ (in_bounds_initial n chans) H)
    as (I1 & I2 & I3 & I4 & I5).
  specialize (I5 Hst). split; [exact I5|].
  assert (Hget : forall {A} (l : list A), length l = nbus st ->
            forall k, 0 <= k < busCount st -> exists x, zget l k = Ok x).
  { intros A l Hl k Hk. unfold zget. destruct (k <? 0) eqn:E; [lia|].
    destruct (nth_error l (Z.to_nat k)) as [x|] eqn:Ex; [eauto|].
    apply nth_error_None in Ex. unfold nbus in Hl. lia. }
  assert (Hset : forall {A} (l : list A) v, length l = nbus st ->
            forall k, 0 <= k < busCount st -> exists l', zset l k v = Ok l').
  { intros A l v Hl k Hk. unfold zset. unfold nbus in Hl.
    destruct ((k <? 0) || (Z.of_nat (length l) <=? k)) eqn:E; [|eauto].
    apply orb_true_iff in E. destruct E as [E|E]; [apply Z.ltb_lt in E | apply Z.leb_le in E]; lia. }
  unfold insert_edge.
  destruct (Hget _ _ I3 _ Ho) as [hp ->]. cbn [rbind].
  assert (Hhp : exists hp', (if negb hp && negb (s_in =? 333)
                             then zset (HasParent st) s_out true
                             else Ok (HasParent st)) = Ok hp').
  { destruct (negb hp && negb (s_in =? 333)); [apply Hset; auto | eauto]. }
  destruct Hhp as [hp' ->]. cbn [rbind set_graph In_Config busCount HasChild AuxInUse HasParent].
  destruct (Hget _ _ I1 _ Ho) as [node En]. rewrite En. cbn [rbind].
  destruct (negb (s_in =? 333)); [|eauto].
  destruct (I5 _ _ En) as [Hc Hl].
  destruct (Hset _ (bus_list node) s_in Hl _ Hc) as [bl ->]. cbn [rbind].
  destruct (Hset _ (In_Config st)
              (mkCheckNode bl (if bus_count node + 1 >=? busCount st then 0
                               else bus_count node + 1)) I1 _ Ho) as [ic ->].
  cbn [rbind].
  destruct (Hset _ (HasChild st) true I2 _ Hi) as [hc ->]. cbn [rbind].
  destruct (Hset _ (AuxInUse st) true I4 _ Hi) as [au ->]. cbn [rbind]. eauto.
Qed.

Lemma insert_edge_stays_inside_the_arrays_witness :
  (forall k node, zget (In_Config diamond) k = Ok node ->
     0 <= bus_count node < busCount diamond /\ length (bus_list node) = nbus diamond) /\
  exists st', insert_edge 4 2 diamond = Ok st'.
Proof.
  assert (B : busCount diamond = 8) by (vm_compute; reflexivity).
  apply (insert_edge_stays_inside_the_arrays 8 2 diamond_score diamond 4 2);
    [vm_compute; reflexivity | vm_compute; reflexivity | lia | lia].
Defined.


(** *** The queue of instruments *)

Lemma find_enqueue_same name slot q :
  find_bus_config name (enqueue_slot name slot q)
  = Some (slot :: match find_bus_config name q with Some c => tl c | None => [] end).
Proof.
  induction q as [|[n chain] rest IH]; simpl.
  - rewrite String.eqb_refl. reflexivity.
  - rewrite (String.eqb_sym name n). destruct (String.eqb n name) eqn:E; simpl.
    + rewrite (String.eqb_sym name n), E. reflexivity.
    + rewrite (String.eqb_sym name n), E. exact IH.
Qed.

Lemma find_enqueue_other other name slot q :
  other <> name ->
  find_bus_config other (enqueue_slot name slot q) = find_bus_config other q.
Proof.
  intros Hne. induction q as [|[n chain] rest IH]; simpl.
  - apply String.eqb_neq in Hne. rewrite Hne. reflexivity.
  - destruct (String.eqb n name) eqn:E; simpl.
    + apply String.eqb_eq in E. subst n. apply String.eqb_neq in Hne. rewrite Hne.
      reflexivity.
    + destruct (String.eqb other n); [reflexivity | exact IH].
Qed.

Lemma find_update_same name f q :
  find_bus_config name (update_head name f q)
  = match find_bus_config name q with
    | Some (s :: t) => Some (f s :: t)
    | Some [] => Some []
    | None => None
    end.
Proof.
  induction q as [|[n chain] rest IH]; simpl; [reflexivity|].
  rewrite (String.eqb_sym name n). destruct (String.eqb n name) eqn:E; simpl;
    rewrite (String.eqb_sym name n), E; [destruct chain; reflexivity | exact IH].
Qed.

Lemma find_update_other other name f q :
  other <> name ->
  find_bus_config other (update_head name f q) = find_bus_config other q.
Proof.
  intros Hne. induction q as [|[n chain] rest IH]; simpl; [reflexivity|].
  destruct (String.eqb n name) eqn:E; simpl.
  - apply String.eqb_eq in E. subst n. apply String.eqb_neq in Hne. rewrite Hne. reflexivity.
  - destruct (String.eqb other n); [reflexivity | exact IH].
Qed.

Lemma insert_edge_queue s_out s_in st st' :
  insert_edge s_out s_in st = Ok st' -> Inst_Bus_Config st' = Inst_Bus_Config st.
Proof. intros H. destruct (insert_edge_inv _ _ _ _ H); reflexivity. Qed.

Lemma insert_out_queue ins s_out st st' :
  insert_out ins s_out st = Ok st' -> Inst_Bus_Config st' = Inst_Bus_Config st.
Proof.
  unfold insert_out. intros H.
  destruct (zget (AuxInUse st) s_out) as [au0| |]; cbn [rbind] in H; try discriminate.
  destruct (if negb au0 then _ else _) as [au| |]; cbn [rbind] in H; try discriminate.
  apply (for_each_inv (fun a b => Inst_Bus_Config b = Inst_Bus_Config a)
           (insert_edge s_out)) in H; [exact H | reflexivity | congruence |].
  intros x s s'. apply insert_edge_queue.
Qed.

(** After a call of bus_config that returns, get_bus_config finds for the
    instrument's name the slot that the call has parsed, with the chain
    counts added, in the place of the slot it found before; what it finds
    for any other name is what it found before the call. *)
Theorem get_bus_config_finds_the_last_slot
  (name : String.string) (busnames : list String.string) (st st' : state) :
  bus_config name busnames st = Ok (Return0, st') ->
  exists x,
    parse_loop busnames (mkLocals st (new_BusSlot (busCount st)) 0 0) = Ok (None, x) /\
    find_bus_config name (Inst_Bus_Config st')
    = Some (add_chain_counts (chain_incount x) (chain_outcount x) (bus_slot x)
            :: match find_bus_config name (Inst_Bus_Config st) with
               | Some c => tl c
               | None => []
               end) /\
    forall other, other <> name ->
      find_bus_config other (Inst_Bus_Config st')
      = find_bus_config other (Inst_Bus_Config st).
Proof.
  intros H. unfold bus_config in H.
  destruct (length busnames <? 1)%nat; [discriminate|].
  destruct (negb (rtsetparams_called st)); [discriminate|].
  destruct (parse_loop busnames _) as [[[c|] x]| |] eqn:Ep; cbn [rbind] in H; try discriminate.
  exists x. split; [reflexivity|].
  apply parse_loop_graph in Ep. cbn [l_state] in Ep.
  destruct Ep as (_ & _ & _ & _ & _ & _ & Q0 & _).
  destruct (check_bus_inst_config (bus_slot x) true (l_state x)) as [[ce st1]| |] eqn:Ec;
    cbn [rbind] in H; try discriminate.
  pose proof (check_config_graph _ _ _ _ _ Ec) as (_ & G2 & _ & _ & _ & _ & Q1 & _).
  destruct (allocate_graph_frame (l_state x)) as (_ & _ & _ & _ & _ & QA & SA).
  destruct ce; try discriminate.
  destruct (insert_bus_slot name (bus_slot x) st1) as [[ie st2]| |] eqn:Ei;
    cbn [rbind] in H; try discriminate.
  rewrite (insert_bus_slot_no_error _ _ _ _ _ Ei) in H.
  assert (S2 : Bus_Config_Status st2 = true).
  { destruct (check_config_effs _ _ _ _ Ec) as (ins & outs & Hins & Houts).
    destruct (insert_bus_slot_grows _ _ _ _ _ _ _ Ei Hins Houts) as [_ (_ & B2 & _)].
    congruence. }
  assert (Q2 : Inst_Bus_Config st2 = enqueue_slot name (bus_slot x) (Inst_Bus_Config st)).
  { unfold insert_bus_slot in Ei.
    destruct (eff (auxin (bus_slot x)) _) as [ins| |]; cbn [rbind] in Ei; try discriminate.
    destruct (eff (auxout (bus_slot x)) _) as [outs| |]; cbn [rbind] in Ei; try discriminate.
    destruct (for_each outs (insert_out ins) st1) as [s1| |] eqn:E; cbn [rbind] in Ei;
      try discriminate.
    injection Ei as _ <-. cbn [set_queue Inst_Bus_Config].
    apply (for_each_inv (fun a b => Inst_Bus_Config b = Inst_Bus_Config a)
             (insert_out ins)) in E;
      [congruence | reflexivity | congruence | intros y s s'; apply insert_out_queue]. }
  destruct (create_play_order _) as [st4| |] eqn:Ecp; cbn [rbind] in H; try discriminate.
  injection H as <-.
  apply create_play_order_graph in Ecp; [|exact S2].
  destruct Ecp as (_ & _ & _ & _ & _ & _ & Q4 & _).
  rewrite Q4. cbn [set_queue Inst_Bus_Config]. rewrite Q2. split.
  - rewrite find_update_same, find_enqueue_same. reflexivity.
  - intros other Hne. rewrite find_update_other, find_enqueue_other; auto.
Qed.


(** *** The play list of the aux buses *)

Lemma firstn_upd_above {A} (l : list A) n m v :
  (n <= m)%nat -> firstn n (upd l m v) = firstn n l.
Proof.
  revert n m. induction l as [|x l IH]; intros [|n] [|m] H; simpl; auto; try lia.
  f_equal. apply IH. lia.
Qed.

Lemma firstn_upd_snoc {A} (l : list A) n v :
  (n < length l)%nat -> firstn (S n) (upd l n v) = firstn n l ++ [v].
Proof.
  revert n. induction l as [|x l IH]; intros [|n] H; simpl in *; try lia; auto.
  f_equal. apply IH. lia.
Qed.

Lemma zset_upd {A} (l l' : list A) i v :
  zset l i v = Ok l' -> 0 <= i < Z.of_nat (length l) /\ l' = upd l (Z.to_nat i) v.
Proof.
  unfold zset. destruct ((i <? 0) || (Z.of_nat (length l) <=? i)) eqn:E; [discriminate|].
  intros H. injection H as <-. apply orb_false_iff in E. destruct E as [E1 E2].
  apply Z.ltb_ge in E1. apply Z.leb_gt in E2. split; [lia | reflexivity].
Qed.

Lemma reset_body_play visit i st o a st' o' a' :
  reset_body visit i (st, o, a) = Ok (st', o', a') ->
  AuxToAuxPlayList st' = AuxToAuxPlayList st.
Proof.
  unfold reset_body. intros H.
  destruct (if visit then zset (Visited st) i false else Ok (Visited st)) as [vis| |];
    cbn [rbind] in H; try discriminate.
  destruct (zset (RevPlay st) i (-1)) as [rp| |]; cbn [rbind] in H; try discriminate.
  assert (V1 : AuxToAuxPlayList (set_scan rp vis st) = AuxToAuxPlayList st) by reflexivity.
  remember (set_scan rp vis st) as s1.
  destruct (zget (OutInUse s1) i) as [ou| |]; cbn [rbind] in H; try discriminate.
  assert (G2 : forall x1, (if ou then l <- zset (ToOutPlayList s1) o i;;
                  Ok (set_play l (ToAuxPlayList s1) (AuxToAuxPlayList s1) s1, o + 1)
                else Ok (s1, o)) = Ok x1 -> AuxToAuxPlayList (fst x1) = AuxToAuxPlayList st).
  { intros x1 Hx. destruct ou.
    - destruct (zset (ToOutPlayList s1) o i); cbn [rbind] in Hx; try discriminate.
      injection Hx as <-. exact V1.
    - injection Hx as <-. exact V1. }
  destruct (if ou then _ else _) as [[s2 o2]| |]; cbn [rbind] in H; try discriminate.
  specialize (G2 _ eq_refl). cbn in G2.
  destruct (zget (AuxOutInUse s2) i) as [ao| |]; cbn [rbind] in H; try discriminate.
  destruct ao.
  - destruct (zset (ToAuxPlayList s2) a i); cbn [rbind] in H; try discriminate.
    injection H as <- _ _. exact G2.
  - injection H as <- _ _. exact G2.
Qed.

Lemma check_bus_play outs t c r c' :
  check_bus outs t c = Ok (r, c') ->
  AuxToAuxPlayList (sc_state c') = AuxToAuxPlayList (sc_state c).
Proof. intros H. apply check_bus_inv in H. inversion H; subst; reflexivity. Qed.

Lemma check_node_play outs l : forall c r c',
  check_node outs l c = Ok (r, c') ->
  AuxToAuxPlayList (sc_state c') = AuxToAuxPlayList (sc_state c).
Proof.
  induction l as [|t rest IH]; intros c r c' H; simpl in H.
  - injection H as _ <-. reflexivity.
  - destruct (check_bus outs t c) as [[[e|] c1]| |] eqn:E; cbn [rbind] in H; try discriminate.
    + injection H as _ <-. eapply check_bus_play; eauto.
    + apply check_bus_play in E. apply IH in H. congruence.
Qed.

Lemma check_queue_play outs fuel : forall queue c e c',
  check_queue fuel outs queue c = Ok (e, c') ->
  AuxToAuxPlayList (sc_state c') = AuxToAuxPlayList (sc_state c).
Proof.
  induction fuel as [|fuel IH]; intros queue c e c' H.
  - destruct queue; simpl in H; [|discriminate]. injection H as _ <-. reflexivity.
  - destruct queue as [|l rest]; simpl in H.
    + injection H as _ <-. reflexivity.
    + destruct (check_node outs l _) as [[[e1|] c1]| |] eqn:E; cbn [rbind] in H;
        try discriminate.
      * injection H as _ <-. apply check_node_play in E. exact E.
      * apply check_node_play in E. cbn [sc_state] in E. apply IH in H. congruence.
Qed.

Lemma check_config_play slot visit st e st' :
  check_bus_inst_config slot visit st = Ok (e, st') ->
  AuxToAuxPlayList st' = AuxToAuxPlayList (allocate_graph st).
Proof.
  unfold check_bus_inst_config. intros H.
  destruct (for_upto _ _ _) as [[[s1 o1] a1]| |] eqn:E1; cbn [rbind] in H; try discriminate.
  apply (for_upto_inv (fun (a b : state * Z * Z) =>
           AuxToAuxPlayList (fst (fst b)) = AuxToAuxPlayList (fst (fst a)))
           (reset_body visit)) in E1;
    [ | reflexivity | congruence
      | intros i [[s o] a] [[s' o'] a'] Hb; eapply reset_body_play; eauto ].
  cbn [fst] in E1.
  destruct (eff (auxin slot) _) as [ins| |]; cbn [rbind] in H; try discriminate.
  destruct (eff (auxout slot) _) as [outs| |]; cbn [rbind] in H; try discriminate.
  destruct (check_queue _ _ _ _) as [[e1 c1]| |] eqn:E2; cbn [rbind] in H; try discriminate.
  injection H as _ <-. apply check_queue_play in E2. cbn [sc_state snd] in *. congruence.
Qed.

Lemma bf_traverse_play bus visit st st' :
  Bus_Config_Status st = true -> bf_traverse bus visit st = Ok st' ->
  AuxToAuxPlayList st' = AuxToAuxPlayList st.
Proof.
  unfold bf_traverse. intros Hs H.
  destruct (zset _ 0 bus); cbn [rbind] in H; try discriminate.
  destruct (zset _ 0 333); cbn [rbind] in H; try discriminate.
  destruct (check_bus_inst_config _ visit st) as [[e s1]| |] eqn:E; cbn [rbind] in H;
    try discriminate.
  injection H as <-. apply check_config_play in E.
  rewrite (allocate_graph_same _ Hs) in E. exact E.
Qed.

Lemma rev_loop_settled r n : forall x y, rev_loop n x = Ok y -> settled r x y.
Proof.
  induction n as [|n IH]; intros [st cnt] y H; simpl in H.
  - injection H as <-. intros Hc. auto.
  - destruct (zget (RevPlay st) (Z.of_nat n)) as [rp| |]; cbn [rbind] in H; try discriminate.
    destruct (negb (rp =? -1)).
    + destruct (zset _ cnt rp) as [l| |] eqn:El; cbn [rbind] in H; try discriminate.
      apply IH in H. intros Hc. cbn [fst snd] in *.
      destruct (zset_upd _ _ _ _ El) as [Hr ->].
      destruct H as [H1 H2]; [cbn [snd]; lia|]. split; [exact H1|].
      rewrite H2. cbn [fst set_play AuxToAuxPlayList]. apply firstn_upd_above. lia.
    + cbn [rbind] in H. apply IH in H. exact H.
Qed.

Lemma leaves_body_settled r i st cnt visit st' cnt' visit' :
  Bus_Config_Status st = true ->
  leaves_body i (st, cnt, visit) = Ok (st', cnt', visit') ->
  settled r (st, cnt) (st', cnt').
Proof.
  unfold leaves_body. intros Hs H.
  destruct (zget (AuxInUse st) i) as [au| |]; cbn [rbind] in H; try discriminate.
  destruct (zget (HasChild st) i) as [hc| |]; cbn [rbind] in H; try discriminate.
  destruct (au && negb hc).
  - destruct (bf_traverse i visit st) as [s1| |] eqn:E1; cbn [rbind] in H; try discriminate.
    destruct (rev_loop (nbus s1) (s1, cnt)) as [[s2 c2]| |] eqn:E2; cbn [rbind] in H;
      try discriminate.
    injection H as <- <- _. cbn [fst snd].
    apply bf_traverse_play in E1; [|exact Hs]. apply (rev_loop_settled r) in E2.
    intros Hc. destruct (E2 Hc) as [H1 H2]. cbn [fst snd] in *. split; [exact H1|].
    congruence.
  - injection H as <- <- _. intros Hc. auto.
Qed.

Lemma is_root_graph_eq a b i : graph_eq a b -> is_root b i = is_root a i.
Proof. intros (_ & _ & _ & _ & B5 & B6 & _). unfold is_root. rewrite B5, B6. reflexivity. Qed.

Lemma roots_loop n : forall st s1 c1,
  for_upto n roots_body (st, 0) = Ok (s1, c1) ->
  graph_eq st s1 /\
  c1 = Z.of_nat (length (roots st n)) /\
  firstn (length (roots st n)) (AuxToAuxPlayList s1) = roots st n.
Proof.
  induction n as [|n IH]; intros st s1 c1 H; simpl in H.
  - injection H as <- <-. split; [apply graph_eq_refl|]. split; reflexivity.
  - destruct (for_upto n roots_body (st, 0)) as [[s0 c0]| |] eqn:E; cbn [rbind] in H;
      try discriminate.
    destruct (IH _ _ _ E) as (G0 & Hc & Hf).
    pose proof (is_root_graph_eq _ _ n G0) as Hroot.
    assert (Hseq : roots st (S n) = roots st n ++ (if is_root st n then [Z.of_nat n] else [])).
    { unfold roots. rewrite seq_S, filter_app, map_app. cbn [filter Nat.add].
      destruct (is_root st n); reflexivity. }
    unfold roots_body in H. rewrite <- Hroot in Hseq. unfold is_root in Hseq. clear Hroot.
    destruct (zget (AuxInUse s0) (Z.of_nat n)) as [au| |]; cbn [rbind] in H; try discriminate.
    destruct (zget (HasParent s0) (Z.of_nat n)) as [hp| |]; cbn [rbind] in H;
      try discriminate.
    destruct au, hp; cbn [andb negb] in H.
    + injection H as <- <-. rewrite Hseq, app_nil_r. auto.
    + destruct (zset _ c0 (Z.of_nat n)) as [l| |] eqn:El; cbn [rbind] in H; try discriminate.
      injection H as <- <-. rewrite Hseq.
      destruct (zset_upd _ _ _ _ El) as [Hr ->].
      split; [eapply graph_eq_trans; [exact G0 | apply graph_eq_set_play]|].
      rewrite length_app. cbn [length set_play AuxToAuxPlayList].
      split; [lia|]. subst c0. rewrite Nat2Z.id in *.
      rewrite Nat.add_1_r, firstn_upd_snoc by lia. rewrite Hf. reflexivity.
    + injection H as <- <-. rewrite Hseq, app_nil_r. auto.
    + injection H as <- <-. rewrite Hseq, app_nil_r. auto.
Qed.

(** When create_play_order returns, AuxToAuxPlayList starts with the buses
    that are in use as aux buses and have no parent, in increasing order;
    the buses that the traversals find come after them. *)
Theorem play_list_starts_with_the_roots (st st' : state) :
  Bus_Config_Status st = true ->
  create_play_order st = Ok st' ->
  firstn (length (roots st (nbus st))) (AuxToAuxPlayList st') = roots st (nbus st).
Proof.
  unfold create_play_order. intros Hs H.
  destruct (for_upto (nbus st) roots_body (st, 0)) as [[s1 c1]| |] eqn:E1; cbn [rbind] in H;
    try discriminate.
  destruct (for_upto (nbus st) leaves_body _) as [[[s2 c2] v2]| |] eqn:E2; cbn [rbind] in H;
    try discriminate.
  injection H as <-. cbn [fst snd] in *.
  destruct (roots_loop _ _ _ _ E1) as (G1 & Hc & Hf).
  assert (Hs1 : Bus_Config_Status s1 = true).
  { destruct G1 as (_ & B2 & _). congruence. }
  set (r := length (roots st (nbus st))) in *.
  assert (Hinv : Bus_Config_Status s1 = true ->
                 Bus_Config_Status s2 = true /\ settled r (s1, c1) (s2, c2)).
  { apply (for_upto_inv (fun (a b : state * Z * bool) =>
             Bus_Config_Status (fst (fst a)) = true ->
             Bus_Config_Status (fst (fst b)) = true /\
             settled r (fst a) (fst b)) leaves_body) with (n := nbus st) (s := (s1, c1, true))
            (s' := (s2, c2, v2)); [ | | | exact E2].
    - intros s Ha. split; [exact Ha|]. intros Hc0. auto.
    - intros a b c Hab Hbc Ha. destruct (Hab Ha) as [Hb Sab]. destruct (Hbc Hb) as [Hcc Sbc].
      split; [exact Hcc|]. intros Hc0. destruct (Sab Hc0) as [H1 H2].
      destruct (Sbc H1) as [H3 H4]. split; [exact H3 | congruence].
    - intros i [[a ca] va] [[b cb] vb] Hb Ha. cbn [fst] in *. split.
      + apply leaves_body_graph in Hb; [|exact Ha]. destruct Hb as (_ & B2 & _). congruence.
      + eapply leaves_body_settled; eauto. }
  destruct (Hinv Hs1) as [_ Hset].
  destruct Hset as [_ Hset]; [cbn [snd]; lia|]. cbn [fst] in Hset. congruence.
Qed.

Lemma play_list_starts_with_the_roots_witness :
  roots diamond (nbus diamond) = [0] /\
  firstn (length (roots diamond (nbus diamond))) (AuxToAuxPlayList replayed)
  = roots diamond (nbus diamond).
Proof.
  split; [vm_compute; reflexivity|].
  apply (play_list_starts_with_the_roots diamond replayed); vm_compute; reflexivity.
Defined.

(** *** The play lists of the output buses *)

Lemma same_outputs_refl a : same_outputs a a.
Proof. unfold same_outputs. auto. Qed.

Lemma same_outputs_trans a b c : same_outputs a b -> same_outputs b c -> same_outputs a c.
Proof.
  intros (A1 & A2 & A3 & A4 & A5) (B1 & B2 & B3 & B4 & B5).
  unfold same_outputs. repeat split; congruence.
Qed.

Lemma listed_same a b : same_outputs a b -> listed a -> listed b.
Proof.
  intros (A1 & A2 & A3 & A4 & A5) [L1 L2]. unfold listed, nbus. rewrite A1, A2, A3, A4, A5.
  split; assumption.
Qed.

Lemma in_use_S flags n :
  in_use flags (S n) = in_use flags n ++ (if flag_set flags n then [Z.of_nat n] else []).
Proof.
  unfold in_use. rewrite seq_S, filter_app, map_app. cbn [filter Nat.add].
  destruct (flag_set flags n); reflexivity.
Qed.

(** One turn of a loop that puts the buses in use on a list. *)
Lemma collect_step flags n l l' c c' fl :
  c = Z.of_nat (length (in_use flags n)) -> lists flags n l ->
  zget flags (Z.of_nat n) = Ok fl ->
  (if fl : bool then zset l c (Z.of_nat n) = Ok l' /\ c' = c + 1 else l' = l /\ c' = c) ->
  c' = Z.of_nat (length (in_use flags (S n))) /\ lists flags (S n) l'.
Proof.
  intros Hc Hl Hf Hstep. unfold lists in *. rewrite in_use_S. unfold flag_set. rewrite Hf.
  destruct fl.
  - destruct Hstep as [Hset ->]. destruct (zset_upd _ _ _ _ Hset) as [Hr ->].
    rewrite length_app. cbn [length]. split; [lia|]. subst c. rewrite Nat2Z.id in *.
    rewrite Nat.add_1_r, firstn_upd_snoc by lia. rewrite Hl. reflexivity.
  - destruct Hstep as [-> ->]. rewrite app_nil_r. auto.
Qed.

Lemma reset_body_lists visit i st o a st' o' a' :
  reset_body visit i (st, o, a) = Ok (st', o', a') ->
  busCount st' = busCount st /\
  OutInUse st' = OutInUse st /\ AuxOutInUse st' = AuxOutInUse st /\
  exists ou ao,
    zget (OutInUse st) i = Ok ou /\ zget (AuxOutInUse st) i = Ok ao /\
    (if ou : bool then zset (ToOutPlayList st) o i = Ok (ToOutPlayList st') /\ o' = o + 1
     else ToOutPlayList st' = ToOutPlayList st /\ o' = o) /\
    (if ao : bool then zset (ToAuxPlayList st) a i = Ok (ToAuxPlayList st') /\ a' = a + 1
     else ToAuxPlayList st' = ToAuxPlayList st /\ a' = a).
Proof.
  unfold reset_body. intros H.
  destruct (if visit then zset (Visited st) i false else Ok (Visited st)) as [vis| |];
    cbn [rbind] in H; try discriminate.
  destruct (zset (RevPlay st) i (-1)) as [rp| |]; cbn [rbind] in H; try discriminate.
  change (OutInUse (set_scan rp vis st)) with (OutInUse st) in H.
  change (ToOutPlayList (set_scan rp vis st)) with (ToOutPlayList st) in H.
  change (ToAuxPlayList (set_scan rp vis st)) with (ToAuxPlayList st) in H.
  change (AuxToAuxPlayList (set_scan rp vis st)) with (AuxToAuxPlayList st) in H.
  destruct (zget (OutInUse st) i) as [ou| |] eqn:Eou; cbn [rbind] in H; try discriminate.
  destruct ou.
  - destruct (zset (ToOutPlayList st) o i) as [l| |] eqn:El; cbn [rbind] in H;
      try discriminate.
    cbn [set_play set_scan AuxOutInUse ToAuxPlayList ToOutPlayList AuxToAuxPlayList] in H.
    destruct (zget (AuxOutInUse st) i) as [ao| |] eqn:Eao; cbn [rbind] in H;
      try discriminate.
    destruct ao.
    + destruct (zset (ToAuxPlayList st) a i) as [l2| |] eqn:El2; cbn [rbind] in H;
        try discriminate.
      injection H as <- <- <-. repeat (split; [reflexivity|]).
      exists true, true. cbn. auto.
    + injection H as <- <- <-. repeat (split; [reflexivity|]).
      exists true, false. cbn. auto.
  - cbn [rbind set_play set_scan AuxOutInUse ToAuxPlayList ToOutPlayList AuxToAuxPlayList] in H.
    destruct (zget (AuxOutInUse st) i) as [ao| |] eqn:Eao; cbn [rbind] in H;
      try discriminate.
    destruct ao.
    + destruct (zset (ToAuxPlayList st) a i) as [l2| |] eqn:El2; cbn [rbind] in H;
        try discriminate.
      injection H as <- <- <-. repeat (split; [reflexivity|]).
      exists false, true. cbn. auto.
    + injection H as <- <- <-. repeat (split; [reflexivity|]).
      exists false, false. cbn. auto.
Qed.

Lemma reset_loop_lists visit n : forall st s1 o a,
  for_upto n (reset_body visit) (st, 0, 0) = Ok (s1, o, a) ->
  busCount s1 = busCount st /\
  OutInUse s1 = OutInUse st /\ AuxOutInUse s1 = AuxOutInUse st /\
  o = Z.of_nat (length (in_use (OutInUse st) n)) /\
  a = Z.of_nat (length (in_use (AuxOutInUse st) n)) /\
  lists (OutInUse st) n (ToOutPlayList s1) /\
  lists (AuxOutInUse st) n (ToAuxPlayList s1).
Proof.
  induction n as [|n IH]; intros st s1 o a H; simpl in H.
  - injection H as <- <- <-. unfold lists. cbn. auto 10.
  - destruct (for_upto n (reset_body visit) (st, 0, 0)) as [[[s0 o0] a0]| |] eqn:E;
      cbn [rbind] in H; try discriminate.
    destruct (IH _ _ _ _ E) as (B0 & F1 & F2 & Ho & Ha & L1 & L2).
    destruct (reset_body_lists _ _ _ _ _ _ _ _ H)
      as (B1 & G1 & G2 & ou & ao & Eou & Eao & S1 & S2).
    rewrite F1 in Eou. rewrite F2 in Eao.
    destruct (collect_step _ _ _ _ _ _ _ Ho L1 Eou S1) as [Ho' L1'].
    destruct (collect_step _ _ _ _ _ _ _ Ha L2 Eao S2) as [Ha' L2'].
    repeat split; try congruence; assumption.
Qed.

Lemma check_bus_outputs outs t c r c' :
  check_bus outs t c = Ok (r, c') -> same_outputs (sc_state c) (sc_state c').
Proof.
  intros H. apply check_bus_inv in H.
  inversion H; subst; unfold same_outputs; cbn; auto.
Qed.

Lemma check_node_outputs outs l : forall c r c',
  check_node outs l c = Ok (r, c') -> same_outputs (sc_state c) (sc_state c').
Proof.
  induction l as [|t rest IH]; intros c r c' H; simpl in H.
  - injection H as _ <-. apply same_outputs_refl.
  - destruct (check_bus outs t c) as [[[e|] c1]| |] eqn:E; cbn [rbind] in H; try discriminate.
    + injection H as _ <-. eapply check_bus_outputs; eauto.
    + eapply same_outputs_trans; [eapply check_bus_outputs; eauto | eapply IH; eauto].
Qed.

Lemma check_queue_outputs outs fuel : forall queue c e c',
  check_queue fuel outs queue c = Ok (e, c') -> same_outputs (sc_state c) (sc_state c').
Proof.
  induction fuel as [|fuel IH]; intros queue c e c' H.
  - destruct queue; simpl in H; [|discriminate]. injection H as _ <-. apply same_outputs_refl.
  - destruct queue as [|l rest]; simpl in H.
    + injection H as _ <-. apply same_outputs_refl.
    + destruct (check_node outs l _) as [[[e1|] c1]| |] eqn:E; cbn [rbind] in H;
        try discriminate.
      * injection H as _ <-. apply check_node_outputs in E. exact E.
      * apply check_node_outputs in E. cbn [sc_state] in E.
        eapply same_outputs_trans; [exact E | eapply IH; eauto].
Qed.

Lemma allocate_outputs st : same_outputs st (allocate_graph st).
Proof.
  unfold allocate_graph. destruct (Bus_Config_Status st); unfold same_outputs; cbn; auto.
Qed.

Lemma check_config_listed slot visit st e st' :
  check_bus_inst_config slot visit st = Ok (e, st') -> listed st'.
Proof.
  unfold check_bus_inst_config. intros H.
  destruct (for_upto _ _ _) as [[[s1 o1] a1]| |] eqn:E1; cbn [rbind] in H; try discriminate.
  apply reset_loop_lists in E1. destruct E1 as (B1 & F1 & F2 & _ & _ & L1 & L2).
  destruct (eff (auxin slot) _) as [ins| |]; cbn [rbind] in H; try discriminate.
  destruct (eff (auxout slot) _) as [outs| |]; cbn [rbind] in H; try discriminate.
  destruct (check_queue _ _ _ _) as [[e1 c1]| |] eqn:E2; cbn [rbind] in H; try discriminate.
  injection H as _ <-. apply check_queue_outputs in E2. cbn [sc_state snd] in *.
  eapply listed_same; [exact E2|]. unfold listed, nbus. rewrite B1, F1, F2.
  destruct (allocate_outputs st) as (A1 & _). unfold nbus in *. split; assumption.
Qed.

Lemma insert_edge_outputs s_out s_in st st' :
  insert_edge s_out s_in st = Ok st' -> same_outputs st st'.
Proof. intros H. destruct (insert_edge_inv _ _ _ _ H); unfold same_outputs; cbn; auto. Qed.

Lemma insert_out_outputs ins s_out st st' :
  insert_out ins s_out st = Ok st' -> same_outputs st st'.
Proof.
  unfold insert_out. intros H.
  destruct (zget (AuxInUse st) s_out) as [au0| |]; cbn [rbind] in H; try discriminate.
  destruct (if negb au0 then _ else _) as [au| |]; cbn [rbind] in H; try discriminate.
  apply (for_each_inv same_outputs (insert_edge s_out)) in H;
    [ | apply same_outputs_refl | apply same_outputs_trans
      | intros x s s'; apply insert_edge_outputs ].
  eapply same_outputs_trans; [|exact H]. unfold same_outputs; cbn; auto.
Qed.

Lemma insert_bus_slot_outputs name slot st e st' :
  insert_bus_slot name slot st = Ok (e, st') -> same_outputs st st'.
Proof.
  unfold insert_bus_slot. intros H.
  destruct (eff (auxin slot) _) as [ins| |]; cbn [rbind] in H; try discriminate.
  destruct (eff (auxout slot) _) as [outs| |]; cbn [rbind] in H; try discriminate.
  destruct (for_each outs (insert_out ins) st) as [s1| |] eqn:E; cbn [rbind] in H;
    try discriminate.
  injection H as _ <-.
  apply (for_each_inv same_outputs (insert_out ins)) in E;
    [ | apply same_outputs_refl | apply same_outputs_trans
      | intros x s s'; apply insert_out_outputs ].
  eapply same_outputs_trans; [exact E|]. unfold same_outputs; cbn; auto.
Qed.

Lemma roots_body_outputs i st cnt st' cnt' :
  roots_body i (st, cnt) = Ok (st', cnt') -> same_outputs st st'.
Proof.
  unfold roots_body. intros H.
  destruct (zget (AuxInUse st) i) as [au| |]; cbn [rbind] in H; try discriminate.
  destruct (zget (HasParent st) i) as [hp| |]; cbn [rbind] in H; try discriminate.
  destruct (au && negb hp).
  - destruct (zset _ cnt i); cbn [rbind] in H; try discriminate.
    injection H as <- _. unfold same_outputs; cbn; auto.
  - injection H as <- _. apply same_outputs_refl.
Qed.

Lemma rev_loop_outputs n : forall st cnt st' cnt',
  rev_loop n (st, cnt) = Ok (st', cnt') -> same_outputs st st'.
Proof.
  induction n as [|n IH]; intros st cnt st' cnt' H; simpl in H.
  - injection H as <- _. apply same_outputs_refl.
  - destruct (zget (RevPlay st) (Z.of_nat n)) as [rp| |]; cbn [rbind] in H; try discriminate.
    destruct (negb (rp =? -1)).
    + destruct (zset _ cnt rp); cbn [rbind] in H; try discriminate.
      eapply same_outputs_trans; [|eapply IH; exact H]. unfold same_outputs; cbn; auto.
    + cbn [rbind] in H. eapply IH; exact H.
Qed.

Lemma leaves_body_listed i st cnt visit st' cnt' visit' :
  listed st -> leaves_body i (st, cnt, visit) = Ok (st', cnt', visit') -> listed st'.
Proof.
  unfold leaves_body. intros L H.
  destruct (zget (AuxInUse st) i) as [au| |]; cbn [rbind] in H; try discriminate.
  destruct (zget (HasChild st) i) as [hc| |]; cbn [rbind] in H; try discriminate.
  destruct (au && negb hc).
  - destruct (bf_traverse i visit st) as [s1| |] eqn:E1; cbn [rbind] in H; try discriminate.
    destruct (rev_loop (nbus s1) (s1, cnt)) as [[s2 c2]| |] eqn:E2; cbn [rbind] in H;
      try discriminate.
    injection H as <- _ _. cbn [fst].
    apply rev_loop_outputs in E2. eapply listed_same; [exact E2|].
    unfold bf_traverse in E1.
    destruct (zset _ 0 i); cbn [rbind] in E1; try discriminate.
    destruct (zset _ 0 333); cbn [rbind] in E1; try discriminate.
    destruct (check_bus_inst_config _ visit st) as [[e s3]| |] eqn:E; cbn [rbind] in E1;
      try discriminate.
    injection E1 as <-. eapply check_config_listed; eauto.
  - injection H as <- _ _. exact L.
Qed.

Lemma create_play_order_listed st st' :
  listed st -> create_play_order st = Ok st' -> listed st'.
Proof.
  unfold create_play_order. intros L H.
  destruct (for_upto (nbus st) roots_body (st, 0)) as [[s1 c1]| |] eqn:E1; cbn [rbind] in H;
    try discriminate.
  destruct (for_upto (nbus st) leaves_body _) as [[[s2 c2] v2]| |] eqn:E2; cbn [rbind] in H;
    try discriminate.
  injection H as <-. cbn [fst snd] in *.
  assert (L1 : listed s1).
  { eapply listed_same; [|exact L].
    apply (for_upto_inv (fun (a b : state * Z) => same_outputs (fst a) (fst b)) roots_body)
      with (n := nbus st) (s := (st, 0)) (s' := (s1, c1)); [ | | | exact E1].
    - intros s; apply same_outputs_refl.
    - intros a b c; apply same_outputs_trans.
    - intros i [a ca] [b cb] Hb. eapply roots_body_outputs; eauto. }
  apply (for_upto_inv (fun (a b : state * Z * bool) =>
           listed (fst (fst a)) -> listed (fst (fst b))) leaves_body)
    with (n := nbus st) (s := (s1, c1, true)) (s' := (s2, c2, v2)); [ | | | exact E2 | exact L1].
  - auto.
  - auto.
  - intros i [[a ca] va] [[b cb] vb] Hb Ha. eapply leaves_body_listed; eauto.
Qed.

(** After a call of bus_config that returns, ToOutPlayList starts with
    the buses whose OutInUse is set and ToAuxPlayList with the buses whose
    AuxOutInUse is set, each in increasing order. *)
Theorem play_lists_hold_the_output_buses_in_use
  (name : String.string) (busnames : list String.string) (st st' : state) :
  bus_config name busnames st = Ok (Return0, st') ->
  firstn (length (in_use (OutInUse st') (nbus st'))) (ToOutPlayList st')
  = in_use (OutInUse st') (nbus st') /\
  firstn (length (in_use (AuxOutInUse st') (nbus st'))) (ToAuxPlayList st')
  = in_use (AuxOutInUse st') (nbus st').
Proof.
  intros H. unfold bus_config in H.
  destruct (length busnames <? 1)%nat; [discriminate|].
  destruct (negb (rtsetparams_called st)); [discriminate|].
  destruct (parse_loop busnames _) as [[[c|] x]| |] eqn:Ep; cbn [rbind] in H; try discriminate.
  destruct (check_bus_inst_config (bus_slot x) true (l_state x)) as [[ce st1]| |] eqn:Ec;
    cbn [rbind] in H; try discriminate.
  apply check_config_listed in Ec.
  destruct ce; try discriminate.
  destruct (insert_bus_slot name (bus_slot x) st1) as [[ie st2]| |] eqn:Ei;
    cbn [rbind] in H; try discriminate.
  rewrite (insert_bus_slot_no_error _ _ _ _ _ Ei) in H.
  apply insert_bus_slot_outputs in Ei.
  destruct (create_play_order _) as [st4| |] eqn:Ecp; cbn [rbind] in H; try discriminate.
  injection H as <-.
  apply create_play_order_listed in Ecp; [exact Ecp|].
  eapply listed_same; [|exact Ec].
  eapply same_outputs_trans; [exact Ei | unfold same_outputs; cbn; auto].
Qed.

Lemma play_lists_hold_the_output_buses_in_use_witness :
  in_use (OutInUse after_out) (nbus after_out) = [0; 1] /\
  firstn (length (in_use (OutInUse after_out) (nbus after_out))) (ToOutPlayList after_out)
  = in_use (OutInUse after_out) (nbus after_out) /\
  firstn (length (in_use (AuxOutInUse after_out) (nbus after_out))) (ToAuxPlayList after_out)
  = in_use (AuxOutInUse after_out) (nbus after_out).
Proof.
  split; [vm_compute; reflexivity|].
  apply (play_lists_hold_the_output_buses_in_use name_out names_out after_A after_out).
  vm_compute. reflexivity.
Defined.

(** *** The kinds of buses of one call *)

Lemma add_bus_unmixed type a b x x' :
  unmixed (bus_slot x) -> add_bus type a b x = Ok (None, x') -> unmixed (bus_slot x').
Proof.
  intros [U1 U2] H. unfold add_bus in H. unfold unmixed.
  destruct type.
  - destruct (auxin_count (bus_slot x) >? 0) eqn:E1; [discriminate|].
    destruct (chain_incount x >? 0); [discriminate|].
    destruct (b >=? NCHANS (l_state x)); [discriminate|].
    destruct (fill_chans _ _ _ _) as [l| |]; cbn [rbind] in H; try discriminate.
    injection H as <-. cbn [bus_slot in_count auxin_count out_count auxout_count].
    rewrite Z.gtb_ltb in E1. apply Z.ltb_ge in E1. split; [lia | exact U2].
  - destruct (auxout_count (bus_slot x) >? 0) eqn:E1; [discriminate|].
    destruct (chain_outcount x >? 0); [discriminate|].
    destruct (b >=? NCHANS (l_state x)); [discriminate|].
    destruct (fill_chans _ _ _ _) as [l| |]; cbn [rbind] in H; try discriminate.
    destruct (mark_chans _ _ _) as [ou| |]; cbn [rbind] in H; try discriminate.
    injection H as <-. cbn [bus_slot in_count auxin_count out_count auxout_count].
    rewrite Z.gtb_ltb in E1. apply Z.ltb_ge in E1. split; [exact U1 | lia].
  - destruct (in_count (bus_slot x) >? 0) eqn:E1; [discriminate|].
    destruct (chain_incount x >? 0); [discriminate|].
    destruct (fill_chans _ _ _ _) as [l| |]; cbn [rbind] in H; try discriminate.
    injection H as <-. cbn [bus_slot in_count auxin_count out_count auxout_count].
    rewrite Z.gtb_ltb in E1. apply Z.ltb_ge in E1. split; [lia | exact U2].
  - destruct (out_count (bus_slot x) >? 0) eqn:E1; [discriminate|].
    destruct (chain_outcount x >? 0); [discriminate|].
    destruct (fill_chans _ _ _ _) as [l| |]; cbn [rbind] in H; try discriminate.
    destruct (mark_chans _ _ _) as [ao| |]; cbn [rbind] in H; try discriminate.
    injection H as <-. cbn [bus_slot in_count auxin_count out_count auxout_count].
    rewrite Z.gtb_ltb in E1. apply Z.ltb_ge in E1. split; [exact U1 | lia].
  - destruct (_ >? 0); [discriminate|]. injection H as <-. split; assumption.
  - destruct (_ >? 0); [discriminate|]. injection H as <-. split; assumption.
Qed.

Lemma parse_loop_unmixed busnames : forall x x',
  unmixed (bus_slot x) -> parse_loop busnames x = Ok (None, x') -> unmixed (bus_slot x').
Proof.
  induction busnames as [|n rest IH]; intros x x' U H; cbn [parse_loop] in H.
  - injection H as <-. exact U.
  - destruct (parse_bus_name _ _) as [[type a b|e]| |]; cbn [rbind] in H; try discriminate.
    + destruct (add_bus type a b x) as [[[c|] x1]| |] eqn:E; cbn [rbind] in H;
        try discriminate.
      eapply IH; [|exact H]. eapply add_bus_unmixed; eauto.
    + destruct e; discriminate.
Qed.


(** *** The calls of scenario S3 *)

Import Ascii String.
Local Open Scope string_scope.
Local Open Scope list_scope.
Local Open Scope Z_scope.

Lemma get_bus_config_finds_the_last_slot_witness :
  exists x,
    parse_loop names_A (mkLocals (initial 4 2) (new_BusSlot (busCount (initial 4 2))) 0 0)
    = Ok (None, x) /\
    find_bus_config "A"%string (Inst_Bus_Config after_A)
    = Some (add_chain_counts (chain_incount x) (chain_outcount x) (bus_slot x)
            :: match find_bus_config "A"%string (Inst_Bus_Config (initial 4 2)) with
               | Some c => tl c
               | None => []
               end) /\
    forall other, other <> "A"%string ->
      find_bus_config other (Inst_Bus_Config after_A)
      = find_bus_config other (Inst_Bus_Config (initial 4 2)).
Proof.
  apply (get_bus_config_finds_the_last_slot "A"%string names_A (initial 4 2) after_A).
  vm_compute. reflexivity.
Defined.

Lemma failed_call_leaves_the_graph_witness :
  bus_config "C"%string mixed_names after_A = Ok (RTExit PARAM_ERROR, after_mixed) /\
  same_graph after_A after_mixed.
Proof.
  assert (H : bus_config "C"%string mixed_names after_A = Ok (RTExit PARAM_ERROR, after_mixed))
    by (vm_compute; reflexivity).
  split; [exact H|].
  apply (failed_call_leaves_the_graph 4 2 one_edge after_A "C"%string mixed_names PARAM_ERROR);
    [vm_compute; reflexivity | exact H].
Defined.


End BusMoreFacts.

(** ** Mixing into the bus buffers *)

Module MixFacts.
Import Bus Mix.
Local Open Scope list_scope.
Local Open Scope Z_scope.

Section Loops.
Variable F : Type.
Variable add : F -> F -> F.

Lemma for_upto_split {S} (body : Z -> S -> res S) (n m : nat) (s : S) :
  for_upto (n + m) body s
  = (x <- for_upto n body s ;; for_upto m (fun k => body (Z.of_nat n + k)) x).
Proof.
  induction m as [|m IH].
  - rewrite Nat.add_0_r. simpl. destruct (for_upto n body s); reflexivity.
  - rewrite Nat.add_succ_r. simpl. rewrite IH.
    destruct (for_upto n body s) as [x| |]; cbn [rbind]; try reflexivity.
    destruct (for_upto m _ x) as [y| |]; cbn [rbind]; try reflexivity.
    rewrite Nat2Z.inj_add. reflexivity.
Qed.

Lemma for_upto_ext {S} (f g : Z -> S -> res S) (n : nat) (s : S) :
  (forall k x, 0 <= k < Z.of_nat n -> f k x = g k x) ->
  for_upto n f s = for_upto n g s.
Proof.
  induction n as [|n IH]; intros H; simpl; [reflexivity|].
  rewrite IH by (intros; apply H; lia).
  destruct (for_upto n g s); cbn [rbind]; try reflexivity. apply H. lia.
Qed.

(** One turn of the unrolled loop is four turns of the plain one. *)
Lemma four_is_four_frames sbuf chans n d s buf :
  four_body F add sbuf chans (2 * chans) (3 * chans) (4 * chans) n (d, s, buf)
  = (y <- for_upto 4 (frame_body F add sbuf d chans) (s, buf) ;;
     Ok (d + 4, fst y, snd y)).
Proof.
  unfold four_body. simpl for_upto. unfold frame_body. cbn [rbind].
  replace (s + 0) with s by lia.
  destruct (mix_one F add sbuf (d + 0) s buf) as [b1| |]; cbn [rbind]; try reflexivity.
  destruct (mix_one F add sbuf (d + 1) (s + chans) b1) as [b2| |]; cbn [rbind];
    try reflexivity.
  replace (s + chans + chans) with (s + 2 * chans) by lia.
  destruct (mix_one F add sbuf (d + 2) (s + 2 * chans) b2) as [b3| |]; cbn [rbind];
    try reflexivity.
  replace (s + 2 * chans + chans) with (s + 3 * chans) by lia.
  destruct (mix_one F add sbuf (d + 3) (s + 3 * chans) b3) as [b4| |]; cbn [rbind];
    try reflexivity.
  cbn [fst snd]. replace (s + 3 * chans + chans) with (s + 4 * chans) by lia. reflexivity.
Qed.

Lemma frame_body_shift sbuf d chans (a : Z) n x :
  frame_body F add sbuf d chans (a + n) x = frame_body F add sbuf (d + a) chans n x.
Proof. destruct x as [s buf]. unfold frame_body. replace (d + (a + n)) with (d + a + n) by lia. reflexivity. Qed.

Lemma four_loop sbuf chans (q : nat) d s buf :
  for_upto q (four_body F add sbuf chans (2 * chans) (3 * chans) (4 * chans)) (d, s, buf)
  = (y <- for_upto (4 * q) (frame_body F add sbuf d chans) (s, buf) ;;
     Ok (d + 4 * Z.of_nat q, fst y, snd y)).
Proof.
  induction q as [|q IH].
  - simpl. replace (d + 0) with d by lia. reflexivity.
  - cbn [for_upto]. rewrite IH.
    replace (4 * S q)%nat with (4 * q + 4)%nat by lia.
    rewrite for_upto_split.
    destruct (for_upto (4 * q) _ (s, buf)) as [[s1 b1]| |]; cbn [rbind fst snd];
      try reflexivity.
    rewrite four_is_four_frames.
    rewrite (for_upto_ext (fun k => frame_body F add sbuf d chans (Z.of_nat (4 * q) + k))
               (frame_body F add sbuf (d + 4 * Z.of_nat q) chans)).
    + destruct (for_upto 4 _ (s1, b1)) as [[s2 b2]| |]; cbn [rbind fst snd]; try reflexivity.
      replace (d + 4 * Z.of_nat q + 4) with (d + 4 * Z.of_nat (S q)) by lia. reflexivity.
    + intros k x _. rewrite frame_body_shift.
      replace (d + Z.of_nat (4 * q)) with (d + 4 * Z.of_nat q) by lia. reflexivity.
Qed.

Lemma mix_into_frames (m : MixData F) (buf : list F) :
  in_range m ->
  mix_into F add m buf
  = (y <- for_upto (Z.to_nat (frames m))
            (frame_body F add (s_buf (src m)) (d_at (dest m)) (channels m))
            (s_at (src m), buf) ;;
     Ok (snd y)).
Proof.
  intros (Hf & Hc & Hc4). unfold mix_into.
  assert (P31 : 2 ^ 31 = 2147483648) by reflexivity.
  assert (P32 : 2 ^ 32 = 4294967296) by reflexivity.
  assert (Hw : forall z, - 2 ^ 31 <= z < 2 ^ 31 -> to_int32 z = z).
  { intros z Hz. unfold to_int32. rewrite Z.mod_small; lia. }
  rewrite Z.shiftr_div_pow2 by lia. rewrite !Z.shiftl_mul_pow2 by lia.
  change (2 ^ 2) with 4. change (2 ^ 1) with 2.
  set (q := frames m / 4).
  pose proof (Z.div_mod (frames m) 4 ltac:(lia)) as Hdm.
  pose proof (Z.mod_pos_bound (frames m) 4 ltac:(lia)) as Hr. fold q in Hdm.
  assert (Hq : 0 <= q) by (apply Z.div_pos; lia).
  rewrite (Hw (q * 4)) by lia.
  rewrite (Hw (frames m - q * 4)) by lia.
  rewrite (Hw (channels m * 2)) by lia.
  rewrite (Hw (channels m * 2 + channels m)) by lia.
  rewrite (Hw (channels m * 2 + channels m * 2)) by lia.
  replace (channels m * 2) with (2 * channels m) by lia.
  replace (2 * channels m + channels m) with (3 * channels m) by lia.
  replace (2 * channels m + 2 * channels m) with (4 * channels m) by lia.
  replace (Z.to_nat (frames m)) with (4 * Z.to_nat q + Z.to_nat (frames m - q * 4))%nat by lia.
  rewrite for_upto_split, four_loop.
  destruct (for_upto (4 * Z.to_nat q) _ _) as [[s1 b1]| |]; cbn [rbind fst snd];
    try reflexivity.
  rewrite (for_upto_ext
             (fun k => frame_body F add (s_buf (src m)) (d_at (dest m)) (channels m)
                         (Z.of_nat (4 * Z.to_nat q) + k))
             (frame_body F add (s_buf (src m)) (d_at (dest m) + 4 * Z.of_nat (Z.to_nat q))
                         (channels m))).
  - reflexivity.
  - intros k x _. rewrite frame_body_shift.
    replace (d_at (dest m) + Z.of_nat (4 * Z.to_nat q))
      with (d_at (dest m) + 4 * Z.of_nat (Z.to_nat q)) by lia.
    reflexivity.
Qed.

Lemma mixOperation_at_once (m : MixData F) (b : buffers F) :
  in_range m -> mixOperation F add m b = mix_at_once F add m b.
Proof.
  intros Hm. unfold mixOperation, mix_at_once, addToBus.
  cbn [c_type c_bus c_src c_offset c_endfr c_chans].
  destruct (bus_buffer F _ _ b) as [buf| |]; cbn [rbind]; try reflexivity.
  rewrite (mix_into_frames m buf Hm).
  replace (d_at (dest m) + frames m - d_at (dest m)) with (frames m) by lia.
  destruct (for_upto _ _ _) as [y| |]; reflexivity.
Qed.

Lemma for_each_ext {A S} (f g : A -> S -> res S) (l : list A) (s : S) :
  (forall x t, In x l -> f x t = g x t) -> for_each l f s = for_each l g s.
Proof.
  revert s. induction l as [|x l IH]; intros s H; simpl; [reflexivity|].
  rewrite (H x s) by (left; reflexivity).
  destruct (g x s); cbn [rbind]; try reflexivity.
  apply IH. intros y t Hy. apply H. right. exact Hy.
Qed.

Lemma for_each_concat {A S} (f : A -> S -> res S) (ll : list (list A)) : forall (s : S),
  for_each ll (fun v t => for_each v f t) s = for_each (concat ll) f s.
Proof.
  induction ll as [|v ll IH]; intros s; simpl; [reflexivity|].
  assert (Happ : forall (a c : list A) t,
            for_each (a ++ c) f t = (t' <- for_each a f t ;; for_each c f t')).
  { induction a as [|x a IHa]; intros c t; simpl; [reflexivity|].
    destruct (f x t); cbn [rbind]; try reflexivity. apply IHa. }
  rewrite Happ. destruct (for_each v f s); cbn [rbind]; try reflexivity. apply IH.
Qed.

End Loops.

Lemma mixToBus_at_once
  (F : Type) (add : F -> F -> F) (mixVectors : list (list (MixData F))) (b : buffers F) :
  (forall m, In m (concat mixVectors) -> in_range m) ->
  mixToBus F add mixVectors b
  = (b' <- for_each (concat mixVectors) (mix_at_once F add) b ;;
     Ok (map (fun _ => []) mixVectors, b')).
Proof.
  intros H. unfold mixToBus. rewrite for_each_concat.
  rewrite (for_each_ext (mixOperation F add) (mix_at_once F add)); [reflexivity|].
  intros m t Hm. apply mixOperation_at_once. apply H. exact Hm.
Qed.

Section Calls.
Variable F : Type.
Variable add : F -> F -> F.

Lemma request_at_once (c : call F) (b : buffers F) :
  call_in_range c ->
  in_range (request F c) /\ mix_at_once F add (request F c) b = addToBus F add c b.
Proof.
  intros (H1 & H2 & H3 & H4).
  assert (Hw : to_int32 (c_endfr c - c_offset c) = c_endfr c - c_offset c).
  { unfold to_int32. rewrite Z.mod_small; lia. }
  split.
  - unfold in_range, request. cbn [frames channels]. rewrite Hw. lia.
  - unfold mix_at_once, request, addToBus.
    cbn [frames channels dest src d_type d_bus d_at c_type c_bus c_src c_offset c_endfr c_chans].
    rewrite Hw.
    replace (c_offset c + (c_endfr c - c_offset c) - c_offset c)
      with (c_endfr c - c_offset c) by lia.
    reflexivity.
Qed.

Lemma upd_upd {A} (l : list A) n x y : upd (upd l n x) n y = upd l n y.
Proof. revert n. induction l as [|h t IH]; intros [|n]; simpl; auto. f_equal. apply IH. Qed.

Lemma nth_error_upd {A} (l : list A) n x :
  (n < length l)%nat -> nth_error (upd l n x) n = Some x.
Proof.
  revert n. induction l as [|h t IH]; intros [|n] H; simpl in *; try lia; auto.
  apply IH. lia.
Qed.

Lemma length_upd_list {A} (l : list A) n x : length (upd l n x) = length l.
Proof. revert n. induction l as [|h t IH]; intros [|n]; simpl; auto. Qed.

(** The calls of one thread end up on its vector, in order. *)
Lemma deferred_calls (t : Z) (calls : list (call F)) : forall (v : list (list (MixData F))) l,
  zget v t = Ok l ->
  for_each calls (addToBus_deferred F t) v
  = Ok (upd v (Z.to_nat t) (l ++ map (request F) calls)).
Proof.
  induction calls as [|c calls IH]; intros v l Hl; simpl.
  - rewrite app_nil_r. f_equal. unfold zget in Hl.
    destruct (t <? 0); [discriminate|].
    destruct (nth_error v (Z.to_nat t)) as [x|] eqn:E; [|discriminate].
    injection Hl as ->. clear - E. revert E. generalize (Z.to_nat t). intros n.
    revert n. induction v as [|h tl IHv]; intros [|n] E; simpl in *; try discriminate.
    + congruence.
    + f_equal. apply IHv. exact E.
  - unfold addToBus_deferred at 1. rewrite Hl. cbn [rbind].
    assert (Hr : 0 <= t < Z.of_nat (length v)).
    { unfold zget in Hl. destruct (t <? 0) eqn:E0; [discriminate|].
      destruct (nth_error v (Z.to_nat t)) eqn:E; [|discriminate].
      apply Z.ltb_ge in E0. assert (Z.to_nat t < length v)%nat by (apply nth_error_Some; congruence).
      lia. }
    unfold zset.
    replace ((t <? 0) || (Z.of_nat (length v) <=? t)) with false
      by (symmetry; apply orb_false_iff; split; [apply Z.ltb_ge | apply Z.leb_gt]; lia).
    cbn [rbind].
    rewrite (IH _ (l ++ [request F c])).
    + rewrite upd_upd, <- app_assoc. reflexivity.
    + unfold zget. replace (t <? 0) with false by (symmetry; apply Z.ltb_ge; lia).
      rewrite nth_error_upd by lia. reflexivity.
Qed.

Lemma concat_upd_empty (n k : nat) (l : list (MixData F)) :
  (k < n)%nat -> concat (upd (repeat [] n) k l) = l.
Proof.
  revert k. induction n as [|n IH]; intros k H; [lia|].
  destruct k as [|k]; simpl.
  - assert (E : concat (repeat (@nil (MixData F)) n) = []).
    { clear. induction n as [|n IHn]; simpl; auto. }
    rewrite E. apply app_nil_r.
  - apply IH. lia.
Qed.

Lemma for_each_map {A B S} (g : A -> B) (f : B -> S -> res S) (l : list A) : forall s,
  for_each (map g l) f s = for_each l (fun x => f (g x)) s.
Proof.
  induction l as [|x l IH]; intros s; simpl; [reflexivity|].
  destruct (f (g x) s); cbn [rbind]; auto.
Qed.

Lemma map_const {A B} (c : B) (v : list A) : map (fun _ => c) v = repeat c (length v).
Proof. induction v as [|x v IH]; simpl; [reflexivity | f_equal; exact IH]. Qed.

End Calls.

(** With MULTI_THREAD the calls of addToBus of one thread are put aside
    and mixed by mixToBus.  Started with empty vectors, this leaves in the
    bus buffers what the addToBus of the build without threads leaves when
    it mixes each call at once, and it fails on the same calls: the loop of
    mixOperation that takes four frames a turn and the one for the frames
    that remain add the same frames to the same places in the same order.
    The vectors are empty again afterwards.  This holds for calls with
    offset <= endfr whose channel count times four is an int. *)
Theorem deferred_mix_is_the_mix_at_once
  (F : Type) (add : F -> F -> F) (threads : nat) (t : Z)
  (calls : list (call F)) (b : buffers F) :
  0 <= t < Z.of_nat threads ->
  (forall c, In c calls -> call_in_range c) ->
  (v <- for_each calls (addToBus_deferred F t) (repeat [] threads) ;; mixToBus F add v b)
  = (b' <- for_each calls (addToBus F add) b ;; Ok (repeat [] threads, b')).
Proof.
  intros Ht H.
  assert (H0 : zget (repeat (@nil (MixData F)) threads) t = Ok []).
  { unfold zget. replace (t <? 0) with false by (symmetry; apply Z.ltb_ge; lia).
    rewrite nth_error_repeat by lia. reflexivity. }
  rewrite (deferred_calls F t calls _ _ H0). cbn [rbind app].
  rewrite mixToBus_at_once.
  - rewrite concat_upd_empty by lia. rewrite for_each_map.
    rewrite (for_each_ext (fun x => mix_at_once F add (request F x)) (addToBus F add)).
    + destruct (for_each calls _ b); cbn [rbind]; try reflexivity.
      f_equal. f_equal. rewrite map_const, length_upd_list, repeat_length.
      reflexivity.
    + intros c s Hc. apply request_at_once. apply H. exact Hc.
  - rewrite concat_upd_empty by lia. intros m Hm. apply in_map_iff in Hm.
    destruct Hm as (c & <- & Hc). apply (request_at_once F add c b). apply H. exact Hc.
Qed.

Lemma deferred_mix_is_the_mix_at_once_witness :
  (v <- for_each two_calls (addToBus_deferred Z 0) (repeat [] 2) ;; mixToBus Z Z.add v silence)
  = Ok ([[]; []], mkBuffers [[0; 0; 0; 0]] [[100; 201; 303; 5; 7; 9; 11; 0]]).
Proof.
  rewrite (deferred_mix_is_the_mix_at_once Z Z.add 2 0 two_calls silence).
  - vm_compute. reflexivity.
  - lia.
  - intros c Hc. unfold call_in_range.
    destruct Hc as [<-|[<-|[]]]; simpl; lia.
Defined.

End MixFacts.

(** ** The builtins type, index, contains and substring *)

Module BuiltinFacts.
Import Ascii String.
Import Ieee Minc MincCases Builtin.
Local Open Scope string_scope.
Local Open Scope list_scope.
Local Open Scope Z_scope.

(** *** substring *)

(** A range that starts at the end of the string or after it, the empty
    string included, passes the test of the indices; the end index is then
    clamped to length - 1, which is before the start, and the terminating
    NUL is written before the start of the new buffer (or the buffer is
    asked for with a negative size): substring("", 0, 1) is undefined
    behaviour, after the warning about the end index. *)
Theorem substring_from_the_end_of_the_string_is_undefined
  (s : string) (f1 f2 : double) (i j : Z) (st : mstate) :
  to_int f1 = Some i -> to_int f2 = Some j ->
  Z.of_nat (String.length s) <= i < j ->
  _minc_substring [MString (Some s); MFloat f1; MFloat f2] st
  = (Undefined, upd_log (fun l => l ++ [substring_warning]) st).
Proof.
  intros H1 H2 Hij.
  unfold _minc_substring. cbn [is_type Minc.dataType MincDataType_eqb negb orb].
  rewrite H1, H2.
  set (len := Z.of_nat (String.length s)) in *.
  replace (i <? 0) with false by (symmetry; apply Z.ltb_ge; lia).
  replace (j <=? i) with false by (symmetry; apply Z.leb_gt; lia).
  cbn [orb].
  replace (j >? len - 1) with true by (symmetry; rewrite Z.gtb_ltb; apply Z.ltb_lt; lia).
  unfold bind at 1. unfold bind at 1. unfold minc_warn, modify. cbn [ret].
  unfold ret at 1. cbv zeta.
  destruct ((len - i + 1 <? 0) || (len <? i)) eqn:E1; [reflexivity|].
  replace (len - 1 - i <? 0) with true by (symmetry; apply Z.ltb_lt; lia).
  reflexivity.
Qed.

Lemma substring_from_the_end_of_the_string_is_undefined_witness :
  _minc_substring [MString (Some ""); MFloat (dofZ 0); MFloat (dofZ 1)] initial_state
  = (Undefined, upd_log (fun l => l ++ [substring_warning]) initial_state).
Proof.
  apply (substring_from_the_end_of_the_string_is_undefined "" (dofZ 0) (dofZ 1) 0 1);
    [reflexivity | reflexivity | simpl; lia].
Defined.

(** *** type *)

(** type gives a string for every value, and the same string for two
    values exactly when they have the same type. *)
Theorem type_names_tell_the_types_apart (a b : Value) (st : mstate) :
  exists sa sb,
    _minc_type [a] st = (Normal (Some sa), st) /\
    _minc_type [b] st = (Normal (Some sb), st) /\
    (sa = sb <-> dataType a = dataType b).
Proof.
  unfold _minc_type, ret.
  destruct (dataType a), (dataType b); cbn [_make_type_string];
    eexists _, _; (split; [reflexivity|]); (split; [reflexivity|]);
    split; intros E; try reflexivity; discriminate E.
Qed.

(** *** index and contains *)

Lemma index_loop_spec (item : Value) (data : list Value) : forall (i : Z) (r : Z),
  index_loop (dataType item) item data i = Some r ->
  (r = -1 /\ no_match item data) \/
  (exists k, r = i + Z.of_nat k /\ first_match item data k).
Proof.
  induction data as [|d rest IH]; intros i r H; simpl in H.
  - injection H as <-. left. split; [reflexivity|]. intros d [].
  - destruct (item_matches (dataType item) d item) as [[|]|] eqn:E; try discriminate.
    + injection H as <-. right. exists 0%nat. split; [lia|]. split.
      * exists d. split; [reflexivity | exact E].
      * intros k d' Hk. lia.
    + destruct (IH _ _ H) as [[-> Hn]|(k & -> & (d0 & Hd0 & Hm) & Hb)].
      * left. split; [reflexivity|]. intros d' [<-|Hd']; [exact E | apply Hn; exact Hd'].
      * right. exists (S k). split; [lia|]. split.
        -- exists d0. split; [exact Hd0 | exact Hm].
        -- intros k' d' Hk' Hn'. destruct k' as [|k']; simpl in Hn'.
           ++ injection Hn' as <-. exact E.
           ++ eapply Hb; [|exact Hn']. lia.
Qed.

(** The conversion of an index that is not negative is not -1.0. *)
Lemma dofZ_nonneg_is_not_minus_one (i : Z) : 0 <= i -> SFeqb (dofZ i) minus_one = false.
Proof.
  intros Hi. unfold minus_one.
  change (dofZ (-1)) with (S754_finite true 4503599627370496 (-52)).
  destruct i as [|p|p]; [reflexivity | | lia].
  unfold dofZ, binary_normalize, binary_round.
  destruct (shl_align _ _ _) as [mz ez]. unfold binary_round_aux.
  destruct (shr_fexp _ _ _ _ _) as [mrs e'].
  destruct (shr_fexp _ _ _ _ _) as [mrs2 e2].
  destruct (shr_m mrs2) as [|m|m]; try reflexivity.
  destruct (e2 <=? demax - dprec); reflexivity.
Qed.

Lemma dofZ_minus_one_is_minus_one : SFeqb (dofZ (-1)) minus_one = true.
Proof. reflexivity. Qed.

(** For a list and an item that is not void, index returns the position
    of the first element that has the type of the item and is equal to it
    (== for numbers, strcmp for strings, the same pointer for lists and
    handles), and -1 when there is none; it reports nothing.  contains
    returns 1 in the first case and 0 in the second.  An element of a type
    without comparison (map, struct, function) is never found. *)
Theorem index_is_the_first_match
  (p : Z) (data : list Value) (item : Value) (st : mstate) (r : double) (st' : mstate) :
  _minc_index [VList (Some (p, data)); item] st = (Normal r, st') ->
  st' = st /\
  ((r = dofZ (-1) /\ no_match item data /\
    _minc_contains [VList (Some (p, data)); item] st = (Normal (dofZ 0), st)) \/
   (exists k, r = dofZ (Z.of_nat k) /\ first_match item data k /\
    _minc_contains [VList (Some (p, data)); item] st = (Normal (dofZ 1), st))).
Proof.
  intros H.
  destruct (MincDataType_eqb (dataType item) MincVoidType) eqn:Ev.
  { unfold _minc_index in H. cbn [dataType MincDataType_eqb negb] in H. rewrite Ev in H.
    discriminate H. }
  assert (Hc : forall r0, _minc_index [VList (Some (p, data)); item] st = (Normal r0, st) ->
             _minc_contains [VList (Some (p, data)); item] st
             = (Normal (of_bool (negb (SFeqb r0 minus_one))), st)).
  { intros r0 H0. unfold _minc_contains. rewrite Ev. unfold bind. rewrite H0. reflexivity. }
  unfold _minc_index in H. cbn [dataType MincDataType_eqb negb] in H. rewrite Ev in H.
  destruct (index_loop (dataType item) item data 0) as [idx|] eqn:El; [|discriminate].
  unfold ret in H. injection H as <- <-. split; [reflexivity|].
  assert (Hi : _minc_index [VList (Some (p, data)); item] st = (Normal (dofZ idx), st)).
  { unfold _minc_index. cbn [dataType MincDataType_eqb negb]. rewrite Ev, El. reflexivity. }
  specialize (Hc _ Hi).
  destruct (index_loop_spec _ _ _ _ El) as [[-> Hn]|(k & -> & Hf)].
  - left. split; [reflexivity|]. split; [exact Hn|].
    rewrite Hc, dofZ_minus_one_is_minus_one. reflexivity.
  - right. exists k. split; [reflexivity|]. split; [exact Hf|].
    rewrite Hc, dofZ_nonneg_is_not_minus_one by lia. reflexivity.
Qed.

Lemma index_is_the_first_match_witness :
  first_match (VFloat (dofZ 2))
    [VFloat (dofZ 1); VFloat (dofZ 2); VString (Some "three"); VFloat (dofZ 4)] 1.
Proof.
  destruct (index_is_the_first_match 64
              [VFloat (dofZ 1); VFloat (dofZ 2); VString (Some "three"); VFloat (dofZ 4)]
              (VFloat (dofZ 2)) initial_state (dofZ 1) initial_state)
    as [_ [(E & _)|(k & E & Hf & _)]].
  - vm_compute. reflexivity.
  - vm_compute in E. discriminate E.
  - destruct k as [|[|k]]; [vm_compute in E; discriminate E | exact Hf |].
    destruct Hf as [_ Hb]. specialize (Hb 1%nat (VFloat (dofZ 2))).
    assert (Hlt : (1 < S (S k))%nat) by lia.
    specialize (Hb Hlt eq_refl). vm_compute in Hb. discriminate Hb.
Defined.

(** A NaN is never found: index of a NaN in a list is -1 and contains is
    0, whatever the list holds. *)
Theorem index_never_finds_a_nan (p : Z) (data : list Value) (st : mstate) :
  _minc_index [VList (Some (p, data)); VFloat S754_nan] st = (Normal (dofZ (-1)), st) /\
  _minc_contains [VList (Some (p, data)); VFloat S754_nan] st = (Normal (dofZ 0), st).
Proof.
  assert (E : forall i, index_loop MincFloatType (VFloat S754_nan) data i = Some (-1)).
  { induction data as [|d rest IH]; intros i; simpl; [reflexivity|].
    assert (Hm : item_matches MincFloatType d (VFloat S754_nan) = Some false).
    { unfold item_matches. destruct d; cbn [dataType MincDataType_eqb]; try reflexivity.
      destruct d; reflexivity. }
    rewrite Hm. apply IH. }
  assert (E1 : _minc_index [VList (Some (p, data)); VFloat S754_nan] st
               = (Normal (dofZ (-1)), st)).
  { unfold _minc_index. cbn [dataType MincDataType_eqb negb]. rewrite E. reflexivity. }
  split; [exact E1|].
  unfold _minc_contains. cbn [dataType MincDataType_eqb]. unfold bind. rewrite E1.
  reflexivity.
Qed.

(** *** The logical operators of Node.cpp *)

Lemma as_bool_of_bool (b : bool) (st : mstate) : as_bool (bool_value b) st = (Normal b, st).
Proof. destruct b; reflexivity. Qed.

Ltac logic_step :=
  unfold ret; cbn [fst negb]; rewrite ?as_bool_of_bool; cbv beta iota; cbn [fst negb].

(** De Morgan's laws hold for the nodes, side effects included: the
    second operand is executed in the same cases on both sides, so
    !(a && b) and (!a || !b) leave the same value, the same state and the
    same reports, and so do !(a || b) and (!a && !b). *)
Theorem not_and_or_obey_de_morgan (H : host) (fuel : nat) (a b : Node) (st : mstate) :
  exct H (S (S fuel)) (NodeNot (NodeAnd a b)) st
  = exct H (S (S fuel)) (NodeOr (NodeNot a) (NodeNot b)) st /\
  exct H (S (S fuel)) (NodeNot (NodeOr a b)) st
  = exct H (S (S fuel)) (NodeAnd (NodeNot a) (NodeNot b)) st.
Proof.
  split.
  - cbn [exct]. unfold bind.
    destruct (exct H fuel a st) as [[v0| | | |] s1]; try reflexivity.
    destruct (as_bool (fst v0) s1) as [[b0| | | |] s2]; try reflexivity.
    destruct b0; logic_step.
    + destruct (exct H fuel b s2) as [[v1| | | |] s3]; try reflexivity.
      destruct (as_bool (fst v1) s3) as [[b1| | | |] s4]; try reflexivity.
      logic_step. reflexivity.
    + reflexivity.
  - cbn [exct]. unfold bind.
    destruct (exct H fuel a st) as [[v0| | | |] s1]; try reflexivity.
    destruct (as_bool (fst v0) s1) as [[b0| | | |] s2]; try reflexivity.
    destruct b0; logic_step.
    + reflexivity.
    + destruct (exct H fuel b s2) as [[v1| | | |] s3]; try reflexivity.
      destruct (as_bool (fst v1) s3) as [[b1| | | |] s4]; try reflexivity.
      logic_step. reflexivity.
Qed.

End BuiltinFacts.

(** ** bus_config inside its arrays *)

Module BusSafeFacts.
Import Bus BusGraph BusCases BusMore BusSafe GraphFacts BusMoreFacts.
Local Open Scope list_scope.
Local Open Scope Z_scope.

(** *** Results that are not undefined *)

Lemma fine_bind {A B} (P : A -> Prop) (Q : B -> Prop) (m : res A) (k : A -> res B) :
  fine P m -> (forall a, P a -> fine Q (k a)) -> fine Q (rbind m k).
Proof. destruct m; simpl; auto; try tauto. Qed.

Lemma fine_mono {A} (P Q : A -> Prop) (m : res A) :
  (forall a, P a -> Q a) -> fine P m -> fine Q m.
Proof. destruct m; simpl; auto. Qed.

Lemma fine_ok {A} (P : A -> Prop) (m : res A) a : fine P m -> m = Ok a -> P a.
Proof. intros H ->. exact H. Qed.

Lemma fine_returns {A} (P : A -> Prop) (m : res A) :
  fine P m -> m <> NoFuel -> exists a, m = Ok a /\ P a.
Proof. destruct m; simpl; intros H N; [eauto | destruct H | congruence]. Qed.

Lemma zget_fine {A} (l : list A) i :
  0 <= i < Z.of_nat (length l) -> fine (fun x => zget l i = Ok x) (zget l i).
Proof.
  intros H. unfold zget at 2. destruct (i <? 0) eqn:E; [apply Z.ltb_lt in E; lia|].
  destruct (nth_error l (Z.to_nat i)) as [x|] eqn:Ex.
  - simpl. unfold zget. rewrite E, Ex. reflexivity.
  - apply nth_error_None in Ex. lia.
Qed.

Lemma zset_fine {A} (l : list A) i v :
  0 <= i < Z.of_nat (length l) -> fine (fun l' => zset l i v = Ok l') (zset l i v).
Proof.
  intros H. unfold zset at 2.
  destruct ((i <? 0) || (Z.of_nat (length l) <=? i)) eqn:E.
  - apply orb_true_iff in E. destruct E as [E|E]; [apply Z.ltb_lt in E | apply Z.leb_le in E]; lia.
  - simpl. unfold zset. rewrite E. reflexivity.
Qed.

Lemma for_upto_fine {S} (I : nat -> S -> Prop) (body : Z -> S -> res S) (n : nat) (s : S) :
  I 0%nat s ->
  (forall i x, (i < n)%nat -> I i x -> fine (I (Datatypes.S i)) (body (Z.of_nat i) x)) ->
  fine (I n) (for_upto n body s).
Proof.
  intros H0 Hstep. induction n as [|n IH]; simpl; [exact H0|].
  eapply fine_bind; [apply IH; intros; apply Hstep; auto; lia|].
  intros x Hx. apply Hstep; [lia | exact Hx].
Qed.

Lemma for_each_fine {A S} (I : S -> Prop) (body : A -> S -> res S) (l : list A) :
  (forall a x, In a l -> I x -> fine I (body a x)) ->
  forall s, I s -> fine I (for_each l body s).
Proof.
  induction l as [|a l IH]; intros Hstep s Hs; simpl; [exact Hs|].
  eapply fine_bind; [apply Hstep; [left; reflexivity | exact Hs]|].
  intros x Hx. apply IH; [|exact Hx]. intros b y Hb. apply Hstep. right. exact Hb.
Qed.

(** *** Counting *)

Lemma cnt_S f n : cnt f (S n) = (cnt f n + (if f n then 1 else 0))%nat.
Proof.
  unfold cnt. rewrite seq_S, filter_app, length_app. cbn [filter Nat.add].
  destruct (f n); reflexivity.
Qed.

Lemma cnt_le f n : (cnt f n <= n)%nat.
Proof. induction n as [|n IH]; [reflexivity|]. rewrite cnt_S. destruct (f n); lia. Qed.

Lemma cnt_ext f g n : (forall i, (i < n)%nat -> f i = g i) -> cnt f n = cnt g n.
Proof.
  induction n as [|n IH]; intros H; [reflexivity|].
  rewrite !cnt_S, IH, (H n) by (auto; intros; apply H; lia). reflexivity.
Qed.

Lemma cnt_mono f g n :
  (forall i, (i < n)%nat -> f i = true -> g i = true) -> (cnt f n <= cnt g n)%nat.
Proof.
  induction n as [|n IH]; intros H; [reflexivity|].
  rewrite !cnt_S. specialize (IH ltac:(intros; apply H; auto; lia)).
  destruct (f n) eqn:E; [rewrite (H n) by (auto; lia); lia | destruct (g n); lia].
Qed.

Lemma cnt_flip f g n t :
  (t < n)%nat -> f t = true -> g t = false ->
  (forall i, i <> t -> g i = f i) -> S (cnt g n) = cnt f n.
Proof.
  induction n as [|n IH]; intros Ht Hf Hg Ho; [lia|].
  rewrite !cnt_S. destruct (Nat.eq_dec t n) as [->|Hne].
  - rewrite Hf, Hg. rewrite (cnt_ext g f n) by (intros; apply Ho; lia). lia.
  - rewrite (Ho n) by lia. specialize (IH ltac:(lia) Hf Hg Ho). lia.
Qed.

Lemma cnt_disjoint f g n :
  (forall i, (i < n)%nat -> f i = true -> g i = false) -> (cnt f n + cnt g n <= n)%nat.
Proof.
  induction n as [|n IH]; intros H; [reflexivity|].
  rewrite !cnt_S. specialize (IH ltac:(intros; apply H; auto; lia)).
  destruct (f n) eqn:E; [rewrite (H n) by (auto; lia); lia | destruct (g n); lia].
Qed.

Lemma cnt_below f n r :
  (forall j, (r <= j < n)%nat -> f j = false) -> (cnt f n <= r)%nat.
Proof.
  induction n as [|n IH]; intros H; [unfold cnt; simpl; lia|].
  rewrite cnt_S. destruct (Nat.le_gt_cases r n) as [Hle|Hgt].
  - rewrite (H n) by lia. specialize (IH ltac:(intros; apply H; lia)). lia.
  - pose proof (cnt_le f n). destruct (f n); lia.
Qed.

(** *** The sizes of the arrays *)

Ltac sizes :=
  repeat match goal with
  | H : safe _ |- _ => destruct H as [? ?]
  | H : sized_all _ |- _ => destruct H as (? & ? & ? & ? & ? & ? & ? & ? & ? & ? & ?)
  end;
  unfold sized_all, nbus in *;
  cbn [set_scan set_play set_graph set_in_use set_queue set_status busCount
       In_Config HasChild HasParent AuxInUse AuxOutInUse OutInUse RevPlay Visited
       ToOutPlayList ToAuxPlayList AuxToAuxPlayList] in *;
  repeat split; congruence.

Lemma zget_ok {A} (l : list A) i :
  0 <= i < Z.of_nat (length l) -> exists x, zget l i = Ok x.
Proof.
  intros H. pose proof (zget_fine l i H) as F.
  destruct (zget l i) as [x| |] eqn:E; simpl in F; [eauto | destruct F |].
  unfold zget in E. destruct (i <? 0); [discriminate|].
  destruct (nth_error l (Z.to_nat i)); discriminate.
Qed.

Lemma zset_ok {A} (l : list A) i v :
  0 <= i < Z.of_nat (length l) -> exists l', zset l i v = Ok l' /\ length l' = length l.
Proof.
  intros H. pose proof (zset_fine l i v H) as F.
  destruct (zset l i v) as [x| |] eqn:E; simpl in F.
  - exists x. split; [reflexivity|]. eapply zset_length; eauto.
  - destruct F.
  - unfold zset in E. destruct ((i <? 0) || _); discriminate.
Qed.

Lemma nodes_valid_graph_eq a b : graph_eq a b -> nodes_valid a -> nodes_valid b.
Proof.
  intros (B1 & B2 & B3 & _) N. unfold nodes_valid, valid, nbus in *.
  rewrite B1, B2, B3. exact N.
Qed.

(** *** The first loop of the check *)

Lemma reset_body_steps visit (i : nat) st o a :
  (i < nbus st)%nat -> sized_all st -> 0 <= o <= Z.of_nat i -> 0 <= a <= Z.of_nat i ->
  exists s' o' a',
    reset_body visit (Z.of_nat i) (st, o, a) = Ok (s', o', a') /\
    sized_all s' /\
    0 <= o' <= Z.of_nat (S i) /\ 0 <= a' <= Z.of_nat (S i) /\
    zget (RevPlay s') (Z.of_nat i) = Ok (-1) /\
    (forall j, j <> Z.of_nat i -> zget (RevPlay s') j = zget (RevPlay st) j) /\
    (visit = false -> Visited s' = Visited st).
Proof.
  intros Hi Hs Ho Ha.
  pose proof Hs as (S1 & S2 & S3 & S4 & S5 & S6 & S7 & S8 & S9 & S10 & S11).
  unfold reset_body.
  assert (Hvis : exists vis, (if visit then zset (Visited st) (Z.of_nat i) false
                              else Ok (Visited st)) = Ok vis /\
                             length vis = nbus st /\ (visit = false -> vis = Visited st)).
  { destruct visit.
    - destruct (zset_ok (Visited st) (Z.of_nat i) false ltac:(lia)) as (vis & E & L).
      exists vis. split; [exact E|]. split; [congruence | discriminate].
    - exists (Visited st). auto. }
  destruct Hvis as (vis & -> & Lv & Ev). cbn [rbind].
  destruct (zset_ok (RevPlay st) (Z.of_nat i) (-1) ltac:(lia)) as (rp & Erp & Lrp).
  rewrite Erp. cbn [rbind].
  set (s1 := set_scan rp vis st).
  assert (Hs1 : sized_all s1) by (unfold s1; sizes).
  change (OutInUse s1) with (OutInUse st).
  destruct (zget_ok (OutInUse st) (Z.of_nat i) ltac:(lia)) as (ou & ->). cbn [rbind].
  assert (Hx1 : exists s2 o2,
            (if ou then l <- zset (ToOutPlayList s1) o (Z.of_nat i);;
               Ok (set_play l (ToAuxPlayList s1) (AuxToAuxPlayList s1) s1, o + 1)
             else Ok (s1, o)) = Ok (s2, o2) /\
            sized_all s2 /\ 0 <= o2 <= Z.of_nat (S i) /\
            RevPlay s2 = rp /\ Visited s2 = vis /\ AuxOutInUse s2 = AuxOutInUse st /\
            ToAuxPlayList s2 = ToAuxPlayList st).
  { destruct ou.
    - destruct (zset_ok (ToOutPlayList s1) o (Z.of_nat i)) as (l & -> & Ll).
      { unfold s1; cbn [set_scan ToOutPlayList]. lia. }
      cbn [rbind]. eexists _, _. split; [reflexivity|].
      split; [unfold s1 in *; cbn [set_scan ToOutPlayList] in Ll; sizes|].
      split; [lia|]. auto.
    - eexists _, _. split; [reflexivity|]. split; [exact Hs1|]. split; [lia|]. auto. }
  destruct Hx1 as (s2 & o2 & -> & Hs2 & Ho2 & R2 & V2 & A2 & T2). cbn [rbind].
  rewrite A2.
  destruct (zget_ok (AuxOutInUse st) (Z.of_nat i) ltac:(lia)) as (ao & ->). cbn [rbind].
  assert (Hrp : zget rp (Z.of_nat i) = Ok (-1) /\
                forall j, j <> Z.of_nat i -> zget rp j = zget (RevPlay st) j).
  { split; [eapply zget_zset_same; eauto|].
    intros j Hj. eapply zget_zset_other; eauto. }
  destruct ao.
  - destruct (zset_ok (ToAuxPlayList s2) a (Z.of_nat i)) as (l & -> & Ll).
    { rewrite T2. lia. }
    cbn [rbind]. eexists _, _, _. split; [reflexivity|].
    split; [rewrite T2 in Ll; sizes|].
    split; [exact Ho2|]. split; [lia|].
    cbn [set_play RevPlay Visited]. rewrite R2, V2. tauto.
  - eexists _, _, _. split; [reflexivity|]. split; [exact Hs2|].
    split; [exact Ho2|]. split; [lia|]. rewrite R2, V2. tauto.
Qed.

(** What the first loop leaves. *)
Lemma reset_loop_safe visit st :
  safe st ->
  fine (fun x : state * Z * Z =>
          let s1 := fst (fst x) in
          safe s1 /\ graph_eq st s1 /\
          (forall j, 0 <= j < busCount st -> zget (RevPlay s1) j = Ok (-1)) /\
          W false s1 = W visit st)
       (for_upto (nbus st) (reset_body visit) (st, 0, 0)).
Proof.
  intros [Hs Hn].
  eapply fine_mono;
    [| apply (for_upto_fine
          (fun (i : nat) (x : state * Z * Z) =>
             let '(s, o, a) := x in
             sized_all s /\ graph_eq st s /\
             0 <= o <= Z.of_nat i /\ 0 <= a <= Z.of_nat i /\
             (forall j, 0 <= j < Z.of_nat i -> zget (RevPlay s) j = Ok (-1)) /\
             (visit = true -> forall j, 0 <= j < Z.of_nat i -> zget (Visited s) j = Ok false) /\
             (visit = false -> Visited s = Visited st)))].
  - intros [[s o] a] (Hs1 & G & _ & _ & HR & HV1 & HV2). cbn [fst].
    assert (B : busCount s = busCount st) by apply G.
    split; [split; [exact Hs1 | eapply nodes_valid_graph_eq; eauto]|].
    split; [exact G|]. split.
    + intros j Hj. apply HR. unfold nbus. lia.
    + unfold W. assert (HP : HasParent s = HasParent st) by apply G.
      unfold nbus in *. rewrite B. destruct visit.
      * apply cnt_ext. intros i Hi. unfold waiting, with_parent, flag_set.
        rewrite HP, (HV1 eq_refl (Z.of_nat i)) by lia.
        destruct (zget (HasParent st) (Z.of_nat i)) as [[|]| |]; reflexivity.
      * apply cnt_ext. intros i Hi. unfold waiting. rewrite HP, (HV2 eq_refl). reflexivity.
  - split; [exact Hs|]. split; [apply graph_eq_refl|]. split; [lia|]. split; [lia|].
    split; [intros; lia|]. split; [intros; lia | reflexivity].
  - intros i [[s o] a] Hi (Hs1 & G & Ho & Ha & HR & HV1 & HV2).
    assert (B : busCount s = busCount st) by apply G.
    destruct (reset_body_steps visit i s o a) as (s' & o' & a' & E & Hs' & Ho' & Ha' & R1 & R2 & V2);
      [unfold nbus in *; lia | exact Hs1 | exact Ho | exact Ha |].
    rewrite E. simpl.
    pose proof (reset_body_graph _ _ _ _ _ _ _ _ E) as G1.
    split; [exact Hs'|]. split; [eapply graph_eq_trans; eauto|].
    split; [exact Ho'|]. split; [exact Ha'|]. split; [|split].
    + intros j Hj. destruct (Z.eq_dec j (Z.of_nat i)) as [->|Hne]; [exact R1|].
      rewrite R2 by exact Hne. apply HR. lia.
    + intros -> j Hj. destruct (reset_body_visited _ _ _ _ _ _ _ E) as [V1 Vo].
      destruct (Z.eq_dec j (Z.of_nat i)) as [->|Hne]; [exact V1|].
      rewrite Vo by exact Hne. apply HV1; [reflexivity | lia].
    + intros Hv. rewrite (V2 Hv). apply HV2. exact Hv.
Qed.

(** *** The traversal *)

Lemma cnt_pos f n t : (t < n)%nat -> f t = true -> (1 <= cnt f n)%nat.
Proof.
  induction n as [|n IH]; intros Ht Hf; [lia|].
  rewrite cnt_S. destruct (Nat.eq_dec t n) as [->|Hne]; [rewrite Hf; lia|].
  specialize (IH ltac:(lia) Hf). lia.
Qed.

Lemma flag_set_zset l l' t (b : bool) i :
  zset l t b = Ok l' ->
  flag_set l' i = if Z.eq_dec t (Z.of_nat i) then b else flag_set l i.
Proof.
  intros H. unfold flag_set. destruct (Z.eq_dec t (Z.of_nat i)) as [<-|Hne].
  - rewrite (zget_zset_same _ _ _ _ H). destruct b; reflexivity.
  - rewrite (zget_zset_other _ _ _ _ _ H Hne). reflexivity.
Qed.

Lemma scanning_state n w0 c c' :
  scanning n w0 c ->
  sc_state c' = sc_state c -> length (Checked c') = length (Checked c) ->
  r_p_count c' = r_p_count c -> added c' = added c ->
  scanning n w0 c'.
Proof.
  intros (A0 & A1 & A2 & A3 & A4 & A5 & A6 & A7 & A8) E1 E2 E3 E4.
  unfold scanning. rewrite E1, E2, E3, E4. auto 10.
Qed.

Lemma check_bus_safe outs t c n w0 :
  scanning n w0 c -> valid n t ->
  fine (fun r => scanning n w0 (snd r)) (check_bus outs t c).
Proof.
  intros Hc Ht. pose proof Hc as (HB & Hsafe & Hst & Lc & Hr & Hw & Hw0 & Htail & Hadd).
  pose proof Hsafe as [Hs Hn].
  pose proof Hs as (S1 & S2 & S3 & S4 & S5 & S6 & S7 & S8 & S9 & S10 & S11).
  unfold valid in Ht. unfold check_bus.
  set (st := sc_state c) in *.
  assert (Hlen : forall {A} (l : list A), length l = nbus st -> 0 <= t < Z.of_nat (length l)).
  { intros A l ->. unfold nbus. lia. }
  destruct (zget_ok (Checked c) t (Hlen _ _ Lc)) as (chk & ->). cbn [rbind].
  destruct (negb chk && existsb (Z.eqb t) outs); [exact Hc|].
  destruct (zset_ok (Checked c) t true (Hlen _ _ Lc)) as (checked & -> & Lchk). cbn [rbind].
  destruct (zget_ok (In_Config st) t (Hlen _ _ S1)) as (node & En). rewrite En. cbn [rbind].
  destruct (zget_ok (Visited st) t (Hlen _ _ S8)) as (vis & Ev). rewrite Ev. cbn [rbind].
  destruct ((bus_count node >? 0) && negb vis) eqn:Eb.
  2:{ simpl. eapply scanning_state; [exact Hc| | | |]; cbn; auto. }
  apply andb_true_iff in Eb. destruct Eb as [Eb1 Eb2]. apply negb_true_iff in Eb2. subst vis.
  destruct (zget_ok (HasParent st) t (Hlen _ _ S3)) as (hp & Ehp). rewrite Ehp. cbn [rbind].
  destruct (Hn Hst t node En) as (Lb & Hcount & Hval). rewrite HB in Hval.
  assert (Ti : Z.of_nat (Z.to_nat t) = t) by lia.
  assert (Tn : (Z.to_nat t < nbus st)%nat) by (unfold nbus; lia).
  destruct (zset_ok (Visited st) t true (Hlen _ _ S8)) as (vis' & Evis & Lvis).
  assert (Heff : eff (bus_list node) (bus_count node)
                 = Ok (firstn (Z.to_nat (bus_count node)) (bus_list node))).
  { unfold eff. replace (Z.of_nat (length (bus_list node)) <? bus_count node) with false;
      [reflexivity|]. symmetry. apply Z.ltb_ge. rewrite Lb. unfold nbus. lia. }
  assert (Hvalid : Forall (valid n) (firstn (Z.to_nat (bus_count node)) (bus_list node))).
  { apply Forall_forall. exact Hval. }
  destruct hp.
  - (* the bus has a parent: it goes to RevPlay *)
    assert (Hwait : waiting st (Z.to_nat t) = true).
    { unfold waiting, flag_set. rewrite Ti, Ehp, Ev. reflexivity. }
    pose proof (cnt_pos _ _ _ Tn Hwait) as Hpos. unfold W in Hw.
    destruct (zset_ok (RevPlay st) (r_p_count c) t) as (rp & Erp & Lrp).
    { rewrite S7. lia. }
    rewrite Erp. cbn [rbind]. rewrite Evis. cbn [rbind]. rewrite Heff. cbn [rbind fine snd].
    unfold scanning. cbn [sc_state Checked r_p_count added].
    split; [exact HB|].
    split; [split; [sizes | eapply nodes_valid_graph_eq; [|exact Hn];
                     apply graph_eq_set_scan; congruence]|].
    split; [exact Hst|]. split; [unfold nbus in *; cbn; congruence|].
    split; [lia|]. split; [|split; [exact Hw0|split]].
    + assert (Hflip : S (W false (set_scan rp vis' st)) = cnt (waiting st) (nbus st)).
      { unfold W. apply (cnt_flip (waiting st) _ (nbus st) (Z.to_nat t) Tn Hwait).
        - unfold waiting. cbn [set_scan HasParent Visited].
          rewrite (flag_set_zset _ _ _ _ (Z.to_nat t) Evis).
          destruct (Z.eq_dec t (Z.of_nat (Z.to_nat t))); [|lia].
          apply andb_false_r.
        - intros i Hi. unfold waiting. cbn [set_scan HasParent Visited].
          rewrite (flag_set_zset _ _ _ _ i Evis).
          destruct (Z.eq_dec t (Z.of_nat i)); [lia | reflexivity]. }
      replace (Z.to_nat (r_p_count c + 1)) with (S (Z.to_nat (r_p_count c))) by lia.
      lia.
    + intros j Hj. cbn [set_scan RevPlay busCount] in *.
      rewrite (zget_zset_other _ _ _ _ _ Erp) by lia. apply Htail. lia.
    + apply Forall_app. split; [exact Hadd|]. constructor; [exact Hvalid | constructor].
  - rewrite Evis. cbn [rbind]. rewrite Heff. cbn [rbind fine snd].
    unfold scanning. cbn [sc_state Checked r_p_count added].
    split; [exact HB|].
    split; [split; [sizes | eapply nodes_valid_graph_eq; [|exact Hn];
                     apply graph_eq_set_scan; congruence]|].
    split; [exact Hst|]. split; [unfold nbus in *; cbn; congruence|].
    split; [exact Hr|]. split; [|split; [exact Hw0|split]].
    + assert (Hsame : W false (set_scan (RevPlay st) vis' st) = W false st).
      { unfold W. apply cnt_ext. intros i Hi. unfold waiting.
        cbn [set_scan HasParent Visited].
        rewrite (flag_set_zset _ _ _ _ i Evis).
        destruct (Z.eq_dec t (Z.of_nat i)) as [->|]; [|reflexivity].
        assert (F : flag_set (HasParent st) i = false)
          by (unfold flag_set; rewrite Ehp; reflexivity).
        rewrite F. reflexivity. }
      rewrite Hsame. exact Hw.
    + exact Htail.
    + apply Forall_app. split; [exact Hadd|]. constructor; [exact Hvalid | constructor].
Qed.

Lemma check_node_safe outs l n w0 : forall c,
  scanning n w0 c -> Forall (valid n) l ->
  fine (fun r => scanning n w0 (snd r)) (check_node outs l c).
Proof.
  induction l as [|t rest IH]; intros c Hc Hl; simpl; [exact Hc|].
  inversion Hl as [|? ? Ht Hrest]; subst.
  eapply fine_bind; [apply (check_bus_safe outs t c n w0 Hc Ht)|].
  intros [[e|] c1] H1; cbn [snd] in H1; [exact H1|].
  apply IH; assumption.
Qed.

Lemma check_queue_safe outs n w0 fuel : forall queue c,
  scanning n w0 c -> Forall (Forall (valid n)) queue ->
  fine (fun r => scanning n w0 (snd r)) (check_queue fuel outs queue c).
Proof.
  induction fuel as [|fuel IH]; intros queue c Hc Hq.
  - destruct queue; simpl; [exact Hc | exact I].
  - destruct queue as [|l rest]; simpl; [exact Hc|].
    inversion Hq as [|? ? Hl Hrest]; subst.
    eapply fine_bind.
    + apply (check_node_safe outs l n w0); [|exact Hl].
      destruct Hc as (A0 & A1 & A2 & A3 & A4 & A5 & A6 & A7 & A8).
      unfold scanning. cbn [sc_state Checked r_p_count added]. auto 10.
    + intros [[e|] c1] H1; cbn [snd] in H1; [exact H1|].
      apply IH; [exact H1|]. apply Forall_app. split; [exact Hrest|].
      apply H1.
Qed.

Lemma fine_with {A} (P Q : A -> Prop) (m : res A) :
  fine P m -> (forall a, m = Ok a -> Q a) -> fine (fun a => P a /\ Q a) m.
Proof. destruct m; simpl; auto. Qed.

Lemma safe_allocate st : safe st -> safe (allocate_graph st).
Proof.
  intros [Hs Hn]. unfold allocate_graph.
  destruct (Bus_Config_Status st) eqn:Es; [split; assumption|].
  split.
  - pose proof Hs as (S1 & S2 & S3 & S4 & S5 & S6 & S7 & S8 & S9 & S10 & S11).
    unfold sized_all, nbus, set_status in *.
    cbn [busCount In_Config HasChild HasParent AuxInUse AuxOutInUse OutInUse RevPlay Visited
         ToOutPlayList ToAuxPlayList AuxToAuxPlayList].
    rewrite repeat_length. repeat split; assumption.
  - intros _ k node H. unfold set_status in H. cbn [In_Config] in H.
    apply zget_repeat in H. destruct H as [-> Hr].
    cbn [bus_count bus_list set_status busCount]. rewrite repeat_length.
    unfold nbus in *. split; [reflexivity|]. split; [lia|].
    intros p []. 
Qed.

Lemma W_allocate visit st : W visit (allocate_graph st) = W visit st.
Proof. unfold allocate_graph. destruct (Bus_Config_Status st); reflexivity. Qed.

Lemma W_le visit st : (W visit st <= nbus st)%nat.
Proof. unfold W. destruct visit; apply cnt_le. Qed.

(** *** check_bus_inst_config *)

Lemma check_config_safe slot visit st ins outs :
  safe st ->
  eff (auxin slot) (auxin_count slot) = Ok ins ->
  eff (auxout slot) (auxout_count slot) = Ok outs ->
  Forall (valid (busCount st)) ins ->
  fine (fun r => scanned (W visit st) (snd r) /\ graph_eq (allocate_graph st) (snd r))
       (check_bus_inst_config slot visit st).
Proof.
  intros Hsafe Hins Houts Hval.
  assert (Hq : forall r, check_bus_inst_config slot visit st = Ok r ->
                         graph_eq (allocate_graph st) (snd r)).
  { intros [e s'] H. eapply check_config_graph; eauto. }
  apply fine_with; [|exact Hq].
  unfold check_bus_inst_config.
  pose proof (safe_allocate st Hsafe) as Hsafe0.
  destruct (allocate_graph_frame st) as (B0 & _ & _ & _ & _ & _ & St0).
  rewrite <- (W_allocate visit st).
  set (st0 := allocate_graph st) in *.
  eapply fine_bind; [apply (reset_loop_safe visit st0 Hsafe0)|].
  intros [[s1 o1] a1] (Hs1 & G1 & HR & HW). cbn [fst] in *.
  rewrite Hins, Houts. cbn [rbind].
  assert (B1 : busCount s1 = busCount st0) by apply G1.
  assert (St1 : Bus_Config_Status s1 = true).
  { destruct G1 as (_ & E & _). congruence. }
  assert (N1 : nbus s1 = nbus st0) by (unfold nbus; congruence).
  eapply fine_bind.
  - apply (check_queue_safe outs (busCount st) (W visit st0)).
    + unfold scanning. cbn [sc_state Checked r_p_count added].
      split; [congruence|]. split; [exact Hs1|]. split; [exact St1|].
      split; [apply repeat_length|]. split; [lia|].
      split; [rewrite HW; simpl; lia|].
      split; [rewrite N1; apply W_le|].
      split; [|constructor].
      intros j Hj. apply HR. lia.
    + constructor; [exact Hval | constructor].
  - intros [e c1] Hc. cbn [snd fine] in *.
    destruct Hc as (A0 & A1 & A2 & A3 & A4 & A5 & A6 & A7 & A8).
    unfold scanned. split; [exact A1|]. split; [exact A2|].
    assert (Hcnt : (cnt (rev_set (sc_state c1)) (nbus (sc_state c1))
                    <= Z.to_nat (r_p_count c1))%nat).
    { apply cnt_below. intros j Hj. unfold rev_set.
      rewrite A7 by (unfold nbus in Hj; lia). reflexivity. }
    lia.
Qed.

(** *** insert_bus_slot *)

Lemma In_firstn_zset (l l' : list Z) c v p :
  0 <= c -> zset l c v = Ok l' ->
  In p (firstn (Z.to_nat (c + 1)) l') -> p = v \/ In p (firstn (Z.to_nat c) l).
Proof.
  intros Hc H Hp. destruct (zset_upd _ _ _ _ H) as [_ ->].
  replace (Z.to_nat (c + 1)) with (S (Z.to_nat c)) in Hp by lia.
  apply In_firstn_upd in Hp. exact Hp.
Qed.

Lemma insert_edge_keeps n s_out s_in st st' :
  allocated n st -> insert_edge s_out s_in st = Ok st' -> allocated n st'.
Proof.
  intros (HB & [Hs Hn] & Hst) H.
  pose proof Hs as (S1 & S2 & S3 & S4 & S5 & S6 & S7 & S8 & S9 & S10 & S11).
  destruct (insert_edge_inv _ _ _ _ H)
    as [hp' E333 Hhp Hlen | node bl ic hc au hp' E333 En Eb Ei Ehc Eau Hs' Hhp Hlen].
  - split; [exact HB|]. split; [|exact Hst]. split; [sizes|]. exact Hn.
  - pose proof (zset_length _ _ _ _ Eb) as Lb. pose proof (zset_length _ _ _ _ Ei) as Li.
    pose proof (zset_length _ _ _ _ Ehc) as Lh. pose proof (zset_length _ _ _ _ Eau) as La.
    split; [exact HB|]. split; [|exact Hst]. split; [sizes|].
    intros _ k nd Hk. cbn [set_graph In_Config busCount] in *.
    change (nbus (set_graph ic hc hp' au st)) with (nbus st).
    destruct (Hn Hst _ _ En) as (L0 & C0 & V0).
    destruct (Z.eq_dec s_out k) as [<-|Hne].
    + rewrite (zget_zset_same _ _ _ _ Ei) in Hk. injection Hk as <-.
      cbn [bus_count bus_list]. split; [congruence|].
      destruct (bus_count node + 1 >=? busCount st) eqn:Ew.
      * split; [lia|]. intros p [].
      * rewrite Z.geb_leb in Ew. apply Z.leb_gt in Ew. split; [lia|].
        intros p Hp. destruct (In_firstn_zset _ _ _ _ _ (proj1 C0) Eb Hp) as [->|Hold].
        -- pose proof (zset_range _ _ _ _ Ehc) as Hr. rewrite S2 in Hr.
           unfold valid, nbus in *. lia.
        -- apply V0. exact Hold.
    + rewrite (zget_zset_other _ _ _ _ _ Ei Hne) in Hk. apply (Hn Hst _ _ Hk).
Qed.

Lemma insert_edge_safe n s_out s_in st :
  allocated n st -> valid n s_out -> valid n s_in ->
  fine (allocated n) (insert_edge s_out s_in st).
Proof.
  intros Ha Ho Hi. pose proof Ha as (HB & [Hs Hn] & Hst).
  pose proof Hs as (S1 & S2 & S3 & S4 & S5 & S6 & S7 & S8 & S9 & S10 & S11).
  unfold valid in *.
  assert (Hlen : forall {A} (l : list A) t, 0 <= t < n -> length l = nbus st ->
                   0 <= t < Z.of_nat (length l)).
  { intros A l t Ht ->. unfold nbus. lia. }
  assert (E : exists st', insert_edge s_out s_in st = Ok st').
  { unfold insert_edge.
    destruct (zget_ok (HasParent st) s_out (Hlen _ _ _ Ho S3)) as (hp & ->). cbn [rbind].
    assert (Hhp : exists hp', (if negb hp && negb (s_in =? 333)
                               then zset (HasParent st) s_out true
                               else Ok (HasParent st)) = Ok hp').
    { destruct (negb hp && negb (s_in =? 333)); [|eauto].
      destruct (zset_ok (HasParent st) s_out true (Hlen _ _ _ Ho S3)) as (x & -> & _). eauto. }
    destruct Hhp as [hp' ->].
    cbn [rbind set_graph In_Config busCount HasChild AuxInUse HasParent].
    destruct (zget_ok (In_Config st) s_out (Hlen _ _ _ Ho S1)) as (node & En).
    rewrite En. cbn [rbind].
    destruct (negb (s_in =? 333)); [|eauto].
    destruct (Hn Hst _ _ En) as (L0 & C0 & V0).
    destruct (zset_ok (bus_list node) (bus_count node) s_in) as (bl & -> & _).
    { rewrite L0. unfold nbus. lia. }
    cbn [rbind].
    destruct (zset_ok (In_Config st) s_out
                (mkCheckNode bl (if bus_count node + 1 >=? busCount st then 0
                                 else bus_count node + 1)) (Hlen _ _ _ Ho S1))
      as (ic & -> & _).
    cbn [rbind].
    destruct (zset_ok (HasChild st) s_in true (Hlen _ _ _ Hi S2)) as (hc & -> & _).
    cbn [rbind].
    destruct (zset_ok (AuxInUse st) s_in true (Hlen _ _ _ Hi S4)) as (au & -> & _).
    cbn [rbind]. eauto. }
  destruct E as [st' E]. rewrite E. simpl. eapply insert_edge_keeps; eauto.
Qed.

Lemma insert_out_safe n ins s_out st :
  allocated n st -> valid n s_out -> Forall (valid n) ins ->
  fine (allocated n) (insert_out ins s_out st).
Proof.
  intros Ha Ho Hi. pose proof Ha as (HB & [Hs Hn] & Hst).
  pose proof Hs as (S1 & S2 & S3 & S4 & S5 & S6 & S7 & S8 & S9 & S10 & S11).
  unfold insert_out.
  assert (R : 0 <= s_out < Z.of_nat (length (AuxInUse st))).
  { rewrite S4. unfold valid, nbus in *. lia. }
  destruct (zget_ok (AuxInUse st) s_out R) as (au0 & ->). cbn [rbind].
  assert (Hau : exists au, (if negb au0 then zset (AuxInUse st) s_out true
                            else Ok (AuxInUse st)) = Ok au /\ length au = nbus st).
  { destruct (negb au0); [|eauto].
    destruct (zset_ok (AuxInUse st) s_out true R) as (x & -> & L). exists x. split; congruence. }
  destruct Hau as (au & -> & La). cbn [rbind].
  apply for_each_fine.
  - intros a x Hin Hx. apply insert_edge_safe; [exact Hx | exact Ho |].
    rewrite Forall_forall in Hi. apply Hi. exact Hin.
  - split; [exact HB|]. split; [|exact Hst]. split; [sizes|]. exact Hn.
Qed.

Lemma insert_bus_slot_safe n name slot st ins outs :
  allocated n st ->
  eff (auxin slot) (auxin_count slot) = Ok ins ->
  eff (auxout slot) (auxout_count slot) = Ok outs ->
  Forall (valid n) ins -> Forall (valid n) outs ->
  fine (fun r => allocated n (snd r)) (insert_bus_slot name slot st).
Proof.
  intros Ha Hins Houts Hi Ho. unfold insert_bus_slot. rewrite Hins, Houts. cbn [rbind].
  eapply fine_bind.
  - apply (for_each_fine (allocated n) (insert_out ins) outs); [|exact Ha].
    intros a x Hin Hx. apply insert_out_safe; [exact Hx | | exact Hi].
    rewrite Forall_forall in Ho. apply Ho. exact Hin.
  - intros s1 (HB & [Hs Hn] & Hst). simpl.
    split; [exact HB|]. split; [|exact Hst]. split; [sizes|]. exact Hn.
Qed.

(** *** create_play_order *)

Lemma roots_loop_safe n st :
  allocated n st ->
  fine (fun x : state * Z => playing (fst x, snd x, true) /\ busCount (fst x) = n)
       (for_upto (nbus st) roots_body (st, 0)).
Proof.
  intros Ha. pose proof Ha as (HB & Hsafe & Hst).
  eapply fine_mono;
    [| apply (for_upto_fine
          (fun (i : nat) (x : state * Z) =>
             let '(s, c) := x in
             allocated n s /\ HasParent s = HasParent st /\ 0 <= c /\
             (Z.to_nat c <= cnt (fun j => negb (with_parent st j)) i)%nat))].
  - intros [s c] ((HB1 & Hs1 & St1) & HP & Hc & Hle). cbn [fst snd playing].
    split; [|exact HB1]. split; [exact Hs1|]. split; [exact St1|]. split; [exact Hc|].
    assert (N : nbus s = nbus st) by (unfold nbus; congruence).
    unfold W. rewrite N.
    rewrite (cnt_ext (with_parent s) (with_parent st))
      by (intros; unfold with_parent; rewrite HP; reflexivity).
    pose proof (cnt_disjoint (fun j => negb (with_parent st j)) (with_parent st) (nbus st)) as D.
    specialize (D ltac:(intros i _ Hi; apply negb_true_iff in Hi; exact Hi)). lia.
  - split; [exact Ha|]. split; [reflexivity|]. split; [lia|]. simpl. lia.
  - intros i [s c] Hi ((HB1 & Hs1 & St1) & HP & Hc & Hle).
    pose proof Hs1 as [Hz Hn].
    pose proof Hz as (S1 & S2 & S3 & S4 & S5 & S6 & S7 & S8 & S9 & S10 & S11).
    assert (N : nbus s = nbus st) by (unfold nbus; congruence).
    assert (R : forall {A} (l : list A), length l = nbus s ->
                  0 <= Z.of_nat i < Z.of_nat (length l)).
    { intros A l ->. lia. }
    unfold roots_body.
    destruct (zget_ok (AuxInUse s) (Z.of_nat i) (R _ _ S4)) as (au & ->). cbn [rbind].
    destruct (zget_ok (HasParent s) (Z.of_nat i) (R _ _ S3)) as (hp & Ehp). rewrite Ehp.
    cbn [rbind]. rewrite cnt_S.
    assert (Hwp : with_parent st i = hp).
    { unfold with_parent, flag_set. rewrite <- HP, Ehp. destruct hp; reflexivity. }
    rewrite Hwp.
    destruct (au && negb hp) eqn:Eb.
    + apply andb_true_iff in Eb. destruct Eb as [_ Eb]. apply negb_true_iff in Eb. subst hp.
      cbn [negb].
      pose proof (cnt_le (fun j => negb (with_parent st j)) i) as Hle2.
      destruct (zset_ok (AuxToAuxPlayList s) c (Z.of_nat i)) as (l & -> & Ll).
      { rewrite S11, N. lia. }
      cbn [rbind fine].
      split; [split; [exact HB1|]; split; [split; [sizes | exact Hn] | exact St1]|].
      split; [exact HP|]. split; [lia|]. rewrite Eb. cbn [negb]. lia.
    + simpl. split; [split; [exact HB1|]; split; [exact Hs1 | exact St1]|].
      split; [exact HP|]. split; [exact Hc|]. destruct (negb hp); lia.
Qed.

Lemma rev_loop_safe n m : forall st c,
  allocated n st -> 0 <= c -> (m <= nbus st)%nat ->
  (Z.to_nat c + cnt (rev_set st) m <= nbus st)%nat ->
  fine (fun x : state * Z =>
          allocated n (fst x) /\ W false (fst x) = W false st /\ 0 <= snd x /\
          Z.to_nat (snd x) = (Z.to_nat c + cnt (rev_set st) m)%nat)
       (rev_loop m (st, c)).
Proof.
  induction m as [|m IH]; intros st c Ha Hc Hm Hroom.
  - simpl. split; [exact Ha|]. split; [reflexivity|]. split; [exact Hc|].
    unfold cnt. simpl. lia.
  - pose proof Ha as (HB & [Hz Hn] & Hst).
    pose proof Hz as (S1 & S2 & S3 & S4 & S5 & S6 & S7 & S8 & S9 & S10 & S11).
    cbn [rev_loop]. rewrite cnt_S in *.
    destruct (zget_ok (RevPlay st) (Z.of_nat m)) as (rp & Erp); [rewrite S7; lia|].
    rewrite Erp. cbn [rbind].
    assert (Hrs : rev_set st m = negb (rp =? -1)).
    { unfold rev_set. rewrite Erp. reflexivity. }
    rewrite Hrs in *.
    destruct (negb (rp =? -1)).
    + destruct (zset_ok (AuxToAuxPlayList st) c rp) as (l & -> & Ll); [rewrite S11; lia|].
      cbn [rbind].
      set (s1 := set_play (ToOutPlayList st) (ToAuxPlayList st) l st).
      assert (Ha1 : allocated n s1).
      { split; [exact HB|]. split; [split; [unfold s1; sizes | exact Hn] | exact Hst]. }
      eapply fine_mono; [|apply (IH s1 (c + 1) Ha1)].
      * intros [s2 c2] (A & Bw & C & D). cbn [fst snd] in *.
        split; [exact A|]. split; [exact Bw|]. split; [exact C|].
        change (rev_set s1) with (rev_set st) in D. lia.
      * lia.
      * change (nbus s1) with (nbus st). lia.
      * change (nbus s1) with (nbus st). change (rev_set s1) with (rev_set st). lia.
    + cbn [rbind]. eapply fine_mono; [|apply (IH st c Ha Hc)]; [|lia|lia].
      intros [s2 c2] (A & Bw & C & D). cbn [fst snd] in *.
      split; [exact A|]. split; [exact Bw|]. split; [exact C|]. lia.
Qed.

Lemma eff_one (a : list Z) v l :
  zset a 0 v = Ok l -> eff l 1 = Ok [v].
Proof.
  intros H. pose proof (zset_range _ _ _ _ H) as R.
  destruct (zset_upd _ _ _ _ H) as [_ ->]. unfold eff.
  rewrite length_upd.
  replace (Z.of_nat (length a) <? 1) with false by (symmetry; apply Z.ltb_ge; lia).
  destruct a as [|x a]; [simpl in R; lia|]. reflexivity.
Qed.

Lemma bf_traverse_safe n i visit st :
  allocated n st -> valid n i ->
  fine (fun s' => scanned (W visit st) s' /\ graph_eq st s')
       (bf_traverse i visit st).
Proof.
  intros (HB & Hsafe & Hst) Hi. unfold bf_traverse.
  assert (L : length (repeat 0 (Z.to_nat (busCount st))) = nbus st) by apply repeat_length.
  assert (R : 0 <= 0 < Z.of_nat (length (repeat 0 (Z.to_nat (busCount st))))).
  { rewrite L. unfold valid, nbus in *. lia. }
  unfold new_BusSlot. cbn [auxin auxout s_in s_out].
  destruct (zset_ok _ 0 i R) as (ai & Eai & _). rewrite Eai. cbn [rbind].
  destruct (zset_ok _ 0 333 R) as (ao & Eao & _). rewrite Eao. cbn [rbind].
  eapply fine_bind.
  - apply (check_config_safe _ visit st [i] [333] Hsafe).
    + cbn [auxin auxin_count]. eapply eff_one; eauto.
    + cbn [auxout auxout_count]. eapply eff_one; eauto.
    + constructor; [rewrite HB; exact Hi | constructor].
  - intros [e s'] [Hsc G]. cbn [snd fine] in *. split; [exact Hsc|].
    rewrite (allocate_graph_same _ Hst) in G. exact G.
Qed.

Lemma leaves_body_safe n (i : nat) x :
  (i < nbus (fst (fst x)))%nat -> playing x -> busCount (fst (fst x)) = n ->
  fine (fun y => playing y /\ busCount (fst (fst y)) = n) (leaves_body (Z.of_nat i) x).
Proof.
  destruct x as [[st c] visit]. cbn [fst]. intros Hi (Hsafe & Hst & Hc & Hroom) HB.
  pose proof Hsafe as [Hz Hn].
  pose proof Hz as (S1 & S2 & S3 & S4 & S5 & S6 & S7 & S8 & S9 & S10 & S11).
  assert (R : forall {A} (l : list A), length l = nbus st ->
                0 <= Z.of_nat i < Z.of_nat (length l)).
  { intros A l ->. lia. }
  unfold leaves_body.
  destruct (zget_ok (AuxInUse st) (Z.of_nat i) (R _ _ S4)) as (au & ->). cbn [rbind].
  destruct (zget_ok (HasChild st) (Z.of_nat i) (R _ _ S2)) as (hc & ->). cbn [rbind].
  destruct (au && negb hc).
  2:{ simpl. split; [|exact HB]. split; [exact Hsafe|]. auto. }
  eapply fine_bind.
  - apply (bf_traverse_safe n (Z.of_nat i) visit st).
    + split; [exact HB|]. split; assumption.
    + unfold valid, nbus in *. lia.
  - intros s1 [(Hs1 & St1 & Hcnt) G].
    assert (B1 : busCount s1 = busCount st) by apply G.
    assert (N1 : nbus s1 = nbus st) by (unfold nbus; congruence).
    eapply fine_bind.
    + apply (rev_loop_safe n (nbus s1) s1 c); [| exact Hc | lia | rewrite N1 in *; lia].
      split; [congruence|]. split; assumption.
    + intros [s2 c2] ((HB2 & Hs2 & St2) & Hw2 & Hc2 & Hn2). cbn [fst snd fine playing] in *.
      split; [|exact HB2]. split; [exact Hs2|]. split; [exact St2|]. split; [exact Hc2|].
      assert (N2 : nbus s2 = nbus st) by (unfold nbus; congruence).
      unfold W at 1. unfold W in Hw2. rewrite N2. rewrite N2, N1 in Hw2.
      unfold W at 1 in Hcnt. rewrite N1 in Hcnt. rewrite N1 in Hn2. lia.
Qed.

Lemma create_play_order_safe n st :
  allocated n st -> fine (allocated n) (create_play_order st).
Proof.
  intros Ha. pose proof Ha as (HB & Hsafe & Hst). unfold create_play_order.
  eapply fine_bind; [apply (roots_loop_safe n st Ha)|].
  intros [s1 c1] [Hp B1]. cbn [fst snd] in *.
  eapply fine_bind.
  - apply (for_upto_fine
            (fun (i : nat) (y : state * Z * bool) => playing y /\ busCount (fst (fst y)) = n)).
    + split; assumption.
    + intros i y Hi [Hy By]. apply leaves_body_safe; [|exact Hy | exact By].
      unfold nbus in *. rewrite By, <- HB. exact Hi.
  - intros [[s2 c2] v2] [(Hs2 & St2 & _) B2]. cbn [fst fine] in *.
    split; [exact B2|]. split; assumption.
Qed.

(** *** What any call keeps *)

Ltac oksteps :=
  repeat match goal with
  | H : rbind ?m _ = Ok _ |- _ =>
      destruct m eqn:?; cbn [rbind] in H; try discriminate H;
      repeat match goal with p : (_ * _)%type |- _ => destruct p end
  | H : (if ?b then _ else _) = Ok _ |- _ => destruct b
  | H : Ok _ = Ok _ |- _ => injection H; clear H; intros; subst
  end.

Lemma sizes_kept_refl a : sizes_kept a a.
Proof. unfold sizes_kept. repeat split; reflexivity. Qed.

Lemma sizes_kept_trans a b c : sizes_kept a b -> sizes_kept b c -> sizes_kept a c.
Proof.
  unfold sizes_kept. intros (A1 & A2 & A3 & A4 & A5 & A6 & A7) (B1 & B2 & B3 & B4 & B5 & B6 & B7).
  repeat split; etransitivity; eassumption.
Qed.

Lemma safe_same a b : graph_eq a b -> sizes_kept a b -> safe a -> safe b.
Proof.
  intros G Hs [Hz Hn]. split; [|exact (nodes_valid_graph_eq a b G Hn)].
  destruct G as (B1 & B2 & B3 & B4 & B5 & B6 & _).
  destruct Hs as (A1 & A2 & A3 & A4 & A5 & A6 & A7).
  destruct Hz as (S1 & S2 & S3 & S4 & S5 & S6 & S7 & S8 & S9 & S10 & S11).
  unfold sized_all, nbus in *. rewrite B1, B3, B4, B5, B6.
  repeat split; try assumption; etransitivity; eassumption.
Qed.

Ltac sizes_kept_now :=
  unfold sizes_kept;
  repeat match goal with
  | H : zset _ _ _ = Ok _ |- _ => apply zset_length in H
  end;
  cbn [set_scan set_play set_graph set_in_use set_queue set_status fst snd sc_state l_state
       AuxOutInUse OutInUse RevPlay Visited ToOutPlayList ToAuxPlayList AuxToAuxPlayList] in *;
  repeat split; congruence.

Lemma reset_body_sizes visit i x x' :
  reset_body visit i x = Ok x' -> sizes_kept (fst (fst x)) (fst (fst x')).
Proof.
  destruct x as [[st o] a]. unfold reset_body. intros H.
  destruct visit; oksteps; sizes_kept_now.
Qed.

Lemma check_bus_sizes outs t c r c' :
  check_bus outs t c = Ok (r, c') -> sizes_kept (sc_state c) (sc_state c').
Proof.
  unfold check_bus. intros H. oksteps; sizes_kept_now.
Qed.

Lemma check_node_sizes outs l : forall c r c',
  check_node outs l c = Ok (r, c') -> sizes_kept (sc_state c) (sc_state c').
Proof.
  induction l as [|t rest IH]; intros c r c' H; simpl in H.
  - injection H as _ <-. apply sizes_kept_refl.
  - destruct (check_bus outs t c) as [[[e|] c1]| |] eqn:E; cbn [rbind] in H; try discriminate.
    + injection H as _ <-. eapply check_bus_sizes; eauto.
    + eapply sizes_kept_trans; [eapply check_bus_sizes; eauto | eapply IH; eauto].
Qed.

Lemma check_queue_sizes outs fuel : forall queue c e c',
  check_queue fuel outs queue c = Ok (e, c') -> sizes_kept (sc_state c) (sc_state c').
Proof.
  induction fuel as [|fuel IH]; intros queue c e c' H.
  - destruct queue; simpl in H; [|discriminate]. injection H as _ <-. apply sizes_kept_refl.
  - destruct queue as [|l rest]; simpl in H.
    + injection H as _ <-. apply sizes_kept_refl.
    + destruct (check_node outs l _) as [[[e1|] c1]| |] eqn:E; cbn [rbind] in H;
        try discriminate.
      * injection H as _ <-. apply check_node_sizes in E. exact E.
      * apply check_node_sizes in E. cbn [sc_state] in E.
        eapply sizes_kept_trans; [exact E | eapply IH; eauto].
Qed.

Lemma check_config_keeps slot visit st e st' :
  safe st -> check_bus_inst_config slot visit st = Ok (e, st') ->
  safe st' /\ Bus_Config_Status st' = true /\ busCount st' = busCount st.
Proof.
  intros Hs H. pose proof (check_config_graph _ _ _ _ _ H) as G.
  destruct (allocate_graph_frame st) as (B0 & _ & _ & _ & _ & _ & St0).
  split; [|split; [destruct G as (_ & -> & _); exact St0 | destruct G as (-> & _); exact B0]].
  apply (safe_same (allocate_graph st)); [exact G | | apply safe_allocate; exact Hs].
  unfold check_bus_inst_config in H.
  destruct (for_upto _ _ _) as [[[s1 o1] a1]| |] eqn:E1; cbn [rbind] in H; try discriminate.
  destruct (eff (auxin slot) _) as [ins| |]; cbn [rbind] in H; try discriminate.
  destruct (eff (auxout slot) _) as [outs| |]; cbn [rbind] in H; try discriminate.
  destruct (check_queue _ _ _ _) as [[e1 c1]| |] eqn:E2; cbn [rbind] in H; try discriminate.
  injection H as _ <-. apply check_queue_sizes in E2. cbn [sc_state snd] in *.
  eapply sizes_kept_trans; [|exact E2].
  apply (for_upto_inv (fun (a b : state * Z * Z) => sizes_kept (fst (fst a)) (fst (fst b))))
    in E1; [exact E1 | | |].
  - intros s. apply sizes_kept_refl.
  - intros a b c. apply sizes_kept_trans.
  - intros i s s'. apply reset_body_sizes.
Qed.

Lemma mark_chans_length flag s e flag' :
  mark_chans flag s e = Ok flag' -> length flag' = length flag.
Proof.
  unfold mark_chans.
  apply (for_each_inv (fun (a b : list bool) => length b = length a)).
  - reflexivity.
  - intros a b c H1 H2. congruence.
  - intros x f f' H. eapply zset_length; eauto.
Qed.

Lemma add_bus_sizes type startchan endchan x r x' :
  add_bus type startchan endchan x = Ok (r, x') -> sizes_kept (l_state x) (l_state x').
Proof.
  unfold add_bus. intros H.
  destruct type; oksteps;
    repeat match goal with
    | M : mark_chans _ _ _ = Ok _ |- _ => apply mark_chans_length in M
    end; sizes_kept_now.
Qed.

Lemma parse_loop_sizes busnames : forall x r x',
  parse_loop busnames x = Ok (r, x') -> sizes_kept (l_state x) (l_state x').
Proof.
  induction busnames as [|b rest IH]; intros x r x' H; cbn [parse_loop] in H.
  - injection H as _ <-. apply sizes_kept_refl.
  - destruct (parse_bus_name _ _) as [[type sc ec|e]| |]; cbn [rbind] in H; try discriminate.
    + destruct (add_bus type sc ec x) as [[[code|] x1]| |] eqn:E; cbn [rbind] in H;
        try discriminate.
      * injection H as _ <-. eapply add_bus_sizes; eauto.
      * eapply sizes_kept_trans; [eapply add_bus_sizes; eauto | eapply IH; eauto].
    + destruct e; try discriminate; injection H as _ <-; apply sizes_kept_refl.
Qed.

Lemma insert_out_keeps n ins s_out st st' :
  allocated n st -> insert_out ins s_out st = Ok st' -> allocated n st'.
Proof.
  intros (HB & [Hs Hn] & Hst) H. unfold insert_out in H.
  destruct (zget (AuxInUse st) s_out) as [au0| |]; cbn [rbind] in H; try discriminate.
  destruct (if negb au0 then _ else _) as [au| |] eqn:Ea; cbn [rbind] in H; try discriminate.
  assert (La : length au = length (AuxInUse st)).
  { destruct (negb au0); [eapply zset_length; eauto | injection Ea as <-; reflexivity]. }
  revert H. apply (for_each_keeps (allocated n)).
  - intros x s s' Ha Hx. eapply insert_edge_keeps; eauto.
  - split; [exact HB|]. split; [|exact Hst]. split; [sizes|]. exact Hn.
Qed.

Lemma insert_bus_slot_keeps n name slot st e st' :
  allocated n st -> insert_bus_slot name slot st = Ok (e, st') -> allocated n st'.
Proof.
  intros Ha H. unfold insert_bus_slot in H.
  destruct (eff (auxin slot) _) as [ins| |]; cbn [rbind] in H; try discriminate.
  destruct (eff (auxout slot) _) as [outs| |]; cbn [rbind] in H; try discriminate.
  destruct (for_each outs (insert_out ins) st) as [s1| |] eqn:E; cbn [rbind] in H;
    try discriminate.
  injection H as _ <-.
  assert (H1 : allocated n s1).
  { revert E. apply (for_each_keeps (allocated n)); [|exact Ha].
    intros x s s' Hs Hx. eapply insert_out_keeps; eauto. }
  destruct H1 as (HB & [Hs Hn] & Hst).
  split; [exact HB|]. split; [|exact Hst]. split; [sizes|]. exact Hn.
Qed.

Lemma roots_body_sizes i x x' :
  roots_body i x = Ok x' -> sizes_kept (fst x) (fst x').
Proof.
  destruct x as [st c]. unfold roots_body. intros H. oksteps; sizes_kept_now.
Qed.

Lemma rev_loop_sizes m : forall x x',
  rev_loop m x = Ok x' -> sizes_kept (fst x) (fst x').
Proof.
  induction m as [|m IH]; intros [st c] x' H; cbn [rev_loop] in H.
  - injection H as <-. apply sizes_kept_refl.
  - destruct (zget (RevPlay st) _) as [rp| |]; cbn [rbind] in H; try discriminate.
    destruct (if negb (rp =? -1) then _ else _) as [x1| |] eqn:E1; cbn [rbind] in H;
      try discriminate.
    apply IH in H. eapply sizes_kept_trans; [|exact H].
    destruct (negb (rp =? -1)); oksteps; sizes_kept_now.
Qed.

Lemma allocated_same n a b : graph_eq a b -> sizes_kept a b -> allocated n a -> allocated n b.
Proof.
  intros G Hs (HB & Hsafe & Hst). pose proof G as (B1 & B2 & _).
  split; [congruence|]. split; [eapply safe_same; eauto | congruence].
Qed.

Lemma roots_body_keeps n i x x' :
  allocated n (fst x) -> roots_body i x = Ok x' -> allocated n (fst x').
Proof.
  intros Ha H. apply (allocated_same n (fst x)); [| eapply roots_body_sizes; eauto | exact Ha].
  destruct x as [st c]. unfold roots_body in H. oksteps; cbn [fst];
    first [apply graph_eq_set_play | apply graph_eq_refl].
Qed.

Lemma rev_loop_keeps n m : forall x x',
  allocated n (fst x) -> rev_loop m x = Ok x' -> allocated n (fst x').
Proof.
  induction m as [|m IH]; intros [st c] x' Ha H; cbn [rev_loop] in H.
  - injection H as <-. exact Ha.
  - destruct (zget (RevPlay st) _) as [rp| |]; cbn [rbind] in H; try discriminate.
    destruct (if negb (rp =? -1) then _ else _) as [x1| |] eqn:E1; cbn [rbind] in H;
      try discriminate.
    apply IH in H; [exact H|].
    destruct (negb (rp =? -1)).
    + destruct (zset _ _ _) as [l| |] eqn:El; cbn [rbind] in E1; try discriminate.
      injection E1 as <-. cbn [fst] in *.
      apply (allocated_same n st); [apply graph_eq_set_play | sizes_kept_now | exact Ha].
    + injection E1 as <-. exact Ha.
Qed.

Lemma bf_traverse_keeps n i visit st st' :
  allocated n st -> bf_traverse i visit st = Ok st' -> allocated n st'.
Proof.
  intros (HB & Hs & Hst) H. unfold bf_traverse in H.
  destruct (zset _ 0 i) as [ai| |]; cbn [rbind] in H; try discriminate.
  destruct (zset _ 0 333) as [ao| |]; cbn [rbind] in H; try discriminate.
  destruct (check_bus_inst_config _ visit st) as [[e s1]| |] eqn:E; cbn [rbind] in H;
    try discriminate.
  injection H as <-. cbn [snd].
  destruct (check_config_keeps _ _ _ _ _ Hs E) as (H1 & H2 & H3).
  split; [congruence|]. split; assumption.
Qed.

Lemma leaves_body_keeps n i x x' :
  allocated n (fst (fst x)) -> leaves_body i x = Ok x' -> allocated n (fst (fst x')).
Proof.
  destruct x as [[st c] v]. cbn [fst]. intros Ha H. unfold leaves_body in H.
  destruct (zget (AuxInUse st) i) as [au| |]; cbn [rbind] in H; try discriminate.
  destruct (zget (HasChild st) i) as [hc| |]; cbn [rbind] in H; try discriminate.
  destruct (au && negb hc).
  - destruct (bf_traverse i v st) as [s1| |] eqn:E1; cbn [rbind] in H; try discriminate.
    destruct (rev_loop _ _) as [y| |] eqn:E2; cbn [rbind] in H; try discriminate.
    injection H as <-. cbn [fst].
    apply (rev_loop_keeps n _ _ _) in E2; [exact E2|]. cbn [fst].
    eapply bf_traverse_keeps; eauto.
  - injection H as <-. exact Ha.
Qed.

Lemma for_upto_keeps {S} (P : S -> Prop) (body : Z -> S -> res S) :
  (forall i s s', P s -> body i s = Ok s' -> P s') ->
  forall n s s', P s -> for_upto n body s = Ok s' -> P s'.
Proof.
  intros Hb. induction n as [|n IH]; intros s s' HP H; simpl in H.
  - injection H as <-. exact HP.
  - destruct (for_upto n body s) as [s1| |] eqn:E; cbn [rbind] in H; try discriminate.
    eapply Hb; [|exact H]. eapply IH; eauto.
Qed.

Lemma create_play_order_keeps n st st' :
  allocated n st -> create_play_order st = Ok st' -> allocated n st'.
Proof.
  intros Ha H. unfold create_play_order in H.
  destruct (for_upto (nbus st) roots_body (st, 0)) as [[s1 c1]| |] eqn:E1; cbn [rbind] in H;
    try discriminate.
  destruct (for_upto (nbus st) leaves_body _) as [[[s2 c2] v2]| |] eqn:E2; cbn [rbind] in H;
    try discriminate.
  injection H as <-. cbn [fst snd] in *.
  apply (for_upto_keeps (fun x : state * Z => allocated n (fst x))) in E1;
    [|intros i s s'; apply roots_body_keeps | exact Ha].
  apply (for_upto_keeps (fun x : state * Z * bool => allocated n (fst (fst x)))) in E2;
    [exact E2 | intros i s s'; apply leaves_body_keeps | exact E1].
Qed.

Lemma safe_initial n chans : safe (initial n chans).
Proof.
  split.
  - unfold sized_all, initial, nbus. cbn. rewrite !repeat_length. repeat split; reflexivity.
  - intros H. discriminate H.
Qed.

Lemma safe_set_queue q st : safe st -> safe (set_queue q st).
Proof. intros [Hs Hn]. split; [sizes | exact Hn]. Qed.

(** A call that returns leaves every array with busCount elements, and the
    parents that the nodes list are bus numbers. *)
Lemma bus_config_safe name busnames st e st' :
  safe st -> bus_config name busnames st = Ok (e, st') ->
  safe st' /\ busCount st' = busCount st.
Proof.
  intros Hs H. unfold bus_config in H.
  destruct (length busnames <? 1)%nat; [injection H as _ <-; auto|].
  destruct (negb (rtsetparams_called st)); [injection H as _ <-; auto|].
  destruct (parse_loop busnames _) as [[[code|] x]| |] eqn:Ep; cbn [rbind] in H;
    try discriminate.
  - injection H as _ <-. pose proof (parse_loop_graph _ _ _ _ Ep) as G.
    pose proof (parse_loop_sizes _ _ _ _ Ep) as Z1. cbn [l_state] in *.
    split; [eapply safe_same; eauto | apply G].
  - pose proof (parse_loop_graph _ _ _ _ Ep) as G.
    pose proof (parse_loop_sizes _ _ _ _ Ep) as Z1. cbn [l_state] in *.
    assert (H0 : safe (l_state x)) by (eapply safe_same; eauto).
    assert (B0 : busCount (l_state x) = busCount st) by apply G.
    destruct (check_bus_inst_config _ true _) as [[ce s1]| |] eqn:Ec; cbn [rbind] in H;
      try discriminate.
    destruct (check_config_keeps _ _ _ _ _ H0 Ec) as (H1 & St1 & B1).
    assert (A1 : allocated (busCount st) s1).
    { split; [congruence|]. split; assumption. }
    destruct ce; try (injection H as _ <-; split; [exact H1 | congruence]).
    destruct (insert_bus_slot name _ s1) as [[ie s2]| |] eqn:Ei; cbn [rbind] in H;
      try discriminate.
    pose proof (insert_bus_slot_keeps _ _ _ _ _ _ A1 Ei) as A2.
    destruct ie; try (injection H as _ <-; split; [apply A2 | apply A2]).
    destruct (create_play_order _) as [s4| |] eqn:Eo; cbn [rbind] in H; try discriminate.
    injection H as _ <-.
    assert (A3 : allocated (busCount st)
                   (set_queue (update_head name
                                 (add_chain_counts (chain_incount x) (chain_outcount x))
                                 (Inst_Bus_Config s2)) s2)).
    { destruct A2 as (B2 & S2 & St2). split; [exact B2|].
      split; [apply safe_set_queue; exact S2 | exact St2]. }
    pose proof (create_play_order_keeps _ _ _ A3 Eo) as A4.
    split; apply A4.
Qed.

Lemma run_safe calls : forall st st',
  safe st -> run calls st = Ok st' -> safe st' /\ busCount st' = busCount st.
Proof.
  induction calls as [|[name busnames] rest IH]; intros st st' Hs H; simpl in H.
  - injection H as <-. auto.
  - destruct (bus_config name busnames st) as [[e s1]| |] eqn:E; cbn [rbind] in H;
      try discriminate.
    destruct (bus_config_safe _ _ _ _ _ Hs E) as [H1 B1]. cbn [snd] in H.
    destruct (IH _ _ H1 H) as [H2 B2]. split; [exact H2 | congruence].
Qed.

(** *** The whole call *)

Lemma bus_config_fine name busnames st x ins outs :
  safe st ->
  parse_loop busnames (mkLocals st (new_BusSlot (busCount st)) 0 0) = Ok (None, x) ->
  eff (auxin (bus_slot x)) (auxin_count (bus_slot x)) = Ok ins ->
  eff (auxout (bus_slot x)) (auxout_count (bus_slot x)) = Ok outs ->
  Forall (valid (busCount st)) ins -> Forall (valid (busCount st)) outs ->
  fine (fun r => safe (snd r)) (bus_config name busnames st).
Proof.
  intros Hs Hp Hins Houts Hi Ho. unfold bus_config.
  destruct (length busnames <? 1)%nat; [exact Hs|].
  destruct (negb (rtsetparams_called st)); [exact Hs|].
  rewrite Hp. cbn [rbind].
  pose proof (parse_loop_graph _ _ _ _ Hp) as G.
  pose proof (parse_loop_sizes _ _ _ _ Hp) as Z1. cbn [l_state] in *.
  assert (H0 : safe (l_state x)) by (eapply safe_same; eauto).
  assert (B0 : busCount (l_state x) = busCount st) by apply G.
  eapply fine_bind.
  { apply (check_config_safe (bus_slot x) true (l_state x) ins outs H0 Hins Houts).
    rewrite B0. exact Hi. }
  intros [ce s1] [(H1 & St1 & _) G1]. cbn [snd] in *.
  destruct (allocate_graph_frame (l_state x)) as (Ba & _).
  assert (B1 : busCount s1 = busCount st).
  { destruct G1 as (-> & _). congruence. }
  destruct ce; try exact H1.
  eapply fine_bind.
  { apply (insert_bus_slot_safe (busCount st) name (bus_slot x) s1 ins outs);
      try assumption.
    split; [exact B1 | split; assumption]. }
  intros [ie s2] A2. cbn [snd] in A2.
  destruct ie; try (cbn [fine snd]; apply A2).
  eapply fine_bind.
  { apply (create_play_order_safe (busCount st)).
    destruct A2 as (B2 & S2 & St2). split; [exact B2|].
    split; [apply safe_set_queue; exact S2 | exact St2]. }
  intros s4 A4. cbn [fine snd]. apply A4.
Qed.



(** Whatever the score, the parents that a node of the graph lists (the
    first bus_count elements of its bus_list) are bus numbers: at least 0
    and below busCount, so that the traversal of the graph indexes its arrays
    with them inside their bounds. *)
Theorem listed_parents_are_bus_numbers
  (n chans : Z) (calls : list (String.string * list String.string)) (st : state)
  (k : Z) (node : CheckNode) (p : Z) :
  run calls (initial n chans) = Ok st ->
  Bus_Config_Status st = true ->
  zget (In_Config st) k = Ok node ->
  In p (firstn (Z.to_nat (bus_count node)) (bus_list node)) ->
  busCount st = n /\ 0 <= p < n.
Proof.
  intros Hrun Hst Hk Hp.
  destruct (run_safe calls _ _ (safe_initial n chans) Hrun) as [[_ Hn] B].
  cbn [initial busCount] in B. split; [exact B|].
  destruct (Hn Hst k node Hk) as (_ & _ & V). specialize (V p Hp).
  unfold valid in V. lia.
Qed.

Lemma listed_parents_are_bus_numbers_witness : busCount after_A = 4 /\ 0 <= 0 < 4.
Proof.
  apply (listed_parents_are_bus_numbers 4 2 one_edge after_A 1 (mkCheckNode [0; 0; 0; 0] 1) 0).
  - vm_compute. reflexivity.
  - vm_compute. reflexivity.
  - vm_compute. reflexivity.
  - simpl. left. reflexivity.
Defined.

End BusSafeFacts.

(** ** set_option: keys, values and blanks *)

Module SetOptionFacts.
Import Ascii.
Import Bus SetOption.
Local Open Scope list_scope.
Local Open Scope Z_scope.

(** *** The copy of arg into opt *)

Lemma isspace_equals : isspace "="%char = false.
Proof. reflexivity. Qed.

Lemma strip_loop_key l : forall out,
  ~ In "="%char l ->
  fold_left strip_body l (0, out) = (0, out ++ filter no_blank l).
Proof.
  induction l as [|c l IH]; intros out Hn; simpl.
  - rewrite app_nil_r. reflexivity.
  - assert (Hc : Ascii.eqb c "="%char = false).
    { apply Ascii.eqb_neq. intros ->. apply Hn. left. reflexivity. }
    assert (Hl : ~ In "="%char l) by (intros H; apply Hn; right; exact H).
    unfold no_blank at 1. destruct (isspace c); cbn [negb].
    + apply IH. exact Hl.
    + rewrite Hc. rewrite IH by exact Hl. rewrite <- app_assoc. reflexivity.
Qed.

Lemma strip_loop_blanks sp : forall out,
  Forall blank sp -> fold_left strip_body sp (1, out) = (1, out).
Proof.
  induction sp as [|c sp IH]; intros out H; simpl; [reflexivity|].
  inversion H as [|? ? Hc Hs]; subst. unfold blank in Hc. rewrite Hc. cbn [negb].
  apply IH. exact Hs.
Qed.

Lemma strip_loop_rest l : forall s out,
  s > 1 -> fold_left strip_body l (s, out) = (s, out ++ l).
Proof.
  induction l as [|c l IH]; intros s out Hs; simpl.
  - rewrite app_nil_r. reflexivity.
  - assert (E : (s >? 1) = true) by (apply Z.gtb_lt; lia). rewrite E.
    rewrite IH by exact Hs. rewrite <- app_assoc. reflexivity.
Qed.

Lemma strip_loop_length l : forall x,
  (length (snd (fold_left strip_body l x)) <= length (snd x) + length l)%nat.
Proof.
  induction l as [|c l IH]; intros [s out]; simpl; [lia|].
  destruct (s >? 1).
  - specialize (IH (s, out ++ [c])). cbn [snd] in IH. rewrite length_app in IH. simpl in IH. lia.
  - destruct (negb (isspace c)).
    + match goal with |- context [fold_left strip_body l (?s', _)] =>
        specialize (IH (s', out ++ [c])) end.
      cbn [snd] in IH. rewrite length_app in IH. simpl in IH. lia.
    + specialize (IH (s, out)). cbn [snd] in IH. lia.
Qed.

Lemma strip_whole s :
  (length s <= 127)%nat -> strip (Some s) = snd (fold_left strip_body s (0, [])).
Proof.
  intros H. unfold strip, OPT_STRLEN.
  replace (128 - 1 <? length s)%nat with false by (symmetry; apply Nat.ltb_ge; lia).
  rewrite firstn_all. reflexivity.
Qed.

Lemma strip_key_value key sp v :
  ~ In "="%char key -> Forall blank sp ->
  match v with [] => True | c :: _ => isspace c = false end ->
  (length (key_value key sp v) <= 127)%nat ->
  strip (Some (key_value key sp v)) = filter no_blank key ++ "="%char :: v.
Proof.
  intros Hk Hsp Hv Hlen. rewrite strip_whole by exact Hlen. unfold key_value.
  rewrite fold_left_app, (strip_loop_key key [] Hk). cbn [app fold_left].
  unfold strip_body at 2. cbn [Z.gtb Z.compare]. rewrite isspace_equals. cbn [negb Z.eqb].
  rewrite Ascii.eqb_refl. rewrite fold_left_app, (strip_loop_blanks sp _ Hsp).
  destruct v as [|c v]; cbn [fold_left snd].
  - reflexivity.
  - unfold strip_body at 2. cbn [Z.gtb Z.compare]. rewrite Hv. cbn [negb Z.eqb Pos.eqb Z.add].
    change (1 >? 1) with false. cbv iota.
    rewrite strip_loop_rest by lia. cbn [snd]. rewrite <- !app_assoc. reflexivity.
Qed.

Lemma strip_plain s :
  ~ In "="%char s -> (length s <= 127)%nat -> strip (Some s) = filter no_blank s.
Proof.
  intros Hk Hlen. rewrite strip_whole by exact Hlen. rewrite (strip_loop_key s [] Hk).
  reflexivity.
Qed.

Lemma split_key k v :
  ~ In "="%char k -> split_at_equals (k ++ "="%char :: v) = (k, Some v).
Proof.
  induction k as [|c k IH]; intros Hn; simpl.
  - reflexivity.
  - assert (Hc : Ascii.eqb c "="%char = false).
    { apply Ascii.eqb_neq. intros ->. apply Hn. left. reflexivity. }
    rewrite Hc, IH; [reflexivity|]. intros H. apply Hn. right. exact H.
Qed.

Lemma split_plain k : ~ In "="%char k -> split_at_equals k = (k, None).
Proof.
  induction k as [|c k IH]; intros Hn; simpl.
  - reflexivity.
  - assert (Hc : Ascii.eqb c "="%char = false).
    { apply Ascii.eqb_neq. intros ->. apply Hn. left. reflexivity. }
    rewrite Hc, IH; [reflexivity|]. intros H. apply Hn. right. exact H.
Qed.

Lemma filter_no_equals (f : ascii -> bool) k :
  ~ In "="%char k -> ~ In "="%char (filter f k).
Proof. intros Hn H. apply filter_In in H. apply Hn. apply H. Qed.

Section Args.
Context {O : Type} {ops : Options O}.

Lemma one_option_key_value called key sp v (o : O) :
  ~ In "="%char key -> Forall blank sp ->
  match v with [] => True | c :: _ => isspace c = false end ->
  (length (key_value key sp v) <= 127)%nat ->
  one_option called (Some (key_value key sp v)) o
  = dispatch called (filter no_blank key) (Some v) o.
Proof.
  intros Hk Hsp Hv Hlen. unfold one_option.
  rewrite (strip_key_value key sp v Hk Hsp Hv Hlen).
  rewrite split_key by (apply filter_no_equals; exact Hk). reflexivity.
Qed.

Lemma one_option_plain called key (o : O) :
  ~ In "="%char key -> (length key <= 127)%nat ->
  one_option called (Some key) o = dispatch called (filter no_blank key) None o.
Proof.
  intros Hk Hlen. unfold one_option. rewrite (strip_plain key Hk Hlen).
  rewrite split_plain by (apply filter_no_equals; exact Hk). reflexivity.
Qed.

End Args.

(** *** Keys without case *)

Lemma strcasecmp_lower a : forall b b',
  map tolower b = map tolower b' -> strcasecmp a b = strcasecmp a b'.
Proof.
  induction a as [|c a IH]; intros [|d b] [|d' b'] H; simpl in H; try discriminate;
    try reflexivity; injection H as H1 H2; simpl; rewrite H1; [reflexivity|].
  rewrite (IH b b' H2). reflexivity.
Qed.

Lemma find_param_lower k1 k2 l :
  map tolower k1 = map tolower k2 -> find_param k1 l = find_param k2 l.
Proof.
  intros H. induction l as [|prm l IH]; simpl; [reflexivity|].
  rewrite (strcasecmp_lower (arg prm) k1 k2 H), IH. reflexivity.
Qed.

Lemma dispatch_lower {O : Type} {ops : Options O} called k1 k2 p (o : O) :
  map tolower k1 = map tolower k2 ->
  returned (dispatch called k1 p o) = returned (dispatch called k2 p o) /\
  options_of (dispatch called k1 p o) = options_of (dispatch called k2 p o).
Proof.
  intros H. unfold dispatch. rewrite (find_param_lower k1 k2 param_list H).
  destruct p as [[|c v]|]; [split; reflexivity| |];
    (destruct (find_param k2 param_list) as [prm|]; [|split; reflexivity]);
    destruct (type prm); try (split; reflexivity);
    destruct (value prm && called); try (split; reflexivity);
    match goal with |- context [if ?b then Fatal _ _ else _] => destruct b end;
    split; reflexivity.
Qed.

Lemma length_key_value key sp v :
  length (key_value key sp v) = (length key + 1 + length sp + length v)%nat.
Proof. unfold key_value. rewrite length_app. simpl. rewrite length_app. lia. Qed.

(** Whatever the argument, what the first loop writes into opt is no longer
    than the argument and has 127 characters at most, so that it fits, with
    the NUL that ends it, into the OPT_STRLEN characters of opt; a NULL
    argument gives the empty string. *)
Theorem stripped_option_fits_the_buffer (a : option (list ascii)) :
  (length (strip a) < OPT_STRLEN)%nat /\
  (length (strip a) <= length (match a with Some s => s | None => [] end))%nat /\
  strip None = [].
Proof.
  split; [|split; [|reflexivity]].
  - unfold strip, OPT_STRLEN.
    set (s := match a with Some s => s | None => [] end).
    destruct (128 - 1 <? length s)%nat eqn:E.
    + pose proof (strip_loop_length (firstn (128 - 1) s) (0, [])) as H.
      rewrite length_firstn in H. cbn [snd length] in H. lia.
    + apply Nat.ltb_ge in E.
      pose proof (strip_loop_length (firstn (length s) s) (0, [])) as H.
      rewrite length_firstn in H. cbn [snd length] in H. lia.
  - unfold strip.
    set (s := match a with Some s => s | None => [] end).
    match goal with |- context [firstn ?n s] =>
      pose proof (strip_loop_length (firstn n s) (0, [])) as H
    end.
    rewrite length_firstn in H. cbn [snd length] in H. lia.
Qed.

(** An argument "key = value" whose key is that of a string option (DEVICE,
    INDEVICE, OUTDEVICE, in any letter case and with any blanks in or around
    it) hands the value to the setter as it is written, from its first
    character that is not a blank, with the blanks inside it: "device = MOTU
    828" sets the device "MOTU 828". *)
Theorem string_option_keeps_the_blanks_of_its_value
  {O : Type} {ops : Options O} (called : bool) (key sp : list ascii) (c : ascii)
  (v : list ascii) (prm : Param) (setter : list ascii -> O -> O) (o : O) :
  ~ In "="%char key -> Forall blank sp -> isspace c = false ->
  (length (key_value key sp (c :: v)) <= 127)%nat ->
  find_param (filter no_blank key) param_list = Some prm ->
  string_setter (type prm) = Some setter ->
  one_option called (Some (key_value key sp (c :: v))) o = Next (setter (c :: v) o).
Proof.
  intros Hk Hsp Hc Hlen Hf Hs.
  rewrite (one_option_key_value called key sp (c :: v) o Hk Hsp Hc Hlen).
  unfold dispatch. rewrite Hf.
  destruct (type prm); simpl in Hs; try discriminate; injection Hs as <-; reflexivity.
Qed.

Lemma string_option_keeps_the_blanks_of_its_value_witness :
  one_option false (Some (key_value motu_key [" "%char] motu_value)) new_Option
  = Next (device motu_value new_Option).
Proof.
  apply (string_option_keeps_the_blanks_of_its_value false motu_key [" "%char] "M"%char
           motu_rest device_param device new_Option).
  - cbv. intuition discriminate.
  - repeat constructor.
  - reflexivity.
  - vm_compute. lia.
  - vm_compute. reflexivity.
  - reflexivity.
Defined.







End SetOptionFacts.

(** ** get_bus_config: the default slot *)

Module BusDefaultFacts.
Import Bus BusGraph BusCases BusMore BusSafe BusDefault GraphFacts BusMoreFacts BusSafeFacts.
Local Open Scope list_scope.
Local Open Scope Z_scope.

Lemma for_upto_ok {S} (I : nat -> S -> Prop) (body : Z -> S -> res S) (n : nat) (s : S) :
  I 0%nat s ->
  (forall i x, (i < n)%nat -> I i x ->
     exists x', body (Z.of_nat i) x = Ok x' /\ I (Datatypes.S i) x') ->
  exists s', for_upto n body s = Ok s' /\ I n s'.
Proof.
  intros H0 Hstep. induction n as [|n IH]; simpl.
  - exists s. split; [reflexivity | exact H0].
  - destruct IH as (s1 & E1 & I1); [intros; apply Hstep; auto; lia|].
    rewrite E1. cbn [rbind]. apply Hstep; [lia | exact I1].
Qed.

Lemma eff_zero {A} (a : list A) : eff a 0 = Ok [].
Proof.
  unfold eff. replace (Z.of_nat (length a) <? 0) with false by (symmetry; apply Z.ltb_ge; lia).
  reflexivity.
Qed.

(** *** The slot *)

Lemma upto_S (m : nat) : upto (Z.of_nat (S m)) = upto (Z.of_nat m) ++ [Z.of_nat m].
Proof.
  unfold upto. rewrite !Nat2Z.id. rewrite seq_S, map_app. reflexivity.
Qed.

Lemma fill_identity_ok (a : list Z) (k : Z) :
  0 <= k <= Z.of_nat (length a) ->
  exists a', fill_identity a k = Ok a' /\ length a' = length a /\ eff a' k = Ok (upto k).
Proof.
  intros Hk. unfold fill_identity.
  destruct (for_upto_ok
              (fun (i : nat) (x : list Z) =>
                 length x = length a /\ firstn i x = upto (Z.of_nat i))
              (fun i a => zset a i i) (Z.to_nat k) a) as (a' & E & L & F).
  - split; reflexivity.
  - intros i x Hi [Lx Fx].
    destruct (zset_ok x (Z.of_nat i) (Z.of_nat i)) as (x' & Ex & Lx'); [lia|].
    exists x'. split; [exact Ex|]. split; [congruence|].
    destruct (zset_upd _ _ _ _ Ex) as [_ ->]. rewrite Nat2Z.id.
    rewrite firstn_upd_snoc by lia. rewrite Fx, upto_S. reflexivity.
  - exists a'. split; [exact E|]. split; [exact L|].
    unfold eff. replace (Z.of_nat (length a') <? k) with false
      by (symmetry; apply Z.ltb_ge; lia).
    rewrite F. rewrite Z2Nat.id by lia. reflexivity.
Qed.

Lemma default_bus_slot_ok k st :
  0 <= k <= busCount st -> 0 <= NCHANS st <= busCount st ->
  exists slot,
    default_bus_slot k st = Ok slot /\
    in_count slot = k /\ out_count slot = NCHANS st /\
    auxin_count slot = 0 /\ auxout_count slot = 0 /\
    eff (s_in slot) (in_count slot) = Ok (upto k) /\
    eff (s_out slot) (out_count slot) = Ok (upto (NCHANS st)).
Proof.
  intros Hk Hn. unfold default_bus_slot, new_BusSlot. cbn [s_in s_out auxin auxout].
  destruct (fill_identity_ok (repeat 0 (Z.to_nat (busCount st))) k) as (a1 & E1 & L1 & F1);
    [rewrite repeat_length; lia|].
  destruct (fill_identity_ok (repeat 0 (Z.to_nat (busCount st))) (NCHANS st))
    as (a2 & E2 & L2 & F2); [rewrite repeat_length; lia|].
  rewrite E1, E2. cbn [rbind]. eexists. split; [reflexivity|].
  cbn [in_count out_count auxin_count auxout_count s_in s_out].
  repeat split; assumption.
Qed.

(** *** The tables *)

Lemma init_tables_ok st :
  safe st ->
  exists s0,
    init_tables st = Ok s0 /\ safe s0 /\ Bus_Config_Status s0 = true /\
    busCount s0 = busCount st /\ NCHANS s0 = NCHANS st /\
    Inst_Bus_Config s0 = Inst_Bus_Config st.
Proof.
  intros Hs. unfold init_tables. destruct (Bus_Config_Status st) eqn:Est.
  { exists st. split; [reflexivity|]. split; [exact Hs|]. auto. }
  set (fresh := mkCheckNode (repeat 0 (nbus st)) 0).
  destruct (for_upto_ok
              (fun (i : nat) (s : state) =>
                 sized_all s /\ busCount s = busCount st /\ NCHANS s = NCHANS st /\
                 Inst_Bus_Config s = Inst_Bus_Config st /\
                 forall k, 0 <= k < Z.of_nat i -> zget (In_Config s) k = Ok fresh)
              init_body (nbus st) st) as (s1 & E1 & Z1 & B1 & N1 & Q1 & F1).
  - split; [apply Hs|]. repeat split; try reflexivity. intros k Hk. lia.
  - intros i s Hi (Zs & Bs & Ns & Qs & Fs). unfold init_body.
    pose proof Zs as (S1 & S2 & S3 & S4 & S5 & S6 & S7 & S8 & S9 & S10 & S11).
    assert (Nb : nbus s = nbus st) by (unfold nbus; congruence).
    destruct (zset_ok (AuxToAuxPlayList s) (Z.of_nat i) (-1)) as (a2a & Ea & La); [lia|].
    destruct (zset_ok (ToAuxPlayList s) (Z.of_nat i) (-1)) as (ta & Eta & Lta); [lia|].
    destruct (zset_ok (ToOutPlayList s) (Z.of_nat i) (-1)) as (to & Eto & Lto); [lia|].
    destruct (zset_ok (OutInUse s) (Z.of_nat i) false) as (ou & Eou & Lou); [lia|].
    destruct (zset_ok (In_Config s) (Z.of_nat i) (mkCheckNode (repeat 0 (nbus s)) 0))
      as (ic & Eic & Lic); [lia|].
    rewrite Ea, Eta, Eto, Eou, Eic. cbn [rbind]. eexists. split; [reflexivity|].
    split; [sizes|]. split; [exact Bs|]. split; [exact Ns|]. split; [exact Qs|].
    intros k Hk. cbn [set_graph In_Config].
    destruct (Z.eq_dec (Z.of_nat i) k) as [<-|Hne].
    + rewrite (zget_zset_same _ _ _ _ Eic). rewrite Nb. reflexivity.
    + rewrite (zget_zset_other _ _ _ _ _ Eic Hne). apply Fs. lia.
  - rewrite E1. cbn [rbind]. eexists. split; [reflexivity|].
    split; [|cbn; auto]. split; [sizes|].
    intros _ k node Hk. cbn [set_status In_Config busCount] in *.
    change (nbus (set_status true (In_Config s1) s1)) with (nbus s1).
    assert (Nb : nbus s1 = nbus st) by (unfold nbus; congruence).
    pose proof (zget_range _ _ _ Hk) as Hr.
    destruct Z1 as (S1 & _). rewrite S1, Nb in Hr.
    rewrite F1 in Hk by lia. injection Hk as <-. unfold fresh. cbn [bus_list bus_count].
    rewrite repeat_length. split; [congruence|]. unfold nbus in *. split; [lia|].
    intros p [].
Qed.

Lemma out_loop_ok s0 :
  safe s0 -> 0 <= NCHANS s0 <= busCount s0 ->
  exists s1,
    for_upto (Z.to_nat (NCHANS s0)) out_body s0 = Ok s1 /\
    safe s1 /\ graph_eq s0 s1 /\ NCHANS s1 = NCHANS s0.
Proof.
  intros Hs Hn.
  destruct (for_upto_ok
              (fun (i : nat) (s : state) =>
                 sized_all s /\ graph_eq s0 s /\ NCHANS s = NCHANS s0)
              out_body (Z.to_nat (NCHANS s0)) s0) as (s1 & E1 & Z1 & G1 & N1).
  - split; [apply Hs|]. split; [apply graph_eq_refl | reflexivity].
  - intros i s Hi (Zs & Gs & Ns). unfold out_body.
    pose proof Zs as (S1 & S2 & S3 & S4 & S5 & S6 & S7 & S8 & S9 & S10 & S11).
    assert (Bs : busCount s = busCount s0) by apply Gs.
    assert (Nb : nbus s = nbus s0) by (unfold nbus; congruence).
    destruct (zset_ok (OutInUse s) (Z.of_nat i) true) as (ou & Eou & Lou);
      [unfold nbus in *; lia|].
    destruct (zset_ok (ToOutPlayList s) (Z.of_nat i) (Z.of_nat i)) as (to & Eto & Lto);
      [unfold nbus in *; lia|].
    rewrite Eou, Eto. cbn [rbind]. eexists. split; [reflexivity|].
    split; [sizes|]. split; [|exact Ns].
    eapply graph_eq_trans; [exact Gs|].
    eapply graph_eq_trans; [apply graph_eq_set_in_use | apply graph_eq_set_play].
  - exists s1. split; [exact E1|]. split; [|split; assumption].
    split; [exact Z1|]. eapply nodes_valid_graph_eq; [exact G1 | apply Hs].
Qed.

(** *** The check and the insertion of a slot without aux buses *)

Lemma check_config_no_aux slot visit st e st' :
  auxin_count slot = 0 ->
  check_bus_inst_config slot visit st = Ok (e, st') -> e = NO_ERR.
Proof.
  intros H0. unfold check_bus_inst_config. rewrite H0, eff_zero. intros H.
  destruct (for_upto _ _ _) as [[[s1 o1] a1]| |]; cbn [rbind] in H; try discriminate.
  destruct (eff (auxout slot) _) as [outs| |]; cbn [rbind] in H; try discriminate.
  cbn [check_queue check_node rbind app] in H.
  destruct (nbus s1); cbn [check_queue] in H; injection H as <- _; reflexivity.
Qed.

Lemma insert_bus_slot_no_aux name slot st :
  auxin_count slot = 0 -> auxout_count slot = 0 ->
  insert_bus_slot name slot st
  = Ok (NO_ERR, set_queue (enqueue_slot name slot (Inst_Bus_Config st)) st).
Proof.
  intros H0 H1. unfold insert_bus_slot. rewrite H0, H1, !eff_zero. reflexivity.
Qed.

(** *** get_bus_config for a name that the queue does not hold *)

Lemma in_chans_nonneg inp st k :
  0 <= NCHANS st -> in_chans_of inp st = Some k -> 0 <= k.
Proof.
  unfold in_chans_of. intros Hn H. destruct (last_input inp) as [c|].
  - destruct (c >? 0) eqn:E; [|discriminate]. injection H as <-.
    apply Z.gtb_lt in E. lia.
  - injection H as <-. destruct (record_on inp && play_on inp); lia.
Qed.

Lemma get_bus_config_default name inp st k :
  safe st ->
  find_bus_config name (Inst_Bus_Config st) = None ->
  0 <= NCHANS st <= busCount st ->
  in_chans_of inp st = Some k -> k <= busCount st ->
  exists slot st',
    (in_count slot = k /\ out_count slot = NCHANS st /\
     auxin_count slot = 0 /\ auxout_count slot = 0 /\
     eff (s_in slot) (in_count slot) = Ok (upto k) /\
     eff (s_out slot) (out_count slot) = Ok (upto (NCHANS st))) /\
    get_bus_config name inp st
    = (if (BUSLIST_SIZE <=? String.length (buslist_text k (NCHANS st) name))%nat then Undef
       else Ok (Slot slot (default_advice (buslist_text k (NCHANS st) name)) st')) /\
    find_bus_config name (Inst_Bus_Config st') = Some [slot].
Proof.
  intros Hs Hf Hn Hk Hkb. pose proof (in_chans_nonneg inp st k (proj1 Hn) Hk) as Hk0.
  unfold get_bus_config. rewrite Hf.
  destruct (init_tables_ok st Hs) as (s0 & E0 & Hs0 & St0 & B0 & N0 & Q0).
  rewrite E0. cbn [rbind].
  destruct (out_loop_ok s0 Hs0) as (s1 & E1 & Hs1 & G1 & N1); [lia|].
  rewrite E1. cbn [rbind].
  assert (B1 : busCount s1 = busCount st) by (destruct G1 as (-> & _); exact B0).
  assert (St1 : Bus_Config_Status s1 = true) by (destruct G1 as (_ & -> & _); exact St0).
  assert (NN : NCHANS s1 = NCHANS st) by congruence.
  assert (Hk1 : in_chans_of inp s1 = Some k).
  { unfold in_chans_of in *. rewrite NN. exact Hk. }
  rewrite Hk1.
  destruct (default_bus_slot_ok k s1) as (slot & Es & F1 & F2 & F3 & F4 & F5 & F6); [lia | lia|].
  rewrite Es. cbn [rbind]. rewrite NN in F2, F6.
  pose proof (check_config_safe slot true s1 [] [] Hs1) as Hc.
  rewrite F3, F4, !eff_zero in Hc.
  specialize (Hc eq_refl eq_refl (Forall_nil _)).
  assert (Hnf : check_bus_inst_config slot true s1 <> NoFuel).
  { apply check_config_fuel. destruct Hs1 as [Z1 _]. apply Z1. }
  destruct (fine_returns _ _ Hc Hnf) as ([e s2] & Ec & _ & G2).
  pose proof (check_config_no_aux _ _ _ _ _ F3 Ec) as ->.
  rewrite Ec. cbn [rbind]. rewrite (insert_bus_slot_no_aux name slot s2 F3 F4). cbn [rbind].
  rewrite F1, F2.
  exists slot, (set_queue (enqueue_slot name slot (Inst_Bus_Config s2)) s2).
  split; [repeat split; assumption|]. split; [reflexivity|].
  cbn [snd] in G2. rewrite (allocate_graph_same s1 St1) in G2.
  assert (Q2 : Inst_Bus_Config s2 = Inst_Bus_Config st).
  { destruct G2 as (_ & _ & _ & _ & _ & _ & -> & _).
    destruct G1 as (_ & _ & _ & _ & _ & _ & -> & _). exact Q0. }
  cbn [set_queue Inst_Bus_Config]. rewrite find_enqueue_same, Q2, Hf. reflexivity.
Qed.

(** For an instrument name that the queue does not hold, after any score,
    get_bus_config builds the default slot, with the inputs 0..in_chans-1,
    the outputs 0..NCHANS-1 and no aux bus, and puts it on the queue: a
    second call for the same name finds this slot and changes nothing.
    The channels must fit into the buses and the text of the advice into
    buslist. *)
Theorem default_slot_is_built_once
  (n chans : Z) (calls : list (String.string * list String.string)) (st : state)
  (name : String.string) (inp : inputs) (k : Z) :
  run calls (initial n chans) = Ok st ->
  find_bus_config name (Inst_Bus_Config st) = None ->
  0 <= NCHANS st <= busCount st ->
  in_chans_of inp st = Some k -> k <= busCount st ->
  (String.length (buslist_text k (NCHANS st) name) < BUSLIST_SIZE)%nat ->
  exists slot st',
    get_bus_config name inp st
    = Ok (Slot slot (default_advice (buslist_text k (NCHANS st) name)) st') /\
    (in_count slot = k /\ out_count slot = NCHANS st /\
     auxin_count slot = 0 /\ auxout_count slot = 0 /\
     eff (s_in slot) (in_count slot) = Ok (upto k) /\
     eff (s_out slot) (out_count slot) = Ok (upto (NCHANS st))) /\
    forall inp', get_bus_config name inp' st' = Ok (Slot slot [] st').
Proof.
  intros Hrun Hf Hn Hk Hkb Ht.
  destruct (run_safe calls _ _ (safe_initial n chans) Hrun) as [Hs _].
  destruct (get_bus_config_default name inp st k Hs Hf Hn Hk Hkb) as (slot & st' & F & E & Q).
  exists slot, st'. split; [|split; [exact F|]].
  - rewrite E. replace (BUSLIST_SIZE <=? _)%nat with false; [reflexivity|].
    symmetry. apply Nat.leb_gt. exact Ht.
  - intros inp'. unfold get_bus_config. rewrite Q. reflexivity.
Qed.

Lemma default_slot_is_built_once_witness :
  exists slot st',
    get_bus_config wave no_input after_A
    = Ok (Slot slot (default_advice (buslist_text 0 (NCHANS after_A) wave)) st') /\
    (in_count slot = 0 /\ out_count slot = NCHANS after_A /\
     auxin_count slot = 0 /\ auxout_count slot = 0 /\
     eff (s_in slot) (in_count slot) = Ok (upto 0) /\
     eff (s_out slot) (out_count slot) = Ok (upto (NCHANS after_A))) /\
    forall inp', get_bus_config wave inp' st' = Ok (Slot slot [] st').
Proof.
  apply (default_slot_is_built_once 4 2 one_edge after_A wave no_input 0).
  - vm_compute. reflexivity.
  - reflexivity.
  - vm_compute. split; discriminate.
  - reflexivity.
  - vm_compute. discriminate.
  - vm_compute. lia.
Defined.

(** The text of the advice is built in the 64 characters of buslist with
    sprintf and strcat, which do not look at its size: for an instrument
    name that the queue does not hold and that makes the text 64 characters
    or longer, get_bus_config writes beyond buslist. *)
Theorem long_instrument_name_overflows_buslist
  (n chans : Z) (calls : list (String.string * list String.string)) (st : state)
  (name : String.string) (inp : inputs) (k : Z) :
  run calls (initial n chans) = Ok st ->
  find_bus_config name (Inst_Bus_Config st) = None ->
  0 <= NCHANS st <= busCount st ->
  in_chans_of inp st = Some k -> k <= busCount st ->
  (BUSLIST_SIZE <= String.length (buslist_text k (NCHANS st) name))%nat ->
  get_bus_config name inp st = Undef.
Proof.
  intros Hrun Hf Hn Hk Hkb Ht.
  destruct (run_safe calls _ _ (safe_initial n chans) Hrun) as [Hs _].
  destruct (get_bus_config_default name inp st k Hs Hf Hn Hk Hkb) as (slot & st' & _ & E & _).
  rewrite E. replace (BUSLIST_SIZE <=? _)%nat with true; [reflexivity|].
  symmetry. apply Nat.leb_le. exact Ht.
Qed.

Lemma long_instrument_name_overflows_buslist_witness :
  get_bus_config long_name no_input engine_8_2 = Undef.
Proof.
  apply (long_instrument_name_overflows_buslist 8 2 [] engine_8_2 long_name no_input 0).
  - reflexivity.
  - reflexivity.
  - vm_compute. split; discriminate.
  - reflexivity.
  - vm_compute. discriminate.
  - vm_compute. lia.
Defined.

End BusDefaultFacts.
